(* ===== verification/_CoqProject ===== *)
-Q . S2P
Prelude.v
GoList.v
GoStd.v
GoNet.v
Lru.v
ByteView.v
Cache.v
ConsistentHash.v
SingleFlight.v
SingleFlightInv.v
Group.v
Http.v
Main.v
