(* ===== verification/Prelude.v ===== *)
(** * GeeCache: a verified model of the distributed read-through cache

    This library models the Go sources under [src/] of GeeCache and proves
    the properties that make each component correct.  The header below is
    the map of the development; each file opens with its own summary.

    ** The program

    - [src/lru/lru.go]: a byte-bounded LRU store built on a doubly linked
      list ([container/list]) and an index [map[string]*list.Element].
    - [src/byteview.go]: the immutable byte view stored in the cache.
    - [src/cache.go]: the LRU store behind a mutex, created lazily.
    - [src/consistenthash/consistenthash.go]: the hash ring with virtual
      nodes, sorted with [sort.Ints] and searched with [sort.Search].
    - [src/singleflight/singlefilight.go]: one call in flight per key.
    - [src/geecache.go]: the [Group] ([Get]: local hit, else peer, else
      loader) and the directory of the groups of a process.
    - [src/peers.go]: the interfaces [PeerPicker] and [PeerGetter].
    - [src/http.go]: the pool of peers, its HTTP handler and its client.
    - [src/main/main.go]: the process of a node: the table of the scores,
      the group, the cache server and the API server.

    A [Get] on a group reads the guarded cache; on a miss it goes through
    the coalescer, whose callback asks the pool for the owner of the key
    on the ring, fetches the key from that peer over HTTP, and falls back
    to the loader of the group, whose bytes are cloned into a view and
    cached.  The peer answers the fetch with [ServeHTTP], which runs [Get]
    on its own group of that name.

    ** Files of the development, in dependency order

    - [Prelude] (this file): the [outcome] type (a Go call returns, panics
      or does not return) and its monad, 64-bit integers as [Z] with their
      wrap-around written out ([wrap64], [add64], [sub64]), association
      lists and the list lemmas the components share, the hint databases
      [go] and [int64], and the tactics.
    - [GoList]: the part of [container/list] that [lru.go] calls, as a heap
      of list elements plus their order; its well-formedness invariant.
    - [GoStd]: slice indexing with its panic, [strconv.Itoa],
      [sort.Ints], the loop of [sort.Search], [sync.Mutex],
      [sync.RWMutex], [sync.WaitGroup] and the bitwise CRC-32 of
      [crc32.ChecksumIEEE], from the documentation of their packages.
    - [GoNet]: [strings.HasPrefix] and [strings.SplitN], [url.QueryEscape]
      and the decoding of the path of a request, the wire format of
      [geecachepb.Response] behind the class [proto.ResponseCodec], and
      the [ResponseWriter], [http.Error] and responses of [net/http].
    - [Lru] (module [lru]): [Cache] with [New], [Get], [RemoveOldest],
      [Add], [Len].  Theorems: the representation invariant [lru.wf] holds
      in every reachable store; [Get] and [Add] refine the abstract store,
      a most-recently-used-first association list; eviction takes the
      least recently used entries and calls the callback once for each;
      no operation panics; the capacity bound; the eviction loop
      terminates within its fuel, and runs for ever when [maxBytes] is
      negative.
    - [ByteView] (module [byteview]): byte slices as a pointer and a length
      into a memory of arrays, [cloneBytes], [ByteView] with [Len],
      [ByteSlice] and [String], and the instance of [lru.Value].
      Theorems: a clone shares no array with its source; a view cannot be
      changed through the slice [ByteSlice] returns.
    - [Cache] (module [cache]): [cache.add] and [cache.get] with the mutex
      as explicit state and the lazy creation of the store.  Theorems:
      both refine the abstract store and leave the mutex free; the
      invariant of the reachable caches; a negative [cacheBytes] makes
      [add] hang with the mutex held.
    - [ConsistentHash] (module [consistenthash]): [Map], [New], [Add],
      [Get].  Theorems: [Get] returns the peer of the successor of the
      hash of the key on the ring (the binary search agrees with a linear
      scan, and wraps to the first point); the peer was registered; [Add]
      keeps the ring sorted and mapped.
    - [SingleFlight] (module [singleflight]): [call], [Group] and [Do] as
      one caller runs it.
    - [SingleFlightInv] (module [singleflight_inv]): [Do] as goroutines run
      it: a program counter per goroutine ([pc]), one step per group of
      statements between two scheduling points ([step_thread]), schedules
      ([run]).  Theorems, from the invariant [inv] of the reachable
      systems: one callback in flight per key; the callers of one call
      share its result; a caller that can still move is never stuck
      unless a callback panics or runs for ever; a panic of a callback
      leaves its key registered for ever; a caller that is not
      interrupted makes the steps of the sequential [Do]; a caller that
      arrives after a call for its key has returned runs its callback
      again.
    - [Group] (module [geecache]): [Getter], [PeerGetter], [PeerPicker],
      [Group], [Get], [load], [getFromPeer], [getLocally],
      [populateCache], [RegisterPeers], [NewGroup], [GetGroup].  The
      callbacks act on a [world]: the memory of byte arrays and a state
      of their own.  What the group asks of them is the classes
      [GetterOk], [PeerGetterOk] and [PeerPickerOk]; the theorems of the
      group are proved against these classes.  Theorems: the path [Get]
      takes on every branch; the invariant [geecache.wf] and that [Get]
      keeps it; read-through; the cached bytes are private to the cache;
      the directory.
    - [Http] (module [httppool]): [HTTPPool], [NewHTTPPool], [Set],
      [PickPeer], [ServeHTTP], [httpGetter.Get].  The network is a
      [RoundTrip], the model of [http.Get]; [loopback] delivers a request
      to the handler of one remote node; [picker] is a pool as the
      [PeerPicker] of a group, and the instances [httpGetter_ok] and
      [picker_ok] discharge the classes of [Group].  Theorems: the peer
      [PickPeer] returns; the reply of [ServeHTTP] on every branch, the
      [log.Fatal] after a successful write included; the group and the
      key the handler reads from the URL of a fetch; a fetch over the
      loopback network never returns a value, so a fill falls back to the
      loader.  The invariant [node_wf] of a node is kept by the handler.
    - [Main] (module [main]): [db], [createGroup] with its loader,
      [startCacheServer] and [startAPIServer] up to the call of
      [http.ListenAndServe], the handler of the API server and [main];
      the flags and the order in which [range] yields [addrMap] are
      parameters of [main].  A [process] is what [main] has built; the
      requests its two servers answer are the steps of a relation.
      Theorems: what [main] builds for every port, in whatever order the
      addresses come, and its panic for a port that is not in [addrMap];
      the invariant of every process the servers reach; a node that has
      just started answers from its table while no peer answers.

    ** Conventions

    - Integers: Go's [int] and [int64] are 64 bits wide on the platforms
      the program targets; both are [Z] restricted by [int64_range], and
      the arithmetic of the store is written with [add64] and [sub64].
      [uint32] hash values are [Z] in [0, 2^32).
    - Strings: a Go [string] is a byte sequence; it is [string] here (a
      list of 8-bit characters), so [String.length] is Go's [len].
    - Panics: a nil dereference, a failed type assertion, an index out of
      range or an explicit [panic] is the value [Panic msg]; a call that
      blocks or loops for ever is [Diverge].  [log.Fatal] in [ServeHTTP]
      ends the process and is the value [Exited] of the result of the
      handler.
    - Pointers: list elements, [call]s, groups and byte arrays live on
      heaps addressed by natural numbers; a map from keys to pointers is
      a map from keys to addresses.
    - Callbacks: a Go closure that reads or changes state outside the
      component is a function from that state to an [outcome] with the
      new state.
    - Fuel: the loops of the program are the eviction loop of [Cache.Add],
      the binary search of [sort.Search] and the loops over peers and
      replicas of the ring.  The eviction loop runs with fuel
      [S (length entries)]: every iteration on a store with entries
      unlinks one, and an iteration on an empty store changes nothing, so
      the loop stops within that fuel or never stops ([lru.lru_evict_fuel],
      [lru.lru_fuel_exact]).  The binary search halves an interval of
      width [n] and runs with fuel [n] ([sort.Search_loop_fuel]).  The
      loops of the ring are folds over finite lists.  A varint has at
      most ten bytes, the fuel of its codec.  A schedule of [n] callers
      of [Do] has at most [7 * n] steps
      ([singleflight_inv.sf_schedules_finite]).

    ** Not modelled, and where the model is coarser than the program

    - Logging ([log.Println], [HTTPPool.Log]) changes no state of the
      program and is left out.  The parsing of the flags and the sockets
      of [http.ListenAndServe] are not modelled: [main] takes the values
      of the flags, and a server that is started serves.
    - The interleaving of goroutines is modelled for the coalescer, where
      the program synchronises by hand; each goroutine calls [Do] once,
      its callback runs as one step on the shared state, and a panic
      stops only the goroutine that panicked.  [Get], the cache and the
      pool are modelled as one caller runs them, their mutexes as
      explicit state: [load] goes through the sequential [Do], whose
      leader path is the only one a quiescent coalescer takes.
    - A panic is a value without a state: what a deferred [Unlock] does
      while a panic unwinds ([cache.go], [http.go]) is lost with the
      state of the call that panicked.
    - The eviction callback of the store is a total function on the
      state of its owner: it cannot panic, block or call the store.  The
      program passes no callback ([cache.go] creates the store with
      [nil]).
    - A byte slice is a pointer and a length: every slice starts at the
      first byte of its array, as the slices of the program do;
      [append] and reslicing are not modelled.
    - [picker] drops the pool [PickPeer] returns, which is the pool it
      was given ([httppool.pool_PickPeer_spec]).
    - The network is modelled between one client and one remote node.
      [loopback] passes a panic of the remote handler on to the fetch,
      where [net/http] would recover it and close the connection; the
      response writer of the remote handler never fails.  Timeouts and
      partial writes of [net/http] are not modelled.
    - The generated code of [geecachepb] is not under [src/]: [Request]
      is a record of its two fields, and the encoding of [Response] is
      the class [proto.ResponseCodec] with the wire format as its
      instance. *)

From Stdlib Require Import ZArith Lia.
From stdpp Require Import base tactics option list strings.

(** ** Outcomes of a call *)

(** A call of a Go function returns a value ([Ok]), panics ([Panic]) or
    runs for ever ([Diverge]). *)
Inductive outcome (A : Type) : Type :=
| Ok (a : A)
| Panic (msg : string)
| Diverge.

Arguments Ok {A} a.
Arguments Panic {A} msg.
Arguments Diverge {A}.

#[export] Instance outcome_ret : MRet outcome := @Ok.

#[export] Instance outcome_bind : MBind outcome := fun A B f m =>
  match m with
  | Ok a => f a
  | Panic msg => Panic msg
  | Diverge => Diverge
  end.

#[export] Instance outcome_fmap : FMap outcome := fun A B f m =>
  match m with
  | Ok a => Ok (f a)
  | Panic msg => Panic msg
  | Diverge => Diverge
  end.

#[export] Instance outcome_eq_dec {A} `{EqDecision A} : EqDecision (outcome A).
Proof. solve_decision. Defined.

(** [returns m] holds when the call returned. *)
Definition returns {A} (m : outcome A) : Prop :=
  match m with Ok _ => True | _ => False end.

#[export] Instance returns_dec {A} (m : outcome A) : Decision (returns m).
Proof. destruct m; simpl; apply _. Defined.

(** A nil pointer dereference: the value behind an optional pointer. *)
Definition deref {A} (msg : string) (o : option A) : outcome A :=
  match o with
  | Some a => Ok a
  | None => Panic msg
  end.

Declare Scope go_scope.
Delimit Scope go_scope with go.

(** ** 64-bit integers *)

Definition int64_min : Z := - 2 ^ 63.
Definition int64_max : Z := 2 ^ 63 - 1.

Definition int64_range (z : Z) : Prop := (int64_min <= z <= int64_max)%Z.

#[export] Instance int64_range_dec z : Decision (int64_range z).
Proof. unfold int64_range. apply _. Defined.

(** Two's complement wrap-around of a mathematical integer to 64 bits. *)
Definition wrap64 (z : Z) : Z := ((z + 2 ^ 63) mod 2 ^ 64 - 2 ^ 63)%Z.

(** The conversion [int64(x)]. *)
Definition int64 (z : Z) : Z := wrap64 z.

Definition add64 (a b : Z) : Z := wrap64 (a + b).
Definition sub64 (a b : Z) : Z := wrap64 (a - b).

Notation "a +64 b" := (add64 a b) (at level 50, left associativity) : go_scope.
Notation "a -64 b" := (sub64 a b) (at level 50, left associativity) : go_scope.

(** [uint32] values, the results of a hash function. *)
Definition uint32_range (z : Z) : Prop := (0 <= z < 2 ^ 32)%Z.

#[export] Instance uint32_range_dec z : Decision (uint32_range z).
Proof. unfold uint32_range. apply _. Defined.

(** [len s] of a Go string, as an [int]. *)
Definition len_string (s : string) : Z := Z.of_nat (String.length s).

(** ** Hint databases and tactics *)

Create HintDb go discriminated.
Create HintDb int64 discriminated.
Create Rewrite HintDb go.
Create Rewrite HintDb int64.

(** Invert a hypothesis and substitute. *)
Ltac invc H := inversion H; subst; clear H.

(** Case analysis on the outcome bound first in the goal or a hypothesis. *)
Ltac case_outcome :=
  match goal with
  | |- context [mbind _ ?m] => destruct m eqn:?; simpl
  | H : context [mbind _ ?m] |- _ => destruct m eqn:?; simpl in H
  end.

(** Unfold the range predicates and hand the goal to [lia]. *)
Ltac int64_lia :=
  unfold int64_range, uint32_range, int64_min, int64_max, len_string in *; lia.

(** ** Lemmas on outcomes *)

Section outcome_lemmas.
Context {A B : Type}.
Implicit Types (m : outcome A) (f : A -> outcome B).

Lemma bind_Ok m f b :
  m ≫= f = Ok b <-> exists a, m = Ok a /\ f a = Ok b.
Proof. destruct m; simpl; split; [eauto | intros (? & [= <-] & ?); done | done | intros (? & [=] & _) | done | intros (? & [=] & _)]. Qed.

Lemma bind_returns m f :
  returns (m ≫= f) <-> exists a, m = Ok a /\ returns (f a).
Proof. destruct m; simpl; split; try done; [eauto | intros (? & [= <-] & ?); done | intros (? & [=] & _) | intros (? & [=] & _)]. Qed.

Lemma returns_Ok m : returns m <-> exists a, m = Ok a.
Proof. destruct m; simpl; split; try done; eauto; intros [? [=]]. Qed.

Lemma deref_Ok msg (o : option A) a : deref msg o = Ok a <-> o = Some a.
Proof. destruct o; simpl; split; congruence. Qed.

Lemma deref_Some msg (a : A) : deref msg (Some a) = Ok a.
Proof. reflexivity. Qed.

End outcome_lemmas.

#[export] Hint Rewrite @deref_Some : go.

(** ** Lemmas on 64-bit integers *)

Section int64_lemmas.
Local Open Scope Z_scope.
Implicit Types a b z : Z.

Lemma wrap64_range z : int64_range (wrap64 z).
Proof.
  unfold wrap64. pose proof (Z.mod_pos_bound (z + 2 ^ 63) (2 ^ 64)). int64_lia.
Qed.

Lemma wrap64_small z : int64_range z -> wrap64 z = z.
Proof.
  intros Hz. unfold wrap64. rewrite Z.mod_small; int64_lia.
Qed.

Lemma wrap64_idem z : wrap64 (wrap64 z) = wrap64 z.
Proof. apply wrap64_small, wrap64_range. Qed.

(** [wrap64 z] differs from [z] by a multiple of [2^64]. *)
Lemma wrap64_eqm z : exists k, wrap64 z = z + k * 2 ^ 64.
Proof.
  exists (- ((z + 2 ^ 63) / 2 ^ 64)). unfold wrap64.
  pose proof (Z.div_mod (z + 2 ^ 63) (2 ^ 64)). lia.
Qed.

Lemma wrap64_congr a b k : a = b + k * 2 ^ 64 -> wrap64 a = wrap64 b.
Proof.
  intros ->. unfold wrap64.
  replace (b + k * 2 ^ 64 + 2 ^ 63) with (b + 2 ^ 63 + k * 2 ^ 64) by lia.
  by rewrite Z.mod_add.
Qed.

Lemma wrap64_add_l a b : wrap64 (wrap64 a + b) = wrap64 (a + b).
Proof. destruct (wrap64_eqm a) as [k ->]. apply (wrap64_congr _ _ k). lia. Qed.

Lemma wrap64_add_r a b : wrap64 (a + wrap64 b) = wrap64 (a + b).
Proof. destruct (wrap64_eqm b) as [k ->]. apply (wrap64_congr _ _ k). lia. Qed.

Lemma wrap64_sub_l a b : wrap64 (wrap64 a - b) = wrap64 (a - b).
Proof. destruct (wrap64_eqm a) as [k ->]. apply (wrap64_congr _ _ k). lia. Qed.

Lemma wrap64_sub_r a b : wrap64 (a - wrap64 b) = wrap64 (a - b).
Proof. destruct (wrap64_eqm b) as [k ->]. apply (wrap64_congr _ _ (- k)). lia. Qed.

Lemma add64_range a b : int64_range (add64 a b).
Proof. apply wrap64_range. Qed.

Lemma sub64_range a b : int64_range (sub64 a b).
Proof. apply wrap64_range. Qed.

Lemma add64_exact a b : int64_range (a + b) -> add64 a b = a + b.
Proof. apply wrap64_small. Qed.

Lemma sub64_exact a b : int64_range (a - b) -> sub64 a b = a - b.
Proof. apply wrap64_small. Qed.

Lemma int64_small z : int64_range z -> int64 z = z.
Proof. apply wrap64_small. Qed.

(** A sum of conversions is the conversion of the sum. *)
Lemma add64_int64 a b : add64 (int64 a) (int64 b) = wrap64 (a + b).
Proof. unfold add64, int64. by rewrite wrap64_add_l, wrap64_add_r. Qed.

Lemma sub64_int64 a b : sub64 (int64 a) (int64 b) = wrap64 (a - b).
Proof. unfold sub64, int64. by rewrite wrap64_sub_l, wrap64_sub_r. Qed.

Lemma wrap64_0 : wrap64 0 = 0.
Proof. reflexivity. Qed.

Lemma len_string_nonneg s : 0 <= len_string s.
Proof. int64_lia. Qed.

End int64_lemmas.

#[export] Hint Rewrite wrap64_idem wrap64_add_l wrap64_add_r wrap64_sub_l
  wrap64_sub_r wrap64_0 add64_int64 sub64_int64 : int64.
#[export] Hint Resolve wrap64_range add64_range sub64_range len_string_nonneg : int64.

(** ** Lemmas on lists *)

Section list_lemmas.
Context {A : Type} `{EqDecision A}.
Implicit Types (x y : A) (l k : list A).

(** Unlinking [x]: every occurrence is dropped. *)
Definition unlink x l : list A := filter (fun y => y <> x) l.

Lemma elem_of_unlink x y l : y ∈ unlink x l <-> (y ∈ l) /\ y <> x.
Proof. unfold unlink. rewrite list_elem_of_filter. tauto. Qed.

Lemma unlink_notin x l : x ∉ l -> unlink x l = l.
Proof.
  intros Hx. unfold unlink. induction l as [|y l IH]; [done|].
  apply not_elem_of_cons in Hx as [? ?].
  rewrite filter_cons_True by congruence. f_equal. auto.
Qed.

Lemma unlink_cons_eq x l : unlink x (x :: l) = unlink x l.
Proof. unfold unlink. by rewrite filter_cons_False by (intros ?; done). Qed.

Lemma unlink_cons_ne x y l : y <> x -> unlink x (y :: l) = y :: unlink x l.
Proof. intros. unfold unlink. by rewrite filter_cons_True. Qed.

Lemma unlink_app x l k : unlink x (l ++ k) = unlink x l ++ unlink x k.
Proof. apply filter_app. Qed.

Lemma NoDup_unlink x l : NoDup l -> NoDup (unlink x l).
Proof. apply NoDup_filter. Qed.

Lemma length_unlink_le x l : length (unlink x l) <= length l.
Proof. apply length_filter. Qed.

Lemma length_unlink_lt x l : x ∈ l -> length (unlink x l) < length l.
Proof.
  induction l as [|y l IH]; [by intros ?%elem_of_nil|].
  destruct (decide (y = x)) as [->|Hne].
  - intros _. rewrite unlink_cons_eq. pose proof (length_unlink_le x l). simpl; lia.
  - intros [?|?]%elem_of_cons; [congruence|].
    rewrite unlink_cons_ne by done. simpl. apply IH in H. lia.
Qed.

(** Unlinking the last element of a duplicate-free list drops it. *)
Lemma unlink_snoc x l : x ∉ l -> unlink x (l ++ [x]) = l.
Proof.
  intros Hx. rewrite unlink_app, unlink_notin by done.
  by rewrite unlink_cons_eq, app_nil_r.
Qed.

Lemma last_snoc_inv l x : last l = Some x -> exists k, l = k ++ [x].
Proof.
  intros Hl. destruct l as [|y l _] using rev_ind; [done|].
  rewrite last_snoc in Hl. injection Hl as ->. eauto.
Qed.

Lemma NoDup_snoc l x : NoDup (l ++ [x]) <-> (x ∉ l) /\ NoDup l.
Proof.
  rewrite NoDup_app. split.
  - intros (? & Hn & _). split; [|done]. intros Hx. apply (Hn x Hx). by left.
  - intros [Hx ?]. split_and!; [done| |apply NoDup_singleton].
    intros y Hy ->%list_elem_of_singleton. done.
Qed.

End list_lemmas.

(** ** Association lists *)

(** The stores of the program are ordered: their abstract view is a list
    of pairs in which a key occurs once. *)
Section alist.
Context {K A : Type} `{EqDecision K}.
Implicit Types (k : K) (a : A) (l : list (K * A)).

(** The value of the first pair with key [k]. *)
Fixpoint alookup k l : option A :=
  match l with
  | [] => None
  | p :: l' => if decide (p.1 = k) then Some p.2 else alookup k l'
  end.

(** The list without the pairs of key [k]. *)
Definition aremove k l : list (K * A) := filter (fun p => p.1 <> k) l.

(** A use of key [k] moves its pair to the front. *)
Definition touch k l : list (K * A) :=
  match alookup k l with
  | Some a => (k, a) :: aremove k l
  | None => l
  end.

Lemma alookup_None k l : alookup k l = None <-> k ∉ l.*1.
Proof.
  induction l as [|p l IH]; simpl; [by split; [intros _ ?%elem_of_nil|]|].
  rewrite not_elem_of_cons. case_decide; [split; [done|intros []; congruence]|].
  rewrite IH. split; [intros; split; [congruence|done] | tauto].
Qed.

Lemma alookup_app_notin k l1 l2 :
  k ∉ l1.*1 -> alookup k (l1 ++ l2) = alookup k l2.
Proof.
  induction l1 as [|p l1 IH]; simpl; [done|].
  intros [? ?]%not_elem_of_cons. case_decide; [congruence|auto].
Qed.

Lemma alookup_middle k a l1 l2 :
  k ∉ l1.*1 -> alookup k (l1 ++ (k, a) :: l2) = Some a.
Proof.
  intros. rewrite alookup_app_notin by done. simpl. by rewrite decide_True.
Qed.

Lemma alookup_Some_split k a l :
  alookup k l = Some a -> exists l1 l2, l = l1 ++ (k, a) :: l2 /\ k ∉ l1.*1.
Proof.
  induction l as [|[k' a'] l IH]; simpl; [done|]. case_decide as Hk.
  - intros [= ->]. simpl in Hk. subst. exists [], l. split; [done|]. apply not_elem_of_nil.
  - intros (l1 & l2 & -> & Hn)%IH. exists ((k', a') :: l1), l2. split; [done|].
    simpl. rewrite not_elem_of_cons. split; [done|done].
Qed.

Lemma aremove_notin k l : k ∉ l.*1 -> aremove k l = l.
Proof.
  unfold aremove. induction l as [|p l IH]; simpl; [done|].
  intros [? ?]%not_elem_of_cons. rewrite filter_cons_True by congruence.
  f_equal. auto.
Qed.

Lemma aremove_app k l1 l2 : aremove k (l1 ++ l2) = aremove k l1 ++ aremove k l2.
Proof. apply filter_app. Qed.

Lemma aremove_cons_eq k a l : aremove k ((k, a) :: l) = aremove k l.
Proof. unfold aremove. by rewrite filter_cons_False by (simpl; tauto). Qed.

Lemma aremove_middle k a l1 l2 :
  k ∉ l1.*1 -> k ∉ l2.*1 -> aremove k (l1 ++ (k, a) :: l2) = l1 ++ l2.
Proof.
  intros. by rewrite aremove_app, aremove_cons_eq, !aremove_notin.
Qed.

Lemma elem_of_aremove k p l : p ∈ aremove k l <-> (p ∈ l) /\ p.1 <> k.
Proof. unfold aremove. rewrite list_elem_of_filter. tauto. Qed.

Lemma fst_aremove_notin k l : k ∉ (aremove k l).*1.
Proof.
  intros ([k' a] & Hk & [_ Hne]%elem_of_aremove)%list_elem_of_fmap. simpl in *. congruence.
Qed.

Lemma NoDup_fst_aremove k l : NoDup l.*1 -> NoDup (aremove k l).*1.
Proof.
  unfold aremove. induction l as [|p l IH]; simpl; [done|].
  intros [Hp Hl]%NoDup_cons. destruct (decide (p.1 = k)).
  - rewrite filter_cons_False by tauto. auto.
  - rewrite filter_cons_True by done. simpl. apply NoDup_cons. split; [|auto].
    intros (q & Hq & [_ ?]%list_elem_of_filter)%list_elem_of_fmap.
    apply Hp. apply list_elem_of_fmap. eauto.
Qed.

(** With keys occurring once, a pair splits the list around it. *)
Lemma NoDup_fst_middle k a l1 l2 :
  NoDup (l1 ++ (k, a) :: l2).*1 -> (k ∉ l1.*1) /\ k ∉ l2.*1.
Proof.
  rewrite fmap_app, fmap_cons. simpl.
  intros (_ & Hd & [? _]%NoDup_cons)%NoDup_app. split; [|done].
  intros Hk. apply (Hd k Hk). by left.
Qed.

Lemma touch_middle k a l1 l2 :
  k ∉ l1.*1 -> k ∉ l2.*1 ->
  touch k (l1 ++ (k, a) :: l2) = (k, a) :: l1 ++ l2.
Proof.
  intros. unfold touch. by rewrite alookup_middle, aremove_middle.
Qed.

Lemma touch_notin k l : k ∉ l.*1 -> touch k l = l.
Proof. intros Hk. unfold touch. by apply alookup_None in Hk as ->. Qed.

Lemma elem_of_touch k p l : p ∈ touch k l -> p ∈ l.
Proof.
  unfold touch. destruct (alookup k l) as [a|] eqn:Hk; [|done].
  intros [->|[? _]%elem_of_aremove]%elem_of_cons; [|done].
  apply alookup_Some_split in Hk as (l1 & l2 & -> & _).
  apply elem_of_app. right. by left.
Qed.

Lemma aremove_Permutation k a l :
  NoDup l.*1 -> alookup k l = Some a -> l ≡ₚ (k, a) :: aremove k l.
Proof.
  intros Hnd (l1 & l2 & -> & _)%alookup_Some_split.
  destruct (NoDup_fst_middle _ _ _ _ Hnd). rewrite aremove_middle by done.
  symmetry. apply Permutation_middle.
Qed.

Lemma length_touch k l : NoDup l.*1 -> length (touch k l) = length l.
Proof.
  intros Hnd. unfold touch. destruct (alookup k l) as [a|] eqn:Hk; [|done].
  by rewrite (Permutation_length (aremove_Permutation _ _ _ Hnd Hk)).
Qed.

End alist.

(** ** Dropping elements from the back of a list while a test holds *)

Section drop_back.
Context {A : Type} (over : list A -> bool).
Implicit Types (l : list A) (n : nat).

(** The length that is left of the first [n] elements of [l]. *)
Fixpoint keep l n : nat :=
  match n with
  | 0 => 0
  | S n' => if over (take n l) then keep l n' else n
  end.

Definition evict_by l : list A := take (keep l (length l)) l.

Lemma keep_le l n : keep l n <= n.
Proof. induction n; simpl; [done|]. case_match; lia. Qed.

Lemma keep_not_over l n : over [] = false -> over (take (keep l n) l) = false.
Proof.
  intros H0. induction n as [|n IH]; simpl; [by rewrite take_0|].
  by case_match.
Qed.

Lemma keep_over l n m : keep l n < m <= n -> over (take m l) = true.
Proof.
  induction n as [|n IH]; simpl; [lia|]. case_match eqn:Ho; [|lia].
  intros Hm. destruct (decide (m = S n)) as [->|]; [done|]. apply IH. lia.
Qed.

Lemma keep_snoc l a n : n <= length l -> keep (l ++ [a]) n = keep l n.
Proof.
  induction n as [|n IH]; simpl; [done|]. intros Hn.
  rewrite take_app_le by lia. rewrite IH by lia. done.
Qed.

Lemma evict_by_prefix l : evict_by l `prefix_of` l.
Proof. apply prefix_take. Qed.

Lemma evict_by_not_over l : over [] = false -> over (evict_by l) = false.
Proof. apply keep_not_over. Qed.

(** Every longer prefix is still over the bound: nothing more is dropped
    than the test asks for. *)
Lemma evict_by_minimal l m :
  length (evict_by l) < m <= length l -> over (take m l) = true.
Proof.
  unfold evict_by. rewrite length_take. pose proof (keep_le l (length l)).
  intros. apply (keep_over l (length l)). lia.
Qed.

Lemma keep_S l n :
  keep l (S n) = if over (take (S n) l) then keep l n else S n.
Proof. done. Qed.

Lemma evict_by_id l : over l = false -> evict_by l = l.
Proof.
  intros Ho. unfold evict_by. destruct (length l) as [|n] eqn:Hn.
  - by apply nil_length_inv in Hn as ->.
  - rewrite keep_S, (take_ge l (S n)), Ho by lia. apply take_ge. lia.
Qed.

(** One turn of the loop: when the whole list is over the bound its last
    element goes, and the loop continues with the rest. *)
Lemma evict_by_snoc l a :
  over (l ++ [a]) = true -> evict_by (l ++ [a]) = evict_by l.
Proof.
  intros Ho. unfold evict_by. rewrite length_app, Nat.add_1_r, keep_S.
  rewrite (take_ge (l ++ [a]) (S (length l))), Ho, keep_snoc
    by (rewrite ?length_app; simpl; lia).
  apply take_app_le, keep_le.
Qed.

Lemma keep_pos a l n :
  over [a] = false -> 0 < n -> 0 < keep (a :: l) n.
Proof.
  intros Ha. induction n as [|n IH]; [lia|]. intros _. rewrite keep_S.
  case_match; [|lia]. destruct n; [|apply IH; lia].
  simpl in *. rewrite take_0 in *. congruence.
Qed.

(** The first element stays when it alone passes the test. *)
Lemma evict_by_head a l :
  over [a] = false -> exists l', evict_by (a :: l) = a :: l'.
Proof.
  intros Ha. unfold evict_by.
  pose proof (keep_pos a l (length (a :: l)) Ha ltac:(simpl; lia)).
  destruct (keep (a :: l) (length (a :: l))); [lia|]. simpl. eauto.
Qed.

(** Everything goes when every non-empty prefix fails the test. *)
Lemma evict_by_all_over l :
  (forall n, 0 < n <= length l -> over (take n l) = true) -> evict_by l = [].
Proof.
  intros Hov. unfold evict_by.
  assert (forall n, n <= length l -> keep l n = 0) as Hk.
  { induction n as [|n IH]; [done|]. intros Hn. rewrite keep_S, Hov by lia.
    apply IH. lia. }
  by rewrite Hk, take_0.
Qed.

End drop_back.

Lemma evict_by_ext {A} (over1 over2 : list A -> bool) l :
  (forall n, over1 (take n l) = over2 (take n l)) ->
  evict_by over1 l = evict_by over2 l.
Proof.
  intros Hext. unfold evict_by. f_equal.
  induction (length l) as [|n IH]; simpl; [done|]. by rewrite Hext, IH.
Qed.

#[export] Hint Resolve NoDup_unlink : go.
#[export] Hint Rewrite @unlink_cons_eq : go.

(** ** Sorted lists and the boundary of a test *)

Section boundary.
Context {A : Type} (P : A -> Prop) `{!forall x, Decision (P x)}.
Implicit Types (l : list A) (r : nat).

(** When the test fails before position [r] and holds from it on, the
    elements that pass the test are those from [r] on. *)
Lemma filter_boundary l r :
  (forall i x, l !! i = Some x -> i < r -> ~ P x) ->
  (forall i x, l !! i = Some x -> r <= i -> P x) ->
  filter P l = drop r l.
Proof.
  revert r. induction l as [|x l IH]; intros r Hlo Hhi; [by destruct r|].
  destruct r as [|r].
  - rewrite filter_cons_True by (apply (Hhi 0); [done|lia]).
    rewrite (IH 0); [done|intros; lia|].
    intros i y Hy _. apply (Hhi (S i)); [done|lia].
  - rewrite filter_cons_False by (apply (Hlo 0); [done|lia]). apply IH.
    + intros i y Hy Hi. apply (Hlo (S i)); [done|lia].
    + intros i y Hy Hi. apply (Hhi (S i)); [done|lia].
Qed.

End boundary.
