(* ===== verification/GoList.v ===== *)
(** * GoList: the doubly linked list of [container/list]

    [lru.go] keeps its entries in a [list.List] and its index maps a key to
    a [*list.Element].  The package is part of Go's standard library, not
    of the repository, so this file models the operations [lru.go] calls
    from their documentation: [New], [PushFront], [MoveToFront], [Remove],
    [Back], [Len], and reading or writing the [Value] of an element.

    A list is a heap of elements addressed by [loc] (the [*list.Element]
    pointers), the order of the linked elements from front to back, and the
    next fresh address.  An element that [Remove] unlinks stays in the heap:
    the caller may still read its [Value], as [lru.Cache.RemoveOldest] does.

    The invariant [golist.wf] says that the order has no duplicates, that
    every linked element is allocated, and that allocated addresses are
    below the next fresh one.  [golist.contents] is the sequence of values
    from front to back; one lemma per operation says how it changes. *)

From Stdlib Require Import ZArith Lia.
From stdpp Require Import base tactics option list gmap.
From S2P Require Import Prelude.

Module golist.

(** A [*list.Element]. *)
Definition loc : Type := nat.

Section with_value.
Context {A : Type}.

Record List : Type := mkList {
  elems : gmap loc A;
  order : list loc;
  next : loc
}.

Implicit Types (l : List) (e : loc) (v : A).

(** [list.New()] *)
Definition New : List := {| elems := ∅; order := []; next := 0 |}.

(** [l.Len()] *)
Definition Len l : nat := length (order l).

(** [l.Front()]: the first element, or nil. *)
Definition Front l : option loc := head (order l).

(** [l.Back()]: the last element, or nil. *)
Definition Back l : option loc := last (order l).

(** [e.Value] *)
Definition Value e l : option A := elems l !! e.

(** An assignment through the pointer held in [e.Value]. *)
Definition SetValue e v l : List :=
  {| elems := <[e := v]> (elems l); order := order l; next := next l |}.

(** [l.PushFront(v)]: a new element at the front; returns the element. *)
Definition PushFront v l : loc * List :=
  (next l,
   {| elems := <[next l := v]> (elems l);
      order := next l :: order l;
      next := S (next l) |}).

(** [l.MoveToFront(e)]: nothing happens when [e] is not an element of [l]
    or is already at the front. *)
Definition MoveToFront e l : List :=
  if bool_decide (e ∉ order l) || bool_decide (Front l = Some e) then l
  else {| elems := elems l; order := e :: unlink e (order l); next := next l |}.

(** [l.Remove(e)]: unlinks [e] when it is an element of [l]. *)
Definition Remove e l : List :=
  if bool_decide (e ∈ order l)
  then {| elems := elems l; order := unlink e (order l); next := next l |}
  else l.

(** The values a heap holds at a sequence of addresses. *)
Definition vals (h : gmap loc A) (k : list loc) : list A :=
  omap (fun e => h !! e) k.

(** The values of the linked elements, front to back. *)
Definition contents l : list A := vals (elems l) (order l).

(** Well-formed lists. *)
Record wf l : Prop := mkWf {
  wf_NoDup : NoDup (order l);
  wf_alloc : forall e, e ∈ order l -> is_Some (elems l !! e);
  wf_fresh : forall e, is_Some (elems l !! e) -> e < next l
}.

(** ** Well-formedness is preserved *)

Lemma ll_wf_New : wf New.
Proof.
  split; simpl.
  - constructor.
  - by intros e ?%elem_of_nil.
  - intros e [? Hx]. by rewrite lookup_empty in Hx.
Qed.

Lemma ll_next_notin l : wf l -> next l ∉ order l.
Proof. intros Hwf Hin. apply Hwf, Hwf in Hin. lia. Qed.

Lemma ll_wf_PushFront v l : wf l -> wf (PushFront v l).2.
Proof.
  intros Hwf. split; simpl.
  - constructor; [by apply ll_next_notin | apply Hwf].
  - intros e [->|He]%elem_of_cons; [by rewrite lookup_insert_eq|].
    rewrite lookup_insert_is_Some. right. split; [|by apply Hwf].
    intros <-. by apply (ll_next_notin l).
  - intros e [->|[_ He]]%lookup_insert_is_Some; [lia|].
    apply Hwf in He. lia.
Qed.

Lemma ll_wf_MoveToFront e l : wf l -> wf (MoveToFront e l).
Proof.
  intros Hwf. unfold MoveToFront. case_match; [done|].
  apply orb_false_iff in H as [Hin%bool_decide_eq_false _].
  apply dec_stable in Hin. split; simpl; [| |apply Hwf].
  - constructor; [|apply NoDup_unlink, Hwf].
    rewrite elem_of_unlink. tauto.
  - intros e' [->|[? _]%elem_of_unlink]%elem_of_cons; by apply Hwf.
Qed.

Lemma ll_wf_Remove e l : wf l -> wf (Remove e l).
Proof.
  intros Hwf. unfold Remove. case_bool_decide; [|done].
  split; simpl; [apply NoDup_unlink, Hwf| |apply Hwf].
  intros e' [? _]%elem_of_unlink. by apply Hwf.
Qed.

Lemma ll_wf_SetValue e v l : wf l -> e ∈ order l -> wf (SetValue e v l).
Proof.
  intros Hwf He. split; simpl; [apply Hwf| |].
  - intros e' He'. rewrite lookup_insert_is_Some'. right. by apply Hwf.
  - intros e' [->|?]%lookup_insert_is_Some'; apply Hwf; [by apply Hwf|done].
Qed.

(** ** Length and membership *)

Lemma ll_Len_New : Len New = 0.
Proof. done. Qed.

Lemma ll_Len_PushFront v l : Len (PushFront v l).2 = S (Len l).
Proof. done. Qed.

Lemma ll_Back_None l : Back l = None <-> order l = [].
Proof. apply last_None. Qed.

Lemma ll_Back_elem_of l e : Back l = Some e -> e ∈ order l.
Proof.
  unfold Back. intros (k & ->)%last_snoc_inv. rewrite elem_of_app. right. by left.
Qed.

Lemma ll_order_Remove_Back l e :
  wf l -> Back l = Some e ->
  exists k, order l = k ++ [e] /\ order (Remove e l) = k.
Proof.
  intros Hwf Hb. pose proof (ll_Back_elem_of _ _ Hb) as Hin.
  apply last_snoc_inv in Hb as [k Hk]. exists k. split; [done|].
  unfold Remove. rewrite bool_decide_eq_true_2 by done. simpl.
  rewrite Hk. apply unlink_snoc.
  pose proof (wf_NoDup _ Hwf) as Hnd. rewrite Hk in Hnd.
  by apply NoDup_snoc in Hnd as [? _].
Qed.

Lemma ll_Len_Remove_Back l e :
  wf l -> Back l = Some e -> S (Len (Remove e l)) = Len l.
Proof.
  intros Hwf Hb. destruct (ll_order_Remove_Back _ _ Hwf Hb) as (k & Hk & Hr).
  unfold Len. rewrite Hr, Hk, length_app. simpl. lia.
Qed.

Lemma ll_order_MoveToFront e l :
  wf l -> e ∈ order l -> order (MoveToFront e l) = e :: unlink e (order l).
Proof.
  intros Hwf He. unfold MoveToFront.
  rewrite (bool_decide_eq_false_2 (e ∉ order l)) by tauto. simpl.
  case_bool_decide as Hf; [|done].
  unfold Front in Hf. destruct (order l) as [|e' k] eqn:Hk; [done|].
  injection Hf as ->. rewrite unlink_cons_eq, unlink_notin; [done|].
  pose proof (wf_NoDup _ Hwf) as Hnd. rewrite Hk in Hnd.
  by apply NoDup_cons in Hnd as [? _].
Qed.

Lemma ll_Len_MoveToFront e l : wf l -> Len (MoveToFront e l) = Len l.
Proof.
  intros Hwf. unfold MoveToFront. case_match; [done|].
  apply orb_false_iff in H as [Hin%bool_decide_eq_false _].
  apply dec_stable in Hin. unfold Len. simpl.
  destruct (list_elem_of_split _ _ Hin) as (k1 & k2 & Hk).
  pose proof (wf_NoDup _ Hwf) as Hnd. rewrite Hk in *.
  apply NoDup_app in Hnd as (_ & Hd & [Hn2 _]%NoDup_cons).
  rewrite unlink_app, unlink_cons_eq, !unlink_notin, !length_app; simpl; [lia|done|].
  intros Hx. apply (Hd e Hx). by left.
Qed.

(** ** Values *)

Lemma ll_Value_MoveToFront e e' l : Value e' (MoveToFront e l) = Value e' l.
Proof. unfold MoveToFront. by case_match. Qed.

Lemma ll_Value_Remove e e' l : Value e' (Remove e l) = Value e' l.
Proof. unfold Remove. by case_match. Qed.

Lemma ll_Value_SetValue e v l : Value e (SetValue e v l) = Some v.
Proof. apply lookup_insert_eq. Qed.

Lemma ll_Value_SetValue_ne e e' v l :
  e <> e' -> Value e' (SetValue e v l) = Value e' l.
Proof. apply lookup_insert_ne. Qed.

Lemma ll_Value_PushFront v l : Value (PushFront v l).1 (PushFront v l).2 = Some v.
Proof. apply lookup_insert_eq. Qed.

Lemma ll_Value_PushFront_old v l e :
  wf l -> e ∈ order l -> Value e (PushFront v l).2 = Value e l.
Proof.
  intros Hwf He. apply lookup_insert_ne. intros <-. by apply (ll_next_notin l).
Qed.

(** ** Contents *)

Lemma ll_vals_app (h : gmap loc A) k1 k2 :
  vals h (k1 ++ k2) = vals h k1 ++ vals h k2.
Proof. apply omap_app. Qed.

Lemma ll_vals_cons (h : gmap loc A) e k a :
  h !! e = Some a -> vals h (e :: k) = a :: vals h k.
Proof. intros He. unfold vals. simpl. by rewrite He. Qed.

Lemma ll_vals_middle (h : gmap loc A) k1 e k2 a :
  h !! e = Some a -> vals h (k1 ++ e :: k2) = vals h k1 ++ a :: vals h k2.
Proof. intros He. by rewrite ll_vals_app, (ll_vals_cons _ _ _ a). Qed.

Lemma ll_vals_insert_notin (h : gmap loc A) e a k :
  e ∉ k -> vals (<[e := a]> h) k = vals h k.
Proof.
  intros He. unfold vals. apply list_omap_ext, Forall2_same_length_lookup_2; [done|].
  intros i e1 e2 H1 H2. assert (e1 = e2) as <- by congruence.
  apply lookup_insert_ne. intros ->. apply He. by eapply list_elem_of_lookup_2.
Qed.

Lemma ll_elem_of_vals (h : gmap loc A) k a :
  a ∈ vals h k <-> exists e, (e ∈ k) /\ h !! e = Some a.
Proof. apply list_elem_of_omap. Qed.

Lemma ll_length_vals (h : gmap loc A) k :
  (forall e, e ∈ k -> is_Some (h !! e)) -> length (vals h k) = length k.
Proof.
  induction k as [|e k IH]; [done|]. intros Hk.
  destruct (Hk e) as [a Ha]; [by left|].
  rewrite (ll_vals_cons _ _ _ a) by done. simpl. f_equal. apply IH.
  intros e' He'. apply Hk. by right.
Qed.

Lemma ll_length_contents l : wf l -> length (contents l) = Len l.
Proof. intros Hwf. apply ll_length_vals, Hwf. Qed.

Lemma ll_contents_New : contents New = [].
Proof. done. Qed.

Lemma ll_contents_PushFront v l :
  wf l -> contents (PushFront v l).2 = v :: contents l.
Proof.
  intros Hwf. unfold contents, PushFront. cbn [snd elems order].
  rewrite (ll_vals_cons _ _ _ v) by apply lookup_insert_eq.
  by rewrite ll_vals_insert_notin by by apply ll_next_notin.
Qed.

(** Moving a linked element to the front, by its position. *)
Lemma ll_order_MoveToFront_middle e l k1 k2 :
  wf l -> order l = k1 ++ e :: k2 ->
  order (MoveToFront e l) = e :: k1 ++ k2.
Proof.
  intros Hwf Hk. rewrite ll_order_MoveToFront; [|done|].
  - pose proof (wf_NoDup _ Hwf) as Hnd. rewrite Hk in *.
    apply NoDup_app in Hnd as (_ & Hd & [Hn2 _]%NoDup_cons).
    rewrite unlink_app, unlink_cons_eq, !unlink_notin; [done|done|].
    intros Hx. apply (Hd e Hx). by left.
  - rewrite Hk, elem_of_app. right. by left.
Qed.

Lemma ll_elems_MoveToFront e l : elems (MoveToFront e l) = elems l.
Proof. unfold MoveToFront. by case_match. Qed.

Lemma ll_elems_Remove e l : elems (Remove e l) = elems l.
Proof. unfold Remove. by case_match. Qed.

Lemma ll_elem_of_MoveToFront e e' l :
  e' ∈ order (MoveToFront e l) <-> e' ∈ order l.
Proof.
  unfold MoveToFront. case_match eqn:Hc; [done|].
  apply orb_false_iff in Hc as [Hin%bool_decide_eq_false _].
  apply dec_stable in Hin. simpl. rewrite elem_of_cons, elem_of_unlink.
  destruct (decide (e' = e)) as [->|]; tauto.
Qed.

End with_value.

Arguments List : clear implicits.

#[export] Hint Resolve ll_wf_New ll_wf_PushFront ll_wf_MoveToFront ll_wf_Remove ll_wf_SetValue : go.
#[export] Hint Rewrite @ll_Value_MoveToFront @ll_Value_Remove @ll_Value_SetValue : go.

End golist.
