(* ===== verification/GoStd.v ===== *)
(** * GoStd: the functions of the Go standard library the program calls

    [consistenthash.go] calls [strconv.Itoa], [sort.Ints], [sort.Search]
    and [crc32.ChecksumIEEE], and indexes slices; [cache.go] and
    [singlefilight.go] use [sync.Mutex] and [sync.WaitGroup].  They are
    modelled here from the documentation of their packages: a mutex as a
    boolean and a wait group as its counter, [Itoa] as the decimal
    notation of an integer, [Ints] as a sort into ascending order,
    [Search] as the binary search of the package with its loop, and
    [ChecksumIEEE] as the bitwise CRC-32 of the IEEE polynomial.

    Theorems: [Search] terminates within the fuel it is given, probes only
    indexes of its range, and on a monotone predicate returns the least
    index at which the predicate holds; [Ints] returns a sorted permutation;
    [Itoa] is injective; the checksum of a byte string is a [uint32]. *)

From Stdlib Require Import ZArith Lia.
From Stdlib Require Import Strings.Byte.
From stdpp Require Import base tactics option list strings sorting pretty.
From S2P Require Import Prelude.

(** ** Slices of integers *)

Module goslice.

(** [len(s)] as an [int]. *)
Definition len {A} (s : list A) : Z := Z.of_nat (length s).

(** [s[i]]: panics when [i] is out of range. *)
Definition index {A} (s : list A) (i : Z) : outcome A :=
  if bool_decide (0 <= i < len s)%Z
  then deref "index out of range" (s !! Z.to_nat i)
  else Panic "index out of range".

Lemma index_Ok {A} (s : list A) i :
  (0 <= i < len s)%Z -> exists x, index s i = Ok x /\ s !! Z.to_nat i = Some x.
Proof.
  intros Hi. unfold index. rewrite bool_decide_eq_true_2 by done.
  destruct (lookup_lt_is_Some_2 s (Z.to_nat i)) as [x Hx]; [unfold len in Hi; lia|].
  exists x. by rewrite Hx.
Qed.

Lemma index_Panic {A} (s : list A) i :
  ~ (0 <= i < len s)%Z -> index s i = Panic "index out of range".
Proof. intros Hi. unfold index. by rewrite bool_decide_eq_false_2. Qed.

End goslice.

(** ** [strconv] *)

Module strconv.

(** [strconv.Itoa]: the decimal notation, with a sign for negative
    numbers. *)
Definition Itoa (i : Z) : string := pretty i.

Lemma Itoa_inj i j : Itoa i = Itoa j -> i = j.
Proof. apply (inj pretty). Qed.

End strconv.

(** ** [sort] *)

Module sort.

(** [sort.Ints]: sorts into ascending order. *)
Definition Ints (l : list Z) : list Z := merge_sort Z.le l.

(** The loop of [sort.Search]: the invariant of the package is
    [f(i-1) == false] and [f(j) == true]. *)
Fixpoint Search_loop (fuel : nat) (i j : Z) (f : Z -> outcome bool) : outcome Z :=
  if bool_decide (i < j)%Z then
    match fuel with
    | O => Diverge
    | S fuel' =>
        let h := Z.shiftr ((i + j) mod 2 ^ 64) 1 in
        b ← f h;
        if negb b
        then Search_loop fuel' (h + 1) j f
        else Search_loop fuel' i h f
    end
  else Ok i.

(** [sort.Search(n, f)].  The interval shrinks at every turn of the loop,
    so [n] turns are enough. *)
Definition Search (n : Z) (f : Z -> outcome bool) : outcome Z :=
  Search_loop (Z.to_nat n) 0 n f.

Lemma Ints_Sorted l : StronglySorted Z.le (Ints l).
Proof. apply StronglySorted_merge_sort; apply _. Qed.

Lemma Ints_Permutation l : Ints l ≡ₚ l.
Proof. apply merge_sort_Permutation. Qed.

Lemma elem_of_Ints x l : x ∈ Ints l <-> x ∈ l.
Proof. by rewrite Ints_Permutation. Qed.

Lemma length_Ints l : length (Ints l) = length l.
Proof. by rewrite Ints_Permutation. Qed.

(** The sort of a list depends on its elements only. *)
Lemma Ints_perm l l' : l ≡ₚ l' -> Ints l = Ints l'.
Proof.
  intros Hp. apply (StronglySorted_unique Z.le); [apply Ints_Sorted..|].
  by rewrite !Ints_Permutation.
Qed.

Lemma StronglySorted_lookup_le (l : list Z) i j x y :
  StronglySorted Z.le l -> l !! i = Some x -> l !! j = Some y -> i <= j -> (x <= y)%Z.
Proof.
  intros Hs. revert i j. induction Hs as [|z l Hs IH Hz]; intros i j Hi Hj Hij; [done|].
  destruct i as [|i], j as [|j]; simpl in *; try lia.
  - by simplify_eq.
  - simplify_eq. rewrite Forall_forall in Hz. by eapply Hz, list_elem_of_lookup_2.
  - apply (IH i j); done || lia.
Qed.

(** The midpoint of the loop does not overflow. *)
Lemma midpoint i j :
  (0 <= i < j)%Z -> (j <= int64_max)%Z ->
  Z.shiftr ((i + j) mod 2 ^ 64) 1 = ((i + j) / 2)%Z /\
  (i <= (i + j) / 2 < j)%Z.
Proof.
  intros Hij Hj. unfold int64_max in Hj.
  rewrite Z.mod_small by lia. rewrite Z.shiftr_div_pow2 by lia.
  change (2 ^ 1)%Z with 2%Z. split; [done|].
  split; [apply Z.div_le_lower_bound|apply Z.div_lt_upper_bound]; lia.
Qed.

Section search.
Context (n : Z) (f : Z -> outcome bool) (p : Z -> bool).
Context (Hn : (n <= int64_max)%Z).
Context (Hf : forall k, (0 <= k < n)%Z -> f k = Ok (p k)).
Context (Hmono : forall k k', (0 <= k <= k')%Z -> (k' < n)%Z -> p k = true -> p k' = true).

(** The loop with enough fuel returns the boundary between the indexes
    where the predicate fails and those where it holds. *)
Lemma Search_loop_spec fuel i j :
  (0 <= i <= j)%Z -> (j <= n)%Z -> (j - i <= Z.of_nat fuel)%Z ->
  (forall k, (0 <= k < i)%Z -> p k = false) ->
  (forall k, (j <= k < n)%Z -> p k = true) ->
  exists r, Search_loop fuel i j f = Ok r /\ (i <= r <= j)%Z /\
    (forall k, (0 <= k < r)%Z -> p k = false) /\
    (forall k, (r <= k < n)%Z -> p k = true).
Proof.
  revert i j. induction fuel as [|fuel IH]; intros i j Hij Hjn Hfuel Hlo Hhi; simpl.
  - rewrite bool_decide_eq_false_2 by lia. exists i.
    split_and!; [done|lia..|exact Hlo|]. intros k Hk. apply Hhi. lia.
  - case_bool_decide as Hlt; [|exists i; split_and!; [done|lia..|exact Hlo|];
      intros k Hk; apply Hhi; lia].
    destruct (midpoint i j) as [-> Hh]; [lia..|]. set (h := ((i + j) / 2)%Z) in *.
    rewrite Hf by lia. simpl. destruct (p h) eqn:Hph; simpl.
    + destruct (IH i h) as (r & -> & ? & ? & ?); [lia..|exact Hlo| |].
      { intros k Hk. apply (Hmono h k); [lia..|done]. }
      exists r. split_and!; [done|lia..|done|done].
    + destruct (IH (h + 1)%Z j) as (r & -> & ? & ? & ?); [lia..| |exact Hhi|].
      { intros k Hk. destruct (p k) eqn:Hpk; [|done].
        rewrite (Hmono k h) in Hph; [done|lia..|done]. }
      exists r. split_and!; [done|lia..|done|done].
Qed.

Lemma Search_spec :
  exists r, Search n f = Ok r /\ (0 <= r)%Z /\ (r <= Z.max 0 n)%Z /\
    (forall k, (0 <= k < r)%Z -> p k = false) /\
    (forall k, (r <= k < n)%Z -> p k = true).
Proof.
  unfold Search. destruct (decide (0 <= n)%Z) as [H0|H0].
  - destruct (Search_loop_spec (Z.to_nat n) 0 n) as (r & Hr & ? & ? & ?);
      [lia..| | |]; [intros; lia..|].
    exists r. split_and!; [done|lia..|done|done].
  - exists 0%Z. destruct (Z.to_nat n) eqn:Hz; simpl;
      rewrite bool_decide_eq_false_2 by lia;
      (split_and!; [done|lia..|intros; lia|intros; lia]).
Qed.

(** More fuel does not change the result of the loop. *)
Lemma Search_loop_fuel fuel fuel' i j r :
  Search_loop fuel i j f = Ok r -> fuel <= fuel' ->
  Search_loop fuel' i j f = Ok r.
Proof.
  revert fuel' i j. induction fuel as [|fuel IH]; intros fuel' i j; simpl.
  - case_bool_decide; [done|]. intros [= <-] _. destruct fuel'; simpl;
      by rewrite bool_decide_eq_false_2.
  - case_bool_decide as Hlt; [|intros [= <-] _; destruct fuel'; simpl;
      by rewrite bool_decide_eq_false_2].
    intros Hs Hle. destruct fuel' as [|fuel']; [lia|]. simpl.
    rewrite bool_decide_eq_true_2 by done.
    destruct (f _) as [b| |]; simpl in *; [|done..].
    destruct b; simpl in *; apply IH; done || lia.
Qed.

End search.

End sort.

(** ** [sync] *)

Module sync.

(** The state of a [sync.Mutex]: [true] when it is held. *)
Definition Mutex : Type := bool.

(** [Lock] by a caller that runs alone: a held mutex is never released,
    so the call blocks for ever. *)
Definition Lock (mu : Mutex) : outcome Mutex :=
  if mu then Diverge else Ok true.

(** [Unlock] of a mutex that is not held is a fatal error. *)
Definition Unlock (mu : Mutex) : outcome Mutex :=
  if mu then Ok false else Panic "sync: unlock of unlocked mutex".

(** The counter of a [sync.WaitGroup]. *)
Definition WaitGroup : Type := Z.

(** [wg.Add(delta)]: a negative counter is a panic. *)
Definition Add (delta : Z) (wg : WaitGroup) : outcome WaitGroup :=
  if bool_decide (wg + delta < 0)%Z
  then Panic "sync: negative WaitGroup counter"
  else Ok (wg + delta)%Z.

(** [wg.Done()] is [wg.Add(-1)]. *)
Definition Done (wg : WaitGroup) : outcome WaitGroup := Add (-1) wg.

(** [wg.Wait()] by a caller that runs alone: it returns when the counter
    is zero and blocks for ever otherwise. *)
Definition Wait (wg : WaitGroup) : outcome unit :=
  if bool_decide (wg = 0%Z) then Ok tt else Diverge.

(** The state of a [sync.RWMutex]: whether a writer holds it and the
    number of readers. *)
Record RWMutex : Type := mkRWMutex {
  writer : bool;
  readers : Z
}.

Definition free_rw : RWMutex := {| writer := false; readers := 0 |}.

(** [Lock] and [RLock] by a caller that runs alone block for ever when
    the mutex is taken. *)
Definition WLock (mu : RWMutex) : outcome RWMutex :=
  if writer mu || bool_decide (readers mu <> 0%Z) then Diverge
  else Ok {| writer := true; readers := readers mu |}.

Definition WUnlock (mu : RWMutex) : outcome RWMutex :=
  if writer mu then Ok {| writer := false; readers := readers mu |}
  else Panic "sync: Unlock of unlocked RWMutex".

Definition RLock (mu : RWMutex) : outcome RWMutex :=
  if writer mu then Diverge
  else Ok {| writer := false; readers := readers mu + 1 |}.

Definition RUnlock (mu : RWMutex) : outcome RWMutex :=
  if bool_decide (readers mu <= 0)%Z then Panic "sync: RUnlock of unlocked RWMutex"
  else Ok {| writer := writer mu; readers := readers mu - 1 |}.

End sync.

(** ** [hash/crc32] *)

Module crc32.

(** The IEEE polynomial, reversed. *)
Definition IEEE : Z := 0xedb88320%Z.

(** One bit of the division. *)
Definition shift (c : Z) : Z :=
  if Z.testbit c 0 then Z.lxor (Z.shiftr c 1) IEEE else Z.shiftr c 1.

Definition update (c : Z) (x : byte) : Z :=
  Nat.iter 8 shift (Z.lxor c (Z.of_N (Byte.to_N x))).

(** [crc32.ChecksumIEEE] *)
Definition ChecksumIEEE (data : list byte) : Z :=
  Z.lxor (foldl update 0xffffffff%Z data) 0xffffffff%Z.

Lemma log2_uint32 a : uint32_range a -> (Z.log2 a < 32)%Z.
Proof.
  unfold uint32_range. intros [Ha Ha']. destruct (decide (a = 0%Z)) as [->|Hne]; [done|].
  apply Z.log2_lt_pow2; lia.
Qed.

Lemma uint32_lxor a b : uint32_range a -> uint32_range b -> uint32_range (Z.lxor a b).
Proof.
  intros Ha Hb. pose proof (log2_uint32 a Ha). pose proof (log2_uint32 b Hb).
  unfold uint32_range in *. pose proof (Z.lxor_nonneg a b).
  pose proof (Z.log2_lxor a b). split; [lia|].
  destruct (decide (Z.lxor a b = 0%Z)) as [->|Hne]; [done|].
  apply Z.log2_lt_pow2; lia.
Qed.

Lemma uint32_shift c : uint32_range c -> uint32_range (shift c).
Proof.
  intros Hc. assert (uint32_range (Z.shiftr c 1)) as Hs.
  { unfold uint32_range in *. rewrite Z.shiftr_div_pow2 by lia.
    change (2 ^ 1)%Z with 2%Z. split; [apply Z.div_pos; lia|].
    apply Z.div_lt_upper_bound; lia. }
  unfold shift. destruct (Z.testbit c 0); [|done].
  apply uint32_lxor; [done|]. unfold uint32_range, IEEE. lia.
Qed.

Lemma uint32_byte x : uint32_range (Z.of_N (Byte.to_N x)).
Proof. pose proof (Byte.to_N_bounded x). unfold uint32_range. lia. Qed.

Lemma uint32_update c x : uint32_range c -> uint32_range (update c x).
Proof.
  intros Hc. unfold update.
  assert (uint32_range (Z.lxor c (Z.of_N (Byte.to_N x)))) as H
    by (apply uint32_lxor; [done|apply uint32_byte]).
  revert H. generalize (Z.lxor c (Z.of_N (Byte.to_N x))). intros z Hz.
  simpl. by do 8 apply uint32_shift.
Qed.

Lemma uint32_ChecksumIEEE data : uint32_range (ChecksumIEEE data).
Proof.
  unfold ChecksumIEEE. apply uint32_lxor; [|unfold uint32_range; lia].
  assert (uint32_range 0xffffffff%Z) as H by (unfold uint32_range; lia).
  revert H. generalize 0xffffffff%Z. induction data as [|x data IH]; intros c Hc; [done|].
  simpl. by apply IH, uint32_update.
Qed.

End crc32.
