(* ===== verification/GoNet.v ===== *)
(** * GoNet: the library functions [http.go] calls

    [http.go] tests and cuts the path of a request with [strings.HasPrefix],
    a slice expression and [strings.SplitN], escapes the group and the key
    of a fetch with [url.QueryEscape], and exchanges a [geecachepb.Response]
    encoded by [proto.Marshal] and decoded by [proto.Unmarshal]; the server
    of [net/http] hands the handler the path of the request with its
    percent escapes decoded.  They are modelled here from the documentation
    of their packages and from the wire format of Protocol Buffers.

    Theorems: [SplitN] of a path at its first separator; the escapes of
    [QueryEscape] decode to the string that was escaped with [+] for every
    space, hence to the string itself when it has no space; a varint
    decodes to the number it encodes; the wire codec of [Response] is a
    [ResponseCodec]: decoding an encoded value gives the value. *)

From Stdlib Require Import ZArith NArith Lia.
From Stdlib Require Import Strings.Byte Strings.Ascii.
From stdpp Require Import base tactics option list gmap strings pretty.
From S2P Require Import Prelude.

(** ** [strings] *)

Module gostrings.

(** [strings.HasPrefix(s, prefix)] *)
Definition HasPrefix (s prefix : string) : bool := String.prefix prefix s.

(** [s[n:]]: panics when [n] is more than [len(s)]. *)
Fixpoint from (n : nat) (s : string) : outcome string :=
  match n, s with
  | 0, _ => Ok s
  | S n', String _ s' => from n' s'
  | S _, EmptyString => Panic "slice bounds out of range"
  end.

(** [strings.Cut(s, sep)]: [s] around the first instance of [sep]. *)
Fixpoint Cut (s sep : string) : option (string * string) :=
  if String.prefix sep s then
    match from (String.length sep) s with Ok r => Some (EmptyString, r) | _ => None end
  else
    match s with
    | EmptyString => None
    | String c s' => prod_map (String c) id <$> Cut s' sep
    end.

(** The loop of [strings.SplitN(s, sep, n)] for a separator that is not
    empty: [n] more cuts are allowed. *)
Fixpoint SplitN_loop (n : nat) (s sep : string) : list string :=
  match n with
  | 0 => [s]
  | S n' =>
      match Cut s sep with
      | Some (a, r) => a :: SplitN_loop n' r sep
      | None => [s]
      end
  end.

(** [strings.SplitN] with an empty separator: [n] substrings, of one byte
    each but the last (Go cuts after each UTF-8 sequence, which is a byte
    for ASCII). *)
Fixpoint explode (n : nat) (s : string) : list string :=
  match n, s with
  | 0, _ | _, EmptyString => []
  | 1, _ => [s]
  | S n', String c s' => String c EmptyString :: explode n' s'
  end.

(** [strings.SplitN(s, sep, n)]: at most [n] substrings, the last one the
    unsplit remainder; all of them when [n] is negative; none when [n] is
    zero. *)
Definition SplitN (s sep : string) (n : Z) : list string :=
  if bool_decide (n = 0%Z) then []
  else
    let count := if bool_decide (n < 0)%Z then S (String.length s) else Z.to_nat n in
    if bool_decide (sep = EmptyString) then explode count s
    else SplitN_loop (count - 1) s sep.

Lemma app_nil (t : string) : EmptyString +:+ t = t.
Proof. done. Qed.

Lemma app_cons (c : ascii) (s t : string) : String c s +:+ t = String c (s +:+ t).
Proof. done. Qed.

Lemma app_assoc (s t u : string) : (s +:+ t) +:+ u = s +:+ t +:+ u.
Proof. induction s as [|c s IH]; [done|]. by rewrite !app_cons, IH. Qed.

Lemma app_nil_r (s : string) : s +:+ EmptyString = s.
Proof. induction s as [|c s IH]; [done|]. by rewrite app_cons, IH. Qed.

Lemma from_app (p s : string) : from (String.length p) (p +:+ s) = Ok s.
Proof. induction p as [|c p IH]; [done|]. simpl. exact IH. Qed.

Lemma HasPrefix_app (p s : string) : HasPrefix (p +:+ s) p = true.
Proof.
  unfold HasPrefix. induction p as [|c p IH]; simpl; [by destruct s|].
  destruct (ascii_dec c c); [exact IH|done].
Qed.

(** A string with no [c]. *)
Fixpoint free (c : ascii) (s : string) : bool :=
  match s with
  | EmptyString => true
  | String x s' => negb (bool_decide (x = c)) && free c s'
  end.

Lemma Cut_first (c : ascii) (a b : string) :
  free c a = true -> Cut (a +:+ String c b) (String c EmptyString) = Some (a, b).
Proof.
  induction a as [|x a IH]; simpl.
  - intros _. by destruct (ascii_dec c c); [destruct b|].
  - intros [Hx Ha]%andb_prop. apply negb_true_iff, bool_decide_eq_false in Hx.
    destruct (ascii_dec c x); [congruence|]. by rewrite (IH Ha).
Qed.

Lemma Cut_none (c : ascii) (a : string) :
  free c a = true -> Cut a (String c EmptyString) = None.
Proof.
  induction a as [|x a IH]; simpl; [done|].
  intros [Hx Ha]%andb_prop. apply negb_true_iff, bool_decide_eq_false in Hx.
  destruct (ascii_dec c x); [congruence|]. by rewrite (IH Ha).
Qed.

(** [SplitN(_, sep, 2)] cuts at the first separator. *)
Lemma SplitN_2_first (c : ascii) (a b : string) :
  free c a = true -> SplitN (a +:+ String c b) (String c EmptyString) 2 = [a; b].
Proof. intros Ha. unfold SplitN. simpl. by rewrite (Cut_first c a b Ha). Qed.

Lemma SplitN_2_none (c : ascii) (a : string) :
  free c a = true -> SplitN a (String c EmptyString) 2 = [a].
Proof. intros Ha. unfold SplitN. simpl. by rewrite (Cut_none c a Ha). Qed.

End gostrings.

(** ** [net/url] *)

Module url.

(** The bytes [QueryEscape] leaves as they are: letters, digits and
    [-], [_], [.], [~]. *)
Definition unreserved (c : ascii) : bool :=
  let n := nat_of_ascii c in
  (97 <=? n) && (n <=? 122) || (65 <=? n) && (n <=? 90) || (48 <=? n) && (n <=? 57)
  || bool_decide (c ∈ ["-"; "_"; "."; "~"]%char).

Definition upperhex : string := "0123456789ABCDEF".

(** [upperhex[n]] *)
Definition hexdigit (n : nat) : ascii := default "0"%char (String.get n upperhex).

(** The escape of one byte. *)
Definition escape_byte (c : ascii) : string :=
  if unreserved c then String c EmptyString
  else if bool_decide (c = " "%char) then "+"
  else
    let n := nat_of_ascii c in
    String "%" (String (hexdigit (n / 16)) (String (hexdigit (n mod 16)) EmptyString)).

(** [url.QueryEscape(s)] *)
Fixpoint QueryEscape (s : string) : string :=
  match s with
  | EmptyString => EmptyString
  | String c s' => escape_byte c +:+ QueryEscape s'
  end.

(** The value of a hexadecimal digit, of either case. *)
Definition unhex (c : ascii) : option nat :=
  let n := nat_of_ascii c in
  if (48 <=? n) && (n <=? 57) then Some (n - 48)
  else if (97 <=? n) && (n <=? 102) then Some (n - 97 + 10)
  else if (65 <=? n) && (n <=? 70) then Some (n - 65 + 10)
  else None.

(** The path of a request as the handler sees it: every [%XX] of the
    request line is decoded, and a [%] that two hexadecimal digits do not
    follow is an error.  A [+] stays a [+] in a path. *)
Fixpoint PathUnescape (s : string) : option string :=
  match s with
  | EmptyString => Some EmptyString
  | String "%" (String a (String b s')) =>
      match unhex a, unhex b with
      | Some x, Some y => String (ascii_of_nat (16 * x + y)) <$> PathUnescape s'
      | _, _ => None
      end
  | String "%" _ => None
  | String c s' => String c <$> PathUnescape s'
  end.

(** What a byte is received as after [QueryEscape] and [PathUnescape]. *)
Definition received_byte (c : ascii) : ascii :=
  if bool_decide (c = " "%char) then "+"%char else c.

Fixpoint received (s : string) : string :=
  match s with
  | EmptyString => EmptyString
  | String c s' => String (received_byte c) (received s')
  end.

Lemma PathUnescape_escape_byte (c : ascii) (t : string) :
  PathUnescape (escape_byte c +:+ t) = String (received_byte c) <$> PathUnescape t.
Proof. by destruct c as [[] [] [] [] [] [] [] []]. Qed.

Lemma PathUnescape_QueryEscape_app (s t : string) :
  PathUnescape (QueryEscape s +:+ t) =
    (fun r => received s +:+ r) <$> PathUnescape t.
Proof.
  induction s as [|c s IH]; simpl.
  - rewrite gostrings.app_nil. by destruct (PathUnescape t).
  - rewrite gostrings.app_assoc, PathUnescape_escape_byte, IH.
    by destruct (PathUnescape t).
Qed.

Lemma PathUnescape_plain_app (p t : string) :
  gostrings.free "%" p = true ->
  PathUnescape (p +:+ t) = (fun r => p +:+ r) <$> PathUnescape t.
Proof.
  induction p as [|c p IH]; simpl.
  { intros _. rewrite gostrings.app_nil. by destruct (PathUnescape t). }
  intros [Hc Hp]%andb_prop. apply negb_true_iff, bool_decide_eq_false in Hc.
  rewrite ?gostrings.app_cons. trans (String c <$> PathUnescape (p +:+ t)).
  - by destruct c as [[] [] [] [] [] [] [] []].
  - rewrite (IH Hp). by destruct (PathUnescape t).
Qed.

Lemma PathUnescape_slash (t : string) :
  PathUnescape (String "/" t) = String "/"%char <$> PathUnescape t.
Proof. done. Qed.

Lemma PathUnescape_QueryEscape (s : string) : PathUnescape (QueryEscape s) = Some (received s).
Proof.
  rewrite <- (gostrings.app_nil_r (QueryEscape s)), PathUnescape_QueryEscape_app.
  simpl. by rewrite gostrings.app_nil_r.
Qed.

(** The path of a fetch, [<base><group>/<key>] with the group and the key
    escaped, is decoded to the group and the key as they are received. *)
Lemma PathUnescape_fetch (base g k : string) :
  gostrings.free "%" base = true ->
  PathUnescape (base +:+ QueryEscape g +:+ "/" +:+ QueryEscape k) =
    Some (base +:+ received g +:+ "/" +:+ received k).
Proof.
  intros Hb. rewrite (PathUnescape_plain_app base _ Hb), PathUnescape_QueryEscape_app.
  change ("/" +:+ QueryEscape k) with (String "/" (QueryEscape k)).
  by rewrite PathUnescape_slash, PathUnescape_QueryEscape.
Qed.

Lemma received_id (s : string) : gostrings.free " " s = true -> received s = s.
Proof.
  induction s as [|c s IH]; simpl; [done|].
  intros [Hc Hs]%andb_prop. apply negb_true_iff, bool_decide_eq_false in Hc.
  unfold received_byte. by rewrite bool_decide_eq_false_2, (IH Hs).
Qed.

Lemma received_free (c : ascii) (s : string) :
  c <> "+"%char -> c <> " "%char ->
  gostrings.free c (received s) = gostrings.free c s.
Proof.
  intros Hc Hc'. induction s as [|x s IH]; simpl; [done|].
  rewrite IH. f_equal. unfold received_byte.
  destruct (decide (x = " "%char)) as [->|Hx].
  - rewrite (bool_decide_eq_true_2 (" "%char = _)) by done.
    by rewrite !bool_decide_eq_false_2 by congruence.
  - by rewrite (bool_decide_eq_false_2 (x = " "%char)) by done.
Qed.

End url.

(** ** [proto]: the codec of [geecachepb.Response] *)

Module proto.

Definition error : Type := string.

(** What the program asks of [proto.Marshal] and [proto.Unmarshal] on a
    [Response{Value}]: a value whose length is an [int] that was encoded
    decodes to itself. *)
Class ResponseCodec : Type := {
  Marshal : list byte -> error + list byte;
  Unmarshal : list byte -> error + list byte;
  Unmarshal_Marshal : forall v b,
    (Z.of_nat (length v) < 2 ^ 63)%Z -> Marshal v = inr b -> Unmarshal b = inr v
}.

(** *** The wire format *)

Definition byte_of (n : N) : byte := default x00 (Byte.of_N n).

(** A varint: groups of seven bits, the least significant group first,
    the eighth bit set on every byte but the last. *)
Fixpoint AppendVarint_loop (fuel : nat) (n : N) : list byte :=
  match fuel with
  | 0 => []
  | S fuel' =>
      if (n <? 128)%N then [byte_of n]
      else byte_of (n mod 128 + 128) :: AppendVarint_loop fuel' (n / 128)
  end.

(** A [uint64] has at most ten groups. *)
Definition AppendVarint (n : N) : list byte := AppendVarint_loop 10 n.

Fixpoint ConsumeVarint_loop (fuel : nat) (l : list byte) : option (N * list byte) :=
  match fuel, l with
  | S fuel', b :: l' =>
      let x := Byte.to_N b in
      if (x <? 128)%N then Some (x, l')
      else '(v, r) ← ConsumeVarint_loop fuel' l'; Some (x - 128 + 128 * v, r)%N
  | _, _ => None
  end.

(** At most ten bytes, and a value that fits a [uint64]. *)
Definition ConsumeVarint (l : list byte) : option (N * list byte) :=
  '(v, r) ← ConsumeVarint_loop 10 l;
  if (v <? 2 ^ 64)%N then Some (v, r) else None.

Definition parse_error : error := "proto: cannot parse invalid wire-format data".

(** The fields of a message, in order; the field 1 of wire type 2 is
    [Value], the last instance of it counts, and every other field is
    skipped.  A field of a group wire type, which no encoder of this
    message writes, is reported as an error. *)
Fixpoint fields (fuel : nat) (l : list byte) (value : list byte) : error + list byte :=
  match l, fuel with
  | [], _ => inr value
  | _, 0 => inl parse_error
  | _, S fuel' =>
      match ConsumeVarint l with
      | None => inl parse_error
      | Some (tag, r) =>
          let num := (tag / 8)%N in
          if (num =? 0)%N || (536870911 <? num)%N then inl parse_error
          else
            match (tag mod 8)%N with
            | 0%N =>
                match ConsumeVarint r with
                | Some (_, r') => fields fuel' r' value
                | None => inl parse_error
                end
            | 1%N => if length r <? 8 then inl parse_error else fields fuel' (drop 8 r) value
            | 2%N =>
                match ConsumeVarint r with
                | Some (n, r') =>
                    if (N.of_nat (length r') <? n)%N then inl parse_error
                    else fields fuel' (drop (N.to_nat n) r')
                           (if (num =? 1)%N then take (N.to_nat n) r' else value)
                | None => inl parse_error
                end
            | 5%N => if length r <? 4 then inl parse_error else fields fuel' (drop 4 r) value
            | _ => inl parse_error
            end
      end
  end.

(** [proto.Marshal(&pb.Response{Value: v})]: an empty value is the default
    of the field and is not written. *)
Definition wire_Marshal (v : list byte) : error + list byte :=
  match v with
  | [] => inr []
  | _ => inr (x0a :: AppendVarint (N.of_nat (length v)) ++ v)
  end.

(** [proto.Unmarshal(b, out)] on a new [Response]: [out.Value]. *)
Definition wire_Unmarshal (b : list byte) : error + list byte := fields (length b) b [].

Lemma to_N_byte_of (n : N) : (n < 256)%N -> Byte.to_N (byte_of n) = n.
Proof.
  intros Hn. unfold byte_of. destruct (Byte.of_N n) as [b|] eqn:E; simpl.
  - by apply Byte.to_of_N.
  - apply Byte.of_N_None_iff in E. lia.
Qed.

Lemma ConsumeVarint_loop_Append (fuel : nat) (n : N) (r : list byte) :
  (n < 128 ^ N.of_nat (S fuel))%N ->
  ConsumeVarint_loop (S fuel) (AppendVarint_loop (S fuel) n ++ r) = Some (n, r).
Proof.
  revert n. induction fuel as [|fuel IH]; intros n Hn.
  - cbn [AppendVarint_loop ConsumeVarint_loop]. change (128 ^ N.of_nat 1)%N with 128%N in Hn.
    rewrite (proj2 (N.ltb_lt n 128) Hn). cbn [app]. rewrite to_N_byte_of by lia.
    by rewrite (proj2 (N.ltb_lt n 128) Hn).
  - remember (S fuel) as f eqn:Hf. cbn [AppendVarint_loop ConsumeVarint_loop].
    destruct (N.ltb_spec n 128) as [Hlt|Hge].
    + cbn [app]. rewrite to_N_byte_of by lia. by rewrite (proj2 (N.ltb_lt n 128) Hlt).
    + pose proof (N.div_mod n 128 ltac:(done)) as Hdm.
      pose proof (N.mod_lt n 128 ltac:(done)) as Hm.
      assert (n / 128 < 128 ^ N.of_nat f)%N as Hq.
      { apply N.Div0.div_lt_upper_bound. rewrite <- N.pow_succ_r', <- Nat2N.inj_succ. exact Hn. }
      revert Hdm Hm Hq. generalize (n / 128)%N (n mod 128)%N. intros q m Hdm Hm Hq.
      cbn [app]. rewrite to_N_byte_of by (clear -Hm; lia).
      rewrite (proj2 (N.ltb_ge _ 128)) by (clear; lia). rewrite IH by done.
      simpl. f_equal. f_equal. clear -Hdm. lia.
Qed.

(** A [uint64] is decoded from its varint. *)
Lemma ConsumeVarint_Append (n : N) (r : list byte) :
  (n < 2 ^ 64)%N -> ConsumeVarint (AppendVarint n ++ r) = Some (n, r).
Proof.
  intros Hn. unfold ConsumeVarint, AppendVarint.
  rewrite ConsumeVarint_loop_Append by (change (128 ^ N.of_nat 10)%N with (2 ^ 70)%N; lia).
  simpl. by rewrite (proj2 (N.ltb_lt n (2 ^ 64)) Hn).
Qed.

Lemma fields_nil (fuel : nat) (value : list byte) : fields fuel [] value = inr value.
Proof. by destruct fuel. Qed.

Lemma ConsumeVarint_tag (l : list byte) : ConsumeVarint (x0a :: l) = Some (10%N, l).
Proof. reflexivity. Qed.

(** The field [Value] of an encoded message is read whole. *)
Lemma fields_Value (fuel : nat) (w value : list byte) :
  (N.of_nat (length w) < 2 ^ 64)%N ->
  fields (S fuel) (x0a :: AppendVarint (N.of_nat (length w)) ++ w) value = fields fuel [] w.
Proof.
  intros Hw. cbn [fields]. rewrite ConsumeVarint_tag.
  change (10 / 8)%N with 1%N. change (10 mod 8)%N with 2%N. cbv iota zeta beta.
  change ((1 =? 0) || (536870911 <? 1))%N with false. cbv iota.
  rewrite (ConsumeVarint_Append _ w Hw), Nat2N.id, drop_all, take_ge by done.
  by rewrite N.ltb_irrefl.
Qed.

Lemma wire_roundtrip (v b : list byte) :
  (Z.of_nat (length v) < 2 ^ 63)%Z -> wire_Marshal v = inr b -> wire_Unmarshal b = inr v.
Proof.
  intros Hlen Hb. assert (N.of_nat (length v) < 2 ^ 64)%N as Hv.
  { change (2 ^ 64)%N with 18446744073709551616%N.
    change (2 ^ 63)%Z with 9223372036854775808%Z in Hlen. lia. }
  destruct v as [|x v]; injection Hb as <-; [done|].
  unfold wire_Unmarshal. cbn [length].
  by rewrite (fields_Value _ (x :: v) [] Hv), fields_nil.
Qed.

#[global] Instance wire_codec : ResponseCodec :=
  {| Marshal := wire_Marshal; Unmarshal := wire_Unmarshal; Unmarshal_Marshal := wire_roundtrip |}.

End proto.

(** ** [net/http] *)

Module nethttp.

Definition error : Type := string.

Definition StatusOK : Z := 200.
Definition StatusBadRequest : Z := 400.
Definition StatusNotFound : Z := 404.
Definition StatusInternalServerError : Z := 500.

(** [http.StatusText], on the codes the program uses. *)
Definition StatusText (code : Z) : string :=
  if bool_decide (code = 200%Z) then "OK"
  else if bool_decide (code = 400%Z) then "Bad Request"
  else if bool_decide (code = 404%Z) then "Not Found"
  else if bool_decide (code = 500%Z) then "Internal Server Error"
  else "".

(** The status line of a response: the code and its text. *)
Definition status_line (code : Z) : string := pretty code +:+ " " +:+ StatusText code.

(** A request as a handler reads it: [r.Method] and [r.URL.Path]. *)
Record Request : Type := mkRequest {
  Method : string;
  Path : string
}.

(** A [ResponseWriter]: the status once it is written, the header, the
    body written so far, and whether the connection is broken, in which
    case a write fails. *)
Record ResponseWriter : Type := mkResponseWriter {
  status : option Z;
  header : gmap string string;
  body : list byte;
  broken : bool
}.

Definition new_writer (broken : bool) : ResponseWriter :=
  {| status := None; header := ∅; body := []; broken := broken |}.

(** [w.Header().Set(k, v)] *)
Definition Header_Set (k v : string) (w : ResponseWriter) : ResponseWriter :=
  {| status := status w; header := <[k := v]> (header w); body := body w;
     broken := broken w |}.

(** [w.WriteHeader(code)]: the first status counts. *)
Definition WriteHeader (code : Z) (w : ResponseWriter) : ResponseWriter :=
  match status w with
  | Some _ => w
  | None => {| status := Some code; header := header w; body := body w; broken := broken w |}
  end.

(** [w.Write(b)]: writes the status 200 when none was written; fails on a
    broken connection. *)
Definition Write (b : list byte) (w : ResponseWriter) : ResponseWriter * option error :=
  if broken w then (w, Some "write: broken pipe")
  else
    let w' := WriteHeader StatusOK w in
    ({| status := status w'; header := header w'; body := body w' ++ b; broken := broken w' |},
     None).

Definition newline : string := String (ascii_of_nat 10) EmptyString.

(** [http.Error(w, msg, code)]: a plain-text reply with the message and a
    newline. *)
Definition Error (w : ResponseWriter) (msg : string) (code : Z) : ResponseWriter :=
  let w1 := Header_Set "Content-Type" "text/plain; charset=utf-8" w in
  let w2 := Header_Set "X-Content-Type-Options" "nosniff" w1 in
  (Write (String.list_byte_of_string (msg +:+ newline)) (WriteHeader code w2)).1.

(** What [http.Get] returns when it has a response: the status, and the
    body as [ioutil.ReadAll] reads it, or the error of the read. *)
Record Response : Type := mkResponse {
  StatusCode : Z;
  Status : string;
  Body : list byte;
  ReadErr : option error
}.

(** The response a client receives for what a handler wrote. *)
Definition received (w : ResponseWriter) : Response :=
  let code := default StatusOK (status w) in
  {| StatusCode := code; Status := status_line code; Body := body w; ReadErr := None |}.

Lemma status_Error (w : ResponseWriter) (msg : string) (code : Z) :
  status w = None -> status (Error w msg code) = Some code.
Proof.
  intros Hs. unfold Error, Write, WriteHeader, Header_Set. simpl. rewrite Hs. simpl.
  by destruct (broken w).
Qed.

(** What a write on a good connection leaves. *)
Lemma Write_spec (b : list byte) (w : ResponseWriter) :
  broken w = false ->
  Write b w = ({| status := Some (default StatusOK (status w)); header := header w;
                  body := body w ++ b; broken := false |}, None).
Proof.
  intros Hb. unfold Write, WriteHeader. rewrite Hb.
  destruct (status w) as [c|] eqn:Hs; cbn [status header body broken default from_option id];
    by rewrite ?Hs, ?Hb.
Qed.

Lemma Error_spec (w : ResponseWriter) (msg : string) (code : Z) :
  status w = None -> broken w = false ->
  status (Error w msg code) = Some code /\
  body (Error w msg code) = body w ++ String.list_byte_of_string (msg +:+ newline).
Proof.
  destruct w as [s h bd br]. cbn [status broken]. intros -> ->.
  by unfold Error, Write, WriteHeader, Header_Set.
Qed.

Lemma Write_ok (b : list byte) (w : ResponseWriter) :
  broken w = false -> (Write b w).2 = None.
Proof. intros Hb. unfold Write. by rewrite Hb. Qed.

Lemma Write_broken (b : list byte) (w : ResponseWriter) :
  broken w = true -> Write b w = (w, Some "write: broken pipe").
Proof. intros Hb. unfold Write. by rewrite Hb. Qed.

End nethttp.
