(* ===== verification/Lru.v ===== *)
(** * Lru: the byte-bounded LRU store of [src/lru/lru.go]

    [lru.Cache] is modelled with its five fields: [maxBytes], [nbytes], the
    linked list [ll] (a [golist.List] of entries), the index [cache] from a
    key to the address of its list element, and the optional callback
    [onEvicted].  The callback acts on a state [W] of its owner, so the
    operations that may call it thread a [W].

    Operations: [New], [Get], [RemoveOldest], [Add] (with its eviction loop
    [evict]) and [CacheLen] (the method [Len] of [Cache]; [Len] is the
    method of the interface [Value]).  Every operation returns an
    [outcome]: the type assertion [ele.Value.( *entry)] panics when the
    element holds no entry, and the loop of [Add] may not terminate.

    Theorems: the representation invariant [lru.wf] holds of [New] and is
    preserved by every operation; under it no operation panics; the loop
    terminates exactly when [maxBytes] is not negative; after [Add] the
    bound [nbytes <= maxBytes] holds when [maxBytes] is positive. *)

From Stdlib Require Import ZArith Lia.
From stdpp Require Import base tactics option list gmap strings.
From S2P Require Import Prelude GoList.

Module lru.

(** The interface [Value]: a value reports the memory it takes. *)
Class Value (V : Type) : Type := Len : V -> Z.

Section with_value.
Context {V : Type} `{!Value V} {W : Type}.

(** The data of a list element. *)
Record entry : Type := mkEntry {
  key : string;
  value : V
}.

Record Cache : Type := mkCache {
  maxBytes : Z;
  nbytes : Z;
  ll : golist.List entry;
  cache : gmap string golist.loc;
  onEvicted : option (string -> V -> W -> W)
}.

Implicit Types (c : Cache) (w : W) (k : string) (v : V) (kv : entry).

(** The bytes an entry accounts for:
    [int64(len(kv.key)) + int64(kv.value.Len())]. *)
Definition entry_size (k : string) (v : V) : Z :=
  add64 (int64 (len_string k)) (int64 (Len v)).

(** [ele.Value.( *entry)] *)
Definition entry_of (ele : golist.loc) (l : golist.List entry) : outcome entry :=
  deref "interface conversion: interface is nil, not *lru.entry"
    (golist.Value ele l).

Definition New (maxBytes : Z) (onEvicted : option (string -> V -> W -> W)) : Cache :=
  {| maxBytes := maxBytes;
     nbytes := 0;
     ll := golist.New;
     cache := ∅;
     onEvicted := onEvicted |}.

(** [Get] looks the key up in the index, moves its element to the front
    and returns the value; [(nil, false)] is [None]. *)
Definition Get (k : string) (c : Cache) : outcome (option V * Cache) :=
  match cache c !! k with
  | Some ele =>
      let ll' := golist.MoveToFront ele (ll c) in
      kv ← entry_of ele ll';
      Ok (Some (value kv),
          {| maxBytes := maxBytes c; nbytes := nbytes c; ll := ll';
             cache := cache c; onEvicted := onEvicted c |})
  | None => Ok (None, c)
  end.

(** [RemoveOldest] unlinks the back element, deletes its key from the
    index, subtracts its size and calls the callback. *)
Definition RemoveOldest (c : Cache) (w : W) : outcome (Cache * W) :=
  match golist.Back (ll c) with
  | Some ele =>
      let ll' := golist.Remove ele (ll c) in
      kv ← entry_of ele ll';
      let c' := {| maxBytes := maxBytes c;
                   nbytes := sub64 (nbytes c) (entry_size (key kv) (value kv));
                   ll := ll';
                   cache := delete (key kv) (cache c);
                   onEvicted := onEvicted c |} in
      match onEvicted c with
      | Some f => Ok (c', f (key kv) (value kv) w)
      | None => Ok (c', w)
      end
  | None => Ok (c, w)
  end.

(** The loop [for c.maxBytes != 0 && c.maxBytes < c.nbytes]. *)
Fixpoint evict (fuel : nat) (c : Cache) (w : W) : outcome (Cache * W) :=
  if bool_decide (maxBytes c <> 0%Z) && bool_decide (maxBytes c < nbytes c)%Z then
    match fuel with
    | 0 => Diverge
    | S fuel' => '(c', w') ← RemoveOldest c w; evict fuel' c' w'
    end
  else Ok (c, w).

(** The two branches of [Add] before the loop. *)
Definition store (k : string) (v : V) (c : Cache) : outcome Cache :=
  match cache c !! k with
  | Some ele =>
      let ll' := golist.MoveToFront ele (ll c) in
      kv ← entry_of ele ll';
      Ok {| maxBytes := maxBytes c;
            nbytes := add64 (nbytes c) (sub64 (int64 (Len v)) (int64 (Len (value kv))));
            ll := golist.SetValue ele (mkEntry (key kv) v) ll';
            cache := cache c;
            onEvicted := onEvicted c |}
  | None =>
      let '(ele, ll') := golist.PushFront (mkEntry k v) (ll c) in
      Ok {| maxBytes := maxBytes c;
            nbytes := add64 (nbytes c) (entry_size k v);
            ll := ll';
            cache := <[k := ele]> (cache c);
            onEvicted := onEvicted c |}
  end.

Definition Add (k : string) (v : V) (c : Cache) (w : W) : outcome (Cache * W) :=
  c' ← store k v c;
  evict (S (golist.Len (ll c'))) c' w.

(** [c.Len()]: the number of entries. *)
Definition CacheLen (c : Cache) : Z := Z.of_nat (golist.Len (ll c)).

(** ** The abstract view *)

Definition pair_of (kv : entry) : string * V := (key kv, value kv).

(** The pairs a heap holds at a sequence of addresses. *)
Definition ents (h : gmap golist.loc entry) (o : list golist.loc) : list (string * V) :=
  pair_of <$> golist.vals h o.

(** The entries from most to least recently used. *)
Definition entries (c : Cache) : list (string * V) :=
  ents (golist.elems (ll c)) (golist.order (ll c)).

(** The mathematical sum of the entry sizes. *)
Definition total (l : list (string * V)) : Z :=
  foldr (fun p acc => len_string p.1 + Len p.2 + acc)%Z 0%Z l.

(** ** The representation invariant *)

Record wf (c : Cache) : Prop := mkWf {
  wf_ll : golist.wf (ll c);
  wf_index : forall k ele, cache c !! k = Some ele ->
    ele ∈ golist.order (ll c) /\
    exists v, golist.Value ele (ll c) = Some (mkEntry k v);
  wf_linked : forall ele kv, ele ∈ golist.order (ll c) ->
    golist.Value ele (ll c) = Some kv -> cache c !! key kv = Some ele;
  wf_nbytes : nbytes c = wrap64 (total (entries c))
}.

(** ** Sizes *)

Lemma total_cons k v l : total ((k, v) :: l) = (len_string k + Len v + total l)%Z.
Proof. done. Qed.

Lemma total_app l1 l2 : total (l1 ++ l2) = (total l1 + total l2)%Z.
Proof. induction l1 as [|[??] l1 IH]; simpl; [done|]. rewrite IH. lia. Qed.

#[export] Instance total_Permutation : Proper ((≡ₚ) ==> (=)) total.
Proof. induction 1 as [|[??]|[??] [??]|]; simpl; lia. Qed.

Lemma entry_size_wrap k v : entry_size k v = wrap64 (len_string k + Len v).
Proof. apply add64_int64. Qed.

(** ** Entries and the heap *)

Section heap.
Implicit Types (h : gmap golist.loc entry) (o : list golist.loc) (e : golist.loc).

Lemma ents_app h o1 o2 : ents h (o1 ++ o2) = ents h o1 ++ ents h o2.
Proof. unfold ents. by rewrite golist.ll_vals_app, fmap_app. Qed.

Lemma ents_cons h e o kv :
  h !! e = Some kv -> ents h (e :: o) = pair_of kv :: ents h o.
Proof. intros He. unfold ents. by rewrite (golist.ll_vals_cons _ _ _ kv). Qed.

Lemma ents_middle h o1 e o2 kv :
  h !! e = Some kv -> ents h (o1 ++ e :: o2) = ents h o1 ++ pair_of kv :: ents h o2.
Proof. intros He. by rewrite ents_app, (ents_cons _ _ _ kv). Qed.

Lemma ents_insert_notin h e kv o : e ∉ o -> ents (<[e := kv]> h) o = ents h o.
Proof. intros. unfold ents. by rewrite golist.ll_vals_insert_notin. Qed.

Lemma elem_of_keys_ents h o k :
  k ∈ (ents h o).*1 <-> exists e kv, (e ∈ o) /\ h !! e = Some kv /\ key kv = k.
Proof.
  unfold ents. rewrite <- list_fmap_compose, list_elem_of_fmap. split.
  - intros (kv & -> & (e & ? & ?)%golist.ll_elem_of_vals). eauto.
  - intros (e & kv & ? & ? & <-). exists kv. split; [done|].
    apply golist.ll_elem_of_vals. eauto.
Qed.

Lemma length_entries c : wf c -> length (entries c) = golist.Len (ll c).
Proof.
  intros Hwf. unfold entries, ents. rewrite length_fmap.
  apply golist.ll_length_contents, Hwf.
Qed.

End heap.

(** ** The index agrees with the entries *)

Lemma lru_index_None c k :
  wf c -> cache c !! k = None -> k ∉ (entries c).*1.
Proof.
  intros Hwf Hk (e & kv & He & Hkv & <-)%elem_of_keys_ents.
  by rewrite (wf_linked _ Hwf e kv) in Hk.
Qed.

(** A key of the index is the key of one linked element, and of no other. *)
Lemma lru_index_split c k e :
  wf c -> cache c !! k = Some e ->
  exists o1 o2 v,
    golist.order (ll c) = o1 ++ e :: o2 /\
    golist.elems (ll c) !! e = Some (mkEntry k v) /\
    (e ∉ o1 ++ o2) /\
    (k ∉ (ents (golist.elems (ll c)) o1).*1) /\
    k ∉ (ents (golist.elems (ll c)) o2).*1.
Proof.
  intros Hwf Hk. destruct (wf_index _ Hwf _ _ Hk) as [Hin [v Hv]].
  destruct (list_elem_of_split _ _ Hin) as (o1 & o2 & Ho).
  pose proof (golist.wf_NoDup _ (wf_ll _ Hwf)) as Hnd. rewrite Ho in Hnd.
  apply NoDup_app in Hnd as (_ & Hd & [Hn _]%NoDup_cons).
  assert (forall e' kv, e' ∈ o1 ++ e :: o2 ->
    golist.elems (ll c) !! e' = Some kv -> key kv = k -> e' = e) as Huniq.
  { intros e' kv He' Hkv <-. rewrite <- Ho in He'.
    pose proof (wf_linked _ Hwf e' kv He' Hkv). congruence. }
  exists o1, o2, v. split_and!; [done..| | |].
  - intros [He|He]%elem_of_app; [|done]. apply (Hd e He). by left.
  - intros (e' & kv & He' & Hkv & Hkk)%elem_of_keys_ents.
    rewrite (Huniq e' kv) in He'; [|set_solver|done..]. apply (Hd e He'). by left.
  - intros (e' & kv & He' & Hkv & Hkk)%elem_of_keys_ents.
    rewrite (Huniq e' kv) in He'; [done|set_solver|done..].
Qed.

(** ** [Get] *)

(** The cache with its list replaced. *)
Definition with_ll (l : golist.List entry) c : Cache :=
  {| maxBytes := maxBytes c; nbytes := nbytes c; ll := l;
     cache := cache c; onEvicted := onEvicted c |}.

(** A key of the index sits at one place of the entries, and moving its
    element to the front moves its pair to the front. *)
Lemma lru_entries_split c k e :
  wf c -> cache c !! k = Some e ->
  exists v l1 l2,
    golist.Value e (ll c) = Some (mkEntry k v) /\
    entries c = l1 ++ (k, v) :: l2 /\
    (k ∉ l1.*1) /\ (k ∉ l2.*1) /\
    entries (with_ll (golist.MoveToFront e (ll c)) c) = (k, v) :: l1 ++ l2.
Proof.
  intros Hwf Hk.
  destruct (lru_index_split _ _ _ Hwf Hk) as (o1 & o2 & v & Ho & Hv & _ & H1 & H2).
  exists v, (ents (golist.elems (ll c)) o1), (ents (golist.elems (ll c)) o2).
  unfold entries. cbn [with_ll ll].
  rewrite golist.ll_elems_MoveToFront, (golist.ll_order_MoveToFront_middle _ _ o1 o2), Ho
    by (done || apply Hwf).
  by rewrite (ents_middle _ _ _ _ _ Hv), (ents_cons _ _ _ _ Hv), ents_app.
Qed.

Lemma lru_wf_touch c k e :
  wf c -> cache c !! k = Some e -> wf (with_ll (golist.MoveToFront e (ll c)) c).
Proof.
  intros Hwf Hk. split; cbn [with_ll ll cache nbytes].
  - apply golist.ll_wf_MoveToFront, Hwf.
  - intros k' e'. rewrite golist.ll_elem_of_MoveToFront, golist.ll_Value_MoveToFront.
    apply Hwf.
  - intros e' kv. rewrite golist.ll_elem_of_MoveToFront, golist.ll_Value_MoveToFront.
    apply Hwf.
  - destruct (lru_entries_split _ _ _ Hwf Hk) as (v & l1 & l2 & _ & Hl & _ & _ & ->).
    rewrite (wf_nbytes _ Hwf), Hl. f_equal.
    rewrite !total_app, !total_cons, total_app. lia.
Qed.

(** [Get] returns the value the entries hold for the key, and moves the
    entry to the front. *)
Lemma lru_Get_spec c k :
  wf c ->
  exists c', Get k c = Ok (alookup k (entries c), c') /\
    wf c' /\ entries c' = touch k (entries c) /\
    maxBytes c' = maxBytes c /\ nbytes c' = nbytes c /\ onEvicted c' = onEvicted c.
Proof.
  intros Hwf. unfold Get. destruct (cache c !! k) as [e|] eqn:Hk.
  - destruct (lru_entries_split _ _ _ Hwf Hk) as (v & l1 & l2 & Hv & Hl & H1 & H2 & Hl').
    unfold entry_of. rewrite golist.ll_Value_MoveToFront, Hv. simpl.
    eexists. rewrite Hl, alookup_middle, touch_middle by done.
    split_and!; [reflexivity|by apply (lru_wf_touch _ k)|done..].
  - pose proof (lru_index_None _ _ Hwf Hk) as Hn.
    exists c. rewrite touch_notin by done. by apply alookup_None in Hn as ->.
Qed.

(** ** [Add]: storing the pair *)

Lemma lru_store_miss c k v :
  wf c -> cache c !! k = None ->
  exists c', store k v c = Ok c' /\ wf c' /\ entries c' = (k, v) :: entries c /\
    maxBytes c' = maxBytes c /\ onEvicted c' = onEvicted c.
Proof.
  intros Hwf Hk.
  set (c' := {| maxBytes := maxBytes c; nbytes := add64 (nbytes c) (entry_size k v);
      ll := (golist.PushFront (mkEntry k v) (ll c)).2;
      cache := <[k := golist.next (ll c)]> (cache c); onEvicted := onEvicted c |}).
  exists c'. split; [by unfold store; rewrite Hk|].
  pose proof (golist.ll_next_notin _ (wf_ll _ Hwf)) as Hfresh.
  assert (entries c' = (k, v) :: entries c) as Hents.
  { transitivity (pair_of <$> golist.contents (golist.PushFront (mkEntry k v) (ll c)).2);
      [done|]. by rewrite golist.ll_contents_PushFront by apply Hwf. }
  split_and!; [|done..]. split; cbn [c' ll cache nbytes].
  - apply golist.ll_wf_PushFront, Hwf.
  - intros k' e'. rewrite lookup_insert. case_decide as Hkk.
    + intros [= <-]. subst k'. split; [by left|]. exists v. apply lookup_insert_eq.
    + intros [He' [v' Hv']]%Hwf. split; [by right|]. exists v'.
      by rewrite golist.ll_Value_PushFront_old by (done || apply Hwf).
  - intros e' kv [->|He']%elem_of_cons.
    + unfold golist.Value. cbn [golist.PushFront snd golist.elems].
      rewrite lookup_insert_eq. intros [= <-]. apply lookup_insert_eq.
    + rewrite golist.ll_Value_PushFront_old by (done || apply Hwf). intros Hkv.
      pose proof (wf_linked _ Hwf _ _ He' Hkv) as Hc.
      rewrite lookup_insert_ne; [done|]. intros ->. congruence.
  - rewrite Hents, total_cons, (wf_nbytes _ Hwf), entry_size_wrap.
    unfold add64. autorewrite with int64. f_equal. lia.
Qed.

Lemma lru_store_hit c k v e :
  wf c -> cache c !! k = Some e ->
  exists c', store k v c = Ok c' /\ wf c' /\
    entries c' = (k, v) :: aremove k (entries c) /\
    maxBytes c' = maxBytes c /\ onEvicted c' = onEvicted c.
Proof.
  intros Hwf Hk. unfold store, entry_of. rewrite Hk.
  destruct (lru_index_split _ _ _ Hwf Hk) as (o1 & o2 & v0 & Ho & Hv & He & H1 & H2).
  rewrite golist.ll_Value_MoveToFront. unfold golist.Value at 1. rewrite Hv. simpl.
  eexists. split; [done|].
  pose proof (lru_wf_touch _ _ _ Hwf Hk) as Hwf1.
  pose proof (golist.ll_order_MoveToFront_middle _ _ _ _ (wf_ll _ Hwf) Ho) as Ho'.
  set (l1 := golist.MoveToFront e (ll c)) in *.
  assert (entries {| maxBytes := maxBytes c;
      nbytes := add64 (nbytes c) (sub64 (int64 (Len v)) (int64 (Len v0)));
      ll := golist.SetValue e (mkEntry k v) l1;
      cache := cache c; onEvicted := onEvicted c |}
    = (k, v) :: ents (golist.elems (ll c)) o1 ++ ents (golist.elems (ll c)) o2) as Hents.
  { unfold entries. cbn [ll golist.SetValue golist.elems golist.order]. rewrite Ho'.
    rewrite (ents_cons _ _ _ (mkEntry k v)) by apply lookup_insert_eq.
    rewrite ents_insert_notin by done. unfold l1.
    by rewrite golist.ll_elems_MoveToFront, ents_app. }
  assert (entries c = ents (golist.elems (ll c)) o1 ++ (k, v0) :: ents (golist.elems (ll c)) o2)
    as Hold by (unfold entries; by rewrite Ho, (ents_middle _ _ _ _ _ Hv)).
  split_and!; [|by rewrite Hents, Hold, aremove_middle|done..].
  split; cbn [ll cache nbytes].
  - apply golist.ll_wf_SetValue; [apply Hwf1|]. cbn [with_ll ll]. rewrite Ho'. by left.
  - intros k' e' Hk'. destruct (wf_index _ Hwf1 _ _ Hk') as [Hin [v' Hv']].
    split; [done|]. cbn [with_ll ll] in Hv'. destruct (decide (e = e')) as [<-|Hne].
    + exists v. rewrite golist.ll_Value_SetValue. do 2 f_equal.
      unfold l1 in Hv'. rewrite golist.ll_Value_MoveToFront in Hv'.
      unfold golist.Value in Hv'. congruence.
    + exists v'. by rewrite golist.ll_Value_SetValue_ne.
  - intros e' kv He'. destruct (decide (e = e')) as [<-|Hne].
    + rewrite golist.ll_Value_SetValue. by intros [= <-].
    + rewrite golist.ll_Value_SetValue_ne by done. by apply (wf_linked _ Hwf1).
  - rewrite Hents, (wf_nbytes _ Hwf), Hold, total_cons, !total_app, total_cons.
    unfold add64. autorewrite with int64. f_equal. lia.
Qed.

(** Storing a pair puts it at the front and drops the older pair of the
    same key. *)
Lemma lru_store_spec c k v :
  wf c ->
  exists c', store k v c = Ok c' /\ wf c' /\
    entries c' = (k, v) :: aremove k (entries c) /\
    maxBytes c' = maxBytes c /\ onEvicted c' = onEvicted c.
Proof.
  intros Hwf. destruct (cache c !! k) as [e|] eqn:Hk.
  - by apply (lru_store_hit _ _ _ e).
  - rewrite aremove_notin by by apply lru_index_None. by apply lru_store_miss.
Qed.

(** A miss leaves the cache as it is. *)
Lemma lru_Get_miss c k :
  wf c -> alookup k (entries c) = None -> Get k c = Ok (None, c).
Proof.
  intros Hwf Hk. unfold Get. destruct (cache c !! k) as [e|] eqn:He; [|done].
  destruct (lru_entries_split _ _ _ Hwf He) as (v & l1 & l2 & _ & Hl & H1 & _).
  by rewrite Hl, alookup_middle in Hk.
Qed.

(** ** [RemoveOldest] *)

(** The call of the callback, when there is one. *)
Definition notify (f : option (string -> V -> W -> W)) (p : string * V) (w : W) : W :=
  match f with
  | Some f => f p.1 p.2 w
  | None => w
  end.

Lemma lru_RemoveOldest_nil c w :
  wf c -> entries c = [] -> RemoveOldest c w = Ok (c, w).
Proof.
  intros Hwf Hnil. unfold RemoveOldest.
  assert (golist.order (ll c) = []) as Ho.
  { apply nil_length_inv. change (golist.Len (ll c) = 0).
    by rewrite <- length_entries, Hnil. }
  unfold golist.Back. by rewrite Ho.
Qed.

Lemma lru_RemoveOldest_snoc c w l p :
  wf c -> entries c = l ++ [p] ->
  exists c', RemoveOldest c w = Ok (c', notify (onEvicted c) p w) /\
    wf c' /\ entries c' = l /\
    maxBytes c' = maxBytes c /\ onEvicted c' = onEvicted c.
Proof.
  intros Hwf Hl. unfold RemoveOldest, entry_of.
  destruct (golist.Back (ll c)) as [e|] eqn:Hb.
  2:{ apply golist.ll_Back_None in Hb. unfold entries in Hl. rewrite Hb in Hl.
      by destruct l. }
  destruct (golist.ll_order_Remove_Back _ _ (wf_ll _ Hwf) Hb) as (o & Ho & Ho').
  destruct (golist.wf_alloc _ (wf_ll _ Hwf) e) as [kv Hkv];
    [by eapply golist.ll_Back_elem_of|].
  pose proof (golist.wf_NoDup _ (wf_ll _ Hwf)) as Hnd. rewrite Ho in Hnd.
  apply NoDup_snoc in Hnd as [Hne Hnd].
  unfold entries in Hl. rewrite Ho, (ents_middle _ _ _ _ _ Hkv) in Hl.
  apply app_inj_tail in Hl as [Hl <-].
  rewrite golist.ll_Value_Remove. unfold golist.Value at 1. rewrite Hkv. simpl.
  set (c' := {| maxBytes := maxBytes c;
      nbytes := sub64 (nbytes c) (entry_size (key kv) (value kv));
      ll := golist.Remove e (ll c); cache := delete (key kv) (cache c);
      onEvicted := onEvicted c |}).
  exists c'. split; [by destruct (onEvicted c)|].
  assert (entries c' = l) as Hents
    by (unfold entries; cbn [c' ll]; by rewrite golist.ll_elems_Remove, Ho').
  assert (cache c !! key kv = Some e) as Hce.
  { apply (wf_linked _ Hwf); [|done]. rewrite Ho, elem_of_app. right. by left. }
  split_and!; [|done..]. split; cbn [c' ll cache nbytes].
  - apply golist.ll_wf_Remove, Hwf.
  - intros k' e' [Hk' Hc]%lookup_delete_Some.
    destruct (wf_index _ Hwf _ _ Hc) as [Hin [v' Hv']].
    rewrite golist.ll_Value_Remove, Ho'. split; [|by eauto].
    rewrite Ho in Hin. apply elem_of_app in Hin as [?|He2]; [done|].
    apply list_elem_of_singleton in He2 as ->.
    unfold golist.Value in Hv'. rewrite Hkv in Hv'. injection Hv' as ->. done.
  - intros e' kv'. rewrite golist.ll_Value_Remove, Ho'. intros He' Hkv'.
    assert (cache c !! key kv' = Some e') as Hc'.
    { apply (wf_linked _ Hwf); [|done]. rewrite Ho, elem_of_app. by left. }
    rewrite lookup_delete_ne; [done|]. intros Heq. rewrite Heq in Hce. congruence.
  - rewrite Hents, (wf_nbytes _ Hwf), entry_size_wrap. unfold entries at 1.
    rewrite Ho, (ents_middle _ _ _ _ _ Hkv), Hl, total_app. unfold pair_of.
    rewrite total_cons. unfold sub64. autorewrite with int64. f_equal. simpl. lia.
Qed.

(** ** The eviction loop *)

(** The test of the loop, on the entries. *)
Definition over (maxB : Z) (l : list (string * V)) : bool :=
  bool_decide (maxB <> 0%Z) && bool_decide (maxB < wrap64 (total l))%Z.

Lemma lru_over_cond c :
  wf c ->
  bool_decide (maxBytes c <> 0%Z) && bool_decide (maxBytes c < nbytes c)%Z
  = over (maxBytes c) (entries c).
Proof. intros Hwf. unfold over. by rewrite (wf_nbytes _ Hwf). Qed.

Lemma lru_over_nil maxB : (0 <= maxB)%Z -> over maxB [] = false.
Proof.
  intros. unfold over. simpl. rewrite wrap64_0.
  apply andb_false_iff. right. apply bool_decide_eq_false. lia.
Qed.

(** One turn of the loop on a cache that holds an entry. *)
Lemma lru_evict_step c w l p :
  wf c -> entries c = l ++ [p] -> over (maxBytes c) (l ++ [p]) = true ->
  exists c',
    (forall fuel, evict (S fuel) c w = evict fuel c' (notify (onEvicted c) p w)) /\
    wf c' /\ entries c' = l /\
    maxBytes c' = maxBytes c /\ onEvicted c' = onEvicted c.
Proof.
  intros Hwf Hl Ho.
  destruct (lru_RemoveOldest_snoc _ w _ _ Hwf Hl) as (c' & Hr & ?).
  exists c'. split; [|done]. intros fuel. cbn [evict].
  by rewrite lru_over_cond, Hl, Ho, Hr by done.
Qed.

(** On an empty cache a turn of the loop changes nothing. *)
Lemma lru_evict_stuck fuel c w :
  wf c -> entries c = [] -> over (maxBytes c) [] = true ->
  evict fuel c w = Diverge.
Proof.
  intros Hwf Hl Ho. induction fuel as [|fuel IH]; cbn [evict];
    rewrite lru_over_cond, Hl, Ho by done; [done|].
  by rewrite lru_RemoveOldest_nil.
Qed.

Lemma lru_evict_done fuel c w :
  wf c -> over (maxBytes c) (entries c) = false -> evict fuel c w = Ok (c, w).
Proof. intros Hwf Ho. destruct fuel; cbn [evict]; by rewrite lru_over_cond, Ho. Qed.

(** The loop drops entries from the back while the test holds, and calls
    the callback on each, the least recently used first. *)
Lemma lru_evict_spec fuel c w :
  wf c -> (0 <= maxBytes c)%Z -> length (entries c) < fuel ->
  exists c',
    evict fuel c w
    = Ok (c', foldr (notify (onEvicted c)) w
                (drop (length (evict_by (over (maxBytes c)) (entries c))) (entries c))) /\
    wf c' /\ entries c' = evict_by (over (maxBytes c)) (entries c) /\
    maxBytes c' = maxBytes c /\ onEvicted c' = onEvicted c.
Proof.
  revert c w. induction fuel as [|fuel IH]; intros c w Hwf Hmax Hlen; [lia|].
  destruct (over (maxBytes c) (entries c)) eqn:Ho.
  2:{ exists c. rewrite lru_evict_done, evict_by_id, drop_all by done. done. }
  destruct (entries c) as [|p l _] eqn:Hl using rev_ind.
  { by rewrite lru_over_nil in Ho. }
  destruct (lru_evict_step _ w _ _ Hwf Hl Ho) as (c1 & -> & Hwf1 & Hl1 & Hm1 & Hf1).
  rewrite length_app in Hlen. simpl in Hlen.
  destruct (IH c1 (notify (onEvicted c) p w)) as (c' & -> & ? & ? & ? & ?);
    [done|lia|rewrite Hl1; lia|].
  exists c'. rewrite Hl1, Hm1, Hf1 in *. rewrite evict_by_snoc by done.
  split_and!; [|done|done|congruence..].
  do 2 f_equal. pose proof (prefix_length _ _ (evict_by_prefix (over (maxBytes c)) l)).
  by rewrite drop_app_le, foldr_app by done.
Qed.

(** When every prefix of the entries is over the bound, the loop empties
    the cache and then runs for ever. *)
Lemma lru_evict_diverge fuel c w :
  wf c -> (forall n, over (maxBytes c) (take n (entries c)) = true) ->
  evict fuel c w = Diverge.
Proof.
  revert c w. induction fuel as [|fuel IH]; intros c w Hwf Hov.
  { cbn [evict]. rewrite lru_over_cond by done.
    by rewrite <- (firstn_all (entries c)), Hov. }
  destruct (entries c) as [|p l _] eqn:Hl using rev_ind.
  { apply lru_evict_stuck; [done..|]. apply (Hov 0). }
  destruct (lru_evict_step _ w _ _ Hwf Hl) as (c1 & -> & Hwf1 & Hl1 & Hm1 & Hf1).
  { rewrite <- (firstn_all (l ++ [p])). apply Hov. }
  apply IH; [done|]. intros n. rewrite Hl1, Hm1.
  destruct (decide (n <= length l)).
  - rewrite <- (take_app_le l [p]) by done. apply Hov.
  - rewrite take_ge by lia. rewrite <- (take_app_length l [p]). apply (Hov (length l)).
Qed.

(** The fuel of [Add] is exact: more fuel gives the same outcome. *)
Lemma lru_evict_fuel fuel1 fuel2 c w :
  wf c -> length (entries c) < fuel1 -> length (entries c) < fuel2 ->
  evict fuel1 c w = evict fuel2 c w.
Proof.
  revert fuel2 c w. induction fuel1 as [|fuel1 IH]; intros fuel2 c w Hwf H1 H2; [lia|].
  destruct fuel2 as [|fuel2]; [lia|].
  destruct (over (maxBytes c) (entries c)) eqn:Ho.
  2:{ by rewrite !lru_evict_done. }
  destruct (entries c) as [|p l _] eqn:Hl using rev_ind.
  { by rewrite !lru_evict_stuck. }
  rewrite length_app in H1, H2. simpl in H1, H2.
  destruct (lru_evict_step _ w _ _ Hwf Hl Ho) as (c1 & Hstep & Hwf1 & Hl1 & _).
  rewrite !Hstep. apply IH; rewrite ?Hl1; done || lia.
Qed.

(** What the loop has done when it stops, whatever [maxBytes] is. *)
Lemma lru_evict_Ok fuel c w c' w' :
  wf c -> evict fuel c w = Ok (c', w') ->
  wf c' /\ entries c' = evict_by (over (maxBytes c)) (entries c) /\
  w' = foldr (notify (onEvicted c)) w (drop (length (entries c')) (entries c)) /\
  maxBytes c' = maxBytes c /\ onEvicted c' = onEvicted c /\
  over (maxBytes c) (entries c') = false.
Proof.
  revert c w. induction fuel as [|fuel IH]; intros c w Hwf;
    destruct (over (maxBytes c) (entries c)) eqn:Ho.
  - cbn [evict]. by rewrite lru_over_cond, Ho.
  - rewrite lru_evict_done by done. intros [= <- <-].
    by rewrite evict_by_id, drop_all.
  - destruct (entries c) as [|p l _] eqn:Hl using rev_ind.
    { by rewrite lru_evict_stuck. }
    destruct (lru_evict_step _ w _ _ Hwf Hl Ho) as (c1 & -> & Hwf1 & Hl1 & Hm1 & Hf1).
    intros (? & He & -> & ? & ? & ?)%IH; [|done].
    rewrite Hl1, Hm1, Hf1 in *. rewrite evict_by_snoc by done.
    split_and!; [done..| |congruence|congruence|done].
    pose proof (prefix_length _ _ (evict_by_prefix (over (maxBytes c)) l)).
    by rewrite drop_app_le, foldr_app by (rewrite He; done).
  - rewrite lru_evict_done by done. intros [= <- <-].
    by rewrite evict_by_id, drop_all.
Qed.

(** ** [Add] *)

(** [Add] on the entries: the pair goes to the front, then entries leave
    from the back while the test of the loop holds. *)
Definition added (maxB : Z) (k : string) (v : V) (l : list (string * V)) :
    list (string * V) :=
  evict_by (over maxB) ((k, v) :: aremove k l).

Lemma elem_of_added maxB k v l p : p ∈ added maxB k v l -> p = (k, v) \/ p ∈ l.
Proof.
  unfold added. intros Hp.
  pose proof (elem_of_prefix _ _ _ Hp (evict_by_prefix _ _)) as Hp'. clear Hp. rename Hp' into Hp.
  apply elem_of_cons in Hp as [->|[? _]%elem_of_aremove]; [by left|by right].
Qed.

Lemma lru_Add_Ok k v c w c' w' :
  wf c -> Add k v c w = Ok (c', w') ->
  wf c' /\ entries c' = added (maxBytes c) k v (entries c) /\
  w' = foldr (notify (onEvicted c)) w
         (drop (length (entries c')) ((k, v) :: aremove k (entries c))) /\
  maxBytes c' = maxBytes c /\ onEvicted c' = onEvicted c /\
  over (maxBytes c) (entries c') = false.
Proof.
  intros Hwf. unfold Add, added.
  destruct (lru_store_spec c k v Hwf) as (c1 & -> & Hwf1 & Hl1 & Hm1 & Hf1).
  cbn [mbind outcome_bind].
  intros HH%lru_evict_Ok; [|done]. by rewrite Hl1, Hm1, Hf1 in HH.
Qed.

Lemma lru_Add_spec k v c w :
  wf c -> (0 <= maxBytes c)%Z ->
  exists c' w', Add k v c w = Ok (c', w') /\ wf c' /\
    entries c' = added (maxBytes c) k v (entries c).
Proof.
  intros Hwf Hmax. unfold Add.
  destruct (lru_store_spec c k v Hwf) as (c1 & Hs & Hwf1 & Hl1 & Hm1 & Hf1).
  destruct (lru_evict_spec (S (golist.Len (ll c1))) c1 w Hwf1) as (c' & He & ? & Hl' & _);
    [lia|rewrite length_entries by done; lia|].
  exists c'. eexists. rewrite Hs. cbn [mbind outcome_bind]. rewrite He.
  split_and!; [done..|]. by rewrite Hl', Hl1, Hm1.
Qed.

(** ** The operations as a transition system *)

Lemma lru_New_wf maxB f : wf (New maxB f).
Proof.
  split; cbn [New ll cache nbytes].
  - apply golist.ll_wf_New.
  - intros k e. by rewrite lookup_empty.
  - by intros e kv ?%elem_of_nil.
  - done.
Qed.

Lemma lru_RemoveOldest_Ok c w c' w' :
  wf c -> RemoveOldest c w = Ok (c', w') ->
  wf c' /\ entries c' = take (length (entries c) - 1) (entries c) /\
  maxBytes c' = maxBytes c /\ onEvicted c' = onEvicted c.
Proof.
  intros Hwf. destruct (entries c) as [|p l _] eqn:Hl using rev_ind.
  - rewrite lru_RemoveOldest_nil by done. intros [= <- <-]. by rewrite Hl.
  - destruct (lru_RemoveOldest_snoc _ w _ _ Hwf Hl) as (c1 & -> & ? & Hl1 & ? & ?).
    intros [= <- <-]. rewrite Hl1, length_app. simpl.
    by rewrite take_app_le, take_ge by lia.
Qed.

Lemma lru_evict_no_panic fuel c w msg : wf c -> evict fuel c w <> Panic msg.
Proof.
  revert c w. induction fuel as [|fuel IH]; intros c w Hwf;
    destruct (over (maxBytes c) (entries c)) eqn:Ho;
    try (by rewrite lru_evict_done by done).
  - cbn [evict]. by rewrite lru_over_cond, Ho.
  - destruct (entries c) as [|p l _] eqn:Hl using rev_ind.
    { by rewrite lru_evict_stuck. }
    destruct (lru_evict_step _ w _ _ Hwf Hl Ho) as (c1 & -> & Hwf1 & _). by apply IH.
Qed.

(** A call of an operation that returns. *)
Inductive step : Cache * W -> Cache * W -> Prop :=
| step_Get k c w r c' :
    Get k c = Ok (r, c') -> step (c, w) (c', w)
| step_Add k v c w c' w' :
    Add k v c w = Ok (c', w') -> step (c, w) (c', w')
| step_RemoveOldest c w c' w' :
    RemoveOldest c w = Ok (c', w') -> step (c, w) (c', w').

Lemma lru_step_wf s s' : step s s' -> wf s.1 -> wf s'.1.
Proof.
  destruct 1 as [k c w r c' HG|k v c w c' w' HA|c w c' w' HR]; simpl; intros Hwf.
  - destruct (lru_Get_spec c k Hwf) as (c1 & Hc1 & ? & _). congruence.
  - by apply (lru_Add_Ok _ _ _ _ _ _ Hwf HA).
  - by apply (lru_RemoveOldest_Ok _ _ _ _ Hwf HR).
Qed.

(** Distinct linked elements hold distinct keys. *)
Lemma lru_ents_keys_NoDup (h : gmap golist.loc entry) (o : list golist.loc) :
  NoDup o ->
  (forall e1 e2 kv1 kv2, e1 ∈ o -> e2 ∈ o -> h !! e1 = Some kv1 ->
     h !! e2 = Some kv2 -> key kv1 = key kv2 -> e1 = e2) ->
  NoDup (ents h o).*1.
Proof.
  induction o as [|e o IH]; [constructor|]. intros [He Ho]%NoDup_cons Hinj.
  assert (NoDup (ents h o).*1) as Hnd.
  { apply IH; [done|]. intros e1 e2 ?? H1 H2. apply Hinj; by right. }
  destruct (h !! e) as [kv|] eqn:Hkv; [|by unfold ents, golist.vals; simpl; rewrite Hkv].
  rewrite (ents_cons _ _ _ _ Hkv). simpl. apply NoDup_cons. split; [|done].
  intros (e' & kv' & He' & Hkv' & Hk)%elem_of_keys_ents.
  apply He. by rewrite (Hinj e e' kv kv') by (done || by left || by right).
Qed.

Lemma lru_keys_NoDup c : wf c -> NoDup (entries c).*1.
Proof.
  intros Hwf. apply lru_ents_keys_NoDup; [apply Hwf|].
  intros e1 e2 kv1 kv2 H1 H2 Hk1 Hk2 Hk.
  pose proof (wf_linked _ Hwf _ _ H1 Hk1). pose proof (wf_linked _ Hwf _ _ H2 Hk2).
  congruence.
Qed.

Lemma lru_over_zero l : over 0 l = false.
Proof. done. Qed.

(** ** Theorems of the store *)

(** C1 (refinement).  On a well-formed cache with a non-negative
    [maxBytes], [Add] returns; the new cache is well-formed; its entries
    are those of the abstract store: the pair at the front, the older
    pair of the key gone, then entries dropped from the back while the
    byte count exceeds [maxBytes]; and the callback has been called on
    every dropped entry, the least recently used one first. *)
Theorem lru_Add_refines k v c w :
  wf c -> (0 <= maxBytes c)%Z ->
  exists c' w',
    Add k v c w = Ok (c', w') /\ wf c' /\
    entries c' = added (maxBytes c) k v (entries c) /\
    w' = foldr (notify (onEvicted c)) w
           (drop (length (entries c')) ((k, v) :: aremove k (entries c))).
Proof.
  intros Hwf Hmax. destruct (lru_Add_spec k v c w Hwf Hmax) as (c' & w' & HA & ? & ?).
  exists c', w'. split_and!; [done..|]. by apply (lru_Add_Ok _ _ _ _ _ _ Hwf HA).
Qed.

(** C6 (refinement).  On a well-formed cache [Get] returns the value the
    entries hold for the key ([None] on a miss), moves that entry to the
    front, keeps the cache well-formed and changes neither the byte count
    nor the number of entries. *)
Theorem lru_Get_refines k c :
  wf c ->
  exists c', Get k c = Ok (alookup k (entries c), c') /\ wf c' /\
    entries c' = touch k (entries c) /\
    nbytes c' = nbytes c /\ CacheLen c' = CacheLen c.
Proof.
  intros Hwf. destruct (lru_Get_spec c k Hwf) as (c' & HG & Hwf' & Hl & _ & Hn & _).
  exists c'. split_and!; [done..|]. unfold CacheLen.
  rewrite <- !length_entries, Hl by done. f_equal.
  apply length_touch, lru_keys_NoDup, Hwf.
Qed.

(** C5 (invariant).  Every cache reached from [New] by calls of [Get],
    [Add] and [RemoveOldest] satisfies the representation invariant: the
    list is well-formed, the index and the list agree, and [nbytes] is the
    sum of the entry sizes modulo 2^64. *)
Theorem lru_reachable_wf maxB f w0 c w :
  rtc step (New maxB f, w0) (c, w) -> wf c.
Proof.
  intros Hr. change (wf (c, w).1). revert Hr.
  apply (rtc_ind_r (fun s => wf s.1) (New maxB f, w0)); [apply lru_New_wf|].
  intros s s' _ Hs Hwf. by eapply lru_step_wf.
Qed.

(** C25 (safety).  On a well-formed cache no operation panics: the type
    assertion on the list element always finds an entry.  [Get] and
    [RemoveOldest] always return. *)
Theorem lru_no_panic k v c w msg :
  wf c ->
  returns (Get k c) /\ returns (RemoveOldest c w) /\ Add k v c w <> Panic msg.
Proof.
  intros Hwf. split_and!.
  - by destruct (lru_Get_spec c k Hwf) as (c' & -> & _).
  - destruct (entries c) as [|p l _] eqn:Hl using rev_ind.
    + by rewrite lru_RemoveOldest_nil.
    + by destruct (lru_RemoveOldest_snoc _ w _ _ Hwf Hl) as (c' & -> & _).
  - unfold Add. destruct (lru_store_spec c k v Hwf) as (c1 & -> & Hwf1 & _).
    by apply lru_evict_no_panic.
Qed.

(** C26 (termination).  The fuel [Add] gives its loop is exact: with any
    larger fuel the loop has the same outcome, so [Diverge] is returned
    only when the loop of the program does not terminate. *)
Theorem lru_fuel_exact k v c w c1 fuel :
  wf c -> store k v c = Ok c1 -> golist.Len (ll c1) < fuel ->
  evict fuel c1 w = Add k v c w.
Proof.
  intros Hwf Hs Hfuel. unfold Add. rewrite Hs. cbn [mbind outcome_bind].
  destruct (lru_store_spec c k v Hwf) as (c1' & Hs' & Hwf1 & _).
  assert (c1' = c1) as -> by congruence.
  apply lru_evict_fuel; rewrite ?length_entries; done || lia.
Qed.

(** C22 (bounds).  After [Add] on a cache with a non-zero [maxBytes],
    [nbytes] is at most [maxBytes]; when the sum of the entry sizes fits
    in 64 bits, that sum is at most [maxBytes]. *)
Theorem lru_Add_bound k v c w c' w' :
  wf c -> Add k v c w = Ok (c', w') -> maxBytes c <> 0%Z ->
  (nbytes c' <= maxBytes c)%Z /\
  (int64_range (total (entries c')) -> (total (entries c') <= maxBytes c)%Z).
Proof.
  intros Hwf HA Hmax.
  destruct (lru_Add_Ok _ _ _ _ _ _ Hwf HA) as (Hwf' & _ & _ & _ & _ & Ho).
  unfold over in Ho. rewrite bool_decide_eq_true_2, andb_true_l in Ho by done.
  apply bool_decide_eq_false in Ho. rewrite (wf_nbytes _ Hwf').
  split; [lia|]. intros Hr. rewrite wrap64_small in Ho by done. lia.
Qed.

(** With [maxBytes = 0] the store is unbounded: [Add]
    evicts nothing and does not call the callback. *)
Theorem lru_Add_unbounded k v c w :
  wf c -> maxBytes c = 0%Z ->
  exists c', Add k v c w = Ok (c', w) /\
    entries c' = (k, v) :: aremove k (entries c).
Proof.
  intros Hwf Hmax.
  destruct (lru_Add_spec k v c w Hwf ltac:(lia)) as (c' & w' & HA & _ & Hl).
  destruct (lru_Add_Ok _ _ _ _ _ _ Hwf HA) as (_ & _ & Hw & _).
  unfold added in Hl. rewrite Hmax, evict_by_id in Hl by apply lru_over_zero.
  rewrite Hl, drop_all in Hw. simpl in Hw. subst w'. eauto.
Qed.

(** C10 (safety).  The entries [Add] evicts are the least recently used
    ones: what is left is a prefix of the entries in recency order, the
    callback runs once on each evicted entry, from the back, and no entry
    is evicted that the bound did not force out. *)
Theorem lru_evicts_least_recent k v c w c' w' :
  wf c -> Add k v c w = Ok (c', w') ->
  exists dropped,
    (k, v) :: aremove k (entries c) = entries c' ++ dropped /\
    w' = foldr (notify (onEvicted c)) w dropped /\
    forall m, length (entries c') < m <= length (entries c' ++ dropped) ->
      over (maxBytes c) (take m (entries c' ++ dropped)) = true.
Proof.
  intros Hwf HA. destruct (lru_Add_Ok _ _ _ _ _ _ Hwf HA) as (_ & Hl & Hw & _).
  exists (drop (length (entries c')) ((k, v) :: aremove k (entries c))).
  assert ((k, v) :: aremove k (entries c)
    = entries c' ++ drop (length (entries c')) ((k, v) :: aremove k (entries c))) as He.
  { rewrite Hl. unfold added, evict_by. rewrite length_take_le by apply keep_le.
    by rewrite take_drop. }
  split_and!; [done..|]. rewrite <- He. intros m Hm. rewrite Hl in Hm.
  by apply evict_by_minimal.
Qed.

(** In a well-formed cache the index and the list agree:
    keys occur once, a key is in the index exactly when an entry has it,
    the indexed element holds the value of the key, [Len] counts the
    entries and [nbytes] is the sum of their sizes modulo 2^64. *)
Theorem lru_index_agrees c :
  wf c ->
  NoDup (entries c).*1 /\
  (forall k, is_Some (cache c !! k) <-> k ∈ (entries c).*1) /\
  (forall k e, cache c !! k = Some e ->
     exists v, golist.Value e (ll c) = Some (mkEntry k v) /\
       alookup k (entries c) = Some v) /\
  CacheLen c = Z.of_nat (length (entries c)) /\
  nbytes c = wrap64 (total (entries c)).
Proof.
  intros Hwf. split_and!.
  - by apply lru_keys_NoDup.
  - intros k. split.
    + intros [e He]. destruct (lru_entries_split _ _ _ Hwf He) as (v & l1 & l2 & _ & -> & _).
      rewrite fmap_app, fmap_cons, elem_of_app, elem_of_cons. simpl. tauto.
    + intros Hk. destruct (cache c !! k) eqn:He; [done|].
      by apply lru_index_None in He.
  - intros k e He. destruct (lru_entries_split _ _ _ Hwf He) as (v & l1 & l2 & ? & -> & ? & _).
    exists v. split; [done|]. by apply alookup_middle.
  - unfold CacheLen. by rewrite length_entries.
  - apply Hwf.
Qed.

(** A pair that fits the bound on its own is found by
    [Get] right after its [Add]. *)
Theorem lru_Get_after_Add k v c w :
  wf c -> (0 <= maxBytes c)%Z -> over (maxBytes c) [(k, v)] = false ->
  exists c' w' c'', Add k v c w = Ok (c', w') /\ Get k c' = Ok (Some v, c'').
Proof.
  intros Hwf Hmax Hfit.
  destruct (lru_Add_spec k v c w Hwf Hmax) as (c' & w' & HA & Hwf' & Hl).
  destruct (lru_Get_spec c' k Hwf') as (c'' & HG & _).
  exists c', w', c''. split; [done|]. rewrite HG. do 2 f_equal.
  unfold added in Hl. destruct (evict_by_head _ _ (aremove k (entries c)) Hfit) as [l' Hl'].
  rewrite Hl, Hl'. simpl. by rewrite decide_True.
Qed.

End with_value.

Arguments entry : clear implicits.
Arguments Cache : clear implicits.

(** Values whose size is not negative, as the sizes of byte slices are. *)
Class ValueSized (V : Type) `{!Value V} : Prop :=
  Len_nonneg : forall v : V, (0 <= Len v)%Z.

Section sized.
Context {V : Type} `{!Value V, !ValueSized V} {W : Type}.
Implicit Types (c : Cache V W) (w : W) (k : string) (v : V) (l : list (string * V)).

(** The test of the loop on mathematical integers. *)
Definition over_exact (maxB : Z) l : bool :=
  bool_decide (maxB <> 0%Z) && bool_decide (maxB < total l)%Z.

Lemma total_nonneg l : (0 <= total l)%Z.
Proof.
  induction l as [|[k v] l IH]; [done|]. rewrite total_cons.
  pose proof (Len_nonneg v). pose proof (len_string_nonneg k). lia.
Qed.

Lemma total_take_le n l : (total (take n l) <= total l)%Z.
Proof.
  rewrite <- (take_drop n l) at 2. rewrite total_app.
  pose proof (total_nonneg (drop n l)). lia.
Qed.

Lemma lru_over_exact maxB n l :
  int64_range (total l) -> over maxB (take n l) = over_exact maxB (take n l).
Proof.
  intros Hr. unfold over, over_exact. rewrite wrap64_small; [done|].
  pose proof (total_take_le n l). pose proof (total_nonneg (take n l)). int64_lia.
Qed.

(** When sizes are not negative and their sum fits in
    64 bits, the wrap-around of [nbytes] plays no part: [Add] leaves the
    entries that the loop test on mathematical integers leaves. *)
Theorem lru_added_exact maxB k v l :
  int64_range (total ((k, v) :: aremove k l)) ->
  added maxB k v l = evict_by (over_exact maxB) ((k, v) :: aremove k l).
Proof.
  intros Hr. unfold added. apply evict_by_ext. intros n. by apply lru_over_exact.
Qed.

(** With a negative bound the loop test holds on every prefix of the
    entries, the empty one included. *)
Lemma lru_evict_negative k v c w fuel c1 :
  wf c -> (maxBytes c < 0)%Z ->
  int64_range (total ((k, v) :: aremove k (entries c))) ->
  store k v c = Ok c1 -> evict fuel c1 w = Diverge.
Proof.
  intros Hwf Hmax Hr Hs.
  destruct (lru_store_spec c k v Hwf) as (c1' & Hs' & Hwf1 & Hl1 & Hm1 & _).
  assert (c1' = c1) as -> by congruence.
  apply lru_evict_diverge; [done|]. intros n.
  rewrite Hl1, Hm1, lru_over_exact by done. unfold over_exact.
  pose proof (total_nonneg (take n ((k, v) :: aremove k (entries c)))).
  rewrite !bool_decide_eq_true_2 by lia. done.
Qed.

Lemma lru_Add_negative k v c w :
  wf c -> (maxBytes c < 0)%Z ->
  int64_range (total ((k, v) :: aremove k (entries c))) ->
  Add k v c w = Diverge.
Proof.
  intros Hwf Hmax Hr. unfold Add.
  destruct (lru_store_spec c k v Hwf) as (c1 & Hs & _). rewrite Hs.
  by apply (lru_evict_negative k v c).
Qed.

(** C23 (termination).  With a negative [maxBytes] the loop of [Add] never
    stops: the byte count is never below a negative bound, so the loop
    empties the cache and then spins on the empty list. *)
Theorem lru_negative_maxBytes_diverges k v c w :
  wf c -> (maxBytes c < 0)%Z ->
  int64_range (total ((k, v) :: aremove k (entries c))) ->
  Add k v c w = Diverge /\
  forall fuel c1, store k v c = Ok c1 -> evict fuel c1 w = Diverge.
Proof.
  intros Hwf Hmax Hr. split; [by apply lru_Add_negative|].
  intros fuel c1. by apply lru_evict_negative.
Qed.

(** While the sum of the entry sizes fits in 64 bits,
    [nbytes] is that sum and is not negative. *)
Theorem lru_nbytes_exact c :
  wf c -> int64_range (total (entries c)) ->
  nbytes c = total (entries c) /\ (0 <= nbytes c)%Z.
Proof.
  intros Hwf Hr. rewrite (wf_nbytes _ Hwf), wrap64_small by done.
  split; [done|apply total_nonneg].
Qed.

(** C34 (functional).  A pair larger than a positive [maxBytes] does not
    stay: its [Add] evicts every entry, the new pair included, and the
    cache is left empty. *)
Theorem lru_oversized_Add_empties k v c w :
  wf c -> (0 < maxBytes c)%Z -> (maxBytes c < len_string k + Len v)%Z ->
  int64_range (total ((k, v) :: aremove k (entries c))) ->
  exists c' w', Add k v c w = Ok (c', w') /\ entries c' = [] /\
    Get k c' = Ok (None, c').
Proof.
  intros Hwf Hmax Hbig Hr.
  destruct (lru_Add_spec k v c w Hwf ltac:(lia)) as (c' & w' & HA & Hwf' & Hl).
  assert (entries c' = []) as Hnil.
  { rewrite Hl. apply evict_by_all_over. intros n Hn.
    rewrite lru_over_exact by done. unfold over_exact.
    destruct n as [|n]; [lia|]. rewrite firstn_cons, total_cons.
    pose proof (total_nonneg (take n (aremove k (entries c)))).
    rewrite !bool_decide_eq_true_2 by lia. done. }
  exists c', w'. split_and!; [done..|].
  destruct (lru_Get_spec c' k Hwf') as (c'' & HG & _ & Hl'' & _).
  rewrite HG, Hnil. simpl. do 2 f_equal.
  unfold Get in HG. destruct (cache c' !! k) eqn:Hk; [|congruence].
  destruct (lru_entries_split _ _ _ Hwf' Hk) as (? & l1 & ? & _ & He & _).
  rewrite Hnil in He. by destruct l1.
Qed.

End sized.

(** ** Concrete caches *)

(** The caches of the examples hold strings that report their length; the
    callback logs the evicted pairs, the latest first. *)
Section examples.
Local Open Scope string_scope.

#[local] Instance string_Value : Value string := len_string.
#[local] Instance string_ValueSized : ValueSized string.
Proof. intros v. apply len_string_nonneg. Qed.
Definition log (k v : string) (w : list (string * string)) : list (string * string) :=
  (k, v) :: w.
(** Room for two pairs of two bytes each. *)
Definition c_empty : Cache string (list (string * string)) := New 4 (Some log).
Definition cache_of (m : outcome (Cache string (list (string * string)) *
    list (string * string))) : Cache string (list (string * string)) :=
  match m with
  | Ok (c, _) => c
  | _ => c_empty
  end.
Definition c_A : Cache string (list (string * string)) :=
  cache_of (Add "A" "1" c_empty []).
Definition c_AB : Cache string (list (string * string)) :=
  cache_of (Add "B" "2" c_A []).
Definition c_ABC : Cache string (list (string * string)) :=
  cache_of (Add "C" "3" c_AB []).
Lemma lru_cache_of_wf k v c w : wf c -> wf (cache_of (Add k v c w)).
Proof.
  intros Hwf. destruct (Add k v c w) as [[c' w']| |] eqn:HA; simpl;
    [|apply lru_New_wf..]. by apply (lru_Add_Ok _ _ _ _ _ _ Hwf HA).
Qed.
Lemma c_AB_wf : wf c_AB.
Proof. do 2 apply lru_cache_of_wf. apply lru_New_wf. Qed.
(** The scenario of the specification: in a cache with
    room for two entries, [Add A], [Add B], [Get A], [Add C] evicts [B] and
    keeps [A] and [C]. *)
Example lru_eviction_scenario :
  ('(c1, w1) ← Add "A" "1" c_empty [];
   '(c2, w2) ← Add "B" "2" c1 w1;
   '(r, c3) ← Get "A" c2;
   '(c4, w4) ← Add "C" "3" c3 w2;
   Ok (r, entries c4, w4, nbytes c4))
  = Ok (Some "1", [("C", "3"); ("A", "1")], [("B", "2")], 4%Z).
Proof. vm_compute. reflexivity. Qed.


Lemma lru_Add_refines_witness :
  wf c_AB /\ (0 <= maxBytes c_AB)%Z /\
  exists c' w', Add "C" "3" c_AB [] = Ok (c', w') /\
    entries c' = [("C", "3"); ("B", "2")] /\ w' = [("A", "1")].
Proof.
  split; [apply c_AB_wf|]. split; [vm_compute; discriminate|].
  destruct (lru_Add_refines "C" "3" c_AB [] c_AB_wf) as (c' & w' & HA & _ & Hl & Hw);
    [vm_compute; discriminate|].
  exists c', w'. split; [exact HA|]. rewrite Hw, Hl. vm_compute. split; reflexivity.
Defined.

Lemma lru_Get_refines_witness :
  wf c_AB /\
  exists c', Get "A" c_AB = Ok (Some "1", c') /\
    entries c' = [("A", "1"); ("B", "2")].
Proof.
  split; [apply c_AB_wf|].
  destruct (lru_Get_refines "A" c_AB c_AB_wf) as (c' & HG & _ & Hl & _).
  exists c'. split; [exact HG|]. rewrite Hl. vm_compute. reflexivity.
Defined.

Lemma lru_reachable_wf_witness :
  rtc step (New 4 (Some log), []) (c_A, []) /\ wf c_A.
Proof.
  assert (rtc step (New 4 (Some log), []) (c_A, [])) as Hr.
  { apply rtc_once, (step_Add "A" "1"). vm_compute. reflexivity. }
  split; [exact Hr|]. exact (lru_reachable_wf 4 (Some log) [] c_A [] Hr).
Defined.

Lemma lru_no_panic_witness :
  wf c_AB /\ returns (Get "C" c_AB) /\ returns (RemoveOldest c_AB []) /\
  Add "C" "3" c_AB [] <> Panic "x".
Proof. split; [apply c_AB_wf|]. apply lru_no_panic, c_AB_wf. Defined.

Lemma lru_fuel_exact_witness :
  evict 10 (cache_of ((fun c => (c, [])) <$> store "C" "3" c_AB)) []
  = Add "C" "3" c_AB [].
Proof.
  apply lru_fuel_exact; [apply c_AB_wf|vm_compute; reflexivity|vm_compute; lia].
Defined.

Lemma lru_Add_bound_witness :
  (nbytes c_ABC <= maxBytes c_AB)%Z /\
  (int64_range (total (entries c_ABC)) -> (total (entries c_ABC) <= maxBytes c_AB)%Z).
Proof.
  apply (lru_Add_bound "C" "3" c_AB [] c_ABC [("A", "1")]);
    [apply c_AB_wf|vm_compute; reflexivity|vm_compute; discriminate].
Defined.

Lemma lru_Add_unbounded_witness :
  exists c', Add "A" "1" (New 0 None) tt = Ok (c', tt) /\
    entries c' = [("A", "1")].
Proof.
  destruct (lru_Add_unbounded "A" "1" (New 0 None) tt) as (c' & HA & Hl);
    [apply lru_New_wf|reflexivity|]. exists c'. split; [exact HA|]. rewrite Hl.
  vm_compute. reflexivity.
Defined.

Lemma lru_evicts_least_recent_witness :
  exists dropped,
    [("C", "3"); ("B", "2"); ("A", "1")] = (entries c_ABC ++ dropped)%list /\
    [("A", "1")] = foldr (notify (Some log)) [] dropped.
Proof.
  destruct (lru_evicts_least_recent "C" "3" c_AB [] c_ABC [("A", "1")])
    as (dropped & Hd & Hw & _); [apply c_AB_wf|vm_compute; reflexivity|].
  exists dropped. split; [|exact Hw]. rewrite <- Hd. vm_compute. reflexivity.
Defined.

Lemma lru_index_agrees_witness :
  NoDup (entries c_AB).*1 /\ CacheLen c_AB = 2%Z /\ nbytes c_AB = 4%Z.
Proof.
  destruct (lru_index_agrees c_AB c_AB_wf) as (Hnd & _ & _ & HL & Hn).
  split; [exact Hnd|]. rewrite HL, Hn. vm_compute. split; reflexivity.
Defined.

Lemma lru_Get_after_Add_witness :
  exists c' w' c'', Add "C" "3" c_AB [] = Ok (c', w') /\ Get "C" c' = Ok (Some "3", c'').
Proof.
  apply lru_Get_after_Add;
    [apply c_AB_wf|vm_compute; discriminate|vm_compute; reflexivity].
Defined.

Lemma lru_added_exact_witness :
  added 4 "C" "3" (entries c_AB)
  = evict_by (over_exact 4) (("C", "3") :: aremove "C" (entries c_AB)).
Proof. apply lru_added_exact. vm_compute. split; discriminate. Defined.

Lemma lru_negative_maxBytes_diverges_witness :
  Add "A" "1" (New (-1) None) tt = Diverge.
Proof.
  destruct (lru_negative_maxBytes_diverges "A" "1" (New (-1) None) tt) as [H _];
    [apply lru_New_wf|reflexivity|vm_compute; split; discriminate|exact H].
Defined.

Lemma lru_nbytes_exact_witness :
  nbytes c_AB = total (entries c_AB) /\ (0 <= nbytes c_AB)%Z.
Proof.
  apply lru_nbytes_exact; [apply c_AB_wf|vm_compute; split; discriminate].
Defined.

Lemma lru_oversized_Add_empties_witness :
  exists c' w', Add "K" "12345" c_AB [] = Ok (c', w') /\ entries c' = [] /\
    Get "K" c' = Ok (None, c').
Proof.
  apply lru_oversized_Add_empties;
    [apply c_AB_wf|vm_compute; reflexivity|vm_compute; reflexivity|
     vm_compute; split; discriminate].
Defined.

End examples.

End lru.
