(* ===== verification/ByteView.v ===== *)
(** * ByteView: the read-only view of cached bytes ([src/byteview.go])

    A [ByteView] holds a byte slice.  A Go slice is a pointer into an array
    that other slices may share, so the slices of the program live in a
    memory [mem] of byte arrays: a [slice] is the address of its array and a
    length.  [make], [copy] and the assignment [s[i] = x] are modelled from
    the language specification; [cloneBytes], [Len], [ByteSlice] and
    [String] are the functions of the file.

    Theorems: [cloneBytes] returns a slice with the same bytes in a fresh
    array and changes no other slice; whatever a caller writes into the
    slice [ByteSlice] returned, the view reads the same bytes; [Len] is the
    length of what [ByteSlice] and [String] return.  [ByteView] implements
    [lru.Value], with sizes that are not negative. *)

From Stdlib Require Import ZArith Lia.
From Stdlib Require Import Strings.Byte.
From stdpp Require Import base tactics option list gmap strings.
From S2P Require Import Prelude Lru.

Module byteview.

#[global] Instance byte_eq_dec : EqDecision byte := Byte.byte_eq_dec.

(** The address of a byte array. *)
Definition addr : Type := nat.

(** A [[]byte]: the array it points into and its length.  The slices of
    the program start at the beginning of their array. *)
Record slice : Type := Slice {
  ptr : addr;
  len : nat
}.

#[global] Instance slice_eq_dec : EqDecision slice.
Proof. solve_decision. Defined.

(** The arrays allocated so far and the next free address. *)
Record mem : Type := Mem {
  cells : gmap addr (list byte);
  brk : addr
}.

Definition empty_mem : mem := {| cells := ∅; brk := 0 |}.

(** The nil slice. *)
Definition nil_slice : slice := {| ptr := 0; len := 0 |}.

(** The bytes of a slice. *)
Definition load (s : slice) (m : mem) : list byte :=
  take (len s) (default [] (cells m !! ptr s)).

(** [make([]byte, n)]: a fresh array of [n] zero bytes. *)
Definition make (n : nat) (m : mem) : slice * mem :=
  ({| ptr := brk m; len := n |},
   {| cells := <[brk m := replicate n x00]> (cells m); brk := S (brk m) |}).

(** [[]byte(str)]: a fresh array holding the bytes of a string. *)
Definition of_string (str : string) (m : mem) : slice * mem :=
  let l := String.list_byte_of_string str in
  ({| ptr := brk m; len := length l |},
   {| cells := <[brk m := l]> (cells m); brk := S (brk m) |}).

(** [copy(dst, src)]: copies [min(len(dst), len(src))] bytes and returns
    that number. *)
Definition copy (dst src : slice) (m : mem) : nat * mem :=
  let n := Nat.min (len dst) (len src) in
  (n,
   {| cells := alter (fun a => take n (load src m) ++ drop n a) (ptr dst) (cells m);
      brk := brk m |}).

(** [s[i] = x]: panics when [i] is out of range. *)
Definition set_index (s : slice) (i : nat) (x : byte) (m : mem) : outcome mem :=
  if decide (i < len s)
  then Ok {| cells := alter (fun a => <[i := x]> a) (ptr s) (cells m); brk := brk m |}
  else Panic "index out of range".

(** A sequence of assignments to one slice; an assignment out of range
    panics and ends it. *)
Fixpoint set_indexes (s : slice) (ws : list (nat * byte)) (m : mem) : outcome mem :=
  match ws with
  | [] => Ok m
  | (i, x) :: ws' => m' ← set_index s i x m; set_indexes s ws' m'
  end.

Definition cloneBytes (b : slice) (m : mem) : slice * mem :=
  let '(c, m1) := make (len b) m in
  let '(_, m2) := copy c b m1 in
  (c, m2).

Record ByteView : Type := mkByteView {
  b : slice
}.

#[global] Instance ByteView_eq_dec : EqDecision ByteView.
Proof. solve_decision. Defined.

(** [ByteView{}] *)
Definition zero : ByteView := {| b := nil_slice |}.

Definition Len (v : ByteView) : Z := Z.of_nat (len (b v)).

Definition ByteSlice (v : ByteView) (m : mem) : slice * mem := cloneBytes (b v) m.

Definition String (v : ByteView) (m : mem) : string :=
  String.string_of_list_byte (load (b v) m).

#[global] Instance ByteView_Value : lru.Value ByteView := Len.

#[global] Instance ByteView_ValueSized : lru.ValueSized ByteView.
Proof. intros v. unfold lru.Len, ByteView_Value, Len. lia. Qed.

(** ** Well-formed memories and valid slices *)

(** Allocated addresses are below the next free one. *)
Definition mem_wf (m : mem) : Prop :=
  forall a, is_Some (cells m !! a) -> a < brk m.

(** A slice is valid when it is empty or lies within an allocated array. *)
Definition valid (s : slice) (m : mem) : Prop :=
  len s = 0 \/ exists a, cells m !! ptr s = Some a /\ len s <= length a.

(** [m'] extends [m]: the arrays of [m] are unchanged. *)
Definition extends (m m' : mem) : Prop :=
  brk m <= brk m' /\ forall a, a < brk m -> cells m' !! a = cells m !! a.

#[global] Instance extends_PreOrder : PreOrder extends.
Proof.
  split.
  - by intros m.
  - intros m1 m2 m3 [H1 H1'] [H2 H2']. split; [lia|].
    intros a Ha. rewrite H2' by lia. by apply H1'.
Qed.

Lemma bv_mem_wf_empty : mem_wf empty_mem.
Proof. intros a [? Ha]. simpl in Ha. by rewrite lookup_empty in Ha. Qed.

Lemma bv_valid_nil m : valid nil_slice m.
Proof. by left. Qed.

Lemma bv_length_load s m : valid s m -> length (load s m) = len s.
Proof.
  unfold load. intros [->|(a & -> & Hl)]; [done|]. simpl.
  by rewrite length_take_le.
Qed.

Lemma bv_load_extends s m m' :
  mem_wf m -> valid s m -> extends m m' -> load s m' = load s m.
Proof.
  intros Hwf [H0|(a & Ha & _)] [_ He]; unfold load; [by rewrite H0|].
  rewrite He; [done|]. apply Hwf. by exists a.
Qed.

Lemma bv_valid_extends s m m' :
  mem_wf m -> valid s m -> extends m m' -> valid s m'.
Proof.
  intros Hwf [H0|(a & Ha & Hl)] [_ He]; [by left|]. right. exists a.
  split; [|done]. rewrite He; [done|]. apply Hwf. by exists a.
Qed.

(** ** [make], [copy], [cloneBytes] *)

Lemma bv_fresh m : mem_wf m -> cells m !! brk m = None.
Proof.
  intros Hwf. destruct (cells m !! brk m) as [a|] eqn:Hb; [|done].
  assert (brk m < brk m) by (apply Hwf; by exists a). lia.
Qed.

Lemma bv_wf_alloc m a :
  mem_wf m -> mem_wf {| cells := <[brk m := a]> (cells m); brk := S (brk m) |}.
Proof.
  intros Hwf x. simpl. intros [Hx|[_ Hx]]%lookup_insert_is_Some; [lia|].
  apply Hwf in Hx. lia.
Qed.

Lemma bv_extends_alloc m a :
  extends m {| cells := <[brk m := a]> (cells m); brk := S (brk m) |}.
Proof. split; simpl; [lia|]. intros x Hx. apply lookup_insert_ne. lia. Qed.

Lemma bv_of_string_spec str m :
  mem_wf m ->
  mem_wf (of_string str m).2 /\ extends m (of_string str m).2 /\
  valid (of_string str m).1 (of_string str m).2 /\
  load (of_string str m).1 (of_string str m).2 = String.list_byte_of_string str.
Proof.
  intros Hwf. split_and!; [by apply bv_wf_alloc|apply bv_extends_alloc| |].
  - right. eexists. simpl. by rewrite lookup_insert_eq.
  - unfold load, of_string. simpl. rewrite lookup_insert_eq. simpl. by apply take_ge.
Qed.

Lemma bv_make_spec n m :
  mem_wf m ->
  mem_wf (make n m).2 /\ extends m (make n m).2 /\
  (make n m).1 = {| ptr := brk m; len := n |} /\
  load (make n m).1 (make n m).2 = replicate n x00.
Proof.
  intros Hwf. split_and!; [by apply bv_wf_alloc|apply bv_extends_alloc|done|].
  unfold load, make. simpl. rewrite lookup_insert_eq. simpl.
  apply take_ge. by rewrite length_replicate.
Qed.

Lemma bv_cloneBytes_eq s m :
  mem_wf m -> valid s m ->
  cloneBytes s m =
    ({| ptr := brk m; len := len s |},
     {| cells := <[brk m := load s m]> (cells m); brk := S (brk m) |}).
Proof.
  intros Hwf Hs. unfold cloneBytes, make, copy. cbn [ptr len cells brk].
  rewrite Nat.min_id. do 2 f_equal.
  assert (load s {| cells := <[brk m := replicate (len s) x00]> (cells m);
                    brk := S (brk m) |} = load s m) as ->.
  { apply bv_load_extends; [done..|apply bv_extends_alloc]. }
  rewrite alter_insert_eq. f_equal.
  rewrite drop_ge by (rewrite length_replicate; lia). rewrite app_nil_r.
  apply take_ge. by rewrite bv_length_load.
Qed.

Lemma bv_cloneBytes_spec s m :
  mem_wf m -> valid s m ->
  mem_wf (cloneBytes s m).2 /\ extends m (cloneBytes s m).2 /\
  ptr (cloneBytes s m).1 = brk m /\ len (cloneBytes s m).1 = len s /\
  valid (cloneBytes s m).1 (cloneBytes s m).2 /\
  load (cloneBytes s m).1 (cloneBytes s m).2 = load s m.
Proof.
  intros Hwf Hs. rewrite bv_cloneBytes_eq by done. cbn [fst snd ptr len].
  split_and!; [by apply bv_wf_alloc|apply bv_extends_alloc|done..| |].
  - right. exists (load s m). simpl. rewrite lookup_insert_eq.
    by rewrite bv_length_load.
  - unfold load at 1. simpl. rewrite lookup_insert_eq. simpl.
    apply take_ge. by rewrite bv_length_load.
Qed.

(** Writing into a slice changes no array but its own. *)
Lemma bv_set_index_other s i x m m' a :
  set_index s i x m = Ok m' -> a <> ptr s -> cells m' !! a = cells m !! a.
Proof.
  unfold set_index. case_decide; [|done]. intros [= <-] Ha. simpl.
  by rewrite lookup_alter_ne.
Qed.

Lemma bv_set_indexes_other s ws m m' a :
  set_indexes s ws m = Ok m' -> a <> ptr s -> cells m' !! a = cells m !! a.
Proof.
  revert m. induction ws as [|[i x] ws IH]; simpl; intros m; [by intros [= <-]|].
  destruct (set_index s i x m) as [m1| |] eqn:H1; simpl; [|done..].
  intros H2 Ha. rewrite (IH _ H2 Ha). by eapply bv_set_index_other.
Qed.

Lemma bv_set_indexes_empty s ws m m' :
  len s = 0 -> set_indexes s ws m = Ok m' -> m' = m.
Proof.
  intros Hl. destruct ws as [|[i x] ws]; simpl; [by intros [= <-]|].
  unfold set_index. rewrite decide_False by lia. done.
Qed.

(** Writing into a slice that was valid before [s'] was allocated does not
    change [s']. *)
Lemma bv_set_indexes_fresh s s' ws m0 m m' :
  mem_wf m0 -> valid s m0 -> ptr s' = brk m0 -> set_indexes s ws m = Ok m' ->
  load s' m' = load s' m.
Proof.
  intros Hwf [H0|(a & Ha & _)] Hp Hws.
  - by rewrite (bv_set_indexes_empty _ _ _ _ H0 Hws).
  - unfold load. rewrite (bv_set_indexes_other _ _ _ _ _ Hws); [done|].
    rewrite Hp. assert (ptr s < brk m0) by (apply Hwf; by exists a). lia.
Qed.

Lemma bv_length_string (l : list byte) :
  String.length (String.string_of_list_byte l) = length l.
Proof.
  unfold String.string_of_list_byte.
  induction l as [|x l IH]; simpl; [done|]. by rewrite IH.
Qed.

(** ** Theorems of the view *)

(** [cloneBytes] returns a slice of the same length with
    the same bytes, in an array that was not allocated before; the arrays
    that were allocated keep their bytes. *)
Theorem bv_cloneBytes_copies s m :
  mem_wf m -> valid s m ->
  exists c m', cloneBytes s m = (c, m') /\ mem_wf m' /\
    len c = len s /\ load c m' = load s m /\
    cells m !! ptr c = None /\
    forall s', valid s' m -> valid s' m' /\ load s' m' = load s' m.
Proof.
  intros Hwf Hs. destruct (bv_cloneBytes_spec s m Hwf Hs) as (? & He & Hp & ? & _ & ?).
  destruct (cloneBytes s m) as [c m']. simpl in *. exists c, m'.
  split_and!; [done..| |].
  { rewrite Hp. by apply bv_fresh. }
  intros s' Hs'. split; [by apply (bv_valid_extends s' m m')|by apply bv_load_extends].
Qed.

(** C12 (safety).  The view is immutable through [ByteSlice]: whatever the
    caller writes into the slice it was given, the view holds the bytes it
    held, and [String] returns the same string. *)
Theorem bv_ByteSlice_immutable v m s m1 ws m2 :
  mem_wf m -> valid (b v) m ->
  ByteSlice v m = (s, m1) -> set_indexes s ws m1 = Ok m2 ->
  load (b v) m2 = load (b v) m /\ String v m2 = String v m /\
  load s m1 = load (b v) m.
Proof.
  intros Hwf Hv HB Hws.
  destruct (bv_cloneBytes_spec (b v) m Hwf Hv) as (_ & He & Hp & _ & _ & Hl).
  unfold ByteSlice in HB. rewrite HB in He, Hp, Hl. simpl in *.
  assert (load (b v) m2 = load (b v) m) as Heq.
  { rewrite <- (bv_load_extends (b v) m m1) by done.
    destruct Hv as [H0|(a & Ha & _)]; unfold load; [by rewrite H0|].
    rewrite (bv_set_indexes_other _ _ _ _ _ Hws); [done|].
    assert (ptr (b v) < brk m) by (apply Hwf; by exists a). lia. }
  unfold String. by rewrite Heq.
Qed.

(** [String] holds the bytes of the view: converting it
    back gives them, and its length is [Len]. *)
Theorem bv_String_bytes v m :
  valid (b v) m ->
  String.list_byte_of_string (String v m) = load (b v) m /\
  len_string (String v m) = Len v.
Proof.
  intros Hv. unfold String. rewrite String.list_byte_of_string_of_list_byte.
  split; [done|]. unfold len_string, Len. f_equal.
  by rewrite bv_length_string, bv_length_load.
Qed.

(** ** Concrete views *)

Section examples.

(** A memory holding the three bytes of ["abc"] and a view of them. *)
Definition m_abc : mem := {| cells := {[ 0 := [x61; x62; x63] ]}; brk := 1 |}.
Definition v_abc : ByteView := {| b := {| ptr := 0; len := 3 |} |}.

Lemma m_abc_wf : mem_wf m_abc.
Proof.
  intros a [x Ha]. simpl in *. apply lookup_singleton_Some in Ha as [<- _]. lia.
Qed.

Lemma v_abc_valid : valid (b v_abc) m_abc.
Proof. right. exists [x61; x62; x63]. split; [reflexivity|simpl; lia]. Qed.

Lemma bv_cloneBytes_copies_witness :
  exists c m', cloneBytes (b v_abc) m_abc = (c, m') /\
    load c m' = [x61; x62; x63] /\ load (b v_abc) m' = [x61; x62; x63].
Proof.
  destruct (bv_cloneBytes_copies (b v_abc) m_abc m_abc_wf v_abc_valid)
    as (c & m' & Hc & _ & _ & Hl & _ & Hf).
  exists c, m'. split; [exact Hc|]. rewrite Hl.
  destruct (Hf _ v_abc_valid) as [_ ->]. split; reflexivity.
Defined.

Lemma bv_ByteSlice_immutable_witness :
  exists m2,
    set_indexes {| ptr := 1; len := 3 |} [(0, x7a); (2, x7a)] (ByteSlice v_abc m_abc).2 = Ok m2 /\
    load {| ptr := 1; len := 3 |} m2 = [x7a; x62; x7a] /\
    String v_abc m2 = String v_abc m_abc.
Proof.
  eexists. split; [vm_compute; reflexivity|]. split; [vm_compute; reflexivity|].
  eapply (bv_ByteSlice_immutable v_abc m_abc {| ptr := 1; len := 3 |} _
            [(0, x7a); (2, x7a)]);
    [apply m_abc_wf|apply v_abc_valid|vm_compute; reflexivity|vm_compute; reflexivity].
Defined.

Lemma bv_String_bytes_witness :
  String.list_byte_of_string (String v_abc m_abc) = load (b v_abc) m_abc /\
  len_string (String v_abc m_abc) = 3%Z.
Proof. apply (bv_String_bytes v_abc m_abc), v_abc_valid. Defined.

End examples.

End byteview.
