(* ===== verification/Cache.v ===== *)
(** * Cache: the LRU store behind a mutex ([src/cache.go])

    [cache] wraps an [lru.Cache] of [ByteView]s with a mutex and creates the
    store on the first [add].  The mutex is the boolean of [GoStd]: [Lock]
    on a locked mutex blocks (the caller is the only thread of this model,
    so it blocks for ever) and [Unlock] of an unlocked mutex is a fatal
    error.
    [with_lock] is the pattern [c.mu.Lock(); defer c.mu.Unlock()] around a
    body.

    Theorems: the invariant of the mutex (when it is free the store is
    well-formed, bounded by [cacheBytes] and has no callback) is kept by
    [add] and [get]; [add] and [get] refine the abstract store of [Lru];
    the store is created by the first [add] and never by [get]; with a
    negative [cacheBytes], [add] never returns and never releases the
    mutex. *)

From Stdlib Require Import ZArith Lia.
From stdpp Require Import base tactics option list gmap strings.
From S2P Require Import Prelude GoList GoStd Lru ByteView.

Module cache.

(** ** The guarded store *)

Record cache : Type := mkCache {
  mu : sync.Mutex;
  lru : option (lru.Cache byteview.ByteView unit);
  cacheBytes : Z
}.

(** [cache{cacheBytes: n}] *)
Definition new (n : Z) : cache := {| mu := false; lru := None; cacheBytes := n |}.

Definition set_mu (b : sync.Mutex) (c : cache) : cache :=
  {| mu := b; lru := lru c; cacheBytes := cacheBytes c |}.

Definition set_lru (l : lru.Cache byteview.ByteView unit) (c : cache) : cache :=
  {| mu := mu c; lru := Some l; cacheBytes := cacheBytes c |}.

(** [c.mu.Lock(); defer c.mu.Unlock(); body]: the deferred call runs when
    the body returns or panics; a body that does not terminate keeps the
    mutex. *)
Definition with_lock {R : Type} (body : cache -> outcome (R * cache)) (c : cache) :
    outcome (R * cache) :=
  m ← sync.Lock (mu c);
  '(r, c') ← body (set_mu m c);
  m' ← sync.Unlock (mu c');
  Ok (r, set_mu m' c').

(** The store after the lazy initialisation of [add]. *)
Definition init (c : cache) : lru.Cache byteview.ByteView unit :=
  match lru c with
  | Some l => l
  | None => lru.New (cacheBytes c) None
  end.

Definition add (key : string) (value : byteview.ByteView) (c : cache) : outcome (unit * cache) :=
  with_lock (fun c =>
    '(l, _) ← lru.Add key value (init c) tt;
    Ok (tt, set_lru l c)) c.

Definition get (key : string) (c : cache) : outcome ((byteview.ByteView * bool) * cache) :=
  with_lock (fun c =>
    match lru c with
    | None => Ok ((byteview.zero, false), c)
    | Some l =>
        '(r, l') ← lru.Get key l;
        match r with
        | Some v => Ok ((v, true), set_lru l' c)
        | None => Ok ((byteview.zero, false), set_lru l' c)
        end
    end) c.

(** ** The abstract view and the invariant *)

(** The pairs of the store, the most recently used first. *)
Definition entries (c : cache) : list (string * byteview.ByteView) :=
  from_option lru.entries [] (lru c).

(** What the mutex protects: the store, when there is one, is well-formed,
    bounded by [cacheBytes] and has no eviction callback. *)
Definition guarded (c : cache) : Prop :=
  forall l, lru c = Some l ->
    lru.wf l /\ lru.maxBytes l = cacheBytes c /\ lru.onEvicted l = None.

Record wf (c : cache) : Prop := {
  wf_free : mu c = false;
  wf_guarded : guarded c
}.

(** The result of [get] as a Go pair. *)
Definition found (r : option byteview.ByteView) : byteview.ByteView * bool :=
  match r with
  | Some v => (v, true)
  | None => (byteview.zero, false)
  end.

(** ** Lemmas *)

Lemma cache_new_wf n : wf (new n).
Proof. split; [done|]. by intros l. Qed.

Lemma cache_init_wf c :
  guarded c ->
  lru.wf (init c) /\ lru.maxBytes (init c) = cacheBytes c /\
  lru.onEvicted (init c) = None /\ lru.entries (init c) = entries c.
Proof.
  intros Hg. unfold init, entries. destruct (lru c) as [l|] eqn:Hl; simpl.
  - destruct (Hg l Hl) as (? & ? & ?). done.
  - split_and!; [apply lru.lru_New_wf|done..].
Qed.

(** [with_lock] on a free mutex runs the body with the mutex held and
    releases it. *)
Lemma cache_with_lock_free {R} (body : cache -> outcome (R * cache)) c r c' :
  mu c = false -> body (set_mu true c) = Ok (r, c') -> mu c' = true ->
  with_lock body c = Ok (r, set_mu false c').
Proof.
  intros Hmu Hb Hmu'. unfold with_lock. rewrite Hmu. simpl. rewrite Hb. simpl.
  by rewrite Hmu'.
Qed.

Lemma cache_with_lock_held {R} (body : cache -> outcome (R * cache)) c :
  mu c = true -> with_lock body c = Diverge.
Proof. intros Hmu. unfold with_lock. by rewrite Hmu. Qed.

Lemma cache_with_lock_diverge {R} (body : cache -> outcome (R * cache)) c :
  mu c = false -> body (set_mu true c) = Diverge -> with_lock body c = Diverge.
Proof. intros Hmu Hb. unfold with_lock. rewrite Hmu. simpl. by rewrite Hb. Qed.

Lemma cache_add_spec key value c :
  wf c -> (0 <= cacheBytes c)%Z ->
  exists c', add key value c = Ok (tt, c') /\ wf c' /\
    cacheBytes c' = cacheBytes c /\ is_Some (lru c') /\
    entries c' = lru.added (cacheBytes c) key value (entries c).
Proof.
  intros [Hmu Hg] Hmax. destruct (cache_init_wf c Hg) as (Hwf & Hm & Hf & He).
  destruct (lru.lru_Add_spec key value (init c) tt Hwf) as (l & [] & HA & Hwf' & Hl);
    [lia|].
  destruct (lru.lru_Add_Ok _ _ _ _ _ _ Hwf HA) as (_ & _ & _ & Hm' & Hf' & _).
  exists (set_mu false (set_lru l (set_mu true c))). split_and!.
  - unfold add. apply cache_with_lock_free; [done| |done].
    change (init (set_mu true c)) with (init c). by rewrite HA.
  - split; [done|]. intros l' [= <-]. simpl. split_and!; [done|congruence..].
  - done.
  - by eexists.
  - unfold entries at 1. simpl. by rewrite Hl, Hm, He.
Qed.

Lemma cache_get_spec key c :
  wf c ->
  exists c', get key c = Ok (found (alookup key (entries c)), c') /\ wf c' /\
    cacheBytes c' = cacheBytes c /\ entries c' = touch key (entries c) /\
    (lru c = None -> c' = c).
Proof.
  intros [Hmu Hg]. unfold get. destruct (lru c) as [l|] eqn:Hl.
  - destruct (Hg l Hl) as (Hwf & Hm & Hf).
    destruct (lru.lru_Get_spec l key Hwf) as (l' & HG & Hwf' & He & Hm' & _ & Hf').
    exists (set_mu false (set_lru l' (set_mu true c))). split_and!; [| |done| |done].
    + unfold entries. rewrite Hl. simpl.
      apply cache_with_lock_free; [done| |by destruct (alookup key (lru.entries l))].
      simpl. rewrite Hl, HG. simpl. by destruct (alookup key (lru.entries l)).
    + split; [done|]. intros ? [= <-]. simpl. split_and!; [done|congruence..].
    + unfold entries. simpl. by rewrite Hl.
  - exists c. unfold entries. rewrite Hl. simpl. split_and!; [|done..].
    rewrite (cache_with_lock_free _ c (byteview.zero, false) (set_mu true c)); [|done| |done].
    + f_equal. f_equal. destruct c; simpl in *. by subst.
    + simpl. by rewrite Hl.
Qed.

(** A miss leaves the cache as it is. *)
Lemma cache_get_miss key c :
  wf c -> alookup key (entries c) = None ->
  get key c = Ok ((byteview.zero, false), c).
Proof.
  intros [Hmu Hg] Hk. unfold get, entries in *. destruct c as [mu0 [l|] n]; simpl in *; subst.
  - destruct (Hg l eq_refl) as (Hwf & _). unfold with_lock. simpl.
    by rewrite (lru.lru_Get_miss l key Hwf Hk).
  - done.
Qed.

Lemma cache_get_hit key c v :
  wf c -> alookup key (entries c) = Some v ->
  exists c', get key c = Ok ((v, true), c') /\ wf c' /\
    cacheBytes c' = cacheBytes c /\ entries c' = touch key (entries c).
Proof.
  intros Hwf Hk. destruct (cache_get_spec key c Hwf) as (c' & HG & ? & ? & ? & _).
  exists c'. by rewrite HG, Hk.
Qed.

(** A call of [add] that returns left a well-formed cache. *)
Lemma cache_add_Ok key value c u c' :
  wf c -> add key value c = Ok (u, c') ->
  wf c' /\ cacheBytes c' = cacheBytes c /\
  entries c' = lru.added (cacheBytes c) key value (entries c).
Proof.
  intros [Hmu Hg]. destruct (cache_init_wf c Hg) as (Hwf & Hm & Hf & He).
  unfold add, with_lock. rewrite Hmu. simpl.
  change (init (set_mu true c)) with (init c).
  destruct (lru.Add key value (init c) tt) as [[l []]| |] eqn:HA; simpl; [|done..].
  intros [= _ <-].
  destruct (lru.lru_Add_Ok _ _ _ _ _ _ Hwf HA) as (Hwf' & Hl & _ & Hm' & Hf' & _).
  split_and!; [split; [done|]|done|].
  - intros l' [= <-]. simpl. split_and!; [done|congruence..].
  - unfold entries at 1. simpl. by rewrite Hl, Hm, He.
Qed.

(** With a negative bound [add] does not return. *)
Lemma cache_add_negative key value c :
  wf c -> (cacheBytes c < 0)%Z ->
  int64_range (lru.total ((key, value) :: aremove key (entries c))) ->
  add key value c = Diverge.
Proof.
  intros [Hmu Hg] Hneg Hr. destruct (cache_init_wf c Hg) as (Hwf & Hm & _ & He).
  apply cache_with_lock_diverge; [done|].
  change (init (set_mu true c)) with (init c).
  rewrite lru.lru_Add_negative; [done..|lia|by rewrite He].
Qed.

(** The calls a client makes, one at a time. *)
Inductive step : cache -> cache -> Prop :=
  | step_add key value c c' :
      add key value c = Ok (tt, c') -> step c c'
  | step_get key c r c' :
      get key c = Ok (r, c') -> step c c'.

Lemma cache_step_wf c c' :
  step c c' -> wf c -> wf c' /\ cacheBytes c' = cacheBytes c.
Proof.
  intros [key value c1 c2 HA|key c1 r c2 HG] Hwf.
  - by destruct (cache_add_Ok _ _ _ _ _ Hwf HA) as (? & ? & _).
  - destruct (cache_get_spec key c1 Hwf) as (c3 & HG' & ? & ? & _).
    by assert (c2 = c3) as -> by congruence.
Qed.

(** ** Theorems of the guarded store *)

(** C11 (refinement).  On a free, well-formed cache with a bound that is
    not negative, [add] returns with the mutex released; the store exists
    from then on, and its entries are those of the abstract store after
    [Add]. *)
Theorem cache_add_refines key value c :
  wf c -> (0 <= cacheBytes c)%Z ->
  exists c', add key value c = Ok (tt, c') /\ wf c' /\ mu c' = false /\
    is_Some (lru c') /\
    entries c' = lru.added (cacheBytes c) key value (entries c).
Proof.
  intros Hwf Hmax. destruct (cache_add_spec key value c Hwf Hmax) as (c' & ? & Hwf' & ? & ? & ?).
  exists c'. split_and!; [done|done|apply Hwf'|done..].
Qed.

(** C27 (refinement).  On a free, well-formed cache [get] returns, with
    the mutex released, the value the entries hold for the key and [true],
    or the zero view and [false]; a hit moves the entry to the front; a
    cache without a store is left as it was. *)
Theorem cache_get_refines key c :
  wf c ->
  exists c', get key c = Ok (found (alookup key (entries c)), c') /\ wf c' /\
    entries c' = touch key (entries c) /\ (lru c = None -> c' = c).
Proof.
  intros Hwf. destruct (cache_get_spec key c Hwf) as (c' & ? & ? & ? & ? & ?).
  by exists c'.
Qed.

(** C28 (invariant).  Every cache reached from [cache{cacheBytes: n}] by
    calls of [add] and [get] that returned has its mutex free and its
    store, if any, well-formed, without a callback and bounded by [n]. *)
Theorem cache_reachable_wf n c :
  rtc step (new n) c -> wf c /\ cacheBytes c = n.
Proof.
  revert c. apply (rtc_ind_r (fun c => wf c /\ cacheBytes c = n) (new n)).
  - split; [apply cache_new_wf|done].
  - intros c c' _ Hs [Hwf Hn]. destruct (cache_step_wf _ _ Hs Hwf). split; congruence.
Qed.

(** With a negative [cacheBytes] the first [add] does
    not return: the eviction loop of the store spins with the mutex held,
    so the deferred unlock never runs. *)
Theorem cache_negative_cacheBytes_hangs key value c :
  wf c -> (cacheBytes c < 0)%Z ->
  int64_range (lru.total ((key, value) :: aremove key (entries c))) ->
  add key value c = Diverge.
Proof. apply cache_add_negative. Qed.

(** The store is created lazily: [get] on a new cache
    misses without creating it, and the first [add] creates it with
    [cacheBytes] as its bound and no eviction callback. *)
Theorem cache_lazy_init n key value :
  (0 <= n)%Z ->
  get key (new n) = Ok ((byteview.zero, false), new n) /\
  exists c' l, add key value (new n) = Ok (tt, c') /\ lru c' = Some l /\
    lru.maxBytes l = n /\ lru.onEvicted l = None /\
    lru.entries l = lru.added n key value [].
Proof.
  intros Hn. split; [done|].
  destruct (cache_add_spec key value (new n) (cache_new_wf n) Hn)
    as (c' & HA & [_ Hg] & Hb & [l Hl] & He).
  exists c', l. destruct (Hg l Hl) as (_ & Hm & Hf). simpl in Hb.
  split_and!; [done..|congruence|done|].
  unfold entries in He. by rewrite Hl in He.
Qed.

(** ** Concrete caches *)

Section examples.
Local Open Scope string_scope.

(** A cache of ten bytes and the cache after [add] of a key of one byte
    with the three bytes of [v_abc]. *)
Definition c_new : cache := new 10.
Definition c_k : cache :=
  match add "k" byteview.v_abc c_new with
  | Ok (_, c) => c
  | _ => c_new
  end.

Lemma c_k_wf : wf c_k.
Proof.
  unfold c_k. destruct (add "k" byteview.v_abc c_new) as [[u c]| |] eqn:HA;
    [|apply cache_new_wf..].
  by destruct (cache_add_Ok _ _ _ _ _ (cache_new_wf 10) HA).
Qed.

Lemma cache_add_refines_witness :
  wf c_new /\ (0 <= cacheBytes c_new)%Z /\
  exists c', add "k" byteview.v_abc c_new = Ok (tt, c') /\
    entries c' = [("k", byteview.v_abc)].
Proof.
  split; [apply cache_new_wf|]. split; [vm_compute; discriminate|].
  destruct (cache_add_refines "k" byteview.v_abc c_new (cache_new_wf 10))
    as (c' & HA & _ & _ & _ & He); [vm_compute; discriminate|].
  exists c'. split; [exact HA|]. rewrite He. vm_compute. reflexivity.
Defined.

Lemma cache_get_refines_witness :
  wf c_k /\
  exists c', get "k" c_k = Ok ((byteview.v_abc, true), c') /\
    entries c' = [("k", byteview.v_abc)].
Proof.
  split; [apply c_k_wf|].
  destruct (cache_get_refines "k" c_k c_k_wf) as (c' & HG & _ & He & _).
  exists c'. split; [exact HG|]. rewrite He. vm_compute. reflexivity.
Defined.

Lemma cache_reachable_wf_witness :
  rtc step (new 10) c_k /\ wf c_k /\ cacheBytes c_k = 10%Z.
Proof.
  assert (rtc step (new 10) c_k) as Hr.
  { apply rtc_once, (step_add "k" byteview.v_abc). vm_compute. reflexivity. }
  split; [exact Hr|]. exact (cache_reachable_wf 10 c_k Hr).
Defined.

Lemma cache_negative_cacheBytes_hangs_witness :
  add "k" byteview.v_abc (new (-1)) = Diverge.
Proof.
  apply cache_negative_cacheBytes_hangs;
    [apply cache_new_wf|reflexivity|vm_compute; split; discriminate].
Defined.

Lemma cache_lazy_init_witness :
  get "k" (new 10) = Ok ((byteview.zero, false), new 10) /\
  exists c' l, add "k" byteview.v_abc (new 10) = Ok (tt, c') /\ lru c' = Some l /\
    lru.maxBytes l = 10%Z /\ lru.onEvicted l = None /\
    lru.entries l = lru.added 10 "k" byteview.v_abc [].
Proof. apply cache_lazy_init. vm_compute. discriminate. Defined.

End examples.

End cache.
