(* ===== verification/ConsistentHash.v ===== *)
(** * ConsistentHash: the hash ring ([src/consistenthash/consistenthash.go])

    A [Map] holds the hash function, the number of virtual points per peer,
    the points in ascending order ([keys]) and the peer of every point
    ([hashMap]).  [Add] appends [replicas] points per peer, the hash of the
    replica number in decimal followed by the peer's name, and sorts the
    points; [Get] searches the first point at or after the hash of the key
    by binary search and wraps around to the first point.

    The hash function returns a [uint32]; a function of the model returns
    an integer that [uint32] reduces modulo 2^32.  [Get] returns an
    [outcome]: the indexing of [keys] would panic out of range.

    Theorems: [Add] keeps the points sorted and mapped to registered peers;
    [Get] never panics and never diverges, and returns the peer of the
    successor of the key's hash on the ring, as a linear scan finds it
    ([owner]); on a ring with points it returns a registered peer; on a
    ring without points it returns the empty string. *)

From Stdlib Require Import ZArith Lia.
From Stdlib Require Import Strings.Byte.
From stdpp Require Import base tactics option list list_numbers gmap strings sorting.
From S2P Require Import Prelude GoStd.

Module consistenthash.

(** [type Hash func(data []byte) uint32] *)
Definition Hash : Type := list byte -> Z.

Record Map : Type := mkMap {
  hash : Hash;
  replicas : Z;
  keys : list Z;
  hashMap : gmap Z string
}.

(** [[]byte(s)] *)
Definition bytes (s : string) : list byte := String.list_byte_of_string s.

(** The values of [uint32]. *)
Definition uint32 (z : Z) : Z := (z mod 2 ^ 32)%Z.

(** [int(m.hash([]byte(s)))] *)
Definition hash_int (m : Map) (s : string) : Z := uint32 (hash m (bytes s)).

Definition New (replicas : Z) (fn : option Hash) : Map :=
  {| hash := default crc32.ChecksumIEEE fn;
     replicas := replicas;
     keys := [];
     hashMap := ∅ |}.

(** The body of the inner loop of [Add]. *)
Definition add_replica (key : string) (m : Map) (i : Z) : Map :=
  let h := hash_int m (strconv.Itoa i +:+ key) in
  {| hash := hash m;
     replicas := replicas m;
     keys := keys m ++ [h];
     hashMap := <[h := key]> (hashMap m) |}.

(** The inner loop of [Add]: [for i := 0; i < m.replicas; i++]. *)
Definition add_key (m : Map) (key : string) : Map :=
  foldl (add_replica key) m (seqZ 0 (replicas m)).

Definition Add (ks : list string) (m : Map) : Map :=
  let m' := foldl add_key m ks in
  {| hash := hash m';
     replicas := replicas m';
     keys := sort.Ints (keys m');
     hashMap := hashMap m' |}.

(** The closure [Get] passes to [sort.Search]. *)
Definition at_or_after (m : Map) (h : Z) (i : Z) : outcome bool :=
  k ← goslice.index (keys m) i;
  Ok (bool_decide (h <= k)%Z).

Definition Get (key : string) (m : Map) : outcome string :=
  if bool_decide (goslice.len (keys m) = 0%Z) then Ok ""
  else
    let h := hash_int m key in
    idx ← sort.Search (goslice.len (keys m)) (at_or_after m h);
    k ← goslice.index (keys m) (Z.rem idx (goslice.len (keys m)));
    Ok (default "" (hashMap m !! k)).

(** ** The ring as a specification *)

(** The points [Add] creates for one peer, and for a list of peers, in the
    order of their creation. *)
Definition points_of (m : Map) (key : string) : list (Z * string) :=
  (fun i => (hash_int m (strconv.Itoa i +:+ key), key)) <$> seqZ 0 (replicas m).

Definition points (m : Map) (ks : list string) : list (Z * string) :=
  ks ≫= points_of m.

(** The assignments [m.hashMap[hash] = key] of a list of points. *)
Definition assign (hm : gmap Z string) (ps : list (Z * string)) : gmap Z string :=
  foldl (fun hm p => <[p.1 := p.2]> hm) hm ps.

(** The successor of [h] on the ring: the first point at or after [h], or
    the first point of the ring when there is none. *)
Definition successor (h : Z) (l : list Z) : option Z :=
  match filter (fun k => h <= k)%Z l with
  | k :: _ => Some k
  | [] => head l
  end.

(** The peer that owns the hash [h]. *)
Definition owner (h : Z) (m : Map) : string :=
  from_option (fun k => default "" (hashMap m !! k)) "" (successor h (keys m)).

(** The ring is well-formed for the registered peers [reg]: the points
    are in ascending order, the points are the keys of [hashMap], and
    every point belongs to a registered peer. *)
Record wf (reg : list string) (m : Map) : Prop := {
  wf_sorted : StronglySorted Z.le (keys m);
  wf_mapped : forall h, h ∈ keys m <-> is_Some (hashMap m !! h);
  wf_registered : forall h p, hashMap m !! h = Some p -> p ∈ reg
}.

(** ** [Add] *)

Lemma ch_add_key_spec m key :
  hash (add_key m key) = hash m /\ replicas (add_key m key) = replicas m /\
  keys (add_key m key) = keys m ++ (points_of m key).*1 /\
  hashMap (add_key m key) = assign (hashMap m) (points_of m key).
Proof.
  unfold add_key, points_of. generalize (seqZ 0 (replicas m)). intros l.
  assert (forall m',
    hash m' = hash m -> replicas m' = replicas m ->
    let ps := (fun i => (hash_int m (strconv.Itoa i +:+ key), key)) <$> l in
    hash (foldl (add_replica key) m' l) = hash m /\
    replicas (foldl (add_replica key) m' l) = replicas m /\
    keys (foldl (add_replica key) m' l) = keys m' ++ ps.*1 /\
    hashMap (foldl (add_replica key) m' l) = assign (hashMap m') ps) as H.
  { induction l as [|i l IH]; intros m' Hh Hr; simpl.
    - by rewrite app_nil_r.
    - destruct (IH (add_replica key m' i)) as (-> & -> & -> & ->); [done..|].
      simpl. rewrite <- app_assoc. unfold hash_int. by rewrite Hh. }
  by apply H.
Qed.

Lemma ch_hash_int_ext m m' s : hash m' = hash m -> hash_int m' s = hash_int m s.
Proof. unfold hash_int. by intros ->. Qed.

Lemma ch_points_of_ext m m' key :
  hash m' = hash m -> replicas m' = replicas m -> points_of m' key = points_of m key.
Proof. unfold points_of, hash_int. by intros -> ->. Qed.

Lemma ch_assign_app hm ps1 ps2 : assign hm (ps1 ++ ps2) = assign (assign hm ps1) ps2.
Proof. apply foldl_app. Qed.

Lemma ch_fold_add_key m ks :
  hash (foldl add_key m ks) = hash m /\ replicas (foldl add_key m ks) = replicas m /\
  keys (foldl add_key m ks) = keys m ++ (points m ks).*1 /\
  hashMap (foldl add_key m ks) = assign (hashMap m) (points m ks).
Proof.
  assert (forall m', hash m' = hash m -> replicas m' = replicas m ->
    hash (foldl add_key m' ks) = hash m /\ replicas (foldl add_key m' ks) = replicas m /\
    keys (foldl add_key m' ks) = keys m' ++ (points m ks).*1 /\
    hashMap (foldl add_key m' ks) = assign (hashMap m') (points m ks)) as H.
  { induction ks as [|key ks IH]; intros m' Hh Hr; simpl.
    - by rewrite app_nil_r.
    - destruct (ch_add_key_spec m' key) as (Hh' & Hr' & Hk & Hm).
      destruct (IH (add_key m' key)) as (-> & -> & -> & ->); [congruence..|].
      rewrite Hk, Hm, (ch_points_of_ext m m') by done.
      unfold points. simpl. by rewrite fmap_app, <- app_assoc, ch_assign_app. }
  by apply H.
Qed.

(** [Add] in terms of the points it creates. *)
Lemma ch_Add_spec ks m :
  hash (Add ks m) = hash m /\ replicas (Add ks m) = replicas m /\
  keys (Add ks m) = sort.Ints (keys m ++ (points m ks).*1) /\
  hashMap (Add ks m) = assign (hashMap m) (points m ks).
Proof.
  destruct (ch_fold_add_key m ks) as (Hh & Hr & Hk & Hm). unfold Add. simpl.
  by rewrite Hk.
Qed.

Lemma ch_assign_lookup hm ps h :
  assign hm ps !! h =
    match alookup h (reverse ps) with
    | Some p => Some p
    | None => hm !! h
    end.
Proof.
  revert hm. induction ps as [|[h' p'] ps IH] using rev_ind; intros hm; [done|].
  rewrite ch_assign_app, reverse_snoc. simpl. case_decide as Heq.
  - subst. apply lookup_insert_eq.
  - rewrite lookup_insert_ne by done. apply IH.
Qed.

Lemma ch_assign_is_Some hm ps h :
  is_Some (assign hm ps !! h) <-> h ∈ ps.*1 \/ is_Some (hm !! h).
Proof.
  revert hm. induction ps as [|[h' p'] ps IH]; intros hm; simpl.
  - rewrite elem_of_nil. tauto.
  - rewrite IH, lookup_insert_is_Some, elem_of_cons.
    destruct (decide (h' = h)) as [->|]; intuition congruence.
Qed.

Lemma ch_assign_Some hm ps h p :
  assign hm ps !! h = Some p -> (h, p) ∈ ps \/ hm !! h = Some p.
Proof.
  revert hm. induction ps as [|[h' p'] ps IH]; intros hm; simpl; [by right|].
  intros [?|Hl]%IH; [left; by right|].
  apply lookup_insert_Some in Hl as [[<- <-]|[_ ?]]; [left; by left|by right].
Qed.

Lemma ch_elem_of_points m ks h p : (h, p) ∈ points m ks -> p ∈ ks.
Proof.
  unfold points. rewrite list_elem_of_bind. intros (key & Hp & Hk).
  unfold points_of in Hp. apply list_elem_of_fmap in Hp as (i & [= _ ->] & _). done.
Qed.

Lemma ch_New_wf n fn reg : wf reg (New n fn).
Proof.
  split; simpl.
  - constructor.
  - intros h. rewrite elem_of_nil, lookup_empty. split; [done|]. by intros [? ?].
  - intros h p. by rewrite lookup_empty.
Qed.

Lemma ch_Add_wf reg ks m : wf reg m -> wf (reg ++ ks) (Add ks m).
Proof.
  intros [Hs Hm Hr]. destruct (ch_Add_spec ks m) as (_ & _ & Hk & Hh).
  split.
  - rewrite Hk. apply sort.Ints_Sorted.
  - intros h. rewrite Hk, Hh, sort.elem_of_Ints, elem_of_app, ch_assign_is_Some, Hm. tauto.
  - intros h p. rewrite Hh. intros [Hp|Hp]%ch_assign_Some; apply elem_of_app.
    + right. by eapply ch_elem_of_points.
    + left. by eapply Hr.
Qed.

(** ** [Get] *)

(** The point at an index, for the statements on the search. *)
Definition point (m : Map) (i : Z) : Z := default 0%Z (keys m !! Z.to_nat i).

Lemma ch_at_or_after m h i :
  (0 <= i < goslice.len (keys m))%Z ->
  at_or_after m h i = Ok (bool_decide (h <= point m i)%Z).
Proof.
  intros Hi. unfold at_or_after, point.
  destruct (goslice.index_Ok (keys m) i Hi) as (x & -> & ->). done.
Qed.

(** On sorted points the search returns the number of points before the
    hash. *)
Lemma ch_Search m h :
  StronglySorted Z.le (keys m) -> (goslice.len (keys m) <= int64_max)%Z ->
  exists r, sort.Search (goslice.len (keys m)) (at_or_after m h) = Ok (Z.of_nat r) /\
    r <= length (keys m) /\
    filter (fun k => h <= k)%Z (keys m) = drop r (keys m).
Proof.
  intros Hs Hn.
  destruct (sort.Search_spec (goslice.len (keys m)) (at_or_after m h)
    (fun i => bool_decide (h <= point m i)%Z) Hn) as (r & Hr & H0 & Hle & Hlo & Hhi).
  { intros k Hk. by apply ch_at_or_after. }
  { intros k k' Hk Hk' Hp. apply bool_decide_eq_true. apply bool_decide_eq_true in Hp.
    unfold goslice.len, point in *.
    destruct (lookup_lt_is_Some_2 (keys m) (Z.to_nat k)) as [x Hx]; [lia|].
    destruct (lookup_lt_is_Some_2 (keys m) (Z.to_nat k')) as [y Hy]; [lia|].
    rewrite Hx in Hp. rewrite Hy. simpl in *.
    assert (x <= y)%Z by (apply (sort.StronglySorted_lookup_le _ _ _ _ _ Hs Hx Hy); lia). lia. }
  unfold goslice.len in *. exists (Z.to_nat r). rewrite Z2Nat.id by done.
  split_and!; [done|lia|]. apply filter_boundary.
  - intros i x Hx Hi. specialize (Hlo (Z.of_nat i) ltac:(lia)).
    apply bool_decide_eq_false in Hlo. unfold point in Hlo.
    by rewrite Nat2Z.id, Hx in Hlo.
  - intros i x Hx Hi. pose proof (lookup_lt_Some _ _ _ Hx).
    specialize (Hhi (Z.of_nat i) ltac:(lia)).
    apply bool_decide_eq_true in Hhi. unfold point in Hhi.
    by rewrite Nat2Z.id, Hx in Hhi.
Qed.

(** The successor, by the position the search returns. *)
Lemma ch_successor h l r :
  r <= length l -> filter (fun k => h <= k)%Z l = drop r l ->
  successor h l = l !! (Z.to_nat (Z.rem (Z.of_nat r) (Z.of_nat (length l)))).
Proof.
  intros Hr Hf. unfold successor. rewrite Hf.
  destruct (decide (r = length l)) as [->|Hne].
  - rewrite drop_all. destruct l as [|x l]; [done|]. by rewrite Z.rem_same by (simpl; lia).
  - rewrite Z.rem_small, Nat2Z.id by lia.
    destruct (drop r l) as [|k l'] eqn:Hd.
    + apply (f_equal length) in Hd. rewrite length_drop in Hd. simpl in Hd. lia.
    + rewrite <- (Nat.add_0_r r), <- lookup_drop, Hd. done.
Qed.

Lemma ch_Get_spec key m :
  StronglySorted Z.le (keys m) -> (goslice.len (keys m) <= int64_max)%Z ->
  Get key m = Ok (owner (hash_int m key) m).
Proof.
  intros Hs Hn. unfold Get, owner. case_bool_decide as Hl.
  - unfold goslice.len in Hl. destruct (keys m); [done|simpl in Hl; lia].
  - destruct (ch_Search m (hash_int m key) Hs Hn) as (r & -> & Hr & Hf). simpl.
    rewrite (ch_successor _ _ r Hr Hf). unfold goslice.len in *.
    set (i := Z.rem (Z.of_nat r) (Z.of_nat (length (keys m)))).
    assert (0 <= i < Z.of_nat (length (keys m)))%Z as Hi.
    { subst i. destruct (decide (r = length (keys m))) as [->|];
        [rewrite Z.rem_same by lia|rewrite Z.rem_small by lia]; lia. }
    destruct (goslice.index_Ok (keys m) i Hi) as (k & -> & ->). done.
Qed.

Lemma ch_successor_elem_of h l : l <> [] -> exists k, successor h l = Some k /\ k ∈ l.
Proof.
  intros Hl. unfold successor. destruct (filter _ l) as [|k l'] eqn:Hf.
  - destruct l as [|x l]; [done|]. exists x. split; [done|by left].
  - exists k. split; [done|].
    assert (k ∈ filter (fun k => h <= k)%Z l) as Hk by (rewrite Hf; by left).
    by apply list_elem_of_filter in Hk as [_ ?].
Qed.

(** The owner of a hash on a ring with points is a registered peer. *)
Lemma ch_owner_registered reg h m : wf reg m -> keys m <> [] -> owner h m ∈ reg.
Proof.
  intros Hwf Hne. unfold owner.
  destruct (ch_successor_elem_of h _ Hne) as (k & -> & Hk). simpl.
  apply (wf_mapped _ _ Hwf) in Hk as [p Hp]. rewrite Hp. by apply (wf_registered _ _ Hwf k).
Qed.

(** A new ring that is given peers has [replicas] points for each. *)
Lemma ch_points_length m ks :
  length (points m ks) = (Z.to_nat (replicas m) * length ks)%nat.
Proof.
  unfold points. induction ks as [|k ks IH]; [simpl; lia|].
  rewrite bind_cons, length_app, IH. unfold points_of.
  rewrite length_fmap, length_seqZ. simpl. lia.
Qed.

Lemma ch_New_Add_keys n fn ks :
  length (keys (Add ks (New n fn))) = (Z.to_nat n * length ks)%nat.
Proof.
  destruct (ch_Add_spec ks (New n fn)) as (_ & _ & -> & _).
  rewrite sort.length_Ints. simpl. by rewrite length_fmap, ch_points_length.
Qed.

(** ** The order of the peers *)

(** The assignments of a list of points, as a map. *)
Lemma ch_assign_list_to_map hm ps : assign hm ps = list_to_map (reverse ps) ∪ hm.
Proof.
  induction ps as [|[h p] ps IH] using rev_ind.
  - simpl. by rewrite (left_id_L ∅ (∪)).
  - unfold assign in *. rewrite foldl_app, reverse_snoc, IH. simpl.
    by rewrite insert_union_l.
Qed.

Lemma ch_assign_perm hm ps ps' :
  NoDup ps.*1 -> ps ≡ₚ ps' -> assign hm ps = assign hm ps'.
Proof.
  intros Hnd Hp. rewrite !ch_assign_list_to_map. f_equal. apply list_to_map_proper.
  - by rewrite fmap_reverse, reverse_Permutation.
  - by rewrite !reverse_Permutation.
Qed.

Lemma ch_points_perm m ks ks' : ks ≡ₚ ks' -> points m ks ≡ₚ points m ks'.
Proof. unfold points. by intros ->. Qed.

Lemma ch_Add_eta ks m :
  Add ks m = {| hash := hash m; replicas := replicas m;
                keys := sort.Ints (keys m ++ (points m ks).*1);
                hashMap := assign (hashMap m) (points m ks) |}.
Proof.
  destruct (ch_Add_spec ks m) as (Hh & Hr & Hk & Hm).
  destruct (Add ks m). simpl in *. by subst.
Qed.

(** When the points of the new peers have different hashes, the ring
    [Add] builds does not depend on the order of the peers. *)
Lemma ch_Add_perm ks ks' m :
  ks ≡ₚ ks' -> NoDup (points m ks).*1 -> Add ks m = Add ks' m.
Proof.
  intros Hp Hnd. pose proof (ch_points_perm m ks ks' Hp) as Hpp.
  rewrite !ch_Add_eta. f_equal.
  - apply sort.Ints_perm. by rewrite Hpp.
  - by apply ch_assign_perm.
Qed.

(** The rings a program builds: [New] and then calls of [Add]. *)
Definition built (n : Z) (fn : option Hash) (kss : list (list string)) : Map :=
  foldl (fun m ks => Add ks m) (New n fn) kss.

Lemma ch_built_snoc n fn kss ks : built n fn (kss ++ [ks]) = Add ks (built n fn kss).
Proof. unfold built. by rewrite foldl_app. Qed.

Lemma ch_built_wf n fn kss : wf (concat kss) (built n fn kss).
Proof.
  induction kss as [|ks kss IH] using rev_ind; [apply ch_New_wf|].
  rewrite ch_built_snoc, concat_app. simpl. rewrite app_nil_r. by apply ch_Add_wf.
Qed.

Lemma ch_built_fields n fn kss :
  hash (built n fn kss) = default crc32.ChecksumIEEE fn /\ replicas (built n fn kss) = n.
Proof.
  induction kss as [|ks kss IH] using rev_ind; [done|]. rewrite ch_built_snoc.
  by destruct (ch_Add_spec ks (built n fn kss)) as (-> & -> & _).
Qed.

(** ** Theorems of the ring *)

(** C4 (equivalence).  On a sorted ring [Get] returns, without a panic,
    the peer of the successor of the key's hash: the binary search and
    the remainder by the length find the point a linear scan of the ring
    finds, the first point when the hash is after every point. *)
Theorem ch_Get_owner reg key m :
  wf reg m -> (goslice.len (keys m) <= int64_max)%Z ->
  Get key m = Ok (owner (hash_int m key) m).
Proof. intros [Hs _ _] Hn. by apply ch_Get_spec. Qed.

(** C20 (safety).  On a ring with points, [Get] of any key returns a
    registered peer. *)
Theorem ch_Get_registered reg key m :
  wf reg m -> keys m <> [] -> (goslice.len (keys m) <= int64_max)%Z ->
  exists p, Get key m = Ok p /\ p ∈ reg.
Proof.
  intros Hwf Hne Hn. rewrite ch_Get_spec by (done || apply Hwf).
  eexists. split; [done|]. by apply ch_owner_registered.
Qed.

(** C21 (type).  [Add] keeps the ring well-formed, with the new peers
    registered; the points of the ring are the old points and the points
    of the new peers, [replicas] for each. *)
Theorem ch_Add_invariant reg ks m :
  wf reg m ->
  wf (reg ++ ks) (Add ks m) /\
  keys (Add ks m) ≡ₚ keys m ++ (points m ks).*1 /\
  length (keys (Add ks m)) = length (keys m) + length ks * Z.to_nat (replicas m).
Proof.
  intros Hwf. split; [by apply ch_Add_wf|].
  destruct (ch_Add_spec ks m) as (_ & _ & -> & _).
  split; [apply sort.Ints_Permutation|].
  rewrite sort.length_Ints, length_app, length_fmap, ch_points_length. lia.
Qed.

(** Every ring built by [New] and calls of [Add] is
    sorted, its points are the keys of its map, and every point belongs to
    a peer that was passed to [Add]. *)
Theorem ch_built_invariant n fn kss :
  wf (concat kss) (built n fn kss) /\
  hash (built n fn kss) = default crc32.ChecksumIEEE fn /\
  replicas (built n fn kss) = n.
Proof.
  split; [apply ch_built_wf|apply ch_built_fields].
Qed.

(** A ring whose [replicas] is not positive never has
    points, whatever peers are added, and [Get] returns the empty string
    on it. *)
Theorem ch_Get_empty n fn key kss :
  (n <= 0)%Z -> keys (built n fn kss) = [] /\ Get key (built n fn kss) = Ok "".
Proof.
  intros Hn.
  assert (keys (built n fn kss) = []) as Hk.
  { induction kss as [|ks kss IH] using rev_ind; [done|]. rewrite ch_built_snoc.
    destruct (ch_Add_spec ks (built n fn kss)) as (_ & _ & -> & _).
    destruct (ch_built_fields n fn kss) as [_ Hr]. rewrite IH. simpl.
    assert (points (built n fn kss) ks = []) as ->; [|done].
    unfold points. induction ks as [|k ks IH']; [done|].
    rewrite bind_cons, IH'. unfold points_of. rewrite seqZ_nil by lia. done. }
  split; [done|]. unfold Get. by rewrite Hk.
Qed.

(** The peer of a point after [Add] is the last peer
    that was given the point: when the hashes of two virtual points
    collide, the later one takes the point from the earlier. *)
Theorem ch_Add_hashMap ks m h :
  hashMap (Add ks m) !! h =
    match alookup h (reverse (points m ks)) with
    | Some p => Some p
    | None => hashMap m !! h
    end.
Proof. destruct (ch_Add_spec ks m) as (_ & _ & _ & ->). apply ch_assign_lookup. Qed.

(** ** A concrete ring *)

Section examples.
Local Open Scope string_scope.

(** The hash of a decimal string is its number. *)
Definition atoi (data : list byte) : Z :=
  foldl (fun acc x => acc * 10 + (Z.of_N (Byte.to_N x) - 48))%Z 0%Z data.

(** Three points per peer: 2, 12, 22 for peer 2, and so on. *)
Definition ring : Map := built 3 (Some atoi) [["6"; "4"; "2"]].

Lemma ring_wf : wf ["6"; "4"; "2"] ring.
Proof. apply (ch_built_wf 3 (Some atoi) [["6"; "4"; "2"]]). Qed.

(** The points of the ring are sorted; keys go to the
    peer of the next point, and past the last point to the peer of the
    first; a peer added later takes the keys that precede its points. *)
Example ch_ring_scenario :
  keys ring = [2; 4; 6; 12; 14; 16; 22; 24; 26]%Z /\
  (fun k => Get k ring) <$> ["2"; "11"; "23"; "27"]
    = [Ok "2"; Ok "2"; Ok "4"; Ok "2"] /\
  Get "27" (Add ["8"] ring) = Ok "8".
Proof. vm_compute. done. Qed.

Lemma ch_Get_owner_witness : Get "23" ring = Ok "4".
Proof.
  rewrite (ch_Get_owner ["6"; "4"; "2"] "23" ring ring_wf); [vm_compute; reflexivity|].
  vm_compute. discriminate.
Defined.

Lemma ch_Get_registered_witness :
  exists p, Get "27" ring = Ok p /\ p ∈ ["6"; "4"; "2"].
Proof.
  apply (ch_Get_registered ["6"; "4"; "2"] "27" ring ring_wf);
    [vm_compute; discriminate|vm_compute; discriminate].
Defined.

Lemma ch_Get_empty_witness :
  keys (built 0 None [["a"; "b"]]) = [] /\ Get "k" (built 0 None [["a"; "b"]]) = Ok "".
Proof. apply ch_Get_empty. vm_compute. discriminate. Defined.

Lemma ch_Add_invariant_witness :
  wf (["6"; "4"; "2"] ++ ["8"]) (Add ["8"] ring) /\
  length (keys (Add ["8"] ring)) = 12.
Proof.
  destruct (ch_Add_invariant ["6"; "4"; "2"] ["8"] ring ring_wf) as (Hwf & _ & Hl).
  split; [exact Hwf|]. rewrite Hl. vm_compute. reflexivity.
Defined.

End examples.

End consistenthash.
