(* ===== verification/SingleFlight.v ===== *)
(** * SingleFlight: one computation in flight per key
    ([src/singleflight/singlefilight.go])

    The types [call] and [Group], the heap of [call]s, and [Do] as one
    caller runs it alone: it threads the [Group], the heap and the state
    [W] its callback acts on through the statements of the source, in the
    outcome monad.  [Do] as a goroutine runs it among others is in
    [SingleFlightInv].

    Theorems: a caller running alone on a group where its key is not
    registered gets the result of its callback and leaves the group as it
    found it; a panic or a divergence of the callback is the outcome of
    [Do]; a registered key whose call is not finished blocks the caller. *)

From Stdlib Require Import ZArith Lia.
From stdpp Require Import base tactics option list gmap strings relations.
From S2P Require Import Prelude GoStd.

Module singleflight.

(** The address of a [call]. *)
Definition loc : Type := nat.

(** A Go [error]: its message. *)
Definition error : Type := string.

Section with_types.
(** The values the callbacks return and the state they act on. *)
Context {V W : Type}.

(** What a callback returns: [(interface{}, error)], [None] for [nil]. *)
Definition result : Type := option V * option error.

(** A callback: it acts on [W] and returns, panics or runs for ever. *)
Definition func : Type := W -> outcome (result * W).

Record call : Type := mkCall {
  wg : sync.WaitGroup;
  val : option V;
  err : option error
}.

Record Group : Type := mkGroup {
  mu : sync.Mutex;
  m : option (gmap string loc)
}.

(** [&singleflight.Group{}] *)
Definition new : Group := {| mu := false; m := None |}.

(** The heap of [call]s: [new(call)] takes the next address. *)
Record heap : Type := mkHeap {
  calls : gmap loc call;
  next : loc
}.

Definition empty_heap : heap := {| calls := ∅; next := 0 |}.

Definition result_of (c : call) : result := (val c, err c).

(** The registry after the lazy initialisation. *)
Definition registry (g : Group) : gmap string loc := default ∅ (m g).

(** ** [Do], run alone *)

Definition get_call (c : loc) (h : heap) : outcome call :=
  deref "invalid memory address or nil pointer dereference" (calls h !! c).

Definition set_call (c : loc) (x : call) (h : heap) : heap :=
  {| calls := <[c := x]> (calls h); next := next h |}.

Definition Do (key : string) (fn : func) (g : Group) (h : heap) (w : W) :
    outcome (result * Group * heap * W) :=
  mu1 ← sync.Lock (mu g);
  let m1 := registry g in
  match m1 !! key with
  | Some c =>
      mu2 ← sync.Unlock mu1;
      x ← get_call c h;
      _ ← sync.Wait (wg x);
      Ok (result_of x, {| mu := mu2; m := Some m1 |}, h, w)
  | None =>
      let c := next h in
      wg1 ← sync.Add 1%Z 0%Z;
      let h1 := {| calls := <[c := mkCall wg1 None None]> (calls h); next := S c |} in
      let m2 := <[key := c]> m1 in
      mu2 ← sync.Unlock mu1;
      '(r, w') ← fn w;
      x ← get_call c h1;
      wg2 ← sync.Done (wg x);
      let h2 := set_call c (mkCall wg2 r.1 r.2) h1 in
      mu3 ← sync.Lock mu2;
      let m3 := delete key m2 in
      mu4 ← sync.Unlock mu3;
      Ok (r, {| mu := mu4; m := Some m3 |}, h2, w')
  end.

(** ** [Do] run alone *)

Section alone.
Implicit Types (g : Group) (h : heap) (w : W) (fn : func).

(** The group and the heap after a call that ran its callback. *)
Definition after_call (c : loc) (r : result) (h : heap) : heap :=
  {| calls := <[c := mkCall 0%Z r.1 r.2]> (calls h); next := S c |}.

Lemma sf_Do_spec key fn g h w r w' :
  mu g = false -> registry g !! key = None -> fn w = Ok (r, w') ->
  Do key fn g h w =
    Ok (r, {| mu := false; m := Some (registry g) |}, after_call (next h) r h, w').
Proof.
  intros Hmu Hk Hfn. unfold Do. rewrite Hmu, Hk. simpl. rewrite Hfn. simpl.
  unfold get_call. simpl. rewrite lookup_insert_eq. simpl.
  unfold set_call, after_call. simpl.
  by rewrite delete_insert_id, insert_insert_eq.
Qed.

Lemma sf_Do_fails key fn g h w :
  mu g = false -> registry g !! key = None -> ~ returns (fn w) ->
  Do key fn g h w = (fn w ≫= fun _ => Diverge).
Proof.
  intros Hmu Hk Hfn. unfold Do. rewrite Hmu, Hk. simpl.
  destruct (fn w) as [[r w']| |]; [|done..]. destruct Hfn. by eexists.
Qed.

Lemma sf_Do_blocks key fn g h w c x :
  mu g = false -> registry g !! key = Some c -> calls h !! c = Some x -> wg x <> 0%Z ->
  Do key fn g h w = Diverge.
Proof.
  intros Hmu Hk Hc Hwg. unfold Do. rewrite Hmu, Hk. simpl. unfold get_call.
  rewrite Hc. simpl. unfold sync.Wait. by rewrite bool_decide_eq_false_2.
Qed.

End alone.

End with_types.

Arguments call : clear implicits.
Arguments heap : clear implicits.
Arguments func : clear implicits.
Arguments result : clear implicits.

End singleflight.
