(* ===== verification/SingleFlightInv.v ===== *)
(** * SingleFlightInv: the goroutines in [Do] and their invariant
    ([src/singleflight/singlefilight.go])

    [step_thread] is [Do] as a goroutine runs it among others: a thread is
    at a line of the source ([pc]), and one step runs the statements up to
    the next point where other goroutines may run ([g.mu.Lock()], the end
    of a critical section, the call of the callback and its return,
    [c.wg.Done()], [c.wg.Wait()]).  A step that would block is not enabled.
    A system is a [Group], the heap of [call]s, the state of the callbacks
    and the threads; [step] is the interleaving of their steps and [run]
    follows a schedule.

    The systems reachable from [start] satisfy [inv]: the critical
    sections exclude each other and the mutex is held exactly when a
    thread is in one; a thread leads a call exactly when the registry maps
    its key to the call, and a call has one leader; a thread finds the
    call it refers to on the heap, with the wait-group counter its line
    expects; a counter that is not zero is one, and its leader is still
    before [c.wg.Done()].

    From [inv]: two callbacks are never in flight for one key
    ([sf_single_flight]); callers that return from one call return the
    same result ([sf_shared_result]); no internal error is reachable; a
    panic of a callback leaves its key registered for ever
    ([sf_panic_poisons]); when no callback panics or diverges, a system in
    which a caller has not returned can step ([sf_progress]) and every
    schedule has at most seven steps per caller ([sf_schedules_finite]);
    a caller that is not interrupted makes the steps of the sequential
    [Do] ([sf_Do_refines]), and a caller that arrives after a call for
    its key has returned runs its callback again
    ([sf_returned_call_runs_again]). *)

From Stdlib Require Import ZArith Lia.
From stdpp Require Import base tactics option list gmap strings relations.
From S2P Require Import Prelude GoStd SingleFlight.

Module singleflight_inv.
Import singleflight.

Section model.
Context {V W : Type}.

(** ** [Do], run among other goroutines *)

(** Where a goroutine is in [Do], by the line of the statement it runs
    next; [c] is its local variable. *)
Inductive pc : Type :=
  | L30                      (* g.mu.Lock() *)
  | L33                      (* the critical section of lines 33 to 51 *)
  | L41 (c : loc)            (* c.wg.Wait() *)
  | L53 (c : loc)            (* the call of fn *)
  | Lfn (c : loc)            (* inside fn; its return and the assignment *)
  | L54 (c : loc)            (* c.wg.Done() *)
  | L56 (c : loc)            (* g.mu.Lock() *)
  | L57 (c : loc)            (* delete(g.m, key); g.mu.Unlock(); return *)
  | Ret (c : loc) (r : result V)  (* returned [r], read from [c] *)
  | Panicked (c : option loc) (msg : string).

Record thread : Type := mkThread {
  key : string;
  fn : func V W;
  at_ : pc
}.

Record system : Type := mkSystem {
  group : Group;
  mem : heap V;
  world : W;
  threads : gmap nat thread
}.

Definition goto (i : nat) (t : thread) (p : pc) (ts : gmap nat thread) : gmap nat thread :=
  <[i := mkThread (key t) (fn t) p]> ts.

(** The outcome of a fatal error or a panic in a goroutine. *)
Definition crash (i : nat) (t : thread) (c : option loc) (msg : string) (s : system) : system :=
  {| group := group s; mem := mem s; world := world s;
     threads := goto i t (Panicked c msg) (threads s) |}.

(** One step of the thread [i]; [None] when the thread is blocked or has
    ended. *)
Definition step_thread (i : nat) (s : system) : option system :=
  t ← threads s !! i;
  let g := group s in
  let h := mem s in
  match at_ t with
  | L30 =>
      if mu g then None
      else Some {| group := {| mu := true; m := m g |}; mem := h; world := world s;
                   threads := goto i t L33 (threads s) |}
  | L33 =>
      let m1 := registry g in
      match m1 !! key t with
      | Some c =>
          match sync.Unlock (mu g) with
          | Ok mu2 =>
              Some {| group := {| mu := mu2; m := Some m1 |}; mem := h; world := world s;
                      threads := goto i t (L41 c) (threads s) |}
          | _ => Some (crash i t None "sync: unlock of unlocked mutex" s)
          end
      | None =>
          let c := next h in
          match sync.Add 1%Z 0%Z, sync.Unlock (mu g) with
          | Ok wg1, Ok mu2 =>
              Some {| group := {| mu := mu2; m := Some (<[key t := c]> m1) |};
                      mem := {| calls := <[c := mkCall wg1 None None]> (calls h);
                                next := S c |};
                      world := world s;
                      threads := goto i t (L53 c) (threads s) |}
          | _, _ => Some (crash i t None "sync: unlock of unlocked mutex" s)
          end
      end
  | L41 c =>
      match calls h !! c with
      | Some x =>
          if bool_decide (wg x = 0%Z)
          then Some {| group := g; mem := h; world := world s;
                       threads := goto i t (Ret c (result_of x)) (threads s) |}
          else None
      | None => Some (crash i t None "invalid memory address or nil pointer dereference" s)
      end
  | L53 c =>
      Some {| group := g; mem := h; world := world s;
              threads := goto i t (Lfn c) (threads s) |}
  | Lfn c =>
      match fn t (world s) with
      | Ok (r, w') =>
          match calls h !! c with
          | Some x =>
              Some {| group := g; mem := set_call c (mkCall (wg x) r.1 r.2) h; world := w';
                      threads := goto i t (L54 c) (threads s) |}
          | None => Some (crash i t None "invalid memory address or nil pointer dereference" s)
          end
      | Panic msg => Some (crash i t (Some c) msg s)
      | Diverge => None
      end
  | L54 c =>
      match calls h !! c with
      | Some x =>
          match sync.Done (wg x) with
          | Ok wg2 =>
              Some {| group := g; mem := set_call c (mkCall wg2 (val x) (err x)) h;
                      world := world s; threads := goto i t (L56 c) (threads s) |}
          | _ => Some (crash i t None "sync: negative WaitGroup counter" s)
          end
      | None => Some (crash i t None "invalid memory address or nil pointer dereference" s)
      end
  | L56 c =>
      if mu g then None
      else Some {| group := {| mu := true; m := m g |}; mem := h; world := world s;
                   threads := goto i t (L57 c) (threads s) |}
  | L57 c =>
      match calls h !! c, sync.Unlock (mu g) with
      | Some x, Ok mu2 =>
          Some {| group := {| mu := mu2; m := Some (delete (key t) (registry g)) |};
                  mem := h; world := world s;
                  threads := goto i t (Ret c (result_of x)) (threads s) |}
      | _, _ => Some (crash i t None "sync: unlock of unlocked mutex" s)
      end
  | Ret _ _ | Panicked _ _ => None
  end.

(** The interleaving of the threads. *)
Definition step (s s' : system) : Prop := exists i, step_thread i s = Some s'.

(** A schedule: the threads that move, in order.  A thread that cannot
    move when it is scheduled ends the run. *)
Fixpoint run (sched : list nat) (s : system) : option system :=
  match sched with
  | [] => Some s
  | i :: sched' => s' ← step_thread i s; run sched' s'
  end.

(** The system in which the callers [ts] are about to call [Do] on a new
    group. *)
Definition start (ts : list (string * func V W)) (w : W) : system :=
  {| group := new; mem := empty_heap; world := w;
     threads := list_to_map (imap (fun i kf => (i, mkThread kf.1 kf.2 L30)) ts) |}.

End model.

Arguments thread : clear implicits.
Arguments system : clear implicits.
Arguments pc : clear implicits.

Section with_types.
Context {V W : Type}.
Implicit Types (s : system V W) (t : thread V W) (p : pc V) (c : loc) (i j : nat).

(** The lines inside a critical section. *)
Definition in_cs p : bool :=
  match p with
  | L33 | L57 _ => true
  | _ => false
  end.

(** The call a thread leads: it has registered it and not yet removed
    it. *)
Definition leads p : option loc :=
  match p with
  | L53 c | Lfn c | L54 c | L56 c | L57 c | Panicked (Some c) _ => Some c
  | _ => None
  end.

(** The call whose waiters a thread has still to release. *)
Definition pending p : option loc :=
  match p with
  | L53 c | Lfn c | L54 c | Panicked (Some c) _ => Some c
  | _ => None
  end.

(** What a thread at [p] expects of the heap. *)
Definition thread_ok (h : gmap loc (call V)) p : Prop :=
  match p with
  | L30 | L33 => True
  | L41 c => is_Some (h !! c)
  | L53 c | Lfn c | L54 c | Panicked (Some c) _ =>
      exists x, h !! c = Some x /\ wg x = 1%Z
  | L56 c | L57 c => exists x, h !! c = Some x /\ wg x = 0%Z
  | Ret c r => exists x, h !! c = Some x /\ wg x = 0%Z /\ result_of x = r
  | Panicked None _ => False
  end.

(** The critical sections exclude each other, and the mutex is held
    exactly when a thread is in one. *)
Record inv_mutex (mu : sync.Mutex) (ts : gmap nat (thread V W)) : Prop := {
  inv_cs : forall i t, ts !! i = Some t -> in_cs (at_ t) = true -> mu = true;
  inv_cs_unique : forall i j ti tj, ts !! i = Some ti -> ts !! j = Some tj ->
    in_cs (at_ ti) = true -> in_cs (at_ tj) = true -> i = j;
  inv_held : mu = true -> exists i t, ts !! i = Some t /\ in_cs (at_ t) = true
}.

(** The registry maps a key to a call exactly when a thread leads the call
    for the key, and a call has one leader. *)
Record inv_registry (reg : gmap string loc) (ts : gmap nat (thread V W)) : Prop := {
  inv_reg : forall k c, reg !! k = Some c ->
    exists i t, ts !! i = Some t /\ key t = k /\ leads (at_ t) = Some c;
  inv_lead : forall i t c, ts !! i = Some t -> leads (at_ t) = Some c ->
    reg !! key t = Some c;
  inv_lead_unique : forall i j ti tj c, ts !! i = Some ti -> ts !! j = Some tj ->
    leads (at_ ti) = Some c -> leads (at_ tj) = Some c -> i = j
}.

(** The threads find their calls on the heap, and a counter that is not
    zero is one and belongs to a leader before [c.wg.Done()]. *)
Record inv_heap (h : heap V) (ts : gmap nat (thread V W)) : Prop := {
  inv_fresh : forall c, is_Some (calls h !! c) -> c < next h;
  inv_thread : forall i t, ts !! i = Some t -> thread_ok (calls h) (at_ t);
  inv_pending : forall c x, calls h !! c = Some x ->
    wg x = 0%Z \/
    (wg x = 1%Z /\ exists i t, ts !! i = Some t /\ pending (at_ t) = Some c)
}.

Record inv s : Prop := {
  inv_mu : inv_mutex (mu (group s)) (threads s);
  inv_rg : inv_registry (registry (group s)) (threads s);
  inv_hp : inv_heap (mem s) (threads s)
}.

(** ** Threads after a step *)

Lemma sf_goto_lookup i t p (ts : gmap nat (thread V W)) j tj :
  goto i t p ts !! j = Some tj <->
  (j = i /\ tj = mkThread (key t) (fn t) p) \/ (j <> i /\ ts !! j = Some tj).
Proof. unfold goto. rewrite lookup_insert_Some. intuition congruence. Qed.

Lemma sf_goto_same i t p (ts : gmap nat (thread V W)) :
  goto i t p ts !! i = Some (mkThread (key t) (fn t) p).
Proof. apply lookup_insert_eq. Qed.

Lemma sf_goto_other i t p (ts : gmap nat (thread V W)) j :
  j <> i -> goto i t p ts !! j = ts !! j.
Proof. intros. by apply lookup_insert_ne. Qed.

Lemma sf_pending_leads p c : pending p = Some c -> leads p = Some c.
Proof. destruct p as [| | | | | | | | |[?|] ?]; simpl; congruence. Qed.

Lemma sf_thread_ok_leads h p c :
  thread_ok h p -> leads p = Some c -> is_Some (h !! c).
Proof.
  destruct p as [| | | | | | | | |[?|] ?]; simpl; intros Hok [= <-];
    destruct Hok as (x & -> & _); by eexists.
Qed.

(** Case analysis on the thread a lookup after a step finds. *)
Ltac thr H :=
  apply sf_goto_lookup in H as [[-> ->]|[? H]]; simpl in *.

(** A thread of the old system, other than the one that moved, as a
    witness in the new system. *)
Ltac old_thread j tj :=
  exists j, tj; rewrite sf_goto_other by done.

(** A thread whose line [Hl] is not the line [Hp] of the thread [i] that
    moves is another thread. *)
Ltac other i j Ht Hp Hj Hl :=
  assert (j <> i) by (intros ->; rewrite Ht in Hj; injection Hj as <-;
                      rewrite Hp in Hl; done).

Section steps.
Context (ts : gmap nat (thread V W)) (i : nat) (t : thread V W) (p' : pc V).
Context (Ht : ts !! i = Some t).

(** *** The mutex *)

Lemma sf_mutex_same mu :
  in_cs p' = in_cs (at_ t) -> inv_mutex mu ts -> inv_mutex mu (goto i t p' ts).
Proof.
  intros Hp [Hcs Hun Hheld]. split.
  - intros j tj Hj Hc. thr Hj; [|by eapply Hcs]. rewrite Hp in Hc. by eapply Hcs.
  - intros j1 j2 t1 t2 H1 H2 Hc1 Hc2. thr H1; thr H2; try done.
    + rewrite Hp in Hc1. symmetry. by eapply (Hun j2 i).
    + rewrite Hp in Hc2. by eapply (Hun j1 i).
    + by eapply Hun.
  - intros [j [tj [Hj Hc]]]%Hheld. destruct (decide (j = i)) as [->|Hne].
    + exists i. eexists. rewrite sf_goto_same. split; [done|]. simpl. congruence.
    + by old_thread j tj.
Qed.

Lemma sf_mutex_free j tj : inv_mutex false ts -> ts !! j = Some tj -> in_cs (at_ tj) = false.
Proof.
  intros [Hcs _ _] Hj. destruct (in_cs (at_ tj)) eqn:Hc; [|done]. by destruct (Hcs j tj).
Qed.

Lemma sf_mutex_acquire :
  in_cs p' = true -> inv_mutex false ts -> inv_mutex true (goto i t p' ts).
Proof.
  intros Hp Hm. split.
  - done.
  - intros j1 j2 t1 t2 H1 H2 Hc1 Hc2. thr H1; thr H2; try done.
    + by rewrite (sf_mutex_free _ _ Hm H2) in Hc2.
    + by rewrite (sf_mutex_free _ _ Hm H1) in Hc1.
    + by rewrite (sf_mutex_free _ _ Hm H1) in Hc1.
  - intros _. exists i. eexists. by rewrite sf_goto_same.
Qed.

Lemma sf_mutex_release mu :
  in_cs (at_ t) = true -> in_cs p' = false -> inv_mutex mu ts ->
  inv_mutex false (goto i t p' ts).
Proof.
  intros Hc Hp [Hcs Hun Hheld].
  assert (forall j tj, goto i t p' ts !! j = Some tj -> in_cs (at_ tj) = false) as Hfree.
  { intros j tj Hj. thr Hj; [done|]. destruct (in_cs (at_ tj)) eqn:Hcj; [|done].
    by destruct (Hun j i tj t). }
  split.
  - intros j tj Hj Hcj. by rewrite (Hfree _ _ Hj) in Hcj.
  - intros j1 j2 t1 t2 H1 _ Hc1. by rewrite (Hfree _ _ H1) in Hc1.
  - done.
Qed.

(** *** The registry *)

Lemma sf_registry_same reg :
  leads p' = leads (at_ t) -> inv_registry reg ts -> inv_registry reg (goto i t p' ts).
Proof.
  intros Hp [Hreg Hlead Hlu]. split.
  - intros k c [j [tj (Hj & Hk & Hl)]]%Hreg. destruct (decide (j = i)) as [->|Hne].
    + exists i. eexists. rewrite sf_goto_same. split; [done|]. simpl. split; congruence.
    + by old_thread j tj.
  - intros j tj c Hj Hl. thr Hj; [|by eapply Hlead]. rewrite Hp in Hl. by eapply Hlead.
  - intros j1 j2 t1 t2 c H1 H2 Hl1 Hl2. thr H1; thr H2; try done.
    + rewrite Hp in Hl1. symmetry. by eapply (Hlu j2 i).
    + rewrite Hp in Hl2. by eapply (Hlu j1 i).
    + by eapply Hlu.
Qed.

Lemma sf_registry_insert reg c :
  leads (at_ t) = None -> reg !! key t = None -> leads p' = Some c ->
  (forall j tj, ts !! j = Some tj -> leads (at_ tj) <> Some c) ->
  inv_registry reg ts -> inv_registry (<[key t := c]> reg) (goto i t p' ts).
Proof.
  intros Hn Hk Hp Hc [Hreg Hlead Hlu]. split.
  - intros k c' [[<- <-]|[Hne Hkc]]%lookup_insert_Some.
    + exists i. eexists. by rewrite sf_goto_same.
    + destruct (Hreg _ _ Hkc) as (j & tj & Hj & Hkj & Hl).
      assert (j <> i) by (intros ->; congruence). by old_thread j tj.
  - intros j tj c' Hj Hl. thr Hj; [rewrite lookup_insert_eq; congruence|].
    pose proof (Hlead _ _ _ Hj Hl) as Hr. rewrite lookup_insert_ne; [done|].
    intros Heq. rewrite Heq, Hr in Hk. done.
  - intros j1 j2 t1 t2 c' H1 H2 Hl1 Hl2. thr H1; thr H2; try done.
    + destruct (Hc _ _ H2). congruence.
    + destruct (Hc _ _ H1). congruence.
    + by eapply Hlu.
Qed.

Lemma sf_registry_delete reg c :
  leads (at_ t) = Some c -> leads p' = None ->
  inv_registry reg ts -> inv_registry (delete (key t) reg) (goto i t p' ts).
Proof.
  intros Hl Hp [Hreg Hlead Hlu]. split.
  - intros k c' [Hne Hkc]%lookup_delete_Some.
    destruct (Hreg _ _ Hkc) as (j & tj & Hj & Hkj & Hlj).
    assert (j <> i) by (intros ->; congruence). by old_thread j tj.
  - intros j tj c' Hj Hlj. thr Hj; [congruence|].
    pose proof (Hlead _ _ _ Hj Hlj) as Hr. rewrite lookup_delete_ne; [done|].
    intros Heq. rewrite <- Heq, (Hlead _ _ _ Ht Hl) in Hr. injection Hr as <-.
    by destruct (Hlu j i tj t c).
  - intros j1 j2 t1 t2 c' H1 H2 Hl1 Hl2. thr H1; thr H2; try congruence. by eapply Hlu.
Qed.

(** *** The heap *)

Lemma sf_heap_same h :
  pending p' = pending (at_ t) -> thread_ok (calls h) p' ->
  inv_heap h ts -> inv_heap h (goto i t p' ts).
Proof.
  intros Hp Hok [Hfresh Hthr Hpend]. split; [done| |].
  - intros j tj Hj. thr Hj; [done|]. by eapply Hthr.
  - intros c x [?|[? [j [tj [Hj Hpe]]]]]%Hpend; [by left|right]. split; [done|].
    destruct (decide (j = i)) as [->|Hne]; [|by old_thread j tj].
    exists i. eexists. rewrite sf_goto_same. split; [done|]. simpl. congruence.
Qed.

End steps.

(** A thread keeps what it expects of the heap when a call is allocated,
    when the result of a call that is not finished is assigned, and, unless
    it is before [c.wg.Done()] itself, when the counter of [c] drops. *)
Lemma sf_thread_ok_alloc (h : gmap loc (call V)) c x p :
  h !! c = None -> thread_ok h p -> thread_ok (<[c := x]> h) p.
Proof.
  intros Hc. assert (forall c0, is_Some (h !! c0) -> c0 <> c) as Hne
    by (intros c0 [? ?] ->; congruence).
  destruct p as [| |c0|c0|c0|c0|c0|c0|c0 r|[c0|] msg]; simpl; try done;
    try (intros (y & Hy & ?); rewrite lookup_insert_ne by (symmetry; eauto); eauto).
  intros Hs. rewrite lookup_insert_ne by (symmetry; eauto). done.
Qed.

Lemma sf_thread_ok_result (h : gmap loc (call V)) c x v e p :
  h !! c = Some x -> wg x = 1%Z -> thread_ok h p ->
  thread_ok (<[c := mkCall (wg x) v e]> h) p.
Proof.
  intros Hc Hwg.
  destruct p as [| |c0|c0|c0|c0|c0|c0|c0 r|[c0|] msg]; simpl; try done;
    destruct (decide (c0 = c)) as [->|Hne];
    rewrite ?lookup_insert_eq, ?lookup_insert_ne by done; try done;
    try (intros (y & Hy & ?); simplify_eq; eauto; lia).
Qed.

Lemma sf_thread_ok_done (h : gmap loc (call V)) c x p :
  h !! c = Some x -> wg x = 1%Z -> thread_ok h p -> pending p <> Some c ->
  thread_ok (<[c := mkCall 0%Z (val x) (err x)]> h) p.
Proof.
  intros Hc Hwg.
  destruct p as [| |c0|c0|c0|c0|c0|c0|c0 r|[c0|] msg]; simpl; try done;
    destruct (decide (c0 = c)) as [->|Hne];
    rewrite ?lookup_insert_eq, ?lookup_insert_ne by done; try done;
    try (intros (y & Hy & ?) ?; simplify_eq; eauto; lia).
Qed.

Section heap_steps.
Context (ts : gmap nat (thread V W)) (i : nat) (t : thread V W).
Context (Ht : ts !! i = Some t).

Lemma sf_heap_alloc h :
  pending (at_ t) = None -> inv_heap h ts ->
  inv_heap {| calls := <[next h := mkCall 1%Z None None]> (calls h); next := S (next h) |}
           (goto i t (L53 (next h)) ts).
Proof.
  intros Hp [Hfresh Hthr Hpend].
  assert (calls h !! next h = None) as Hn.
  { destruct (calls h !! next h) eqn:Hc; [|done].
    assert (next h < next h) by (apply Hfresh; by eexists). lia. }
  split; simpl.
  - intros c [<-|[_ Hc]]%lookup_insert_is_Some; [lia|]. apply Hfresh in Hc. lia.
  - intros j tj Hj. thr Hj; [rewrite lookup_insert_eq; by eexists|].
    apply sf_thread_ok_alloc; [done|]. by eapply Hthr.
  - intros c x [[<- <-]|[Hne Hc]]%lookup_insert_Some; simpl.
    + right. split; [done|]. exists i. eexists. by rewrite sf_goto_same.
    + destruct (Hpend _ _ Hc) as [?|[? (j & tj & Hj & Hpe)]]; [by left|right].
      split; [done|]. assert (j <> i) by (intros ->; congruence). by old_thread j tj.
Qed.

Lemma sf_heap_result h c x v e :
  at_ t = Lfn c -> calls h !! c = Some x -> inv_heap h ts ->
  inv_heap (set_call c (mkCall (wg x) v e) h) (goto i t (L54 c) ts).
Proof.
  intros Hp Hc [Hfresh Hthr Hpend].
  assert (wg x = 1%Z) as Hwg.
  { pose proof (Hthr _ _ Ht) as Hok. rewrite Hp in Hok. simpl in Hok.
    destruct Hok as (y & Hy & ?). congruence. }
  split; simpl.
  - intros c' [<-|[_ Hc']]%lookup_insert_is_Some; [apply Hfresh; by eexists|by apply Hfresh].
  - intros j tj Hj. thr Hj; [rewrite lookup_insert_eq; by eexists|].
    apply sf_thread_ok_result; [done..|]. by eapply Hthr.
  - intros c' x' [[<- <-]|[Hne Hc']]%lookup_insert_Some; simpl.
    + right. split; [done|]. exists i. eexists. by rewrite sf_goto_same.
    + destruct (Hpend _ _ Hc') as [?|[? (j & tj & Hj & Hpe)]]; [by left|right].
      split; [done|]. assert (j <> i); [|by old_thread j tj].
      intros ->. rewrite Ht in Hj. injection Hj as <-. rewrite Hp in Hpe. simpl in Hpe.
      congruence.
Qed.

Lemma sf_heap_done h reg c x :
  at_ t = L54 c -> calls h !! c = Some x -> inv_registry reg ts -> inv_heap h ts ->
  wg x = 1%Z /\
  inv_heap (set_call c (mkCall 0%Z (val x) (err x)) h) (goto i t (L56 c) ts).
Proof.
  intros Hp Hc [_ _ Hlu] [Hfresh Hthr Hpend].
  assert (wg x = 1%Z) as Hwg.
  { pose proof (Hthr _ _ Ht) as Hok. rewrite Hp in Hok. simpl in Hok.
    destruct Hok as (y & Hy & ?). congruence. }
  assert (forall j tj, j <> i -> ts !! j = Some tj -> pending (at_ tj) <> Some c) as Hother.
  { intros j tj Hne Hj Hpe%sf_pending_leads. apply Hne.
    apply (Hlu j i tj t c); [done..|]. by rewrite Hp. }
  split; [done|]. split; simpl.
  - intros c' [<-|[_ Hc']]%lookup_insert_is_Some; [apply Hfresh; by eexists|by apply Hfresh].
  - intros j tj Hj. thr Hj; [rewrite lookup_insert_eq; by eexists|].
    apply sf_thread_ok_done; [done..|by eapply Hthr|by eapply Hother].
  - intros c' x' [[<- <-]|[Hne Hc']]%lookup_insert_Some; simpl; [by left|].
    destruct (Hpend _ _ Hc') as [?|[? (j & tj & Hj & Hpe)]]; [by left|right].
    split; [done|]. assert (j <> i); [|by old_thread j tj].
    intros ->. rewrite Ht in Hj. injection Hj as <-. rewrite Hp in Hpe. simpl in Hpe.
    congruence.
Qed.

End heap_steps.

(** ** Every step keeps the invariant *)

Section preservation.
Context (s : system V W) (i : nat) (t : thread V W).
Context (Hinv : inv s) (Ht : threads s !! i = Some t).

(** A step that changes the line of the thread and nothing that the
    invariant reads of its old line. *)
Lemma sf_inv_goto p' w' :
  in_cs p' = in_cs (at_ t) -> leads p' = leads (at_ t) ->
  pending p' = pending (at_ t) -> thread_ok (calls (mem s)) p' ->
  inv {| group := group s; mem := mem s; world := w'; threads := goto i t p' (threads s) |}.
Proof.
  intros Hc Hl Hp Hok. destruct Hinv as [Hm Hr Hh]. split; simpl.
  - by apply sf_mutex_same.
  - by apply sf_registry_same.
  - by apply sf_heap_same.
Qed.

(** The thread takes the mutex. *)
Lemma sf_inv_lock p' :
  mu (group s) = false -> in_cs p' = true -> leads p' = leads (at_ t) ->
  pending p' = pending (at_ t) -> thread_ok (calls (mem s)) p' ->
  inv {| group := {| mu := true; m := m (group s) |}; mem := mem s; world := world s;
         threads := goto i t p' (threads s) |}.
Proof.
  intros Hmu Hc Hl Hp Hok. destruct Hinv as [Hm Hr Hh]. rewrite Hmu in Hm.
  split; simpl.
  - by apply sf_mutex_acquire.
  - by apply sf_registry_same.
  - by apply sf_heap_same.
Qed.

(** The call a thread refers to is on the heap. *)
Lemma sf_call_of_leader c :
  leads (at_ t) = Some c -> is_Some (calls (mem s) !! c).
Proof.
  intros Hl. eapply sf_thread_ok_leads; [|done]. by apply (inv_thread _ _ (inv_hp _ Hinv) i).
Qed.

Lemma sf_in_cs_held : in_cs (at_ t) = true -> mu (group s) = true.
Proof. intros Hc. by eapply (inv_cs _ _ (inv_mu _ Hinv)). Qed.

(** Lines 33 to 41: the key is registered, the thread will wait. *)
Lemma sf_inv_L33_hit c :
  at_ t = L33 -> registry (group s) !! key t = Some c ->
  inv {| group := {| mu := false; m := Some (registry (group s)) |}; mem := mem s;
         world := world s; threads := goto i t (L41 c) (threads s) |}.
Proof.
  intros Hp Hk. destruct Hinv as [Hm Hr Hh]. split; simpl.
  - apply (sf_mutex_release _ _ _ _ Ht (mu (group s))); [by rewrite Hp|done..].
  - apply sf_registry_same; [done|by rewrite Hp|done].
  - apply sf_heap_same; [done|by rewrite Hp| |done]. simpl.
    destruct (inv_reg _ _ Hr _ _ Hk) as (j & tj & Hj & _ & Hl).
    eapply sf_thread_ok_leads; [|done]. by apply (inv_thread _ _ Hh j).
Qed.

(** Lines 33 to 51: the key is not registered, the thread registers a new
    call. *)
Lemma sf_inv_L33_miss :
  at_ t = L33 -> registry (group s) !! key t = None ->
  inv {| group := {| mu := false; m := Some (<[key t := next (mem s)]> (registry (group s))) |};
         mem := {| calls := <[next (mem s) := mkCall 1%Z None None]> (calls (mem s));
                   next := S (next (mem s)) |};
         world := world s; threads := goto i t (L53 (next (mem s))) (threads s) |}.
Proof.
  intros Hp Hk. destruct Hinv as [Hm Hr Hh]. split; simpl.
  - apply (sf_mutex_release _ _ _ _ Ht (mu (group s))); [by rewrite Hp|done..].
  - apply sf_registry_insert; [done|by rewrite Hp|done..| |done].
    intros j tj Hj Hl.
    assert (next (mem s) < next (mem s)); [|lia]. apply (inv_fresh _ _ Hh).
    eapply sf_thread_ok_leads; [|done]. by apply (inv_thread _ _ Hh j).
  - apply sf_heap_alloc; [done|by rewrite Hp|done].
Qed.

(** Lines 57 to 60: the thread removes its call and returns. *)
Lemma sf_inv_L57 c x :
  at_ t = L57 c -> calls (mem s) !! c = Some x ->
  inv {| group := {| mu := false; m := Some (delete (key t) (registry (group s))) |};
         mem := mem s; world := world s;
         threads := goto i t (Ret c (result_of x)) (threads s) |}.
Proof.
  intros Hp Hc. destruct Hinv as [Hm Hr Hh]. split; simpl.
  - apply (sf_mutex_release _ _ _ _ Ht (mu (group s))); [by rewrite Hp|done..].
  - apply (sf_registry_delete _ _ _ _ Ht _ c); [by rewrite Hp|done..].
  - apply sf_heap_same; [done|by rewrite Hp| |done]. simpl.
    pose proof (inv_thread _ _ Hh _ _ Ht) as Hok. rewrite Hp in Hok.
    destruct Hok as (y & Hy & ?). exists x. split; [done|]. split; [congruence|done].
Qed.

(** Line 53: the callback has returned and its result is assigned. *)
Lemma sf_inv_Lfn c x r w' :
  at_ t = Lfn c -> calls (mem s) !! c = Some x ->
  inv {| group := group s; mem := set_call c (mkCall (wg x) r.1 r.2) (mem s); world := w';
         threads := goto i t (L54 c) (threads s) |}.
Proof.
  intros Hp Hc. destruct Hinv as [Hm Hr Hh]. split; simpl.
  - apply sf_mutex_same; [done|by rewrite Hp|done].
  - apply sf_registry_same; [done|by rewrite Hp|done].
  - by apply sf_heap_result.
Qed.

(** Line 54: [c.wg.Done()] releases the waiters. *)
Lemma sf_inv_L54 c x :
  at_ t = L54 c -> calls (mem s) !! c = Some x ->
  sync.Done (wg x) = Ok 0%Z /\
  inv {| group := group s; mem := set_call c (mkCall 0%Z (val x) (err x)) (mem s);
         world := world s; threads := goto i t (L56 c) (threads s) |}.
Proof.
  intros Hp Hc. destruct Hinv as [Hm Hr Hh].
  destruct (sf_heap_done _ _ _ Ht _ _ _ _ Hp Hc Hr Hh) as [Hwg Hh'].
  split; [by rewrite Hwg|]. split; simpl; [| |done].
  - apply sf_mutex_same; [done|by rewrite Hp|done].
  - apply sf_registry_same; [done|by rewrite Hp|done].
Qed.

End preservation.

Lemma sf_step_inv s i s' : inv s -> step_thread i s = Some s' -> inv s'.
Proof.
  intros Hinv. unfold step_thread. destruct (threads s !! i) as [t|] eqn:Ht; [|done].
  simpl. pose proof (inv_thread _ _ (inv_hp _ Hinv) _ _ Ht) as Hok.
  destruct (at_ t) as [| |c|c|c|c|c|c|c r|c msg] eqn:Hp; simpl in Hok; [| | | | | | | |done..].
  - destruct (mu (group s)) eqn:Hmu; [done|]. intros [= <-].
    apply sf_inv_lock; rewrite ?Hp; done.
  - rewrite (sf_in_cs_held s i t Hinv Ht) by (by rewrite Hp).
    destruct (registry (group s) !! key t) eqn:Hk; simpl; intros [= <-];
      [by apply sf_inv_L33_hit|by apply sf_inv_L33_miss].
  - destruct Hok as [x Hx]. rewrite Hx. case_bool_decide; [|done]. intros [= <-].
    apply sf_inv_goto; rewrite ?Hp; try done. simpl. eauto.
  - intros [= <-]. apply sf_inv_goto; rewrite ?Hp; done.
  - destruct Hok as (x & Hx & Hwg). rewrite Hx.
    destruct (fn t (world s)) as [[r w']|msg|]; [| |done]; intros [= <-].
    + by apply sf_inv_Lfn.
    + apply sf_inv_goto; rewrite ?Hp; try done. simpl. eauto.
  - destruct Hok as (x & Hx & Hwg). rewrite Hx.
    destruct (sf_inv_L54 s i t Hinv Ht c x Hp Hx) as [-> Hinv']. by intros [= <-].
  - destruct (mu (group s)) eqn:Hmu; [done|]. intros [= <-].
    apply sf_inv_lock; rewrite ?Hp; done.
  - destruct Hok as (x & Hx & Hwg). rewrite Hx.
    rewrite (sf_in_cs_held s i t Hinv Ht) by (by rewrite Hp). simpl. intros [= <-].
    by apply sf_inv_L57.
Qed.

Lemma sf_start_inv (cs : list (string * func V W)) w : inv (start cs w).
Proof.
  assert (forall j tj, threads (start cs w) !! j = Some tj -> at_ tj = L30) as H30.
  { intros j tj Hj. apply elem_of_list_to_map_2 in Hj.
    apply list_elem_of_lookup in Hj as [k Hk]. rewrite list_lookup_imap in Hk.
    destruct (cs !! k); simpl in Hk; by simplify_eq. }
  split; split; simpl; try done.
  - intros j tj Hj. by rewrite (H30 _ _ Hj).
  - intros j1 j2 t1 t2 H1. by rewrite (H30 _ _ H1).
  - intros j tj c Hj. by rewrite (H30 _ _ Hj).
  - intros j1 j2 t1 t2 c H1. by rewrite (H30 _ _ H1).
  - intros c [x Hx]. by rewrite lookup_empty in Hx.
  - intros j tj Hj. by rewrite (H30 _ _ Hj).
Qed.

Lemma sf_reachable_inv (cs : list (string * func V W)) w s :
  rtc step (start cs w) s -> inv s.
Proof.
  revert s. apply (rtc_ind_r (fun s => inv s) (start cs w)); [apply sf_start_inv|].
  intros s s' _ [i Hs] Hinv. by eapply sf_step_inv.
Qed.

Lemma sf_run_rtc sched s s' : run sched s = Some s' -> rtc step s s'.
Proof.
  revert s. induction sched as [|i sched IH]; intros s; simpl; [by intros [= <-]|].
  destruct (step_thread i s) as [s1|] eqn:Hs; simpl; [|done].
  intros Hr. eapply rtc_l; [by exists i|by apply IH].
Qed.


(** ** Progress *)

(** The lines from which a thread can always step, and the lines at which
    it waits for the mutex. *)
Definition runnable p : bool :=
  match p with
  | L33 | L53 _ | L54 _ | L57 _ => true
  | _ => false
  end.

Definition locking p : bool :=
  match p with
  | L30 | L56 _ => true
  | _ => false
  end.

Lemma sf_enabled_runnable s i t :
  threads s !! i = Some t -> runnable (at_ t) = true -> is_Some (step_thread i s).
Proof.
  intros Ht Hr. unfold step_thread. rewrite Ht. simpl.
  destruct (at_ t); try done; simpl; repeat case_match; by eexists.
Qed.

Lemma sf_enabled_locking s i t :
  threads s !! i = Some t -> locking (at_ t) = true -> mu (group s) = false ->
  is_Some (step_thread i s).
Proof.
  intros Ht Hr Hmu. unfold step_thread. rewrite Ht. simpl.
  destruct (at_ t); try done; rewrite Hmu; by eexists.
Qed.

Lemma sf_enabled_Lfn s i t c :
  threads s !! i = Some t -> at_ t = Lfn c -> fn t (world s) <> Diverge ->
  is_Some (step_thread i s).
Proof.
  intros Ht Hp Hfn. unfold step_thread. rewrite Ht. simpl. rewrite Hp.
  destruct (fn t (world s)) as [[r w']| |]; [|by eexists|done].
  destruct (calls (mem s) !! c); by eexists.
Qed.

Lemma sf_enabled_L41 s i t c x :
  threads s !! i = Some t -> at_ t = L41 c -> calls (mem s) !! c = Some x ->
  wg x = 0%Z -> is_Some (step_thread i s).
Proof.
  intros Ht Hp Hc Hwg. unfold step_thread. rewrite Ht. simpl. rewrite Hp, Hc.
  rewrite bool_decide_eq_true_2 by done. by eexists.
Qed.

(** A thread that has neither returned nor panicked, outside the critical
    sections, can step, or waits for a call whose leader can. *)
Lemma sf_enabled_free s i t :
  inv s -> mu (group s) = false ->
  (forall j tj, threads s !! j = Some tj -> fn tj (world s) <> Diverge) ->
  (forall j tj oc msg, threads s !! j = Some tj -> at_ tj <> Panicked oc msg) ->
  threads s !! i = Some t -> (forall c r, at_ t <> Ret c r) ->
  exists j, is_Some (step_thread j s).
Proof.
  intros Hinv Hmu Hfn Hnp Ht Hnr.
  pose proof (inv_thread _ _ (inv_hp _ Hinv) _ _ Ht) as Hok.
  destruct (at_ t) as [| |c|c|c|c|c|c|c r|c msg] eqn:Hp; simpl in Hok.
  - exists i. eapply sf_enabled_locking; [done|by rewrite Hp|done].
  - exists i. eapply sf_enabled_runnable; [done|by rewrite Hp].
  - destruct Hok as [x Hx].
    destruct (inv_pending _ _ (inv_hp _ Hinv) _ _ Hx) as [Hwg|[Hwg (j & tj & Hj & Hpe)]].
    { exists i. by eapply sf_enabled_L41. }
    exists j. destruct (at_ tj) as [| |c'|c'|c'|c'|c'|c'|c' r'|c' msg'] eqn:Hpj;
      try done.
    + eapply sf_enabled_runnable; [done|by rewrite Hpj].
    + eapply sf_enabled_Lfn; [done..|by eapply Hfn].
    + eapply sf_enabled_runnable; [done|by rewrite Hpj].
    + by destruct (Hnp _ _ c' msg' Hj).
  - exists i. eapply sf_enabled_runnable; [done|by rewrite Hp].
  - exists i. eapply sf_enabled_Lfn; [done..|by eapply Hfn].
  - exists i. eapply sf_enabled_runnable; [done|by rewrite Hp].
  - exists i. eapply sf_enabled_locking; [done|by rewrite Hp|done].
  - exists i. eapply sf_enabled_runnable; [done|by rewrite Hp].
  - by destruct (Hnr c r).
  - by destruct (Hnp _ _ c msg Ht).
Qed.

(** ** Termination *)

(** The number of steps a thread at [p] has left, at most. *)
Definition rank p : nat :=
  match p with
  | L30 => 7
  | L33 => 6
  | L53 _ => 5
  | Lfn _ => 4
  | L54 _ => 3
  | L56 _ => 2
  | L57 _ | L41 _ => 1
  | Ret _ _ | Panicked _ _ => 0
  end.

Definition measure (ts : gmap nat (thread V W)) : nat :=
  map_fold (fun _ t n => rank (at_ t) + n) 0 ts.

Lemma sf_measure_goto (ts : gmap nat (thread V W)) i t p :
  ts !! i = Some t -> measure (goto i t p ts) + rank (at_ t) = measure ts + rank p.
Proof.
  intros Ht. unfold measure, goto.
  rewrite (map_fold_delete_L _ _ i t ts) by (done || intros; lia).
  rewrite <- insert_delete_eq.
  rewrite map_fold_insert_L by (intros; lia || apply lookup_delete_eq). simpl. lia.
Qed.

Lemma sf_step_threads s i s' :
  step_thread i s = Some s' ->
  exists t p, threads s !! i = Some t /\ threads s' = goto i t p (threads s) /\
    rank p < rank (at_ t).
Proof.
  unfold step_thread. destruct (threads s !! i) as [t|] eqn:Ht; [|done]. simpl.
  intros Hs. exists t.
  destruct (at_ t); simpl in Hs; repeat case_match; simplify_eq;
    eexists; (split; [done|]); (split; [done|]); simpl; lia.
Qed.

Lemma sf_step_measure s i s' :
  step_thread i s = Some s' -> measure (threads s') < measure (threads s).
Proof.
  intros (t & p & Ht & -> & Hr)%sf_step_threads.
  pose proof (sf_measure_goto _ _ _ p Ht). lia.
Qed.

Lemma sf_run_measure sched s s' :
  run sched s = Some s' -> length sched + measure (threads s') <= measure (threads s).
Proof.
  revert s. induction sched as [|i sched IH]; intros s; simpl; [intros [= <-]; lia|].
  destruct (step_thread i s) as [s1|] eqn:Hs; simpl; [|done].
  intros Hr%IH. apply sf_step_measure in Hs. lia.
Qed.

Lemma sf_measure_from (cs : list (string * func V W)) k :
  let ts : gmap nat (thread V W) :=
    list_to_map (imap (fun i kf => (k + i, mkThread kf.1 kf.2 L30)) cs) in
  measure ts = 7 * length cs /\ forall j, j < k -> ts !! j = None.
Proof.
  revert k. induction cs as [|kf cs IH]; intros k; simpl; [done|].
  rewrite (imap_ext _ (fun i kf => (S k + i, mkThread kf.1 kf.2 L30)))
    by (intros; simpl; f_equal; lia).
  destruct (IH (S k)) as [Hm Hnone]. split.
  - unfold measure in *.
    rewrite map_fold_insert_L by (intros; lia || apply Hnone; lia). rewrite Hm. simpl. lia.
  - intros j Hj. rewrite lookup_insert_ne by lia. apply Hnone. lia.
Qed.

Lemma sf_measure_start (cs : list (string * func V W)) w :
  measure (threads (start cs w)) = 7 * length cs.
Proof. by destruct (sf_measure_from cs 0). Qed.

(** A thread that does not move is not changed by the step of another. *)
Lemma sf_step_other s j s' i t :
  step_thread j s = Some s' -> threads s !! i = Some t -> i <> j ->
  threads s' !! i = Some t.
Proof.
  intros (tj & p & Hj & -> & _)%sf_step_threads Hi Hne. by rewrite sf_goto_other.
Qed.

(** A thread that has panicked stays as it is. *)
Lemma sf_panicked_stays s s' i t oc msg :
  rtc step s s' -> threads s !! i = Some t -> at_ t = Panicked oc msg ->
  threads s' !! i = Some t.
Proof.
  intros Hr Ht Hp. induction Hr as [|s1 s2 s3 [j Hs] _ IH]; [done|]. apply IH.
  eapply sf_step_other; [done..|]. intros ->. unfold step_thread in Hs.
  rewrite Ht in Hs. simpl in Hs. by rewrite Hp in Hs.
Qed.

(** ** A thread that runs alone *)

Lemma sf_goto_goto (ts : gmap nat (thread V W)) i t p p' :
  goto i (mkThread (key t) (fn t) p) p' (goto i t p ts) = goto i t p' ts.
Proof. unfold goto. simpl. apply insert_insert_eq. Qed.

Lemma sf_run_step n i s s1 :
  step_thread i s = Some s1 -> run (replicate (S n) i) s = run (replicate n i) s1.
Proof. intros Hs. simpl. by rewrite Hs. Qed.

Lemma sf_run_app sched sched' s :
  run (sched ++ sched') s = run sched s ≫= run sched'.
Proof.
  revert s. induction sched as [|i sched IH]; intros s; simpl; [done|].
  destruct (step_thread i s); simpl; [apply IH|done].
Qed.

(** The step of a thread that has just moved. *)
Ltac step_of_moved :=
  unfold step_thread; simpl; rewrite sf_goto_same; simpl;
  rewrite ?lookup_insert_eq, ?sf_goto_goto; simpl; reflexivity.

(** The seven steps of a caller that finds its key unregistered and takes
    the mutex without waiting. *)
Lemma sf_run_alone s i t r w' :
  threads s !! i = Some t -> at_ t = L30 -> mu (group s) = false ->
  registry (group s) !! key t = None -> fn t (world s) = Ok (r, w') ->
  run (replicate 7 i) s =
    Some {| group := {| mu := false; m := Some (registry (group s)) |};
            mem := after_call (next (mem s)) r (mem s);
            world := w';
            threads := goto i t (Ret (next (mem s)) r) (threads s) |}.
Proof.
  intros Ht Hp Hmu Hk Hfn. destruct s as [[mu0 m0] h w ts].
  simpl in Ht, Hp, Hmu, Hk, Hfn. subst mu0. cbn [group mem world threads].
  erewrite sf_run_step; [|unfold step_thread; simpl; rewrite Ht; simpl; by rewrite Hp].
  erewrite sf_run_step; [|unfold step_thread; simpl; rewrite sf_goto_same; simpl;
    change (registry {| mu := true; m := m0 |}) with (registry {| mu := false; m := m0 |});
    rewrite Hk, sf_goto_goto; reflexivity].
  erewrite sf_run_step; [|step_of_moved].
  erewrite sf_run_step; [|unfold step_thread; simpl; rewrite sf_goto_same; simpl;
    rewrite Hfn, lookup_insert_eq, sf_goto_goto; reflexivity].
  do 3 (erewrite sf_run_step; [|step_of_moved]).
  simpl. unfold after_call, registry, set_call in *. simpl in *. destruct r as [v e].
  by rewrite delete_insert_id, !insert_insert_eq by done.
Qed.

(** ** Theorems of the coalescer *)

Section theorems.
Context (cs : list (string * func V W)) (w0 : W).

(** C2 (safety).  Never two fills in flight for one key: in a reachable
    system, two threads that lead a call (from its registration to its
    removal, the callback included) for the same key are one thread. *)
Theorem sf_single_flight s i j ti tj :
  rtc step (start cs w0) s ->
  threads s !! i = Some ti -> threads s !! j = Some tj -> key ti = key tj ->
  is_Some (leads (at_ ti)) -> is_Some (leads (at_ tj)) -> i = j.
Proof.
  intros [_ Hr _]%sf_reachable_inv Hi Hj Hk [ci Hci] [cj Hcj].
  pose proof (inv_lead _ _ Hr _ _ _ Hi Hci) as H1.
  pose proof (inv_lead _ _ Hr _ _ _ Hj Hcj) as H2.
  rewrite Hk, H2 in H1. injection H1 as ->. by apply (inv_lead_unique _ _ Hr i j ti tj ci).
Qed.

(** The mutex of the group gives mutual exclusion: two
    threads between [g.mu.Lock()] and [g.mu.Unlock()] are one thread, and
    the mutex is held exactly when a thread is there. *)
Theorem sf_mutual_exclusion s :
  rtc step (start cs w0) s ->
  (forall i j ti tj, threads s !! i = Some ti -> threads s !! j = Some tj ->
     in_cs (at_ ti) = true -> in_cs (at_ tj) = true -> i = j) /\
  (mu (group s) = true <->
   exists i t, threads s !! i = Some t /\ in_cs (at_ t) = true).
Proof.
  intros [[Hcs Hun Hheld] _ _]%sf_reachable_inv. split; [done|]. split; [done|].
  intros (i & t & Hi & Hc). by eapply Hcs.
Qed.

(** C18 (functional).  The callers that return from one call return the
    same result: the value and the error the call holds, which nothing
    changes once its counter is zero. *)
Theorem sf_shared_result s i j ti tj c ri rj :
  rtc step (start cs w0) s ->
  threads s !! i = Some ti -> threads s !! j = Some tj ->
  at_ ti = Ret c ri -> at_ tj = Ret c rj ->
  ri = rj /\ exists x, calls (mem s) !! c = Some x /\ result_of x = ri /\ wg x = 0%Z.
Proof.
  intros [_ _ Hh]%sf_reachable_inv Hi Hj Hpi Hpj.
  pose proof (inv_thread _ _ Hh _ _ Hi) as Hoi. rewrite Hpi in Hoi.
  pose proof (inv_thread _ _ Hh _ _ Hj) as Hoj. rewrite Hpj in Hoj.
  destruct Hoi as (x & Hx & Hwg & <-), Hoj as (y & Hy & _ & <-).
  split; [congruence|]. by exists x.
Qed.

(** [Do] has no error of its own: no reachable thread has
    dereferenced a nil call, unlocked a free mutex or made a wait-group
    counter negative; a thread has panicked only in its callback. *)
Theorem sf_no_internal_error s i t msg :
  rtc step (start cs w0) s -> threads s !! i = Some t -> at_ t <> Panicked None msg.
Proof.
  intros [_ _ Hh]%sf_reachable_inv Hi Hp.
  pose proof (inv_thread _ _ Hh _ _ Hi) as Hok. by rewrite Hp in Hok.
Qed.

(** C9 (liveness).  No deadlock: in a reachable system where no thread
    has panicked and no callback diverges, if some caller has not returned
    then some thread can step. *)
Theorem sf_progress s i t :
  rtc step (start cs w0) s ->
  (forall j tj, threads s !! j = Some tj -> fn tj (world s) <> Diverge) ->
  (forall j tj oc msg, threads s !! j = Some tj -> at_ tj <> Panicked oc msg) ->
  threads s !! i = Some t -> (forall c r, at_ t <> Ret c r) ->
  exists j s', step_thread j s = Some s'.
Proof.
  intros Hinv%sf_reachable_inv Hfn Hnp Hi Hnr.
  assert (exists j, is_Some (step_thread j s)) as [j [s' Hs]]; [|by exists j, s'].
  destruct (mu (group s)) eqn:Hmu; [|by eapply sf_enabled_free].
  destruct (inv_held _ _ (inv_mu _ Hinv) Hmu) as (j & tj & Hj & Hc).
  exists j. eapply sf_enabled_runnable; [done|]. by destruct (at_ tj).
Qed.

(** Every schedule is finite: the callers of a system
    make at most seven steps each, whatever the interleaving. *)
Theorem sf_schedules_finite sched s :
  run sched (start cs w0) = Some s -> length sched <= 7 * length cs.
Proof. intros Hr%sf_run_measure. rewrite sf_measure_start in Hr. lia. Qed.

(** C24 (safety).  A panic of the callback poisons its key: the thread
    that panicked never removes its call, so in every later system the
    key is still registered and a thread that waits for the call cannot
    step. *)
Theorem sf_panic_poisons s s' i j t tj c msg :
  rtc step (start cs w0) s -> rtc step s s' ->
  threads s !! i = Some t -> at_ t = Panicked (Some c) msg ->
  threads s' !! j = Some tj -> at_ tj = L41 c ->
  step_thread j s' = None /\ registry (group s') !! key t = Some c.
Proof.
  intros Hr Hr' Hi Hp Hj Hpj.
  pose proof (sf_panicked_stays _ _ _ _ _ _ Hr' Hi Hp) as Hi'.
  assert (inv s') as [_ Hrg Hh] by (apply (sf_reachable_inv cs w0); by etrans).
  pose proof (inv_thread _ _ Hh _ _ Hi') as Hok. rewrite Hp in Hok.
  destruct Hok as (x & Hx & Hwg). split.
  - unfold step_thread. rewrite Hj. simpl. rewrite Hpj, Hx.
    by rewrite bool_decide_eq_false_2 by lia.
  - apply (inv_lead _ _ Hrg i); [done|by rewrite Hp].
Qed.

End theorems.

(** C19 (refinement).  A caller that finds its key unregistered and is not
    interrupted makes the seven steps of [Do]: the system it leaves is the
    one [Do] returns, and it returns the result of its callback. *)
Theorem sf_Do_refines s i t r w' :
  threads s !! i = Some t -> at_ t = L30 -> mu (group s) = false ->
  registry (group s) !! key t = None -> fn t (world s) = Ok (r, w') ->
  exists s', run (replicate 7 i) s = Some s' /\
    Do (key t) (fn t) (group s) (mem s) (world s) = Ok (r, group s', mem s', world s') /\
    threads s' !! i = Some (mkThread (key t) (fn t) (Ret (next (mem s)) r)).
Proof.
  intros Ht Hp Hmu Hk Hfn. eexists. split; [by apply sf_run_alone|]. simpl.
  split; [by apply sf_Do_spec|apply sf_goto_same].
Qed.

(** C32 (functional).  A call that arrives after a call for the same key
    has returned runs its callback again: when two callers of one key run
    one after the other, the first removes the key as it returns, so the
    second finds it unregistered, creates a call of its own and runs its
    callback on the state the first callback left.  The coalescer merges
    only the calls that overlap. *)
Theorem sf_returned_call_runs_again s i j ti tj ri wi rj wj :
  i <> j -> threads s !! i = Some ti -> threads s !! j = Some tj ->
  at_ ti = L30 -> at_ tj = L30 -> key tj = key ti ->
  mu (group s) = false -> registry (group s) !! key ti = None ->
  fn ti (world s) = Ok (ri, wi) -> fn tj wi = Ok (rj, wj) ->
  exists s', run (replicate 7 i ++ replicate 7 j) s = Some s' /\ world s' = wj /\
    at_ <$> threads s' !! i = Some (Ret (next (mem s)) ri) /\
    at_ <$> threads s' !! j = Some (Ret (S (next (mem s))) rj) /\
    registry (group s') !! key ti = None /\ mu (group s') = false.
Proof.
  intros Hij Hi Hj Hpi Hpj Hk Hmu Hreg Hfi Hfj.
  rewrite sf_run_app, (sf_run_alone s i ti ri wi) by done. cbn [mbind option_bind].
  erewrite (sf_run_alone _ j tj rj wj);
    [|by cbn [threads]; rewrite sf_goto_other|done|done|by rewrite Hk|done].
  eexists. split; [done|]. cbn [world threads group mem mu after_call next].
  rewrite sf_goto_same, sf_goto_other, sf_goto_same by done.
  split_and!; [done..|exact Hreg|done].
Qed.

End with_types.

(** ** Concrete systems *)

Section examples.
Local Open Scope string_scope.

(** A callback that counts its runs in the state and one that panics. *)
Definition r42 : result nat := (Some 42, None).
Definition incr : func nat nat := fun w => Ok (r42, S w).
Definition boom : func nat nat := fun _ => Panic "boom".

Definition two : list (string * func nat nat) := [("k", incr); ("k", incr)].
Definition bad : list (string * func nat nat) := [("k", boom); ("k", incr)].

Definition after (sched : list nat) (s : system nat nat) : system nat nat :=
  default s (run sched s).

(** The first caller is inside its callback, the second waits. *)
Definition s_mid : system nat nat := after [0; 0; 1; 1; 0] (start two 0).
(** The first caller has panicked in its callback, the second waits. *)
Definition s_bad : system nat nat := after [0; 0; 1; 1; 0; 0] (start bad 0).
(** Both callers have returned. *)
Definition s_end : system nat nat := after [0; 0; 1; 1; 0; 0; 0; 0; 0; 1] (start two 0).

Lemma s_mid_reachable : rtc step (start two 0) s_mid.
Proof. apply (sf_run_rtc [0; 0; 1; 1; 0]). vm_compute. reflexivity. Qed.

Lemma s_bad_reachable : rtc step (start bad 0) s_bad.
Proof. apply (sf_run_rtc [0; 0; 1; 1; 0; 0]). vm_compute. reflexivity. Qed.

Lemma s_end_reachable : rtc step (start two 0) s_end.
Proof. apply (sf_run_rtc [0; 0; 1; 1; 0; 0; 0; 0; 0; 1]). vm_compute. reflexivity. Qed.

Lemma sf_single_flight_witness :
  rtc step (start two 0) s_mid /\
  threads s_mid !! 0 = Some (mkThread "k" incr (Lfn 0)) /\ 0 = 0.
Proof.
  split; [apply s_mid_reachable|]. split; [vm_compute; reflexivity|].
  apply (sf_single_flight two 0 s_mid 0 0 (mkThread "k" incr (Lfn 0))
           (mkThread "k" incr (Lfn 0)) s_mid_reachable);
    [vm_compute; reflexivity|vm_compute; reflexivity|reflexivity|by eexists|by eexists].
Defined.

Lemma sf_mutual_exclusion_witness :
  mu (group s_mid) = true <->
  exists i t, threads s_mid !! i = Some t /\ in_cs (at_ t) = true.
Proof. apply (sf_mutual_exclusion two 0 s_mid s_mid_reachable). Defined.

Lemma sf_shared_result_witness :
  r42 = r42 /\
  exists x, calls (mem s_end) !! 0 = Some x /\ result_of x = r42 /\ wg x = 0%Z.
Proof.
  apply (sf_shared_result two 0 s_end 0 1 (mkThread "k" incr (Ret 0 r42))
           (mkThread "k" incr (Ret 0 r42)) 0 _ _ s_end_reachable);
    vm_compute; reflexivity.
Defined.

Lemma sf_no_internal_error_witness :
  at_ (mkThread "k" incr (L41 0)) <> Panicked None "x".
Proof.
  apply (sf_no_internal_error two 0 s_mid 1 _ "x" s_mid_reachable).
  vm_compute. reflexivity.
Defined.

Lemma sf_progress_witness : exists j s', step_thread j s_mid = Some s'.
Proof.
  apply (sf_progress two 0 s_mid 1 (mkThread "k" incr (L41 0)) s_mid_reachable);
    [| |vm_compute; reflexivity|discriminate].
  - intros j tj Hj.
    assert (map_Forall (fun _ tj => fn tj (world s_mid) <> Diverge) (threads s_mid)) as HF;
      [|exact (HF j tj Hj)].
    apply map_Forall_to_list. vm_compute. repeat (constructor; [discriminate|]). constructor.
  - intros j tj oc msg Hj.
    assert (map_Forall (fun _ tj => at_ tj <> Panicked oc msg) (threads s_mid)) as HF;
      [|exact (HF j tj Hj)].
    apply map_Forall_to_list. vm_compute. repeat (constructor; [discriminate|]). constructor.
Defined.

Lemma sf_panic_poisons_witness :
  step_thread 1 s_bad = None /\ registry (group s_bad) !! "k" = Some 0.
Proof.
  apply (sf_panic_poisons bad 0 s_bad s_bad 0 1 (mkThread "k" boom (Panicked (Some 0) "boom"))
           (mkThread "k" incr (L41 0)) 0 "boom" s_bad_reachable);
    [apply rtc_refl|vm_compute; reflexivity|reflexivity|vm_compute; reflexivity|reflexivity].
Defined.

Lemma sf_Do_refines_witness :
  exists s', run (replicate 7 0) (start two 0) = Some s' /\
    Do "k" incr new empty_heap 0 = Ok (r42, group s', mem s', world s') /\
    threads s' !! 0 = Some (mkThread "k" incr (Ret 0 r42)).
Proof.
  apply (sf_Do_refines (start two 0) 0 (mkThread "k" incr L30) r42 1);
    vm_compute; reflexivity.
Defined.

Lemma sf_returned_call_runs_again_witness :
  exists s', run (replicate 7 0 ++ replicate 7 1) (start two 0) = Some s' /\ world s' = 2 /\
    at_ <$> threads s' !! 0 = Some (Ret 0 r42) /\
    at_ <$> threads s' !! 1 = Some (Ret 1 r42) /\
    registry (group s') !! "k" = None /\ mu (group s') = false.
Proof.
  apply (sf_returned_call_runs_again (start two 0) 0 1 (mkThread "k" incr L30)
           (mkThread "k" incr L30) r42 1 r42 2); (discriminate || reflexivity).
Defined.

End examples.

End singleflight_inv.
