(* ===== verification/Group.v ===== *)
(** * Group: the cache-fill orchestrator ([src/geecache.go], [src/peers.go])

    A [Group] has a name, a loader callback ([Getter]), the guarded cache,
    an optional peer router ([PeerPicker]) and a coalescer.  [Get] answers
    from the cache or fills through [singleflight.Do]: from the peer the
    router picks, or else from the loader, whose bytes are cloned and
    cached.

    The callbacks (loader, router, peer) act on a [world]: the memory of
    byte arrays and a state [X] of their own (the data source, the
    network).  The coalescer's callback acts on the cache and the world.
    [Get] is modelled as one caller runs it; the interleaving of callers
    inside [Do] is in [SingleFlightInv].  The process-wide directory of
    groups is a [directory]: the groups live on a heap and the directory
    maps names to their addresses.  Logging is not modelled.

    Theorems: the decision path of [Get] on every branch (empty key, hit,
    peer, peer failure, loader, loader failure); the invariant of a group
    and that [Get] keeps it; a filled key is served from the cache without
    calling the loader again; the cached bytes do not alias the loader's;
    the directory and [RegisterPeers]. *)

From Stdlib Require Import ZArith Lia.
From stdpp Require Import base tactics option list gmap strings.
From S2P Require Import Prelude GoStd Lru ByteView Cache SingleFlight.

Module geecache.

(** A Go [error]: its message. *)
Definition error : Type := string.

(** The messages of [geecachepb]: [Request{Group, Key}]; a [Response] is
    its field [Value]. *)
Record Request : Type := mkRequest {
  GetGroup_ : string;
  GetKey : string
}.

Section with_ext.
(** The state of the callbacks. *)
Context {X : Type}.

Record world : Type := mkWorld {
  bytes : byteview.mem;
  ext : X
}.

(** [Getter.Get(key) ([]byte, error)] *)
Definition Getter : Type :=
  string -> world -> outcome ((byteview.slice * option error) * world).

(** [GetterFunc] and its method [Get], which calls the function. *)
Definition GetterFunc : Type :=
  string -> world -> outcome ((byteview.slice * option error) * world).

Definition GetterFunc_Get (f : GetterFunc) : Getter := fun key => f key.

(** [PeerGetter.Get(in, out) error]: the slice is [out.Value] after the
    call. *)
Definition PeerGetter : Type :=
  Request -> world -> outcome ((byteview.slice * option error) * world).

(** [PeerPicker.PickPeer(key) (peer PeerGetter, ok bool)] *)
Definition PeerPicker : Type :=
  string -> world -> outcome (option PeerGetter * world).

Record Group : Type := mkGroup {
  name : string;
  getter : Getter;
  mainCache : cache.cache;
  peers : option PeerPicker;
  loader : singleflight.Group
}.

(** What a call on a group acts on: the group, the calls of its coalescer
    and the world. *)
Record state : Type := mkState {
  grp : Group;
  calls : singleflight.heap byteview.ByteView;
  env : world
}.

Definition set_cache (c : cache.cache) (g : Group) : Group :=
  {| name := name g; getter := getter g; mainCache := c; peers := peers g;
     loader := loader g |}.

Definition set_bytes (m : byteview.mem) (w : world) : world :=
  {| bytes := m; ext := ext w |}.

(** What [Get], [load], [getFromPeer] and [getLocally] return. *)
Definition reply : Type := byteview.ByteView * option error.

Definition getFromPeer (g : Group) (peer : PeerGetter) (key : string) (w : world) :
    outcome (reply * world) :=
  let req := {| GetGroup_ := name g; GetKey := key |} in
  '((value, err), w') ← peer req w;
  match err with
  | Some e => Ok ((byteview.zero, Some e), w')
  | None => Ok ((byteview.mkByteView value, None), w')
  end.

Definition populateCache (key : string) (value : byteview.ByteView) (c : cache.cache) :
    outcome cache.cache :=
  '(_, c') ← cache.add key value c; Ok c'.

Definition getLocally (g : Group) (key : string) (c : cache.cache) (w : world) :
    outcome (reply * (cache.cache * world)) :=
  '((bs, err), w1) ← getter g key w;
  match err with
  | Some e => Ok ((byteview.zero, Some e), (c, w1))
  | None =>
      let '(s, m') := byteview.cloneBytes bs (bytes w1) in
      let value := byteview.mkByteView s in
      c' ← populateCache key value c;
      Ok ((value, None), (c', set_bytes m' w1))
  end.

(** The value of a [reply] as the [interface{}] the coalescer holds. *)
Definition boxed (r : reply) : singleflight.result byteview.ByteView := (Some r.1, r.2).

(** The body of the closure [load] passes to [Do]. *)
Definition fill (g : Group) (key : string) (c : cache.cache) (w : world) :
    outcome (reply * (cache.cache * world)) :=
  match peers g with
  | Some pick =>
      '(peer, w1) ← pick key w;
      match peer with
      | Some p =>
          '(r, w2) ← getFromPeer g p key w1;
          match r.2 with
          | None => Ok (r, (c, w2))
          | Some _ => getLocally g key c w2
          end
      | None => getLocally g key c w1
      end
  | None => getLocally g key c w
  end.

(** The closure: it returns the view as an [interface{}]. *)
Definition load_fn (g : Group) (key : string) :
    singleflight.func byteview.ByteView (cache.cache * world) :=
  fun cw => '(r, cw') ← fill g key cw.1 cw.2; Ok (boxed r, cw').

Definition load (key : string) (st : state) : outcome (reply * state) :=
  let g := grp st in
  '(r, l', h', (c', w')) ←
    singleflight.Do key (load_fn g key) (loader g) (calls st) (mainCache g, env st);
  let st' := {| grp := {| name := name g; getter := getter g; mainCache := c';
                          peers := peers g; loader := l' |};
                calls := h'; env := w' |} in
  match r.2 with
  | None =>
      value ← deref "interface conversion: interface {} is nil, not geecache.ByteView" r.1;
      Ok ((value, None), st')
  | Some e => Ok ((byteview.zero, Some e), st')
  end.

Definition Get (key : string) (st : state) : outcome (reply * state) :=
  if decide (key = "") then Ok ((byteview.zero, Some "key is required"), st)
  else
    r ← cache.get key (mainCache (grp st));
    let '((v, ok), c') := (r : (byteview.ByteView * bool) * cache.cache) in
    let st' := {| grp := set_cache c' (grp st); calls := calls st; env := env st |} in
    if ok then Ok ((v, None), st')
    else load key st'.

(** [RegisterPeers]; a nil [PeerPicker] is [None]. *)
Definition RegisterPeers (p : option PeerPicker) (g : Group) : outcome Group :=
  match peers g with
  | Some _ => Panic "RegisterPeerPicker called more than once"
  | None => Ok {| name := name g; getter := getter g; mainCache := mainCache g;
                  peers := p; loader := loader g |}
  end.

(** ** The directory of groups *)

(** The address of a [Group]. *)
Definition gloc : Type := nat.

(** The package variables [mu] and [groups], and the groups allocated. *)
Record directory : Type := mkDirectory {
  mu : sync.RWMutex;
  groups : gmap string gloc;
  heap : gmap gloc Group;
  brk : gloc
}.

(** The directory when the program starts. *)
Definition init : directory :=
  {| mu := sync.free_rw; groups := ∅; heap := ∅; brk := 0 |}.

(** [NewGroup]; a nil [Getter] is [None]. *)
Definition NewGroup (name : string) (cacheBytes : Z) (getter : option Getter) (d : directory) :
    outcome (gloc * directory) :=
  match getter with
  | None => Panic "nil Getter"
  | Some gt =>
      mu1 ← sync.WLock (mu d);
      let g := {| name := name; getter := gt; mainCache := cache.new cacheBytes;
                  peers := None; loader := singleflight.new |} in
      let l := brk d in
      mu2 ← sync.WUnlock mu1;
      Ok (l, {| mu := mu2; groups := <[name := l]> (groups d);
                heap := <[l := g]> (heap d); brk := S l |})
  end.

(** [GetGroup]: the address of the group, [None] for nil. *)
Definition GetGroup (name : string) (d : directory) : outcome (option gloc * directory) :=
  mu1 ← sync.RLock (mu d);
  let g := groups d !! name in
  mu2 ← sync.RUnlock mu1;
  Ok (g, {| mu := mu2; groups := groups d; heap := heap d; brk := brk d |}).

(** ** The group after a call *)

Section lemmas.
Implicit Types (g : Group) (st : state) (w : world) (c : cache.cache) (r : reply).

(** The coalescer is quiescent: its mutex is free and no call is
    registered. *)
Definition quiet (l : singleflight.Group) : Prop :=
  singleflight.mu l = false /\ singleflight.registry l = ∅.

(** The state after a fill that went through the coalescer. *)
Definition filled st r c w : state :=
  {| grp := {| name := name (grp st); getter := getter (grp st); mainCache := c;
               peers := peers (grp st);
               loader := {| singleflight.mu := false; singleflight.m := Some ∅ |} |};
     calls := singleflight.after_call (singleflight.next (calls st)) (boxed r) (calls st);
     env := w |}.

(** A reply with an error carries the zero view. *)
Definition normal r : Prop := r.2 = None \/ r.1 = byteview.zero.

Lemma group_getFromPeer_normal g p key w r w' :
  getFromPeer g p key w = Ok (r, w') -> normal r.
Proof.
  unfold getFromPeer. destruct (p _ w) as [[[v [e|]] w1]| |]; simpl; [| |done..];
    intros [= <- <-]; [by right|by left].
Qed.

Lemma group_getLocally_normal g key c w r cw :
  getLocally g key c w = Ok (r, cw) -> normal r.
Proof.
  unfold getLocally. destruct (getter g key w) as [[[bs [e|]] w1]| |]; simpl; [| |done..].
  - intros [= <- <-]. by right.
  - destruct (byteview.cloneBytes bs (bytes w1)) as [s m'].
    destruct (populateCache _ _ c) as [c'| |]; simpl; [|done..]. intros [= <- <-]. by left.
Qed.

Lemma group_fill_normal g key c w r cw : fill g key c w = Ok (r, cw) -> normal r.
Proof.
  unfold fill. destruct (peers g) as [pick|]; [|apply group_getLocally_normal].
  destruct (pick key w) as [[[p|] w1]| |]; simpl; [|apply group_getLocally_normal|done..].
  destruct (getFromPeer g p key w1) as [[r1 w2]| |] eqn:Hp; simpl; [|done..].
  destruct (r1.2) eqn:He; [apply group_getLocally_normal|]. intros [= <- <-]. by left.
Qed.

(** [load] on a quiescent coalescer is the fill. *)
Lemma group_load_spec key st :
  quiet (loader (grp st)) ->
  load key st =
    '(r, cw) ← fill (grp st) key (mainCache (grp st)) (env st);
    Ok (r, filled st r cw.1 cw.2).
Proof.
  intros [Hmu Hreg]. unfold load.
  destruct (fill (grp st) key (mainCache (grp st)) (env st)) as [[r [c' w']]| |] eqn:Hf.
  - rewrite (singleflight.sf_Do_spec _ _ _ _ _ (boxed r) (c', w')); [|done| |].
    + simpl. pose proof (group_fill_normal _ _ _ _ _ _ Hf) as [Hn|Hn].
      * destruct r as [v e]. simpl in *. subst e. unfold filled. by rewrite Hreg.
      * destruct r as [v [e|]]; simpl in *; subst; unfold filled; by rewrite Hreg.
    + by rewrite Hreg.
    + unfold load_fn. simpl. by rewrite Hf.
  - rewrite singleflight.sf_Do_fails; [|done|by rewrite Hreg|].
    + unfold load_fn. simpl. by rewrite Hf.
    + unfold load_fn. simpl. rewrite Hf. simpl. tauto.
  - rewrite singleflight.sf_Do_fails; [|done|by rewrite Hreg|].
    + unfold load_fn. simpl. by rewrite Hf.
    + unfold load_fn. simpl. rewrite Hf. simpl. tauto.
Qed.

Lemma group_set_cache_id g : set_cache (mainCache g) g = g.
Proof. by destruct g. Qed.

(** A miss in the cache goes to [load]. *)
Lemma group_Get_miss key st :
  key <> "" -> cache.wf (mainCache (grp st)) ->
  alookup key (cache.entries (mainCache (grp st))) = None ->
  Get key st = load key st.
Proof.
  intros Hk Hwf Hm. unfold Get. rewrite decide_False by done.
  rewrite (cache.cache_get_miss _ _ Hwf Hm). simpl. rewrite group_set_cache_id.
  by destruct st.
Qed.

Lemma group_Get_hit key st v :
  key <> "" -> cache.wf (mainCache (grp st)) ->
  alookup key (cache.entries (mainCache (grp st))) = Some v ->
  exists c', Get key st =
      Ok ((v, None), {| grp := set_cache c' (grp st); calls := calls st; env := env st |}) /\
    cache.wf c' /\ cache.cacheBytes c' = cache.cacheBytes (mainCache (grp st)) /\
    cache.entries c' = touch key (cache.entries (mainCache (grp st))).
Proof.
  intros Hk Hwf Hh. destruct (cache.cache_get_hit _ _ _ Hwf Hh) as (c' & HG & ? & ? & ?).
  exists c'. unfold Get. rewrite decide_False by done. by rewrite HG.
Qed.

(** [Get] on a miss, in terms of the fill. *)
Lemma group_Get_fill key st :
  key <> "" -> cache.wf (mainCache (grp st)) -> quiet (loader (grp st)) ->
  alookup key (cache.entries (mainCache (grp st))) = None ->
  Get key st =
    '(r, cw) ← fill (grp st) key (mainCache (grp st)) (env st);
    Ok (r, filled st r cw.1 cw.2).
Proof. intros. rewrite group_Get_miss by done. by apply group_load_spec. Qed.

(** The loader's bytes are cloned into a view and cached. *)
Lemma group_getLocally_ok g key c w bs w1 :
  getter g key w = Ok ((bs, None), w1) -> cache.wf c -> (0 <= cache.cacheBytes c)%Z ->
  let sm := byteview.cloneBytes bs (bytes w1) in
  let v := byteview.mkByteView sm.1 in
  exists c', getLocally g key c w = Ok ((v, None), (c', set_bytes sm.2 w1)) /\
    cache.wf c' /\ cache.cacheBytes c' = cache.cacheBytes c /\
    cache.entries c' = lru.added (cache.cacheBytes c) key v (cache.entries c).
Proof.
  intros Hg Hwf Hb sm v. subst v sm. unfold getLocally. rewrite Hg.
  cbn [mbind outcome_bind]. destruct (byteview.cloneBytes bs (bytes w1)) as [s' m'].
  cbn [fst snd].
  destruct (cache.cache_add_spec key (byteview.mkByteView s') c Hwf Hb)
    as (c' & HA & ? & ? & _ & ?).
  exists c'. split; [|done]. unfold populateCache. by rewrite HA.
Qed.

Lemma group_getLocally_error g key c w bs e w1 :
  getter g key w = Ok ((bs, Some e), w1) ->
  getLocally g key c w = Ok ((byteview.zero, Some e), (c, w1)).
Proof. intros Hg. unfold getLocally. by rewrite Hg. Qed.

(** [NewGroup] on a directory nobody holds allocates the group and
    registers it under its name. *)
Lemma group_NewGroup_free nm cap gt (d : directory) :
  mu d = sync.free_rw ->
  NewGroup nm cap (Some gt) d =
    Ok (brk d, {| mu := sync.free_rw; groups := <[nm := brk d]> (groups d);
                  heap := <[brk d := mkGroup nm gt (cache.new cap) None singleflight.new]>
                            (heap d);
                  brk := S (brk d) |}).
Proof. intros Hmu. unfold NewGroup. by rewrite Hmu. Qed.

(** [GetGroup] on a directory nobody holds reads the directory and leaves
    it as it found it. *)
Lemma group_GetGroup_free nm (d : directory) :
  mu d = sync.free_rw -> GetGroup nm d = Ok (groups d !! nm, d).
Proof.
  intros Hmu. unfold GetGroup. rewrite Hmu. simpl. destruct d; simpl in *. by subst.
Qed.

End lemmas.

(** ** What the group asks of its callbacks, and its invariant *)

Section contracts.
Implicit Types (g : Group) (st : state) (w : world) (c : cache.cache) (r : reply).

(** A callback that returns bytes keeps the memory well-formed, changes no
    array that was allocated, and returns a valid slice. *)
Definition sound w (o : outcome ((byteview.slice * option error) * world)) : Prop :=
  forall bs err w', o = Ok ((bs, err), w') ->
    byteview.mem_wf (bytes w') /\ byteview.extends (bytes w) (bytes w') /\
    (err = None -> byteview.valid bs (bytes w')).

Class GetterOk (gt : Getter) : Prop :=
  getter_ok : forall key w, byteview.mem_wf (bytes w) -> sound w (gt key w).

Class PeerGetterOk (p : PeerGetter) : Prop :=
  peer_ok : forall req w, byteview.mem_wf (bytes w) -> sound w (p req w).

Class PeerPickerOk (pick : PeerPicker) : Prop :=
  pick_ok : forall key w peer w', byteview.mem_wf (bytes w) -> pick key w = Ok (peer, w') ->
    byteview.mem_wf (bytes w') /\ byteview.extends (bytes w) (bytes w') /\
    forall p, peer = Some p -> PeerGetterOk p.

(** The cached views are valid slices of the memory. *)
Definition views c (m : byteview.mem) : Prop :=
  forall k v, (k, v) ∈ cache.entries c -> byteview.valid (byteview.b v) m.

(** The cache and the memory fit together. *)
Definition fits c w : Prop :=
  cache.wf c /\ byteview.mem_wf (bytes w) /\ views c (bytes w).

Record wf st : Prop := {
  wf_fits : fits (mainCache (grp st)) (env st);
  wf_loader : quiet (loader (grp st));
  wf_getter : GetterOk (getter (grp st));
  wf_peers : forall pick, peers (grp st) = Some pick -> PeerPickerOk pick
}.

Lemma group_fits_extends c w w' :
  fits c w -> byteview.mem_wf (bytes w') -> byteview.extends (bytes w) (bytes w') ->
  fits c w'.
Proof.
  intros (Hc & Hm & Hv) Hm' He. split_and!; [done..|].
  intros k v Hkv. apply (byteview.bv_valid_extends _ (bytes w) (bytes w')); [done| |done].
  by eapply Hv.
Qed.

Lemma group_populateCache_fits key v c c' w :
  fits c w -> byteview.valid (byteview.b v) (bytes w) ->
  populateCache key v c = Ok c' -> fits c' w.
Proof.
  intros (Hc & Hm & Hv) Hvv. unfold populateCache.
  destruct (cache.add key v c) as [[u c1]| |] eqn:HA; simpl; [|done..]. intros [= <-].
  destruct (cache.cache_add_Ok _ _ _ _ _ Hc HA) as (Hc1 & _ & He).
  split_and!; [done..|]. intros k' v' Hkv. rewrite He in Hkv.
  apply lru.elem_of_added in Hkv as [[= -> ->]|Hkv]; [done|by eapply Hv].
Qed.

(** What a fill leaves: the cache and the memory fit, the memory has
    grown, and a view returned without an error is valid. *)
Definition fill_ok w r (cw : cache.cache * world) : Prop :=
  fits cw.1 cw.2 /\ byteview.extends (bytes w) (bytes cw.2) /\
  (r.2 = None -> byteview.valid (byteview.b r.1) (bytes cw.2)).

Lemma group_getLocally_fits g key c w r cw :
  GetterOk (getter g) -> fits c w -> getLocally g key c w = Ok (r, cw) -> fill_ok w r cw.
Proof.
  intros Hg Hf. unfold getLocally.
  destruct (getter g key w) as [[[bs err] w1]| |] eqn:Hgt; cbn [mbind outcome_bind];
    [|done..].
  destruct (Hg key w (proj1 (proj2 Hf)) bs err w1 Hgt) as (Hm1 & He1 & Hv1).
  pose proof (group_fits_extends _ _ _ Hf Hm1 He1) as Hf1.
  destruct err as [e|]; [by intros [= <- <-]|].
  destruct (byteview.bv_cloneBytes_spec bs (bytes w1) Hm1 (Hv1 eq_refl))
    as (Hm2 & He2 & _ & _ & Hv2 & _).
  destruct (byteview.cloneBytes bs (bytes w1)) as [s m']. cbn [fst snd] in *.
  destruct (populateCache key _ c) as [c'| |] eqn:Hpc; cbn [mbind outcome_bind]; [|done..].
  intros [= <- <-].
  assert (fits c (set_bytes m' w1)) as Hf2 by by apply (group_fits_extends c w1).
  split; [|split]; cbn [fst snd bytes set_bytes]; [|by trans (bytes w1)|done].
  by apply (group_populateCache_fits key (byteview.mkByteView s) c).
Qed.

Lemma group_fill_fits g key c w r cw :
  GetterOk (getter g) -> (forall pick, peers g = Some pick -> PeerPickerOk pick) ->
  fits c w -> fill g key c w = Ok (r, cw) -> fill_ok w r cw.
Proof.
  intros Hg Hpk Hf. unfold fill.
  destruct (peers g) as [pick|]; [|by apply group_getLocally_fits].
  destruct (pick key w) as [[peer w1]| |] eqn:Hp; simpl; [|done..].
  destruct (Hpk pick eq_refl key w peer w1 (proj1 (proj2 Hf)) Hp) as (Hm1 & He1 & Hok).
  pose proof (group_fits_extends _ _ _ Hf Hm1 He1) as Hf1.
  assert (forall w2 r' cw', byteview.extends (bytes w1) (bytes w2) ->
    fill_ok w2 r' cw' -> fill_ok w r' cw') as Htrans.
  { intros w2 r' cw' He2 (? & ? & ?). split; [|split]; [done| |done].
    trans (bytes w1); [done|]. by trans (bytes w2). }
  destruct peer as [p|];
    [|intros Hl%group_getLocally_fits; [|done..]; by apply (Htrans w1)].
  unfold getFromPeer. destruct (p _ w1) as [[[bs err] w2]| |] eqn:Hpg; simpl; [|done..].
  destruct (Hok p eq_refl _ w1 Hm1 bs err w2 Hpg) as (Hm2 & He2 & Hv2).
  pose proof (group_fits_extends _ _ _ Hf1 Hm2 He2) as Hf2.
  destruct err as [e|]; simpl.
  - intros Hl%group_getLocally_fits; [|done..]. by apply (Htrans w2).
  - intros [= <- <-]. split; [|split]; simpl; [done|by trans (bytes w1)|auto].
Qed.

Lemma group_hit_wf key st v c' :
  wf st -> alookup key (cache.entries (mainCache (grp st))) = Some v ->
  cache.wf c' -> cache.entries c' = touch key (cache.entries (mainCache (grp st))) ->
  wf {| grp := set_cache c' (grp st); calls := calls st; env := env st |} /\
  byteview.valid (byteview.b v) (bytes (env st)).
Proof.
  intros [(Hc & Hm & Hv) Hq Hg Hp] Hh Hc' He. split.
  - split; simpl; [|done..]. split; [|split]; [done..|]. intros k' v' Hkv.
    rewrite He in Hkv. apply elem_of_touch in Hkv. by eapply Hv.
  - apply alookup_Some_split in Hh as (l1 & l2 & Hl & _). apply (Hv key).
    rewrite Hl. apply elem_of_app. right. by left.
Qed.

Lemma group_filled_wf st r cw :
  wf st -> fill_ok (env st) r cw -> wf (filled st r cw.1 cw.2).
Proof. intros [_ Hq Hg Hp] (Hf & _). by split. Qed.

(** The invariant of a group depends on the group and the memory only,
    and holds in every memory that extends the one it holds in. *)
Lemma group_wf_env g h h' w w' :
  wf {| grp := g; calls := h; env := w |} ->
  byteview.mem_wf (bytes w') -> byteview.extends (bytes w) (bytes w') ->
  wf {| grp := g; calls := h'; env := w' |}.
Proof.
  intros [Hf Hq Hg Hp] Hm He. split; [|done..]. by eapply group_fits_extends.
Qed.

End contracts.


(** ** Theorems of the group *)

Section theorems.
Implicit Types (g : Group) (st : state) (w : world) (c : cache.cache) (r : reply).

(** A miss without a peer router goes to the loader. *)
Lemma group_Get_loader key st bs w1 :
  key <> "" -> cache.wf (mainCache (grp st)) -> quiet (loader (grp st)) ->
  (0 <= cache.cacheBytes (mainCache (grp st)))%Z ->
  alookup key (cache.entries (mainCache (grp st))) = None ->
  peers (grp st) = None ->
  getter (grp st) key (env st) = Ok ((bs, None), w1) ->
  let sm := byteview.cloneBytes bs (bytes w1) in
  let v := byteview.mkByteView sm.1 in
  exists c', Get key st = Ok ((v, None), filled st (v, None) c' (set_bytes sm.2 w1)) /\
    cache.wf c' /\
    cache.entries c' =
      lru.added (cache.cacheBytes (mainCache (grp st))) key v
        (cache.entries (mainCache (grp st))) /\
    cache.cacheBytes c' = cache.cacheBytes (mainCache (grp st)).
Proof.
  intros Hk Hwf Hq Hb Hm Hp Hg sm v. rewrite group_Get_fill by done.
  unfold fill. rewrite Hp.
  destruct (group_getLocally_ok _ key _ _ _ _ Hg Hwf Hb) as (c' & -> & ? & ? & ?).
  exists c'. by split_and!.
Qed.

(** C7 (functional).  A miss without a peer router goes to the loader:
    its bytes are cloned into a new view, the view is added to the cache
    and returned; the coalescer is left quiescent and the loader's other
    effects are kept. *)
Theorem group_Get_local_fill key st bs w1 :
  key <> "" -> cache.wf (mainCache (grp st)) -> quiet (loader (grp st)) ->
  (0 <= cache.cacheBytes (mainCache (grp st)))%Z ->
  alookup key (cache.entries (mainCache (grp st))) = None ->
  peers (grp st) = None ->
  getter (grp st) key (env st) = Ok ((bs, None), w1) ->
  exists v st', Get key st = Ok ((v, None), st') /\
    byteview.cloneBytes bs (bytes w1) = (byteview.b v, bytes (env st')) /\
    ext (env st') = ext w1 /\
    cache.wf (mainCache (grp st')) /\ quiet (loader (grp st')) /\
    cache.entries (mainCache (grp st')) =
      lru.added (cache.cacheBytes (mainCache (grp st))) key v
        (cache.entries (mainCache (grp st))).
Proof.
  intros Hk Hwf Hq Hb Hm Hp Hg.
  destruct (group_Get_loader key st bs w1) as (c' & HG & ? & ? & _); [done..|].
  eexists. eexists. split; [exact HG|].
  split_and!; [apply surjective_pairing|done|done|by split|done].
Qed.

(** C16 (functional).  A miss with a router that picks a peer asks the
    peer for the group's name and the key; the value of the peer is
    returned without being added to the cache, and the loader is not
    called. *)
Theorem group_Get_peer key st pick p w1 bs w2 :
  key <> "" -> cache.wf (mainCache (grp st)) -> quiet (loader (grp st)) ->
  alookup key (cache.entries (mainCache (grp st))) = None ->
  peers (grp st) = Some pick -> pick key (env st) = Ok (Some p, w1) ->
  p {| GetGroup_ := name (grp st); GetKey := key |} w1 = Ok ((bs, None), w2) ->
  let v := byteview.mkByteView bs in
  Get key st = Ok ((v, None), filled st (v, None) (mainCache (grp st)) w2).
Proof.
  intros Hk Hwf Hq Hm Hp Hpick Hpeer v. rewrite group_Get_fill by done.
  unfold fill, getFromPeer. rewrite Hp, Hpick. simpl. by rewrite Hpeer.
Qed.

(** C17 (error).  A failure of the peer is not reported: the fill goes on
    with the loader, from the world the peer left; so does a fill whose
    router picks no peer. *)
Theorem group_Get_peer_fallback key st pick peer w1 :
  key <> "" -> cache.wf (mainCache (grp st)) -> quiet (loader (grp st)) ->
  alookup key (cache.entries (mainCache (grp st))) = None ->
  peers (grp st) = Some pick -> pick key (env st) = Ok (peer, w1) ->
  forall w2,
    match peer with
    | Some p => exists bs e,
        p {| GetGroup_ := name (grp st); GetKey := key |} w1 = Ok ((bs, Some e), w2)
    | None => w2 = w1
    end ->
    Get key st =
      '(r, cw) ← getLocally (grp st) key (mainCache (grp st)) w2;
      Ok (r, filled st r cw.1 cw.2).
Proof.
  intros Hk Hwf Hq Hm Hp Hpick w2 Hpeer. rewrite group_Get_fill by done.
  unfold fill, getFromPeer. rewrite Hp, Hpick. simpl.
  destruct peer as [p|]; [|by subst]. destruct Hpeer as (bs & e & ->). done.
Qed.

(** C30 (error).  An empty key is refused without touching the group, and
    an error of the loader is returned as it is, with the zero view and
    the cache unchanged. *)
Theorem group_Get_errors key st bs e w1 :
  Get "" st = Ok ((byteview.zero, Some "key is required"), st) /\
  (key <> "" -> cache.wf (mainCache (grp st)) -> quiet (loader (grp st)) ->
   alookup key (cache.entries (mainCache (grp st))) = None ->
   peers (grp st) = None ->
   getter (grp st) key (env st) = Ok ((bs, Some e), w1) ->
   Get key st =
     Ok ((byteview.zero, Some e), filled st (byteview.zero, Some e) (mainCache (grp st)) w1)).
Proof.
  split; [done|]. intros Hk Hwf Hq Hm Hp Hg. rewrite group_Get_fill by done.
  unfold fill. rewrite Hp. by rewrite (group_getLocally_error _ _ _ _ _ _ _ Hg).
Qed.

(** C8 (roundtrip).  Read-through: a key filled from the loader whose
    entry fits the bound is served from the cache by the next [Get], with
    the same view and without calling the loader: the world is as the
    first [Get] left it. *)
Theorem group_Get_read_through key st bs w1 :
  key <> "" -> cache.wf (mainCache (grp st)) -> quiet (loader (grp st)) ->
  (0 <= cache.cacheBytes (mainCache (grp st)))%Z ->
  alookup key (cache.entries (mainCache (grp st))) = None ->
  peers (grp st) = None ->
  getter (grp st) key (env st) = Ok ((bs, None), w1) ->
  let v := byteview.mkByteView (byteview.cloneBytes bs (bytes w1)).1 in
  lru.over (cache.cacheBytes (mainCache (grp st))) [(key, v)] = false ->
  exists st1 st2, Get key st = Ok ((v, None), st1) /\
    Get key st1 = Ok ((v, None), st2) /\ env st2 = env st1 /\ calls st2 = calls st1.
Proof.
  intros Hk Hwf Hq Hb Hm Hp Hg v Hfit.
  destruct (group_Get_loader key st bs w1) as (c' & HG & Hwf' & He & _); [done..|].
  destruct (evict_by_head _ _ (aremove key (cache.entries (mainCache (grp st)))) Hfit)
    as [l' Hl'].
  eexists. destruct (group_Get_hit key (filled st (v, None) c'
      (set_bytes (byteview.cloneBytes bs (bytes w1)).2 w1)) v Hk) as (c2 & HG2 & _);
    [done| |].
  { change (alookup key (cache.entries c') = Some v). rewrite He. unfold lru.added.
    fold v. rewrite Hl'. simpl. by rewrite decide_True. }
  eexists. split; [exact HG|]. split; [exact HG2|]. done.
Qed.

(** C29 (safety).  The cached bytes are private: the view [Get] caches is
    a copy of the loader's bytes in a new array, so whatever is written
    later into the loader's slice, the view holds the bytes it held. *)
Theorem group_cached_bytes_private key st bs w1 ws m2 :
  key <> "" -> cache.wf (mainCache (grp st)) -> quiet (loader (grp st)) ->
  (0 <= cache.cacheBytes (mainCache (grp st)))%Z ->
  alookup key (cache.entries (mainCache (grp st))) = None ->
  peers (grp st) = None ->
  getter (grp st) key (env st) = Ok ((bs, None), w1) ->
  byteview.mem_wf (bytes w1) -> byteview.valid bs (bytes w1) ->
  exists v st', Get key st = Ok ((v, None), st') /\
    byteview.load (byteview.b v) (bytes (env st')) = byteview.load bs (bytes w1) /\
    (byteview.set_indexes bs ws (bytes (env st')) = Ok m2 ->
     byteview.load (byteview.b v) m2 = byteview.load bs (bytes w1)).
Proof.
  intros Hk Hwf Hq Hb Hm Hp Hg Hmw Hv.
  destruct (group_Get_loader key st bs w1) as (c' & HG & _); [done..|].
  destruct (byteview.bv_cloneBytes_spec bs (bytes w1) Hmw Hv) as (_ & _ & Hptr & _ & _ & Hl).
  eexists. eexists. split; [exact HG|].
  cbn [env filled bytes set_bytes byteview.b]. split; [done|]. intros Hws.
  by rewrite (byteview.bv_set_indexes_fresh bs _ ws (bytes w1) _ m2 Hmw Hv Hptr Hws).
Qed.

(** C33 (termination).  A group created with a negative [cacheBytes] hangs
    on its first fill from the loader: [Get] does not return, and the
    loader has been called. *)
Theorem group_negative_cacheBytes_hangs key st bs w1 :
  key <> "" -> cache.wf (mainCache (grp st)) -> quiet (loader (grp st)) ->
  (cache.cacheBytes (mainCache (grp st)) < 0)%Z ->
  cache.entries (mainCache (grp st)) = [] ->
  peers (grp st) = None ->
  getter (grp st) key (env st) = Ok ((bs, None), w1) ->
  int64_range (len_string key + Z.of_nat (byteview.len bs)) ->
  Get key st = Diverge.
Proof.
  intros Hk Hwf Hq Hb He Hp Hg Hr. rewrite group_Get_fill by (done || by rewrite He).
  unfold fill, getLocally. rewrite Hp, Hg. cbn [mbind outcome_bind].
  destruct (byteview.cloneBytes bs (bytes w1)) as [s m'] eqn:Hc.
  assert (byteview.len s = byteview.len bs) as Hlen.
  { unfold byteview.cloneBytes in Hc. simpl in Hc. by injection Hc as <- _. }
  unfold populateCache. rewrite cache.cache_add_negative; [done..|].
  rewrite He. simpl. unfold lru.Len, byteview.ByteView_Value, byteview.Len. simpl.
  rewrite Hlen. replace (_ + _ + 0)%Z with (len_string key + Z.of_nat (byteview.len bs))%Z by lia.
  done.
Qed.

(** A peer router is attached once: a second [RegisterPeers]
    panics, whatever it is given. *)
Theorem group_RegisterPeers_once g p q :
  peers g = None ->
  exists g', RegisterPeers (Some p) g = Ok g' /\ peers g' = Some p /\
    mainCache g' = mainCache g /\ loader g' = loader g /\
    RegisterPeers q g' = Panic "RegisterPeerPicker called more than once".
Proof. intros Hp. unfold RegisterPeers. rewrite Hp. eexists. by split_and!. Qed.

(** C35 (roundtrip).  The directory: [NewGroup] without a loader panics;
    with one it allocates a group with an empty cache of the given bound,
    no router and a new coalescer, and registers it under its name, so
    that [GetGroup] finds it; the other names are as they were. *)
Theorem group_directory nm n gt (d : directory) :
  mu d = sync.free_rw ->
  NewGroup nm n None d = Panic "nil Getter" /\
  exists d', NewGroup nm n (Some gt) d = Ok (brk d, d') /\
    GetGroup nm d' = Ok (Some (brk d), d') /\
    heap d' !! brk d = Some (mkGroup nm gt (cache.new n) None singleflight.new) /\
    forall nm', nm' <> nm -> GetGroup nm' d' = Ok (groups d !! nm', d').
Proof.
  intros Hmu. split; [done|]. unfold NewGroup, GetGroup. rewrite Hmu. simpl.
  eexists. split; [done|]. simpl. rewrite !lookup_insert_eq. split_and!; [done..|].
  intros nm' Hne. by rewrite lookup_insert_ne.
Qed.

(** [Get] keeps the invariant of the group and the arrays that were
    allocated, and a view it returns without an error is valid. *)
Lemma group_Get_keeps key st r st' :
  wf st -> Get key st = Ok (r, st') ->
  wf st' /\ byteview.extends (bytes (env st)) (bytes (env st')) /\
  (r.2 = None -> byteview.valid (byteview.b r.1) (bytes (env st'))).
Proof.
  intros Hwf. destruct (decide (key = "")) as [->|Hk]; [by intros [= <- <-]|].
  pose proof (proj1 (wf_fits _ Hwf)) as Hc.
  destruct (alookup key (cache.entries (mainCache (grp st)))) as [v|] eqn:Hh.
  - destruct (group_Get_hit key st v Hk Hc Hh) as (c' & -> & Hc' & _ & He).
    intros [= <- <-]. destruct (group_hit_wf key st v c' Hwf Hh Hc' He). done.
  - rewrite group_Get_fill by (done || apply Hwf).
    destruct (fill _ key _ (env st)) as [[r1 cw]| |] eqn:Hf; simpl; [|done..].
    intros [= <- <-].
    pose proof (group_fill_fits _ _ _ _ _ _ (wf_getter _ Hwf) (wf_peers _ Hwf)
                  (wf_fits _ Hwf) Hf) as Hok.
    split; [by apply group_filled_wf|]. destruct Hok as (_ & ? & ?). done.
Qed.

(** [Get] changes the cache and the coalescer of the group only. *)
Lemma group_Get_same key st r st' :
  Get key st = Ok (r, st') ->
  name (grp st') = name (grp st) /\ getter (grp st') = getter (grp st) /\
  peers (grp st') = peers (grp st).
Proof.
  unfold Get. destruct (decide _); [by intros [= <- <-]|].
  destruct (cache.get _ _) as [[[v ok] c']| |]; cbn [mbind outcome_bind]; [|done..].
  destruct ok; [by intros [= <- <-]|]. unfold load. cbn [grp set_cache].
  destruct (singleflight.Do _ _ _ _ _) as [[[[r1 l'] h'] [c1 w1]]| |];
    cbn [mbind outcome_bind]; [|done..].
  destruct (r1.2); [by intros [= <- <-]|].
  destruct (r1.1); cbn [deref mbind outcome_bind]; [|done]. by intros [= <- <-].
Qed.

(** C3 (invariant).  [Get] keeps the invariant of the group: when it
    returns, the cache is well-formed and its views are valid slices of
    the memory, the coalescer is quiescent, the arrays that were allocated
    are unchanged, and a view returned without an error is valid; the
    name, the loader and the router of the group are as they were. *)
Theorem group_Get_wf key st r st' :
  wf st -> Get key st = Ok (r, st') ->
  wf st' /\ byteview.extends (bytes (env st)) (bytes (env st')) /\
  (r.2 = None -> byteview.valid (byteview.b r.1) (bytes (env st'))) /\
  name (grp st') = name (grp st) /\ peers (grp st') = peers (grp st).
Proof.
  intros Hwf HG. destruct (group_Get_keeps key st r st' Hwf HG) as (? & ? & ?).
  destruct (group_Get_same key st r st' HG) as (? & _ & ?). done.
Qed.

End theorems.


End with_ext.

Arguments world : clear implicits.
Arguments Getter : clear implicits.
Arguments GetterFunc : clear implicits.
Arguments PeerGetter : clear implicits.
Arguments PeerPicker : clear implicits.
Arguments Group : clear implicits.
Arguments state : clear implicits.
Arguments directory : clear implicits.

(** ** A concrete group *)

Section examples.
Local Open Scope string_scope.

(** The data source of [main.go]: a table of scores; the state of the
    callbacks counts the calls of the loader. *)
Definition db : list (string * string) :=
  [("Tom", "630"); ("Jack", "589"); ("Sam", "567")].

Definition db_getter : Getter nat := fun key w =>
  match alookup key db with
  | Some v =>
      let '(s, m') := byteview.of_string v (bytes w) in
      Ok ((s, None), {| bytes := m'; ext := S (ext w) |})
  | None =>
      Ok ((byteview.nil_slice, Some (key +:+ " not exist")),
          {| bytes := bytes w; ext := S (ext w) |})
  end.

(** A peer that answers every key with ["630"], one that fails, and the
    routers that pick them. *)
Definition good_peer : PeerGetter nat := fun req w =>
  let '(s, m') := byteview.of_string "630" (bytes w) in
  Ok ((s, None), {| bytes := m'; ext := ext w |}).

Definition bad_peer : PeerGetter nat := fun req w =>
  Ok ((byteview.nil_slice, Some "server returned: 500 Internal Server Error"), w).

Definition pick_good : PeerPicker nat := fun key w => Ok (Some good_peer, w).
Definition pick_bad : PeerPicker nat := fun key w => Ok (Some bad_peer, w).

Definition group_of (n : Z) (p : option (PeerPicker nat)) : state nat :=
  {| grp := mkGroup "scores" db_getter (cache.new n) p singleflight.new;
     calls := singleflight.empty_heap;
     env := {| bytes := byteview.empty_mem; ext := 0 |} |}.

Definition st0 : state nat := group_of 2048 None.

#[local] Instance db_getter_ok : GetterOk db_getter.
Proof.
  intros key w Hm bs err w'. unfold db_getter.
  destruct (alookup key db) as [v|].
  - destruct (byteview.bv_of_string_spec v (bytes w) Hm) as (? & ? & ? & _).
    destruct (byteview.of_string v (bytes w)) as [s m']. by intros [= <- <- <-].
  - intros [= <- <- <-]. simpl. split_and!; [done..|]. by intros.
Qed.

Lemma st0_wf : wf st0.
Proof.
  split; [|done|apply db_getter_ok|done].
  split; [apply cache.cache_new_wf|]. split; [apply byteview.bv_mem_wf_empty|].
  by intros k v ?%elem_of_nil.
Qed.

(** The view a reply holds, as a string. *)
Definition shown (o : outcome (reply * state nat)) : option (string * option error * nat) :=
  match o with
  | Ok ((v, e), st) => Some (byteview.String v (bytes (env st)), e, ext (env st))
  | _ => None
  end.

(** The fill protocol on the scores of [main.go]: the
    first [Get] of a key calls the loader and returns its value, the
    second returns the same value and the loader is not called again; a
    key the source does not have is an error; a peer that is picked
    answers instead of the loader, and when the peer fails the loader
    answers. *)
Example group_fill_scenario :
  shown (Get "Sam" st0) = Some ("567", None, 1) /\
  shown ('(_, st1) ← Get "Sam" st0; Get "Sam" st1) = Some ("567", None, 1) /\
  shown (Get "Bob" st0) = Some ("", Some "Bob not exist", 1) /\
  shown (Get "Sam" (group_of 2048 (Some pick_good))) = Some ("630", None, 0) /\
  shown (Get "Sam" (group_of 2048 (Some pick_bad))) = Some ("567", None, 1).
Proof. vm_compute. done. Qed.

Lemma group_Get_local_fill_witness :
  exists v st', Get "Sam" st0 = Ok ((v, None), st') /\
    byteview.String v (bytes (env st')) = "567" /\ ext (env st') = 1.
Proof.
  destruct (group_Get_local_fill "Sam" st0 {| byteview.ptr := 0; byteview.len := 3 |}
              {| bytes := (byteview.of_string "567" byteview.empty_mem).2; ext := 1 |})
    as (v & st' & HG & _); [done|apply cache.cache_new_wf|done|vm_compute; discriminate|
                            reflexivity|reflexivity|vm_compute; reflexivity|].
  exists v, st'. split; [exact HG|]. vm_compute in HG. injection HG as <- <-.
  vm_compute. split; reflexivity.
Defined.

Lemma group_Get_read_through_witness :
  exists st1 st2,
    Get "Sam" st0 =
      Ok ((byteview.mkByteView {| byteview.ptr := 1; byteview.len := 3 |}, None), st1) /\
    Get "Sam" st1 =
      Ok ((byteview.mkByteView {| byteview.ptr := 1; byteview.len := 3 |}, None), st2) /\
    env st2 = env st1 /\ calls st2 = calls st1.
Proof.
  apply (group_Get_read_through "Sam" st0 {| byteview.ptr := 0; byteview.len := 3 |}
           {| bytes := (byteview.of_string "567" byteview.empty_mem).2; ext := 1 |});
    [done|apply cache.cache_new_wf|done|vm_compute; discriminate|reflexivity|reflexivity|
     vm_compute; reflexivity|vm_compute; reflexivity].
Defined.

Lemma group_Get_peer_witness :
  Get "Sam" (group_of 2048 (Some pick_good)) =
    Ok ((byteview.mkByteView {| byteview.ptr := 0; byteview.len := 3 |}, None),
        filled (group_of 2048 (Some pick_good))
          (byteview.mkByteView {| byteview.ptr := 0; byteview.len := 3 |}, None)
          (cache.new 2048)
          {| bytes := (byteview.of_string "630" byteview.empty_mem).2; ext := 0 |}).
Proof.
  apply (group_Get_peer "Sam" (group_of 2048 (Some pick_good)) pick_good good_peer
           {| bytes := byteview.empty_mem; ext := 0 |});
    [done|apply cache.cache_new_wf|done|reflexivity|reflexivity|reflexivity|
     vm_compute; reflexivity].
Defined.

Lemma group_Get_peer_fallback_witness :
  shown (Get "Sam" (group_of 2048 (Some pick_bad))) = Some ("567", None, 1).
Proof.
  rewrite (fun H1 H2 H3 H4 H5 H6 =>
    group_Get_peer_fallback "Sam" (group_of 2048 (Some pick_bad)) pick_bad
      (Some bad_peer) {| bytes := byteview.empty_mem; ext := 0 |} H1 H2 H3 H4 H5 H6
      {| bytes := byteview.empty_mem; ext := 0 |});
    [vm_compute; reflexivity|done|apply cache.cache_new_wf|done|reflexivity|reflexivity|
     reflexivity|].
  exists byteview.nil_slice, "server returned: 500 Internal Server Error". reflexivity.
Defined.

Lemma group_Get_errors_witness :
  shown (Get "Bob" st0) = Some ("", Some "Bob not exist", 1).
Proof.
  destruct (group_Get_errors "Bob" st0 byteview.nil_slice "Bob not exist"
              {| bytes := byteview.empty_mem; ext := 1 |}) as [_ H].
  rewrite H; [vm_compute; reflexivity|done|apply cache.cache_new_wf|done|reflexivity|
              reflexivity|vm_compute; reflexivity].
Defined.

Lemma group_cached_bytes_private_witness :
  exists v st' m2, Get "Sam" st0 = Ok ((v, None), st') /\
    byteview.set_indexes {| byteview.ptr := 0; byteview.len := 3 |} [(0, Byte.x39)]
      (bytes (env st')) = Ok m2 /\
    byteview.String v m2 = "567".
Proof.
  destruct (group_cached_bytes_private "Sam" st0 {| byteview.ptr := 0; byteview.len := 3 |}
              {| bytes := (byteview.of_string "567" byteview.empty_mem).2; ext := 1 |}
              [(0, Byte.x39)]
              {| byteview.cells := {[ 0 := [Byte.x39; Byte.x36; Byte.x37];
                                      1 := [Byte.x35; Byte.x36; Byte.x37] ]};
                 byteview.brk := 2 |})
    as (v & st' & HG & _ & Hp);
    [done|apply cache.cache_new_wf|done|vm_compute; discriminate|reflexivity|reflexivity|
     vm_compute; reflexivity|apply (byteview.bv_of_string_spec "567" _ byteview.bv_mem_wf_empty)|
     apply (byteview.bv_of_string_spec "567" _ byteview.bv_mem_wf_empty)|].
  eexists v, st', _. split; [exact HG|].
  vm_compute in HG. injection HG as <- <-. split; [vm_compute; reflexivity|].
  vm_compute. reflexivity.
Defined.

Lemma group_negative_cacheBytes_hangs_witness :
  Get "Sam" (group_of (-1) None) = Diverge.
Proof.
  apply (group_negative_cacheBytes_hangs "Sam" (group_of (-1) None)
           {| byteview.ptr := 0; byteview.len := 3 |}
           {| bytes := (byteview.of_string "567" byteview.empty_mem).2; ext := 1 |});
    [done|apply cache.cache_new_wf|done|reflexivity|reflexivity|reflexivity|
     vm_compute; reflexivity|vm_compute; split; discriminate].
Defined.

Lemma group_RegisterPeers_once_witness :
  exists g', RegisterPeers (Some pick_good) (grp st0) = Ok g' /\
    RegisterPeers (Some pick_bad) g' = Panic "RegisterPeerPicker called more than once".
Proof.
  destruct (group_RegisterPeers_once (grp st0) pick_good (Some pick_bad))
    as (g' & H1 & _ & _ & _ & H2); [reflexivity|]. by exists g'.
Defined.

Lemma group_directory_witness :
  exists d', NewGroup "scores" 2048 (Some db_getter) init = Ok (0, d') /\
    GetGroup "scores" d' = Ok (Some 0, d').
Proof.
  destruct (group_directory "scores" 2048 db_getter init) as [_ (d' & H1 & H2 & _)];
    [reflexivity|]. by exists d'.
Defined.

Lemma group_Get_wf_witness :
  exists r st', Get "Sam" st0 = Ok (r, st') /\ wf st' /\
    byteview.valid (byteview.b r.1) (bytes (env st')).
Proof.
  destruct (Get "Sam" st0) as [[r st']| |] eqn:HG; [|vm_compute in HG; discriminate..].
  exists r, st'. split; [reflexivity|].
  destruct (group_Get_wf "Sam" st0 r st' st0_wf HG) as (Hwf & _ & Hv & _).
  split; [exact Hwf|]. apply Hv. vm_compute in HG. by injection HG as <- _.
Defined.

End examples.

End geecache.
