(* ===== verification/Http.v ===== *)
(** * Http: the pool of peers and its HTTP server and client
    ([src/http.go])

    An [HTTPPool] has the address of its node, the prefix of the paths it
    serves, a mutex, the hash ring of the peers and an [httpGetter] for
    each peer.  [HTTPPool_Set] builds the ring and the getters;
    [PickPeer] asks the ring for the owner of a key and returns its
    getter unless the owner is the node itself; [ServeHTTP] answers
    [<basePath><group>/<key>] from the group of that name;
    [httpGetter_Get] fetches a key from a peer.

    A node is the directory of its groups, the heap of the calls of their
    coalescers and the world of their callbacks.  [ServeHTTP] returns what
    it wrote and the node, or ends the process ([Exited]) where the source
    calls [log.Fatal].  The client acts on a world and reaches the network
    through a [RoundTrip], the model of [http.Get]; [loopback] is the
    network that delivers a request to one remote node and runs its
    handler.  [picker] is a pool as the [PeerPicker] of a group.  Logging
    is not modelled.

    Theorems: the pool after [HTTPPool_Set] and the peer [PickPeer]
    returns, whatever the order of the peers when their points do not
    collide; the reply of [ServeHTTP] on every branch; the invariant
    [node_wf] of a node, which the handler keeps; the path a fetch asks
    for and the group and key the server reads from it; a fetch over the
    loopback network; a fill while no peer answers. *)

From Stdlib Require Import ZArith Lia.
From Stdlib Require Import Strings.Byte Strings.Ascii.
From stdpp Require Import base tactics option list gmap strings sorting.
From S2P Require Import Prelude GoStd GoNet Lru ByteView Cache ConsistentHash SingleFlight Group.

Module httppool.

Definition error : Type := string.

Definition defaultBasePath : string := "/_geecache/".
Definition defaultReplicase : Z := 50.

Record httpGetter : Type := mkHttpGetter {
  baseURL : string
}.

(** [peers] is [None] for a nil ring and [httpGetters] for a nil map. *)
Record HTTPPool : Type := mkHTTPPool {
  self : string;
  basePath : string;
  mu : sync.Mutex;
  peers : option consistenthash.Map;
  httpGetters : option (gmap string httpGetter)
}.

Definition NewHTTPPool (self : string) : HTTPPool :=
  {| self := self; basePath := defaultBasePath; mu := false; peers := None;
     httpGetters := None |}.

Definition set_mu (m : sync.Mutex) (p : HTTPPool) : HTTPPool :=
  {| self := self p; basePath := basePath p; mu := m; peers := peers p;
     httpGetters := httpGetters p |}.

(** The loop of [Set]: a getter for each peer. *)
Definition getters_of (base : string) (ps : list string) : gmap string httpGetter :=
  foldl (fun m peer => <[peer := mkHttpGetter (peer +:+ base)]> m) ∅ ps.

(** [HTTPPool.Set] *)
Definition HTTPPool_Set (ps : list string) (p : HTTPPool) : outcome HTTPPool :=
  mu1 ← sync.Lock (mu p);
  let ring := consistenthash.Add ps (consistenthash.New defaultReplicase None) in
  let getters := getters_of (basePath p) ps in
  mu2 ← sync.Unlock mu1;
  Ok {| self := self p; basePath := basePath p; mu := mu2; peers := Some ring;
        httpGetters := Some getters |}.

(** [HTTPPool.PickPeer]: the getter, [None] for a nil pointer, and
    [ok]. *)
Definition PickPeer (key : string) (p : HTTPPool) :
    outcome ((option httpGetter * bool) * HTTPPool) :=
  mu1 ← sync.Lock (mu p);
  ring ← deref "invalid memory address or nil pointer dereference" (peers p);
  peer ← consistenthash.Get key ring;
  mu2 ← sync.Unlock mu1;
  if bool_decide (peer <> "") && bool_decide (peer <> self p)
  then Ok ((httpGetters p ≫= (fun m => m !! peer), true), set_mu mu2 p)
  else Ok ((None, false), set_mu mu2 p).

(** ** The pool *)

Section pool.
Implicit Types (p : HTTPPool) (ps : list string) (key : string).

(** The ring and the pool [Set] builds. *)
Definition ring_of ps : consistenthash.Map :=
  consistenthash.Add ps (consistenthash.New defaultReplicase None).

Definition pool_of ps p : HTTPPool :=
  {| self := self p; basePath := basePath p; mu := false; peers := Some (ring_of ps);
     httpGetters := Some (getters_of (basePath p) ps) |}.

(** What [PickPeer] returns when the ring gives it [o]. *)
Definition picked (o : string) p : option httpGetter * bool :=
  if bool_decide (o <> "") && bool_decide (o <> self p)
  then (httpGetters p ≫= (fun m => m !! o), true)
  else (None, false).

Lemma pool_set_mu p : mu p = false -> set_mu false p = p.
Proof. destruct p. simpl. by intros ->. Qed.

Lemma pool_getters_lookup base ps q :
  getters_of base ps !! q = if decide (q ∈ ps) then Some (mkHttpGetter (q +:+ base)) else None.
Proof.
  unfold getters_of. induction ps as [|x ps IH] using rev_ind.
  { cbn [foldl]. rewrite lookup_empty.
    destruct (decide (q ∈ [])) as [Hq|]; [by apply elem_of_nil in Hq|done]. }
  rewrite foldl_app. cbn [foldl]. destruct (decide (x = q)) as [->|Hx].
  - rewrite lookup_insert_eq. rewrite decide_True; [done|]. apply elem_of_app. right. by left.
  - rewrite lookup_insert_ne, IH by done. apply decide_ext.
    rewrite elem_of_app, list_elem_of_singleton. intuition congruence.
Qed.

(** The getters and the pool depend on the peers, not on their order,
    when the points of the peers have different hashes. *)
Lemma pool_getters_perm base ps ps' : ps ≡ₚ ps' -> getters_of base ps = getters_of base ps'.
Proof.
  intros Hp. apply map_eq. intros q. rewrite !pool_getters_lookup.
  apply decide_ext. by rewrite Hp.
Qed.

Lemma pool_of_perm ps ps' p :
  ps ≡ₚ ps' ->
  NoDup (consistenthash.points (consistenthash.New defaultReplicase None) ps).*1 ->
  pool_of ps p = pool_of ps' p.
Proof.
  intros Hp Hnd. unfold pool_of, ring_of.
  by rewrite (consistenthash.ch_Add_perm ps ps' _ Hp Hnd), (pool_getters_perm _ ps ps' Hp).
Qed.

Lemma pool_Set_spec ps p : mu p = false -> HTTPPool_Set ps p = Ok (pool_of ps p).
Proof. intros Hmu. unfold HTTPPool_Set. by rewrite Hmu. Qed.

Lemma pool_Set_held ps p : mu p = true -> HTTPPool_Set ps p = Diverge.
Proof. intros Hmu. unfold HTTPPool_Set. by rewrite Hmu. Qed.

Lemma pool_ring_wf ps : consistenthash.wf ps (ring_of ps).
Proof. apply (consistenthash.ch_Add_wf [] ps), consistenthash.ch_New_wf. Qed.

Lemma pool_ring_len ps :
  goslice.len (consistenthash.keys (ring_of ps)) = (50 * Z.of_nat (length ps))%Z.
Proof.
  unfold goslice.len, ring_of. rewrite consistenthash.ch_New_Add_keys.
  unfold defaultReplicase. lia.
Qed.

(** [PickPeer] on a pool with a sorted ring asks the ring for the owner of
    the key and leaves the pool as it found it. *)
Lemma pool_PickPeer_spec key p ring :
  mu p = false -> peers p = Some ring ->
  StronglySorted Z.le (consistenthash.keys ring) ->
  (goslice.len (consistenthash.keys ring) <= int64_max)%Z ->
  PickPeer key p =
    Ok (picked (consistenthash.owner (consistenthash.hash_int ring key) ring) p, p).
Proof.
  intros Hmu Hr Hs Hn. unfold PickPeer, picked. rewrite Hmu, Hr. cbn -[set_mu].
  rewrite consistenthash.ch_Get_spec by done. cbn -[set_mu].
  rewrite pool_set_mu by done. by destruct (_ && _).
Qed.

Lemma pool_PickPeer_nil key p :
  mu p = false -> peers p = None ->
  PickPeer key p = Panic "invalid memory address or nil pointer dereference".
Proof. intros Hmu Hr. unfold PickPeer. by rewrite Hmu, Hr. Qed.

(** [PickPeer] on the pool [Set] builds from peers that are not empty:
    the owner of the key is one of the peers, and its getter is returned
    unless it is the node itself or has the empty name. *)
Lemma pool_PickPeer_set ps p key :
  ps <> [] -> (50 * Z.of_nat (length ps) <= int64_max)%Z ->
  let o := consistenthash.owner (consistenthash.hash_int (ring_of ps) key) (ring_of ps) in
  o ∈ ps /\
  PickPeer key (pool_of ps p) =
    Ok (if bool_decide (o = "" \/ o = self p) then (None, false)
        else (Some (mkHttpGetter (o +:+ basePath p)), true), pool_of ps p).
Proof.
  intros Hps Hlen o. pose proof (pool_ring_wf ps) as Hwf.
  pose proof (pool_ring_len ps) as Hl.
  assert (o ∈ ps) as Ho.
  { apply consistenthash.ch_owner_registered; [done|]. intros Hk.
    rewrite Hk in Hl. destruct ps; [done|]. simpl in Hl. unfold goslice.len in Hl.
    simpl in Hl. lia. }
  split; [done|].
  rewrite (pool_PickPeer_spec key (pool_of ps p) (ring_of ps)); [|done|done|apply Hwf|lia].
  fold o. unfold picked. cbn [pool_of self httpGetters mbind option_bind].
  rewrite pool_getters_lookup, decide_True by done.
  repeat case_bool_decide; simpl; try done; exfalso; tauto.
Qed.

End pool.

Section with_ext.
(** The state of the callbacks of the groups, and the codec of the
    responses. *)
Context {X : Type} `{!proto.ResponseCodec}.

(** ** The server *)

(** The process of a node: the directory of its groups, the calls of
    their coalescers and the world of their callbacks. *)
Record node : Type := mkNode {
  dir : geecache.directory X;
  calls : singleflight.heap byteview.ByteView;
  env : geecache.world X
}.

(** What a call of the handler ends in: it returns, with what it wrote,
    or it ends the process. *)
Inductive served : Type :=
  | Returned (w : nethttp.ResponseWriter) (n : node)
  | Exited (msg : string).

(** The node after a call on the group at [l]. *)
Definition after_Get (l : geecache.gloc) (d : geecache.directory X) (st : geecache.state X) :
    node :=
  {| dir := {| geecache.mu := geecache.mu d; geecache.groups := geecache.groups d;
               geecache.heap := <[l := geecache.grp st]> (geecache.heap d);
               geecache.brk := geecache.brk d |};
     calls := geecache.calls st;
     env := geecache.env st |}.

(** The end of the handler, from [group.Get(key)] on. *)
Definition serve_view (w : nethttp.ResponseWriter) (l : geecache.gloc)
    (d : geecache.directory X) (g : geecache.Group X) (key : string) (n : node) :
    outcome served :=
  '(reply, st) ← geecache.Get key {| geecache.grp := g; geecache.calls := calls n;
                                      geecache.env := env n |};
  match reply.2 with
  | Some e =>
      Ok (Returned (nethttp.Error w e nethttp.StatusInternalServerError) (after_Get l d st))
  | None =>
      let '(bs, m) := byteview.ByteSlice reply.1 (geecache.bytes (geecache.env st)) in
      let n' := after_Get l d {| geecache.grp := geecache.grp st;
                                 geecache.calls := geecache.calls st;
                                 geecache.env := geecache.set_bytes m (geecache.env st) |} in
      match proto.Marshal (byteview.load bs m) with
      | inl e => Ok (Returned (nethttp.Error w e nethttp.StatusInternalServerError) n')
      | inr body =>
          let w1 := nethttp.Header_Set "Content-Type" "application/octet-stream" w in
          let '(w2, err) := nethttp.Write body w1 in
          match err with
          | None => Ok (Exited "write failed<nil>")
          | Some _ => Ok (Returned w2 n')
          end
      end
  end.

(** [HTTPPool.ServeHTTP] *)
Definition ServeHTTP (p : HTTPPool) (w : nethttp.ResponseWriter) (r : nethttp.Request)
    (n : node) : outcome served :=
  if negb (gostrings.HasPrefix (nethttp.Path r) (basePath p))
  then Panic ("HTTPPool serving unexpected path: " +:+ nethttp.Path r)
  else
    rest ← gostrings.from (String.length (basePath p)) (nethttp.Path r);
    let parts := gostrings.SplitN rest "/" 2 in
    if bool_decide (goslice.len parts <> 2%Z)
    then Ok (Returned (nethttp.Error w "bad request" nethttp.StatusBadRequest) n)
    else
      groupName ← goslice.index parts 0;
      key ← goslice.index parts 1;
      '(group, d) ← geecache.GetGroup groupName (dir n);
      match group with
      | None =>
          Ok (Returned (nethttp.Error w ("no such group: " +:+ groupName)
                          nethttp.StatusNotFound)
                {| dir := d; calls := calls n; env := env n |})
      | Some l =>
          g ← deref "invalid memory address or nil pointer dereference" (geecache.heap d !! l);
          serve_view w l d g key n
      end.

End with_ext.

Arguments node : clear implicits.
Arguments served : clear implicits.

(** ** The client *)

Section client.
(** The state of the callbacks of the client, which holds the network. *)
Context {Y : Type} `{!proto.ResponseCodec}.

(** [http.Get(u)]: a response or an error. *)
Definition RoundTrip : Type :=
  string -> geecache.world Y -> outcome ((error + nethttp.Response) * geecache.world Y).

(** The URL of a fetch. *)
Definition url_of (h : httpGetter) (req : geecache.Request) : string :=
  baseURL h +:+ url.QueryEscape (geecache.GetGroup_ req) +:+ "/" +:+
  url.QueryEscape (geecache.GetKey req).

(** [out.Value] after [proto.Unmarshal]: a new array, or nil for an empty
    value. *)
Definition value_of (v : list byte) (m : byteview.mem) : byteview.slice * byteview.mem :=
  match v with
  | [] => (byteview.nil_slice, m)
  | _ => byteview.of_string (String.string_of_list_byte v) m
  end.

(** [httpGetter.Get(in, out)]: the error, and [out.Value]. *)
Definition httpGetter_Get (get : RoundTrip) (h : httpGetter) : geecache.PeerGetter Y :=
  fun req w =>
    '(res, w1) ← get (url_of h req) w;
    match res with
    | inl e => Ok ((byteview.nil_slice, Some e), w1)
    | inr res =>
        if bool_decide (nethttp.StatusCode res <> nethttp.StatusOK)
        then Ok ((byteview.nil_slice, Some ("server returned: " +:+ nethttp.Status res)), w1)
        else
          match nethttp.ReadErr res with
          | Some e => Ok ((byteview.nil_slice, Some ("reading response body: " +:+ e)), w1)
          | None =>
              match proto.Unmarshal (nethttp.Body res) with
              | inl e => Ok ((byteview.nil_slice, Some ("decoding response body: " +:+ e)), w1)
              | inr v =>
                  let '(s, m) := value_of v (geecache.bytes w1) in
                  Ok ((s, None), geecache.set_bytes m w1)
              end
          end
    end.

(** A pool as the [PeerPicker] of a group: [PickPeer] leaves the pool as
    it found it, and the peer it returns is the interface value that holds
    the getter, a nil pointer included. *)
Definition picker (get : RoundTrip) (p : HTTPPool) : geecache.PeerPicker Y :=
  fun key w =>
    '((h, ok), _) ← PickPeer key p;
    if ok : bool
    then Ok (Some (fun req w' =>
                     h' ← deref "invalid memory address or nil pointer dereference" h;
                     httpGetter_Get get h' req w'), w)
    else Ok (None, w).

End client.

Arguments RoundTrip : clear implicits.

(** ** The network *)

Section network.
Context {X : Type} `{!proto.ResponseCodec}.

(** The network of a client whose peer at [addr] runs the pool [p] on a
    node: the world of the client holds the node, [None] once its process
    has ended.  A request for a URL of the peer is delivered to the
    handler with its path unescaped; a handler that ends the process
    before its reply is sent closes the connection.  A panic of the
    handler is passed on to the fetch: [net/http] would recover it and
    close the connection, with the node in the state the panic left. *)
Definition loopback (addr : string) (p : HTTPPool) : RoundTrip (option (node X)) :=
  fun u w =>
    if negb (gostrings.HasPrefix u addr) then Ok (inl "dial: no such host", w)
    else
      raw ← gostrings.from (String.length addr) u;
      match url.PathUnescape raw with
      | None => Ok (inl "parse: invalid URL escape", w)
      | Some path =>
          match geecache.ext w with
          | None => Ok (inl "dial: connection refused", w)
          | Some n =>
              r ← ServeHTTP p (nethttp.new_writer false)
                    {| nethttp.Method := "GET"; nethttp.Path := path |} n;
              match r with
              | Returned rw n' =>
                  Ok (inr (nethttp.received rw),
                      {| geecache.bytes := geecache.bytes w; geecache.ext := Some n' |})
              | Exited _ =>
                  Ok (inl "EOF", {| geecache.bytes := geecache.bytes w; geecache.ext := None |})
              end
          end
      end.

End network.

(** ** The replies of the handler *)

Section serving.
Context {X : Type} `{!proto.ResponseCodec}.
Implicit Types (p : HTTPPool) (n : node X) (w : nethttp.ResponseWriter) (g k : string).

(** The path of the request for the key [k] of the group [g]. *)
Definition path_of (base g k : string) : string := base +:+ g +:+ "/" +:+ k.

Lemma serve_unexpected p w r n :
  gostrings.HasPrefix (nethttp.Path r) (basePath p) = false ->
  ServeHTTP p w r n = Panic ("HTTPPool serving unexpected path: " +:+ nethttp.Path r).
Proof. intros Hp. unfold ServeHTTP. by rewrite Hp. Qed.

Lemma serve_bad_request p w m rest n :
  gostrings.free "/"%char rest = true ->
  ServeHTTP p w {| nethttp.Method := m; nethttp.Path := basePath p +:+ rest |} n =
    Ok (Returned (nethttp.Error w "bad request" nethttp.StatusBadRequest) n).
Proof.
  intros Hr. unfold ServeHTTP. cbn [nethttp.Path].
  rewrite gostrings.HasPrefix_app, gostrings.from_app. cbn [negb mbind outcome_bind].
  rewrite (gostrings.SplitN_2_none "/"%char rest Hr).
  by change (bool_decide (goslice.len [rest] <> 2%Z)) with true.
Qed.

(** A path with a group and a key reaches the directory. *)
Lemma serve_group p w m g k n :
  gostrings.free "/"%char g = true -> geecache.mu (dir n) = sync.free_rw ->
  ServeHTTP p w {| nethttp.Method := m; nethttp.Path := path_of (basePath p) g k |} n =
    match geecache.groups (dir n) !! g with
    | None =>
        Ok (Returned (nethttp.Error w ("no such group: " +:+ g) nethttp.StatusNotFound) n)
    | Some l =>
        gr ← deref "invalid memory address or nil pointer dereference"
               (geecache.heap (dir n) !! l);
        serve_view w l (dir n) gr k n
    end.
Proof.
  intros Hg Hmu. unfold ServeHTTP, path_of. cbn [nethttp.Path].
  rewrite gostrings.HasPrefix_app, gostrings.from_app. cbn [negb mbind outcome_bind].
  change ("/" +:+ k) with (String "/" k).
  rewrite (gostrings.SplitN_2_first "/"%char g k Hg).
  change (bool_decide (goslice.len [g; k] <> 2%Z)) with false.
  change (goslice.index [g; k] 0) with (Ok g). change (goslice.index [g; k] 1) with (Ok k).
  cbn [mbind outcome_bind]. rewrite geecache.group_GetGroup_free by done. cbn [mbind outcome_bind].
  destruct (_ !! g); [done|]. by destruct n.
Qed.

Lemma serve_view_error w l d gr k n v e st :
  geecache.Get k {| geecache.grp := gr; geecache.calls := calls n; geecache.env := env n |} =
    Ok ((v, Some e), st) ->
  serve_view w l d gr k n =
    Ok (Returned (nethttp.Error w e nethttp.StatusInternalServerError) (after_Get l d st)).
Proof. intros HG. unfold serve_view. by rewrite HG. Qed.

(** A view that is encoded and written ends the process. *)
Lemma serve_view_exits w l d gr k n v st body :
  geecache.Get k {| geecache.grp := gr; geecache.calls := calls n; geecache.env := env n |} =
    Ok ((v, None), st) ->
  (let sm := byteview.ByteSlice v (geecache.bytes (geecache.env st)) in
   proto.Marshal (byteview.load sm.1 sm.2) = inr body) ->
  nethttp.broken w = false ->
  serve_view w l d gr k n = Ok (Exited "write failed<nil>").
Proof.
  intros HG HM Hb. unfold serve_view. rewrite HG. cbn [mbind outcome_bind fst snd].
  destruct (byteview.ByteSlice v _) as [bs m']. cbn [fst snd] in HM. rewrite HM.
  pose proof (nethttp.Write_ok body
    (nethttp.Header_Set "Content-Type" "application/octet-stream" w) Hb) as Hw.
  by destruct (nethttp.Write _ _) as [w2 [e|]].
Qed.

(** The status of a reply that is sent is never 200. *)
Lemma serve_view_status w l d gr k n rw n' :
  nethttp.status w = None -> nethttp.broken w = false ->
  serve_view w l d gr k n = Ok (Returned rw n') ->
  nethttp.status rw = Some nethttp.StatusInternalServerError.
Proof.
  intros Hs Hb. unfold serve_view.
  destruct (geecache.Get _ _) as [[[v [e|]] st]| |]; cbn [mbind outcome_bind fst snd];
    [|idtac|done..].
  { intros [= <- <-]. by apply nethttp.status_Error. }
  destruct (byteview.ByteSlice v _) as [bs m']. destruct (proto.Marshal _) as [e|body].
  { intros [= <- <-]. by apply nethttp.status_Error. }
  pose proof (nethttp.Write_ok body
    (nethttp.Header_Set "Content-Type" "application/octet-stream" w) Hb) as Hw.
  by destruct (nethttp.Write _ _) as [w2 [e|]].
Qed.

Lemma serve_status p w r n rw n' :
  nethttp.status w = None -> nethttp.broken w = false ->
  ServeHTTP p w r n = Ok (Returned rw n') ->
  exists code, nethttp.status rw = Some code /\ code <> nethttp.StatusOK.
Proof.
  intros Hs Hb. unfold ServeHTTP. destruct (negb _); [done|].
  destruct (gostrings.from _ _) as [rest| |]; cbn [mbind outcome_bind]; [|done..].
  case_bool_decide.
  { intros [= <- <-]. exists nethttp.StatusBadRequest. by rewrite nethttp.status_Error. }
  destruct (goslice.index _ 0) as [gn| |]; cbn [mbind outcome_bind]; [|done..].
  destruct (goslice.index _ 1) as [key| |]; cbn [mbind outcome_bind]; [|done..].
  destruct (geecache.GetGroup gn _) as [[[l|] d]| |]; cbn [mbind outcome_bind]; [| |done..].
  - destruct (_ !! l) as [gr|]; cbn [deref mbind outcome_bind]; [|done].
    intros HS. exists nethttp.StatusInternalServerError.
    by rewrite (serve_view_status _ _ _ _ _ _ _ _ Hs Hb HS).
  - intros [= <- <-]. exists nethttp.StatusNotFound. by rewrite nethttp.status_Error.
Qed.

End serving.

(** ** The invariant of a node *)

Section invariant.
Context {X : Type} `{!proto.ResponseCodec}.
Implicit Types (p : HTTPPool) (n : node X) (w : nethttp.ResponseWriter) (l : geecache.gloc).

(** A node is well-formed: nobody holds its directory, every name of the
    directory is the name of a group on the heap, and every group on the
    heap satisfies the invariant of a group in the memory of the node. *)
Record node_wf n : Prop := {
  nwf_mu : geecache.mu (dir n) = sync.free_rw;
  nwf_groups : forall nm l, geecache.groups (dir n) !! nm = Some l ->
    is_Some (geecache.heap (dir n) !! l);
  nwf_heap : forall l g, geecache.heap (dir n) !! l = Some g ->
    geecache.wf {| geecache.grp := g; geecache.calls := calls n; geecache.env := env n |}
}.

(** The groups of [n'] are those of [n], with their names, their loaders
    and their routers. *)
Definition same_groups n n' : Prop :=
  geecache.groups (dir n') = geecache.groups (dir n) /\
  forall l g, geecache.heap (dir n) !! l = Some g ->
    exists g', geecache.heap (dir n') !! l = Some g' /\
      geecache.name g' = geecache.name g /\ geecache.getter g' = geecache.getter g /\
      geecache.peers g' = geecache.peers g.

#[global] Instance same_groups_PreOrder : PreOrder same_groups.
Proof.
  split.
  - intros n. split; [done|]. intros l g Hg. by exists g.
  - intros n1 n2 n3 [Hn1 H1] [Hn2 H2]. split; [congruence|]. intros l g Hg.
    destruct (H1 l g Hg) as (g2 & Hg2 & ? & ? & ?).
    destruct (H2 l g2 Hg2) as (g3 & Hg3 & ? & ? & ?). exists g3. split; [done|].
    split_and!; congruence.
Qed.

(** The node after a call of [Get] on one of its groups. *)
Lemma node_after_Get n l g key reply st :
  node_wf n -> geecache.heap (dir n) !! l = Some g ->
  geecache.Get key {| geecache.grp := g; geecache.calls := calls n; geecache.env := env n |} =
    Ok (reply, st) ->
  node_wf (after_Get l (dir n) st) /\ same_groups n (after_Get l (dir n) st) /\
  (reply.2 = None ->
   byteview.valid (byteview.b reply.1) (geecache.bytes (geecache.env st))).
Proof.
  intros [Hmu Hgr Hh] Hl HG.
  destruct (geecache.group_Get_keeps _ _ _ _ (Hh l g Hl) HG) as (Hwf & He & Hv).
  destruct (geecache.group_Get_same _ _ _ _ HG) as (Hnm & Hgt & Hpk).
  split; [|split; [|done]].
  - split; cbn [after_Get dir calls env geecache.mu geecache.groups geecache.heap]; [done| |].
    + intros nm l' Hnm'. rewrite lookup_insert_is_Some'. right. by eapply Hgr.
    + intros l' g' Hg'. destruct (decide (l' = l)) as [->|Hne].
      * rewrite lookup_insert_eq in Hg'. injection Hg' as <-. by destruct st.
      * rewrite lookup_insert_ne in Hg' by done.
        apply (geecache.group_wf_env g' (calls n) _ (env n)); [by apply (Hh l')|apply Hwf|done].
  - split; [done|]. intros l' g' Hg'.
    cbn [after_Get dir geecache.heap]. destruct (decide (l' = l)) as [->|Hne].
    + rewrite lookup_insert_eq. eexists. split; [done|].
      assert (g' = g) as -> by congruence. done.
    + rewrite lookup_insert_ne by done. by exists g'.
Qed.

(** A node stays well-formed when its memory is extended. *)
Lemma node_wf_bytes n m :
  node_wf n -> byteview.mem_wf m -> byteview.extends (geecache.bytes (env n)) m ->
  node_wf {| dir := dir n; calls := calls n; env := geecache.set_bytes m (env n) |}.
Proof.
  intros [Hmu Hgr Hh] Hm He. split; [done..|]. intros l g Hg.
  apply (geecache.group_wf_env g (calls n) _ (env n)); [by apply (Hh l)|done..].
Qed.

Lemma serve_view_wf w l g k n rw n' :
  node_wf n -> geecache.heap (dir n) !! l = Some g ->
  serve_view w l (dir n) g k n = Ok (Returned rw n') ->
  node_wf n' /\ same_groups n n'.
Proof.
  intros Hn Hl. unfold serve_view.
  destruct (geecache.Get _ _) as [[[v err] st]| |] eqn:HG; cbn [mbind outcome_bind fst snd];
    [|done..].
  destruct (node_after_Get n l g k _ st Hn Hl HG) as (Hn' & Hs & Hv).
  destruct err as [e|]; [by intros [= <- <-]|].
  assert (byteview.mem_wf (geecache.bytes (geecache.env st))) as Hm0.
  { apply (geecache.wf_fits _ (nwf_heap _ Hn' l (geecache.grp st) (lookup_insert_eq _ _ _))). }
  destruct (byteview.bv_cloneBytes_spec (byteview.b v) (geecache.bytes (geecache.env st)))
    as (Hm & He & _); [done|by apply Hv|].
  unfold byteview.ByteSlice. destruct (byteview.cloneBytes _ _) as [bs m]. cbn [fst snd] in *.
  assert (node_wf (after_Get l (dir n)
            {| geecache.grp := geecache.grp st; geecache.calls := geecache.calls st;
               geecache.env := geecache.set_bytes m (geecache.env st) |}) /\
          same_groups n (after_Get l (dir n)
            {| geecache.grp := geecache.grp st; geecache.calls := geecache.calls st;
               geecache.env := geecache.set_bytes m (geecache.env st) |})) as Hok.
  { split; [by apply (node_wf_bytes _ m Hn')|exact Hs]. }
  destruct (proto.Marshal _) as [e|body]; [by intros [= <- <-]|].
  destruct (nethttp.Write _ _) as [w2 [e|]]; [by intros [= <- <-]|done].
Qed.

(** [ServeHTTP] keeps a node well-formed, and its groups. *)
Lemma serve_node_wf p w r n rw n' :
  node_wf n -> ServeHTTP p w r n = Ok (Returned rw n') ->
  node_wf n' /\ same_groups n n'.
Proof.
  intros Hn. unfold ServeHTTP. destruct (negb _); [done|].
  destruct (gostrings.from _ _) as [rest| |]; cbn [mbind outcome_bind]; [|done..].
  case_bool_decide; [by intros [= <- <-]|].
  destruct (goslice.index _ 0) as [gn| |]; cbn [mbind outcome_bind]; [|done..].
  destruct (goslice.index _ 1) as [key| |]; cbn [mbind outcome_bind]; [|done..].
  rewrite geecache.group_GetGroup_free by apply Hn. cbn [mbind outcome_bind].
  destruct (_ !! gn) as [l|]; [|intros [= <- <-]; by destruct n].
  destruct (geecache.heap (dir n) !! l) as [g|] eqn:Hl; cbn [deref mbind outcome_bind]; [|done].
  by apply serve_view_wf.
Qed.

End invariant.

(** ** A fetch over the loopback network *)

Section fetching.
Context {X : Type} `{!proto.ResponseCodec}.
Implicit Types (p : HTTPPool) (n : node X) (w : geecache.world (option (node X))).
Implicit Types (g k addr : string).

(** What the client gets for what the handler ended in. *)
Definition deliver w (r : served X) :
    (error + nethttp.Response) * geecache.world (option (node X)) :=
  match r with
  | Returned rw n' =>
      (inr (nethttp.received rw),
       {| geecache.bytes := geecache.bytes w; geecache.ext := Some n' |})
  | Exited _ => (inl "EOF", {| geecache.bytes := geecache.bytes w; geecache.ext := None |})
  end.

(** The request of a fetch of the key [k] of the group [g] reaches the
    handler of the peer with the path of [g] and [k] as they are received. *)
Lemma fetch_request addr p g k w n :
  gostrings.free "%" (basePath p) = true -> geecache.ext w = Some n ->
  loopback addr p (url_of (mkHttpGetter (addr +:+ basePath p)) (geecache.mkRequest g k)) w =
    r ← ServeHTTP p (nethttp.new_writer false)
          {| nethttp.Method := "GET";
             nethttp.Path := path_of (basePath p) (url.received g) (url.received k) |} n;
    Ok (deliver w r).
Proof.
  intros Hb Hn. unfold loopback, url_of. cbn [baseURL geecache.GetGroup_ geecache.GetKey].
  rewrite gostrings.app_assoc, gostrings.HasPrefix_app, gostrings.from_app.
  cbn [negb mbind outcome_bind]. rewrite (url.PathUnescape_fetch _ _ _ Hb), Hn.
  unfold path_of. by destruct (ServeHTTP _ _ _ _) as [[]| |].
Qed.

(** The network leaves the memory of the client as it is. *)
Lemma fetch_bytes addr p u w res w' :
  loopback addr p u w = Ok (res, w') -> geecache.bytes w' = geecache.bytes w.
Proof.
  unfold loopback. destruct (negb _); [by intros [= <- <-]|].
  destruct (gostrings.from _ _) as [raw| |]; cbn [mbind outcome_bind]; [|done..].
  destruct (url.PathUnescape raw) as [path|]; [|by intros [= <- <-]].
  destruct (geecache.ext w) as [n|]; [|by intros [= <- <-]].
  destruct (ServeHTTP _ _ _ _) as [[rw n'|msg]| |]; cbn [mbind outcome_bind]; [| |done..];
    by intros [= <- <-].
Qed.

(** A response that arrives does not have the status 200. *)
Lemma fetch_status addr p u w res w' :
  loopback addr p u w = Ok (inr res, w') -> nethttp.StatusCode res <> nethttp.StatusOK.
Proof.
  unfold loopback. destruct (negb _); [done|].
  destruct (gostrings.from _ _) as [raw| |]; cbn [mbind outcome_bind]; [|done..].
  destruct (url.PathUnescape raw) as [path|]; [|done].
  destruct (geecache.ext w) as [n|]; [|done].
  destruct (ServeHTTP _ _ _ _) as [[rw n'|msg]| |] eqn:HS; cbn [mbind outcome_bind]; [|done..].
  intros [= <- <-]. destruct (serve_status p (nethttp.new_writer false) _ n rw n' eq_refl eq_refl HS)
    as (code & Hc & Hne).
  unfold nethttp.received. cbn [nethttp.StatusCode]. by rewrite Hc.
Qed.

(** A fetch that returns returns an error, and leaves the memory of the
    client as it is. *)
Lemma fetch_fails addr p h req w s err w' :
  httpGetter_Get (loopback addr p) h req w = Ok ((s, err), w') ->
  is_Some err /\ geecache.bytes w' = geecache.bytes w.
Proof.
  unfold httpGetter_Get.
  destruct (loopback addr p _ w) as [[[e|res] w1]| |] eqn:HL; cbn [mbind outcome_bind];
    [| |done..].
  - intros [= <- <- <-]. split; [by eexists|by eapply fetch_bytes].
  - rewrite bool_decide_eq_true_2 by (by eapply fetch_status).
    intros [= <- <- <-]. split; [by eexists|by eapply fetch_bytes].
Qed.

End fetching.

(** ** What the client asks of the network, and what it promises the
    group *)

Section contracts.
Context {Y : Type} `{!proto.ResponseCodec}.
Implicit Types (get : RoundTrip Y) (h : httpGetter) (w : geecache.world Y).

(** A network keeps the memory of the client well-formed and changes no
    array that was allocated. *)
Class RoundTripOk (get : RoundTrip Y) : Prop :=
  round_trip_ok : forall u w res w',
    byteview.mem_wf (geecache.bytes w) -> get u w = Ok (res, w') ->
    byteview.mem_wf (geecache.bytes w') /\
    byteview.extends (geecache.bytes w) (geecache.bytes w').

Lemma value_of_spec (v : list byte) (m : byteview.mem) :
  byteview.mem_wf m ->
  byteview.mem_wf (value_of v m).2 /\ byteview.extends m (value_of v m).2 /\
  byteview.valid (value_of v m).1 (value_of v m).2 /\
  byteview.load (value_of v m).1 (value_of v m).2 = v.
Proof.
  intros Hm. destruct v as [|x v]; [by split_and!; [|reflexivity|left|]|].
  unfold value_of.
  destruct (byteview.bv_of_string_spec (String.string_of_list_byte (x :: v)) m Hm)
    as (? & ? & ? & Hl).
  by rewrite String.list_byte_of_string_of_list_byte in Hl.
Qed.

(** The response that carries [v]. *)
Definition ok_response (body : list byte) : nethttp.Response :=
  {| nethttp.StatusCode := nethttp.StatusOK; nethttp.Status := nethttp.status_line 200;
     nethttp.Body := body; nethttp.ReadErr := None |}.

Lemma fetch_decodes get h req w v body w1 :
  (Z.of_nat (length v) < 2 ^ 63)%Z -> proto.Marshal v = inr body ->
  get (url_of h req) w = Ok (inr (ok_response body), w1) ->
  httpGetter_Get get h req w =
    Ok (((value_of v (geecache.bytes w1)).1, None),
        geecache.set_bytes (value_of v (geecache.bytes w1)).2 w1).
Proof.
  intros Hv HM HG. unfold httpGetter_Get. rewrite HG. cbn [mbind outcome_bind].
  cbn [ok_response nethttp.StatusCode nethttp.ReadErr nethttp.Body].
  rewrite bool_decide_eq_false_2 by (by intros []).
  rewrite (proto.Unmarshal_Marshal v body Hv HM). by destruct (value_of _ _).
Qed.

#[global] Instance httpGetter_ok get h :
  RoundTripOk get -> geecache.PeerGetterOk (httpGetter_Get get h).
Proof.
  intros Hget req w Hm bs err w'. unfold httpGetter_Get.
  destruct (get _ w) as [[res w1]| |] eqn:HG; cbn [mbind outcome_bind]; [|done..].
  destruct (Hget _ _ _ _ Hm HG) as [Hm1 He1].
  assert (forall e, Ok ((byteview.nil_slice, Some e), w1) = Ok ((bs, err), w') ->
    byteview.mem_wf (geecache.bytes w') /\
    byteview.extends (geecache.bytes w) (geecache.bytes w') /\
    (err = None -> byteview.valid bs (geecache.bytes w'))) as Herr.
  { by intros e [= <- <- <-]. }
  destruct res as [e|res]; [apply Herr|]. case_bool_decide; [apply Herr|].
  destruct (nethttp.ReadErr res); [apply Herr|].
  destruct (proto.Unmarshal _) as [e|v]; [apply Herr|].
  destruct (value_of_spec v _ Hm1) as (Hm2 & He2 & Hv & _).
  destruct (value_of v _) as [s m2]. intros [= <- <- <-]. cbn [fst snd] in *.
  split; [done|]. split; [by trans (geecache.bytes w1)|done].
Qed.

#[global] Instance picker_ok get p : RoundTripOk get -> geecache.PeerPickerOk (picker get p).
Proof.
  intros Hget key w peer w' Hm. unfold picker.
  destruct (PickPeer key p) as [[[h ok] p']| |]; cbn [mbind outcome_bind]; [|done..].
  destruct ok; intros [= <- <-]; (split; [done|]); (split; [done|]); [|done].
  intros q [= <-]. destruct h as [h|]; [apply httpGetter_ok, Hget|].
  by intros req w1 ? bs err w2.
Qed.

End contracts.

(** ** Theorems *)

Section theorems.
Context {X : Type} `{!proto.ResponseCodec}.
Implicit Types (p : HTTPPool) (n : node X) (g k addr key : string).

#[global] Instance loopback_ok addr p : RoundTripOk (loopback (X:=X) addr p).
Proof.
  intros u w res w' Hm HL. rewrite (fetch_bytes _ _ _ _ _ _ HL). by split.
Qed.

(** While no peer answers, a fill of a group whose router is a pool with
    its peers set is the local load: the owner is the node itself, or the
    fetch from the owner fails and the fill falls back. *)
Lemma picker_down {Y} (get : RoundTrip Y) ps p (gr : geecache.Group Y) key c w :
  ps <> [] -> (50 * Z.of_nat (length ps) <= int64_max)%Z ->
  (forall u w, exists e, get u w = Ok (inl e, w)) ->
  geecache.peers gr = Some (picker get (pool_of ps p)) ->
  geecache.fill gr key c w = geecache.getLocally gr key c w.
Proof.
  intros Hps Hlen Hdown Hp. unfold geecache.fill. rewrite Hp. unfold picker.
  destruct (pool_PickPeer_set ps p key Hps Hlen) as [_ ->]. cbn [mbind outcome_bind].
  case_bool_decide; [done|]. cbn [mbind outcome_bind].
  unfold geecache.getFromPeer, httpGetter_Get. cbn [deref mbind outcome_bind].
  match goal with |- context [get ?u ?w1] => by destruct (Hdown u w1) as [e ->] end.
Qed.

(** A new group whose router is a pool satisfies the invariant of a
    group: the pool and the network discharge what the group asks of its
    router. *)
Lemma new_group_wf {Y} (get : RoundTrip Y) p nm (gt : geecache.Getter Y) (cap : Z) (y : Y) :
  geecache.GetterOk gt -> RoundTripOk get ->
  geecache.wf
    {| geecache.grp := geecache.mkGroup nm gt (cache.new cap) (Some (picker get p))
                         singleflight.new;
       geecache.calls := singleflight.empty_heap;
       geecache.env := {| geecache.bytes := byteview.empty_mem; geecache.ext := y |} |}.
Proof.
  intros Hgt Hget. split; [|done|done|].
  - split; [apply cache.cache_new_wf|]. split; [apply byteview.bv_mem_wf_empty|].
    by intros k v ?%elem_of_nil.
  - intros pick [= <-]. by apply picker_ok.
Qed.

(** C15 (functional).  [PickPeer] before and after [Set], on a pool
    nobody holds.  Before [Set] the pool has no ring, as [NewHTTPPool]
    leaves it, and [PickPeer] panics on the nil pointer.  After [Set],
    [PickPeer] returns the getter of the peer that owns the key on the
    ring of the peers that were set, with fifty points for each; the base
    URL of the getter is the address of the peer followed by the base
    path; no peer is returned when the owner is the node itself or has the
    empty name; the owner is one of the peers, and [PickPeer] leaves the
    pool as it found it. *)
Theorem http_PickPeer_owner ps p key :
  mu p = false -> ps <> [] -> (50 * Z.of_nat (length ps) <= int64_max)%Z ->
  let o := consistenthash.owner (consistenthash.hash_int (ring_of ps) key) (ring_of ps) in
  (peers p = None ->
   PickPeer key p = Panic "invalid memory address or nil pointer dereference") /\
  HTTPPool_Set ps p = Ok (pool_of ps p) /\ o ∈ ps /\
  PickPeer key (pool_of ps p) =
    Ok (if bool_decide (o = "" \/ o = self p) then (None, false)
        else (Some (mkHttpGetter (o +:+ basePath p)), true), pool_of ps p).
Proof.
  intros Hmu Hps Hlen o. split; [by apply pool_PickPeer_nil|].
  split; [by apply pool_Set_spec|]. by apply pool_PickPeer_set.
Qed.

(** C13 (error).  A request for a key the group answers ends the process
    of the node: the view is encoded and written, and because the write
    succeeded the handler calls [log.Fatal]. *)
Theorem http_ServeHTTP_exits p w m g k n l gr v st body :
  gostrings.free "/"%char g = true -> geecache.mu (dir n) = sync.free_rw ->
  geecache.groups (dir n) !! g = Some l -> geecache.heap (dir n) !! l = Some gr ->
  geecache.Get k {| geecache.grp := gr; geecache.calls := calls n; geecache.env := env n |} =
    Ok ((v, None), st) ->
  (let sm := byteview.ByteSlice v (geecache.bytes (geecache.env st)) in
   proto.Marshal (byteview.load sm.1 sm.2) = inr body) ->
  nethttp.broken w = false ->
  ServeHTTP p w {| nethttp.Method := m; nethttp.Path := path_of (basePath p) g k |} n =
    Ok (Exited "write failed<nil>").
Proof.
  intros Hg Hmu Hl Hgr HG HM Hb. rewrite serve_group, Hl, Hgr by done.
  by eapply serve_view_exits.
Qed.

(** C36 (error).  The requests the handler turns down, on a node whose
    directory nobody holds: a path outside the base path is a panic; a
    path with no key is answered 400; a group that is not in the directory
    is answered 404 with its name; an error of [Get] is answered 500 with
    the message of the error, and the group keeps what [Get] did. *)
Theorem http_ServeHTTP_rejects p w m n :
  geecache.mu (dir n) = sync.free_rw ->
  (forall path, gostrings.HasPrefix path (basePath p) = false ->
    ServeHTTP p w {| nethttp.Method := m; nethttp.Path := path |} n =
      Panic ("HTTPPool serving unexpected path: " +:+ path)) /\
  (forall rest, gostrings.free "/"%char rest = true ->
    ServeHTTP p w {| nethttp.Method := m; nethttp.Path := basePath p +:+ rest |} n =
      Ok (Returned (nethttp.Error w "bad request" 400) n)) /\
  (forall g k, gostrings.free "/"%char g = true -> geecache.groups (dir n) !! g = None ->
    ServeHTTP p w {| nethttp.Method := m; nethttp.Path := path_of (basePath p) g k |} n =
      Ok (Returned (nethttp.Error w ("no such group: " +:+ g) 404) n)) /\
  (forall g k l gr v e st, gostrings.free "/"%char g = true ->
    geecache.groups (dir n) !! g = Some l -> geecache.heap (dir n) !! l = Some gr ->
    geecache.Get k {| geecache.grp := gr; geecache.calls := calls n;
                      geecache.env := env n |} = Ok ((v, Some e), st) ->
    ServeHTTP p w {| nethttp.Method := m; nethttp.Path := path_of (basePath p) g k |} n =
      Ok (Returned (nethttp.Error w e 500) (after_Get l (dir n) st))).
Proof.
  intros Hmu. split_and!.
  - intros path Hp. by rewrite serve_unexpected.
  - intros rest Hr. by apply serve_bad_request.
  - intros g k Hg Hn. by rewrite serve_group, Hn.
  - intros g k l gr v e st Hg Hl Hgr HG. rewrite serve_group, Hl, Hgr by done.
    by eapply serve_view_error.
Qed.

(** C37 (roundtrip).  The fetch of the key [k] of the group [g] from the
    peer at [addr] reaches the handler of the peer, which looks up the
    group and the key it decodes from the path: [g] and [k] with a [+] for
    every space.  The handler then runs [Get] on that group with that
    key. *)
Theorem http_fetch_reaches addr p g k (w : geecache.world (option (node X))) n l gr :
  gostrings.free "%"%char (basePath p) = true -> gostrings.free "/"%char g = true ->
  geecache.ext w = Some n -> geecache.mu (dir n) = sync.free_rw ->
  geecache.groups (dir n) !! url.received g = Some l ->
  geecache.heap (dir n) !! l = Some gr ->
  loopback addr p (url_of (mkHttpGetter (addr +:+ basePath p)) (geecache.mkRequest g k)) w =
    r ← serve_view (nethttp.new_writer false) l (dir n) gr (url.received k) n;
    Ok (deliver w r).
Proof.
  intros Hb Hg Hn Hmu Hl Hgr. rewrite (fetch_request addr p g k w n Hb Hn).
  rewrite serve_group, Hl, Hgr; [done| |done].
  by rewrite url.received_free.
Qed.

(** C14 (functional).  Whatever the pools and the node of the peer, a fill
    of a group whose peers are reached over the loopback network is served
    by the local loader: a fetch that returns returns an error, because
    the handler answers with an error status or ends its process, and the
    fill falls back to [getLocally]; the memory of the client is as it was
    before the fetch. *)
Theorem http_fill_falls_back addr pr pc (gr : geecache.Group (option (node X))) key c w r c' w' :
  geecache.peers gr = Some (picker (loopback addr pr) pc) ->
  geecache.fill gr key c w = Ok (r, (c', w')) ->
  exists w1, geecache.bytes w1 = geecache.bytes w /\
    geecache.getLocally gr key c w1 = Ok (r, (c', w')).
Proof.
  intros Hp. unfold geecache.fill. rewrite Hp. unfold picker.
  destruct (PickPeer key pc) as [[[h ok] p']| |]; cbn [mbind outcome_bind]; [|done..].
  destruct ok; [|by exists w]. unfold geecache.getFromPeer.
  destruct h as [h|]; cbn [deref mbind outcome_bind]; [|done].
  destruct (httpGetter_Get _ h _ w) as [[[s err] w1]| |] eqn:HG; cbn [mbind outcome_bind];
    [|done..].
  destruct (fetch_fails _ _ _ _ _ _ _ _ HG) as [[e ->] Hb]. cbn [snd]. by exists w1.
Qed.

(** C38 (functional).  When the network returns the status 200 and a body
    that encodes [v], [httpGetter.Get] decodes it: [out.Value] is a valid
    slice of the memory of the client that holds [v], no array that was
    allocated has changed, and the error is nil. *)
Theorem http_Get_decodes {Y} (get : RoundTrip Y) h req (w : geecache.world Y) v body w1 :
  RoundTripOk get -> byteview.mem_wf (geecache.bytes w) ->
  (Z.of_nat (length v) < 2 ^ 63)%Z -> proto.Marshal v = inr body ->
  get (url_of h req) w = Ok (inr (ok_response body), w1) ->
  exists s w', httpGetter_Get get h req w = Ok ((s, None), w') /\
    byteview.load s (geecache.bytes w') = v /\ byteview.valid s (geecache.bytes w') /\
    byteview.extends (geecache.bytes w) (geecache.bytes w') /\
    geecache.ext w' = geecache.ext w1.
Proof.
  intros Hget Hm Hv HM HG. destruct (Hget _ _ _ _ Hm HG) as [Hm1 He1].
  destruct (value_of_spec v _ Hm1) as (Hm2 & He2 & Hval & Hl).
  eexists _, _. split; [by eapply fetch_decodes|]. cbn [geecache.set_bytes geecache.bytes].
  split; [done|]. split; [done|]. split; [by trans (geecache.bytes w1)|done].
Qed.

End theorems.

(** ** A cluster of three nodes *)

Section examples.
Local Open Scope string_scope.

Definition peer1 : string := "http://localhost:8001".
Definition peer2 : string := "http://localhost:8002".
Definition peer3 : string := "http://localhost:8003".
Definition peers3 : list string := [peer1; peer2; peer3].

(** The pools of the first and of the third node. *)
Definition pool1 : HTTPPool := pool_of peers3 (NewHTTPPool peer1).
Definition pool3 : HTTPPool := pool_of peers3 (NewHTTPPool peer3).

(** The first node, with the group of the scores. *)
Definition scores : geecache.Group nat :=
  geecache.mkGroup "scores" geecache.db_getter (cache.new 2048) None singleflight.new.

Definition node1 : node nat :=
  {| dir := {| geecache.mu := sync.free_rw; geecache.groups := {[ "scores" := 0 ]};
               geecache.heap := {[ 0 := scores ]}; geecache.brk := 1 |};
     calls := singleflight.empty_heap;
     env := {| geecache.bytes := byteview.empty_mem; geecache.ext := 0 |} |}.

Definition w0 : nethttp.ResponseWriter := nethttp.new_writer false.

Definition GET (path : string) : nethttp.Request :=
  {| nethttp.Method := "GET"; nethttp.Path := path |}.

(** The third node: its loader reads the table of the scores, and its
    peers are reached through the network, on which the first node runs. *)
Definition local_db : geecache.Getter (option (node nat)) := fun key w =>
  match alookup key geecache.db with
  | Some v =>
      let '(s, m') := byteview.of_string v (geecache.bytes w) in
      Ok ((s, None), geecache.set_bytes m' w)
  | None => Ok ((byteview.nil_slice, Some (key +:+ " not exist")), w)
  end.

Definition scores3 : geecache.Group (option (node nat)) :=
  geecache.mkGroup "scores" local_db (cache.new 2048)
    (Some (picker (loopback peer1 pool1) pool3)) singleflight.new.

Definition w3 : geecache.world (option (node nat)) :=
  {| geecache.bytes := byteview.empty_mem; geecache.ext := Some node1 |}.

Definition st3 : geecache.state (option (node nat)) :=
  {| geecache.grp := scores3; geecache.calls := singleflight.empty_heap; geecache.env := w3 |}.

#[local] Instance local_db_ok : geecache.GetterOk local_db.
Proof.
  intros key w Hm bs err w'. unfold local_db. destruct (alookup key geecache.db) as [v|].
  - destruct (byteview.bv_of_string_spec v (geecache.bytes w) Hm) as (? & ? & ? & _).
    destruct (byteview.of_string v (geecache.bytes w)) as [s m']. by intros [= <- <- <-].
  - intros [= <- <- <-]. split; [done|]. split; [done|]. by intros.
Qed.

(** The group of the third node satisfies the invariant of a group. *)
Lemma st3_wf : geecache.wf st3.
Proof. apply new_group_wf; [apply local_db_ok|apply loopback_ok]. Qed.

(** A network that answers every request with the status 200 and a given
    body. *)
Definition canned (body : list byte) : RoundTrip nat :=
  fun u w => Ok (inr (ok_response body), w).

#[local] Instance canned_ok body : RoundTripOk (canned body).
Proof. by intros u w res w' Hm [= <- <-]. Qed.

Lemma http_PickPeer_owner_witness :
  PickPeer "Tom" pool3 = Ok ((Some (mkHttpGetter "http://localhost:8001/_geecache/"), true), pool3).
Proof.
  pose proof (http_PickPeer_owner peers3 (NewHTTPPool peer3) "Tom" eq_refl
                ltac:(discriminate) ltac:(by vm_compute)) as H.
  cbv zeta in H. apply proj2, proj2, proj2 in H. etrans; [exact H|].
  f_equal.
Defined.

Lemma http_ServeHTTP_exits_witness :
  ServeHTTP pool1 w0 (GET "/_geecache/scores/Tom") node1 = Ok (Exited "write failed<nil>").
Proof.
  destruct (geecache.Get "Tom" {| geecache.grp := scores; geecache.calls := calls node1;
                                  geecache.env := env node1 |})
    as [[[v [e|]] st]| |] eqn:HG; [vm_compute in HG; discriminate| |vm_compute in HG; discriminate..].
  destruct (proto.Marshal (byteview.load
      (byteview.ByteSlice v (geecache.bytes (geecache.env st))).1
      (byteview.ByteSlice v (geecache.bytes (geecache.env st))).2)) as [e|body] eqn:HM.
  { exfalso. vm_compute in HG. injection HG as <- <-. vm_compute in HM. discriminate. }
  exact (http_ServeHTTP_exits pool1 w0 "GET" "scores" "Tom" node1 0 scores v st body
           eq_refl eq_refl eq_refl eq_refl HG HM eq_refl).
Defined.

Lemma http_ServeHTTP_rejects_witness :
  ServeHTTP pool1 w0 (GET "/_geecache/users/Tom") node1 =
    Ok (Returned (nethttp.Error w0 "no such group: users" 404) node1).
Proof.
  destruct (http_ServeHTTP_rejects pool1 w0 "GET" node1 eq_refl) as (_ & _ & H & _).
  exact (H "users" "Tom" eq_refl eq_refl).
Defined.

Lemma http_fetch_reaches_witness :
  loopback peer1 pool1
    (url_of (mkHttpGetter (peer1 +:+ "/_geecache/")) (geecache.mkRequest "scores" "Tom Smith")) w3 =
    r ← serve_view w0 0 (dir node1) scores "Tom+Smith" node1; Ok (deliver w3 r).
Proof.
  exact (http_fetch_reaches peer1 pool1 "scores" "Tom Smith" w3 node1 0 scores
           eq_refl eq_refl eq_refl eq_refl eq_refl eq_refl).
Defined.

Lemma http_fill_falls_back_witness :
  exists r c' w' w1,
    geecache.fill scores3 "Tom" (cache.new 2048) w3 = Ok (r, (c', w')) /\
    geecache.getLocally scores3 "Tom" (cache.new 2048) w1 = Ok (r, (c', w')) /\
    geecache.ext w' = None.
Proof.
  destruct (geecache.fill scores3 "Tom" (cache.new 2048) w3) as [[r [c' w']]| |] eqn:HF;
    [|vm_compute in HF; discriminate..].
  destruct (http_fill_falls_back peer1 pool1 pool3 scores3 "Tom" _ w3 r c' w' eq_refl HF)
    as (w1 & _ & HL).
  exists r, c', w', w1. split; [reflexivity|]. split; [exact HL|].
  vm_compute in HF. by injection HF as _ _ <-.
Defined.

Lemma http_Get_decodes_witness :
  exists s w', httpGetter_Get (canned [x0a; x03; x36; x33; x30]) (mkHttpGetter "http://a/")
      (geecache.mkRequest "scores" "Tom")
      {| geecache.bytes := byteview.empty_mem; geecache.ext := 0 |} = Ok ((s, None), w') /\
    byteview.load s (geecache.bytes w') = [x36; x33; x30].
Proof.
  destruct (http_Get_decodes (canned [x0a; x03; x36; x33; x30]) (mkHttpGetter "http://a/")
              (geecache.mkRequest "scores" "Tom")
              {| geecache.bytes := byteview.empty_mem; geecache.ext := 0 |}
              [x36; x33; x30] [x0a; x03; x36; x33; x30] _ _ byteview.bv_mem_wf_empty
              ltac:(by vm_compute) eq_refl eq_refl) as (s & w' & HG & Hl & _).
  by exists s, w'.
Defined.

(** The cluster of [main.go], two of its nodes: the
    third node is asked for the score of Tom, whose owner on the ring is
    the first node.  The first node finds the score and ends its process
    as it replies; the third node gets an error from the fetch, loads the
    score from its own table and caches it.  A second [Get] is served
    from the cache. *)
Example http_cluster_scenario :
  let shown o :=
    match o with
    | Ok ((v, e), st) =>
        Some (byteview.String v (geecache.bytes (geecache.env st)), e,
              bool_decide (geecache.ext (geecache.env st) = None) : bool)
    | _ => None
    end in
  shown (geecache.Get "Tom" st3) = Some ("630", None, true) /\
  shown ('(_, st) ← geecache.Get "Tom" st3; geecache.Get "Tom" st) =
    Some ("630", None, true) /\
  fst <$> PickPeer "Tom" pool3 =
    Ok (Some (mkHttpGetter "http://localhost:8001/_geecache/"), true).
Proof. by vm_compute. Qed.

End examples.

End httppool.
