(* ===== verification/Main.v ===== *)
(** * Main: the process of a node ([src/main/main.go])

    [main] creates the group of the scores over the table [db], starts the
    API server when it is asked to, and starts the cache server: a pool
    for the address of its port, with the three addresses of the cluster
    as peers, registered as the router of the group.  [http.ListenAndServe]
    then serves requests for ever.

    A [process] is what [main] has built when it starts to serve: the
    pool, the address it listens on, the API server if there is one, the
    group and the node.  The two servers are the events of a step
    relation: a request of a peer is answered by [ServeHTTP], a request
    of a user by the handler of [startAPIServer] ([api_handler]); a
    handler that ends the process has no successor.  Neither has one
    that panics: [net/http] recovers the panic and the process goes on
    in the state the panic left, which a [Panic] does not carry (the
    panic of [ServeHTTP] on a path outside the base path comes before it
    touches the node).  The order in which [range] yields the entries of
    [addrMap] is a parameter of [main].
    The parsing of the flags and the sockets are not modelled: [main]
    takes the values of the flags, and a server that is started listens.

    Theorems: what [main] builds for every port, in whatever order
    [range] yields the addresses, and its panic for a port that is not in
    [addrMap] ([main_boot]); the invariant of every process the servers
    reach from it ([main_reachable_wf]); a node that has just started
    answers the requests of its API server from its table while no peer
    answers ([main_serves_table]). *)

From Stdlib Require Import ZArith Lia.
From Stdlib Require Import Strings.Byte Strings.Ascii.
From stdpp Require Import base tactics option list gmap strings sorting relations.
From S2P Require Import Prelude GoStd GoNet Lru ByteView Cache ConsistentHash SingleFlight.
From S2P Require Import Group Http.

Module main.

(** [var db = map[string]string{...}] *)
Definition db : gmap string string :=
  {[ "Tom" := "630"; "Jack" := "589"; "Sam" := "567" ]}.

Definition apiAddr : string := "http://localhost:9999".

(** [addrMap], and its addresses. *)
Definition addresses : list string :=
  ["http://localhost:8001"; "http://localhost:8002"; "http://localhost:8003"].

Definition addrMap : gmap Z string :=
  {[ 8001%Z := "http://localhost:8001"; 8002%Z := "http://localhost:8002";
     8003%Z := "http://localhost:8003" ]}.

(** The flags [-port] and [-api], and their defaults. *)
Record flags : Type := mkFlags {
  port : Z;
  api : bool
}.

Definition default_flags : flags := {| port := 8001; api := false |}.

(** What [startAPIServer] registers: the pattern of its handler and the
    address it listens on. *)
Record api_server : Type := mkApiServer {
  pattern : string;
  api_listen : string
}.

Section with_network.
(** The state of the callbacks of the node, the codec and the network. *)
Context {X : Type} `{!proto.ResponseCodec}.
Context (get : httppool.RoundTrip X).

(** The closure [createGroup] passes to [GetterFunc]. *)
Definition slowdb : geecache.GetterFunc X := fun key w =>
  match db !! key with
  | Some v =>
      let '(s, m) := byteview.of_string v (geecache.bytes w) in
      Ok ((s, None), geecache.set_bytes m w)
  | None => Ok ((byteview.nil_slice, Some (key +:+ " not exist")), w)
  end.

Definition createGroup (d : geecache.directory X) :
    outcome (geecache.gloc * geecache.directory X) :=
  geecache.NewGroup "scores" (Z.shiftl 2 10) (Some (geecache.GetterFunc_Get slowdb)) d.

(** The process of a node that serves. *)
Record process : Type := mkProcess {
  pool : httppool.HTTPPool;
  listen : string;
  api_srv : option api_server;
  gee : geecache.gloc;
  state : httppool.node X
}.

Definition set_state (n : httppool.node X) (p : process) : process :=
  {| pool := pool p; listen := listen p; api_srv := api_srv p; gee := gee p; state := n |}.

(** [startCacheServer], up to the call of [http.ListenAndServe]: the pool,
    the address to listen on ([addr[7:]]) and the node. *)
Definition startCacheServer (addr : string) (addrs : list string) (gee : geecache.gloc)
    (n : httppool.node X) : outcome (httppool.HTTPPool * string * httppool.node X) :=
  let peers := httppool.NewHTTPPool addr in
  peers' ← httppool.HTTPPool_Set addrs peers;
  g ← deref "invalid memory address or nil pointer dereference"
        (geecache.heap (httppool.dir n) !! gee);
  g' ← geecache.RegisterPeers (Some (httppool.picker get peers')) g;
  a ← gostrings.from 7 addr;
  Ok (peers', a,
      {| httppool.dir :=
           {| geecache.mu := geecache.mu (httppool.dir n);
              geecache.groups := geecache.groups (httppool.dir n);
              geecache.heap := <[gee := g']> (geecache.heap (httppool.dir n));
              geecache.brk := geecache.brk (httppool.dir n) |};
         httppool.calls := httppool.calls n;
         httppool.env := httppool.env n |}).

(** The handler [startAPIServer] registers; [key] is
    [r.URL.Query().Get("key")]. *)
Definition api_handler (gee : geecache.gloc) (w : nethttp.ResponseWriter) (key : string)
    (n : httppool.node X) : outcome (nethttp.ResponseWriter * httppool.node X) :=
  g ← deref "invalid memory address or nil pointer dereference"
        (geecache.heap (httppool.dir n) !! gee);
  '(reply, st) ← geecache.Get key {| geecache.grp := g; geecache.calls := httppool.calls n;
                                      geecache.env := httppool.env n |};
  match reply.2 with
  | Some e =>
      Ok (nethttp.Error w e nethttp.StatusInternalServerError,
          httppool.after_Get gee (httppool.dir n) st)
  | None =>
      let w1 := nethttp.Header_Set "Content-Type" "application/octet-stream" w in
      let '(bs, m) := byteview.ByteSlice reply.1 (geecache.bytes (geecache.env st)) in
      let '(w2, _) := nethttp.Write (byteview.load bs m) w1 in
      Ok (w2, httppool.after_Get gee (httppool.dir n)
                {| geecache.grp := geecache.grp st; geecache.calls := geecache.calls st;
                   geecache.env := geecache.set_bytes m (geecache.env st) |})
  end.

(** [startAPIServer], up to the call of [http.ListenAndServe]. *)
Definition startAPIServer (apiAddr : string) : outcome api_server :=
  a ← gostrings.from 7 apiAddr;
  Ok {| pattern := "/api"; api_listen := a |}.

(** [main]: [addrs] is the order in which [range addrMap] yields the
    addresses, [x] the state of the callbacks when the process starts. *)
Definition main (f : flags) (addrs : list string) (x : X) : outcome process :=
  '(gee, d) ← createGroup geecache.init;
  srv ← (if api f then Some <$> startAPIServer apiAddr else Ok None);
  '(peers, a, n) ← startCacheServer (default "" (addrMap !! port f)) addrs gee
    {| httppool.dir := d; httppool.calls := singleflight.empty_heap;
       httppool.env := {| geecache.bytes := byteview.empty_mem; geecache.ext := x |} |};
  Ok {| pool := peers; listen := a; api_srv := srv; gee := gee; state := n |}.

(** ** The servers *)

(** A request of a peer, or a request of a user for a key. *)
Inductive event : Type :=
  | PeerRequest (r : nethttp.Request)
  | ApiRequest (key : string).

(** The reply to an event, and the node after it. *)
Definition handle (e : event) (p : process) : outcome (httppool.served X) :=
  match e with
  | PeerRequest r => httppool.ServeHTTP (pool p) (nethttp.new_writer false) r (state p)
  | ApiRequest key =>
      '(w, n) ← api_handler (gee p) (nethttp.new_writer false) key (state p);
      Ok (httppool.Returned w n)
  end.

(** The API server answers only when it was started. *)
Definition enabled (e : event) (p : process) : Prop :=
  match e with
  | PeerRequest _ => True
  | ApiRequest _ => is_Some (api_srv p)
  end.

Inductive step : process -> process -> Prop :=
  | step_event e p w n :
      enabled e p -> handle e p = Ok (httppool.Returned w n) -> step p (set_state n p).

End with_network.

Arguments process : clear implicits.

(** ** What [main] builds *)

Section boot.
Context {X : Type} `{!proto.ResponseCodec}.
Context (get : httppool.RoundTrip X) `{!httppool.RoundTripOk get}.
Implicit Types (p : process X) (n : httppool.node X) (f : flags) (addrs : list string).

#[global] Instance slowdb_ok : geecache.GetterOk (geecache.GetterFunc_Get (X:=X) slowdb).
Proof.
  intros key w Hm bs err w'. unfold geecache.GetterFunc_Get, slowdb.
  destruct (db !! key) as [v|].
  - destruct (byteview.bv_of_string_spec v (geecache.bytes w) Hm) as (? & ? & ? & _).
    destruct (byteview.of_string v (geecache.bytes w)) as [s m']. by intros [= <- <- <-].
  - intros [= <- <- <-]. split; [done|]. split; [done|]. by intros.
Qed.

(** The group [createGroup] creates, once the pool [pl] is its router. *)
Definition scores (pl : httppool.HTTPPool) : geecache.Group X :=
  geecache.mkGroup "scores" (geecache.GetterFunc_Get slowdb) (cache.new 2048)
    (Some (httppool.picker get pl)) singleflight.new.

(** The node when the servers start. *)
Definition booted (pl : httppool.HTTPPool) (x : X) : httppool.node X :=
  {| httppool.dir := {| geecache.mu := sync.free_rw; geecache.groups := {[ "scores" := 0 ]};
                        geecache.heap := {[ 0 := scores pl ]}; geecache.brk := 1 |};
     httppool.calls := singleflight.empty_heap;
     httppool.env := {| geecache.bytes := byteview.empty_mem; geecache.ext := x |} |}.

(** The addresses of [addrMap] start with [http://], which [addr[7:]]
    cuts off. *)
Lemma main_addr (pt : Z) (a : string) :
  addrMap !! pt = Some a ->
  a ∈ addresses /\ gostrings.from 7 a = Ok ("localhost:" +:+ strconv.Itoa pt).
Proof.
  unfold addrMap. intros Ha.
  apply lookup_insert_Some in Ha as [[<- <-]|[_ Ha]]; [by split; [set_solver|]|].
  apply lookup_insert_Some in Ha as [[<- <-]|[_ Ha]]; [by split; [set_solver|]|].
  apply lookup_singleton_Some in Ha as [<- <-]. by split; [set_solver|].
Qed.

(** The invariant of a process: its node is well-formed, and the group of
    the scores is in the directory, with the pool as its router. *)
Record process_wf p : Prop := {
  pwf_node : httppool.node_wf (state p);
  pwf_name : geecache.groups (httppool.dir (state p)) !! "scores" = Some (gee p);
  pwf_gee : exists g, geecache.heap (httppool.dir (state p)) !! gee p = Some g /\
    geecache.name g = "scores" /\
    geecache.peers g = Some (httppool.picker get (pool p))
}.

Lemma main_booted_wf pl x : httppool.node_wf (booted pl x).
Proof.
  split; cbn [booted httppool.dir httppool.calls httppool.env geecache.mu geecache.groups
              geecache.heap]; [done| |].
  - intros nm l [<- <-]%lookup_singleton_Some. by rewrite lookup_singleton_eq.
  - intros l g [<- <-]%lookup_singleton_Some.
    apply httppool.new_group_wf; [apply slowdb_ok|done].
Qed.

(** The API server [main] starts. *)
Definition api_of f : option api_server :=
  if api f then Some {| pattern := "/api"; api_listen := "localhost:9999" |} else None.

(** [main] up to the address of the cache server: the group is created,
    the pool is set and registered; what is left is [addr[7:]]. *)
Lemma main_eq f addrs x :
  main get f addrs x =
    let addr := default "" (addrMap !! port f) in
    let pl := httppool.pool_of addrs (httppool.NewHTTPPool addr) in
    a ← gostrings.from 7 addr;
    Ok {| pool := pl; listen := a; api_srv := api_of f; gee := 0; state := booted pl x |}.
Proof.
  unfold main, createGroup.
  rewrite geecache.group_NewGroup_free by done. cbn [mbind outcome_bind].
  assert ((if api f then Some <$> startAPIServer apiAddr else Ok None) = Ok (api_of f))
    as -> by (unfold api_of; by destruct (api f)).
  cbn [mbind outcome_bind]. unfold startCacheServer.
  rewrite httppool.pool_Set_spec by done.
  cbn [mbind outcome_bind httppool.dir geecache.heap geecache.brk geecache.init].
  rewrite lookup_insert_eq.
  cbn [deref mbind outcome_bind geecache.RegisterPeers geecache.peers].
  by destruct (gostrings.from 7 _).
Qed.

(** [main] on a port of [addrMap]. *)
Lemma main_boot_spec f addrs x a :
  addrMap !! port f = Some a ->
  main get f addrs x =
    Ok {| pool := httppool.pool_of addrs (httppool.NewHTTPPool a);
          listen := "localhost:" +:+ strconv.Itoa (port f);
          api_srv := api_of f; gee := 0;
          state := booted (httppool.pool_of addrs (httppool.NewHTTPPool a)) x |}.
Proof.
  intros Ha. destruct (main_addr _ _ Ha) as [_ Hl].
  rewrite main_eq, Ha. cbn [default from_option id]. cbv zeta. by rewrite Hl.
Qed.

(** [main] on a port that is not in [addrMap]: the address is empty, and
    [addr[7:]] is out of range. *)
Lemma main_boot_panic f addrs x :
  addrMap !! port f = None -> main get f addrs x = Panic "slice bounds out of range".
Proof. intros Ha. by rewrite main_eq, Ha. Qed.

Lemma main_boot_wf pl a srv x :
  process_wf {| pool := pl; listen := a; api_srv := srv; gee := 0; state := booted pl x |}.
Proof.
  split; cbn [state pool gee]; [apply main_booted_wf|done|].
  exists (scores pl). cbn [booted httppool.dir geecache.heap].
  by rewrite lookup_singleton_eq.
Qed.

(** ** The invariant of the servers *)

Lemma main_api_wf l w key n w' n' :
  httppool.node_wf n -> api_handler l w key n = Ok (w', n') ->
  httppool.node_wf n' /\ httppool.same_groups n n'.
Proof.
  intros Hn. unfold api_handler.
  destruct (geecache.heap (httppool.dir n) !! l) as [g|] eqn:Hl;
    cbn [deref mbind outcome_bind]; [|done].
  destruct (geecache.Get _ _) as [[[v err] st]| |] eqn:HG; cbn [mbind outcome_bind fst snd];
    [|done..].
  destruct (httppool.node_after_Get n l g key _ st Hn Hl HG) as (Hn' & Hs & Hv).
  destruct err as [e|]; [by intros [= <- <-]|].
  assert (byteview.mem_wf (geecache.bytes (geecache.env st))) as Hm0.
  { apply (geecache.wf_fits _ (httppool.nwf_heap _ Hn' l (geecache.grp st)
                                  (lookup_insert_eq _ _ _))). }
  destruct (byteview.bv_cloneBytes_spec (byteview.b v) (geecache.bytes (geecache.env st)))
    as (Hm & He & _); [done|by apply Hv|].
  unfold byteview.ByteSlice. destruct (byteview.cloneBytes _ _) as [bs m]. cbn [fst snd] in *.
  destruct (nethttp.Write _ _) as [w2 e]. intros [= <- <-].
  split; [by apply (httppool.node_wf_bytes _ m Hn')|exact Hs].
Qed.

Lemma main_handle_wf e p w n :
  httppool.node_wf (state p) -> handle e p = Ok (httppool.Returned w n) ->
  httppool.node_wf n /\ httppool.same_groups (state p) n.
Proof.
  intros Hn. destruct e as [r|key]; cbn [handle].
  - by apply httppool.serve_node_wf.
  - destruct (api_handler _ _ _ _) as [[w' n']| |] eqn:HA; cbn [mbind outcome_bind]; [|done..].
    intros [= <- <-]. by eapply main_api_wf.
Qed.

Lemma main_step_wf p p' :
  process_wf p -> step p p' ->
  process_wf p' /\ pool p' = pool p /\ gee p' = gee p /\ listen p' = listen p /\
  api_srv p' = api_srv p.
Proof.
  intros [Hn Hnm (g & Hg & Hname & Hpk)] Hst. destruct Hst as [e p w n _ Hh].
  destruct (main_handle_wf e p w n Hn Hh) as [Hn' [Hgr Hs]]. split; [|done].
  split; cbn [set_state state pool gee]; [done|by rewrite Hgr|].
  destruct (Hs _ _ Hg) as (g' & Hg' & ? & _ & ?). exists g'. split; [done|].
  split; congruence.
Qed.

(** What [main] returns satisfies the invariant. *)
Lemma main_Ok_wf f addrs x p : main get f addrs x = Ok p -> process_wf p.
Proof.
  destruct (addrMap !! port f) as [a|] eqn:Ha.
  - rewrite (main_boot_spec _ _ _ _ Ha). intros [= <-]. apply main_boot_wf.
  - by rewrite main_boot_panic.
Qed.

(** The two branches of the handler of the API server, on a response
    that has not been started. *)
Lemma main_api_spec l w key n g v err st :
  nethttp.status w = None -> nethttp.broken w = false ->
  geecache.heap (httppool.dir n) !! l = Some g ->
  geecache.Get key {| geecache.grp := g; geecache.calls := httppool.calls n;
                      geecache.env := httppool.env n |} = Ok ((v, err), st) ->
  exists w' n', api_handler l w key n = Ok (w', n') /\
    match err with
    | Some e =>
        w' = nethttp.Error w e nethttp.StatusInternalServerError /\
        n' = httppool.after_Get l (httppool.dir n) st
    | None =>
        let sm := byteview.ByteSlice v (geecache.bytes (geecache.env st)) in
        nethttp.status w' = Some nethttp.StatusOK /\
        nethttp.header w' = <["Content-Type" := "application/octet-stream"]> (nethttp.header w) /\
        nethttp.body w' = nethttp.body w ++ byteview.load sm.1 sm.2 /\
        n' = httppool.after_Get l (httppool.dir n)
               {| geecache.grp := geecache.grp st; geecache.calls := geecache.calls st;
                  geecache.env := geecache.set_bytes sm.2 (geecache.env st) |}
    end.
Proof.
  intros Hs Hb Hl HG. unfold api_handler. rewrite Hl. cbn [deref mbind outcome_bind].
  rewrite HG. cbn [mbind outcome_bind fst snd]. destruct err as [e|]; [by eexists _, _|].
  destruct (byteview.ByteSlice _ _) as [bs m]. cbv zeta. cbn [fst snd].
  rewrite nethttp.Write_spec by done. eexists _, _. split; [done|].
  cbn [nethttp.status nethttp.header nethttp.body nethttp.Header_Set]. by rewrite Hs.
Qed.

(** The reply of the API server, on a well-formed node,
    for the result of [Get]: an error is answered 500 with the message of
    the error and a newline; a view is answered 200 with the content type
    [application/octet-stream] and the bytes of the view.  The node after
    the reply is well-formed and has the groups it had: unlike the handler
    of the pool, the handler returns after a write that succeeded. *)
Lemma main_api_reply l key n g v err st :
  httppool.node_wf n -> geecache.heap (httppool.dir n) !! l = Some g ->
  geecache.Get key {| geecache.grp := g; geecache.calls := httppool.calls n;
                      geecache.env := httppool.env n |} = Ok ((v, err), st) ->
  exists w' n', api_handler l (nethttp.new_writer false) key n = Ok (w', n') /\
    httppool.node_wf n' /\ httppool.same_groups n n' /\
    match err with
    | Some e =>
        nethttp.status w' = Some 500%Z /\
        nethttp.body w' = String.list_byte_of_string (e +:+ nethttp.newline)
    | None =>
        nethttp.status w' = Some 200%Z /\
        nethttp.header w' !! "Content-Type" = Some "application/octet-stream" /\
        nethttp.body w' = byteview.load (byteview.b v) (geecache.bytes (geecache.env st))
    end.
Proof.
  intros Hn Hl HG.
  destruct (main_api_spec l (nethttp.new_writer false) key n g v err st eq_refl eq_refl Hl HG)
    as (w' & n' & HA & Hr).
  exists w', n'. split; [done|]. split; [by eapply main_api_wf|].
  split; [by eapply main_api_wf|]. destruct err as [e|].
  - destruct Hr as [-> _]. by apply nethttp.Error_spec.
  - destruct Hr as (Hs & Hh & Hb & _). split; [done|]. split; [by rewrite Hh, lookup_insert_eq|].
    destruct (httppool.node_after_Get n l g key _ st Hn Hl HG) as (Hn' & _ & Hv).
    destruct (byteview.bv_cloneBytes_spec (byteview.b v) (geecache.bytes (geecache.env st)))
      as (_ & _ & _ & _ & _ & Hld); [|by apply Hv|by rewrite Hb].
    apply (geecache.wf_fits _ (httppool.nwf_heap _ Hn' l (geecache.grp st)
                                 (lookup_insert_eq _ _ _))).
Qed.

(** The first [Get] of the node while no peer answers: the fill is the
    local load, from the table. *)
Lemma main_Get_down ps a x key :
  ps <> [] -> (50 * Z.of_nat (length ps) <= int64_max)%Z -> key <> "" ->
  (forall u w, exists e, get u w = Ok (inl e, w)) ->
  let pl := httppool.pool_of ps (httppool.NewHTTPPool a) in
  exists r st,
    geecache.Get key {| geecache.grp := scores pl; geecache.calls := singleflight.empty_heap;
                        geecache.env := {| geecache.bytes := byteview.empty_mem;
                                           geecache.ext := x |} |} = Ok (r, st) /\
    match db !! key with
    | Some v =>
        r.2 = None /\
        byteview.load (byteview.b r.1) (geecache.bytes (geecache.env st)) =
          String.list_byte_of_string v
    | None => r.2 = Some (key +:+ " not exist")
    end.
Proof.
  intros Hps Hlen Hk Hdown pl.
  rewrite geecache.group_Get_fill; [|done|apply cache.cache_new_wf|done|done].
  rewrite (httppool.picker_down get ps (httppool.NewHTTPPool a)) by done.
  cbn [geecache.grp geecache.env geecache.mainCache scores].
  destruct (db !! key) as [v|] eqn:Hv.
  - pose proof (byteview.bv_of_string_spec v byteview.empty_mem byteview.bv_mem_wf_empty)
      as (Hm & _ & Hval & Hld).
    destruct (geecache.group_getLocally_ok (scores pl) key (cache.new 2048)
                {| geecache.bytes := byteview.empty_mem; geecache.ext := x |}
                (byteview.of_string v byteview.empty_mem).1
                {| geecache.bytes := (byteview.of_string v byteview.empty_mem).2;
                   geecache.ext := x |}) as (c' & -> & _);
      [by cbn [geecache.getter scores]; unfold geecache.GetterFunc_Get, slowdb; rewrite Hv
      |apply cache.cache_new_wf|done|].
    cbn [mbind outcome_bind fst snd]. eexists _, _. split; [done|]. split; [done|].
    cbn [fst geecache.filled geecache.env geecache.set_bytes geecache.bytes byteview.b].
    destruct (byteview.bv_cloneBytes_spec _ _ Hm Hval) as (_ & _ & _ & _ & _ & ->). exact Hld.
  - rewrite (geecache.group_getLocally_error _ _ _ _ byteview.nil_slice (key +:+ " not exist")
               {| geecache.bytes := byteview.empty_mem; geecache.ext := x |});
      [|by cbn [geecache.getter scores]; unfold geecache.GetterFunc_Get, slowdb; rewrite Hv].
    cbn [mbind outcome_bind]. by eexists _, _.
Qed.

(** The reply of the API server of a node that has just started, while no
    peer answers. *)
Lemma main_api_down ps a x key :
  ps <> [] -> (50 * Z.of_nat (length ps) <= int64_max)%Z -> key <> "" ->
  (forall u w, exists e, get u w = Ok (inl e, w)) ->
  let pl := httppool.pool_of ps (httppool.NewHTTPPool a) in
  exists w' n', api_handler 0 (nethttp.new_writer false) key (booted pl x) = Ok (w', n') /\
    httppool.node_wf n' /\
    match db !! key with
    | Some v =>
        nethttp.status w' = Some 200%Z /\ nethttp.body w' = String.list_byte_of_string v
    | None =>
        nethttp.status w' = Some 500%Z /\
        nethttp.body w' =
          String.list_byte_of_string (key +:+ " not exist" +:+ nethttp.newline)
    end.
Proof.
  intros Hps Hlen Hk Hdown pl.
  destruct (main_Get_down ps a x key Hps Hlen Hk Hdown) as ([v err] & st & HG & Hr).
  destruct (main_api_reply 0 key (booted pl x) (scores pl) v err st (main_booted_wf pl x)
              (lookup_singleton_eq _ _) HG) as (w' & n' & HA & Hn' & _ & Hw).
  exists w', n'. split; [done|]. split; [done|]. cbn [fst snd] in Hr.
  destruct (db !! key) as [s|]; [destruct Hr as [-> Hld]|subst err].
  - destruct Hw as (? & _ & ->). by split.
  - destruct Hw as [? ->]. split; [done|]. by rewrite gostrings.app_assoc.
Qed.

(** The points of the addresses of [addrMap] do not collide on the ring. *)
Lemma main_points_NoDup :
  NoDup (consistenthash.points
           (consistenthash.New httppool.defaultReplicase None) addresses).*1.
Proof. apply (bool_decide_unpack _). by vm_compute. Qed.

(** [main] does not depend on the order in which
    [range] yields the entries of [addrMap]: the points of the three
    addresses do not collide, so the ring, the getters and the process
    are those of the addresses in the order of their ports. *)
Lemma main_addrs_order f addrs x :
  addrs ≡ₚ addresses -> main get f addrs x = main get f addresses x.
Proof.
  intros Hp. rewrite !main_eq. cbv zeta.
  by rewrite (httppool.pool_of_perm addresses addrs _ (symmetry Hp) main_points_NoDup).
Qed.

(** ** Theorems *)

(** C31 (functional).  What [main] builds, whatever the order in which
    [range] yields the entries of [addrMap].  For a port of [addrMap] it
    returns a process that satisfies the invariant: the pool of the
    address of the port with the three addresses as its peers, registered
    as the router of the group of the scores, the only group of the
    directory; the cache server listens on [localhost:] and the port, and
    the API server is there when the flag asks for it.  For any other
    port the address is empty and [main] panics on [addr[7:]], after it
    has set up the pool. *)
Theorem main_boot f addrs x :
  addrs ≡ₚ addresses ->
  match addrMap !! port f with
  | Some a =>
      exists p, main get f addrs x = Ok p /\ process_wf p /\
        pool p = httppool.pool_of addresses (httppool.NewHTTPPool a) /\
        listen p = "localhost:" +:+ strconv.Itoa (port f) /\
        api_srv p = (if api f then Some {| pattern := "/api"; api_listen := "localhost:9999" |}
                     else None) /\
        gee p = 0 /\ state p = booted (pool p) x
  | None => main get f addrs x = Panic "slice bounds out of range"
  end.
Proof.
  intros Hp. rewrite (main_addrs_order f addrs x Hp).
  destruct (addrMap !! port f) as [a|] eqn:Ha; [|by apply main_boot_panic].
  eexists. split; [by apply main_boot_spec|]. split; [apply main_boot_wf|done].
Qed.

(** C39 (invariant).  Every process the servers reach from what [main]
    returned satisfies the invariant: the node is well-formed, the group
    of the scores stays in the directory under its name with the pool as
    its router, and the pool, the group, the addresses and the API server
    are those [main] set up. *)
Theorem main_reachable_wf f addrs x p0 p :
  main get f addrs x = Ok p0 -> rtc step p0 p ->
  process_wf p /\ pool p = pool p0 /\ gee p = gee p0 /\ listen p = listen p0 /\
  api_srv p = api_srv p0.
Proof.
  intros Hwf0%main_Ok_wf. revert p.
  apply (rtc_ind_r (fun p => process_wf p /\ pool p = pool p0 /\ gee p = gee p0 /\
                             listen p = listen p0 /\ api_srv p = api_srv p0) p0); [done|].
  intros p p' _ Hst (Hwf & ? & ? & ? & ?).
  destruct (main_step_wf _ _ Hwf Hst) as (? & ? & ? & ? & ?). split; [done|].
  split_and!; congruence.
Qed.

(** C40 (functional).  A node that has just started answers from its
    table while no peer answers, whoever owns the key on the ring: [main]
    returns a process whose API handler replies 200 with the score of a
    name of the table, and 500 with the message of the loader for any
    other name that is not empty.  The fill asks the pool for the owner
    and falls back to the loader when the fetch fails. *)
Theorem main_serves_table f addrs x a key :
  addrMap !! port f = Some a -> addrs ≡ₚ addresses -> key <> "" ->
  (forall u w, exists e, get u w = Ok (inl e, w)) ->
  exists p w' n', main get f addrs x = Ok p /\
    api_handler (gee p) (nethttp.new_writer false) key (state p) = Ok (w', n') /\
    match db !! key with
    | Some v =>
        nethttp.status w' = Some 200%Z /\ nethttp.body w' = String.list_byte_of_string v
    | None =>
        nethttp.status w' = Some 500%Z /\
        nethttp.body w' =
          String.list_byte_of_string (key +:+ " not exist" +:+ nethttp.newline)
    end.
Proof.
  intros Ha Hp Hk Hdown. pose proof (Permutation_length Hp) as Hlen.
  destruct (main_api_down addrs a x key) as (w' & n' & HA & _ & Hw);
    [by intros ->|rewrite Hlen; by vm_compute|done..|].
  eexists _, w', n'. split; [by apply main_boot_spec|]. by split.
Qed.

End boot.

(** ** A node of the cluster *)

Section examples.
Local Open Scope string_scope.

(** A network on which no peer answers. *)
Definition down : httppool.RoundTrip nat :=
  fun u w => Ok (inl "connection refused", w).

#[local] Instance down_ok : httppool.RoundTripOk down.
Proof. by intros u w res w' Hm [= <- <-]. Qed.

(** The node started with [-port=8001 -api=1], as [main] builds it. *)
Definition f8001 : flags := {| port := 8001; api := true |}.

Definition p8001 : process nat :=
  let pl := httppool.pool_of addresses (httppool.NewHTTPPool "http://localhost:8001") in
  {| pool := pl; listen := "localhost:8001"; api_srv := api_of f8001; gee := 0;
     state := booted down pl 0 |}.

Lemma main_p8001 : main down f8001 addresses 0 = Ok p8001.
Proof. exact (main_boot_spec down f8001 addresses 0 _ eq_refl). Qed.

Lemma main_boot_witness :
  (exists p, main down f8001 (reverse addresses) 0 = Ok p /\ process_wf down p /\
     listen p = "localhost:8001" /\ is_Some (api_srv p)) /\
  main down {| port := 9000; api := false |} addresses 0 = Panic "slice bounds out of range".
Proof.
  split; [|exact (main_boot down {| port := 9000; api := false |} addresses 0 (reflexivity _))].
  destruct (main_boot down f8001 (reverse addresses) 0 (reverse_Permutation _))
    as (p & Hm & Hwf & _ & Hl & Ha & _).
  exists p. split; [exact Hm|]. split; [exact Hwf|]. split; [exact Hl|].
  rewrite Ha. by eexists.
Defined.

Lemma down_fails : forall u (w : geecache.world nat), exists e, down u w = Ok (inl e, w).
Proof. intros u w. by eexists. Qed.

Lemma main_reachable_wf_witness :
  exists p, step p8001 p /\ process_wf down p /\ listen p = "localhost:8001".
Proof.
  destruct (main_api_down down addresses "http://localhost:8001" 0 "Tom")
    as (w & n & HA & _); [done|by vm_compute|done|apply down_fails|].
  assert (handle (ApiRequest "Tom") p8001 = Ok (httppool.Returned w n)) as Hh.
  { unfold handle. etrans; [exact (f_equal (fun o => mbind _ o) HA)|]. reflexivity. }
  pose proof (step_event (ApiRequest "Tom") p8001 w n (mk_is_Some _ _ eq_refl) Hh) as Hst.
  exists (set_state n p8001). split; [exact Hst|].
  destruct (main_reachable_wf down f8001 addresses 0 p8001 (set_state n p8001) main_p8001
              (rtc_once _ _ Hst)) as (Hwf & _ & _ & Hl & _).
  by split.
Defined.

Lemma main_serves_table_witness :
  exists p w' n', main down f8001 addresses 0 = Ok p /\
    api_handler (gee p) (nethttp.new_writer false) "Tom" (state p) = Ok (w', n') /\
    nethttp.status w' = Some 200%Z /\ nethttp.body w' = [x36; x33; x30].
Proof.
  exact (main_serves_table down f8001 addresses 0 "http://localhost:8001" "Tom" eq_refl
           (reflexivity _) ltac:(done) down_fails).
Defined.

(** The node of port 8001 while its peers are down: the score of Tom is
    answered from the table, and again from the cache; a name that is not
    in the table is answered 500. *)
Example main_scenario :
  let shown o :=
    match o with
    | Ok (httppool.Returned w n) =>
        Some (default 0%Z (nethttp.status w), String.string_of_list_byte (nethttp.body w))
    | _ => None
    end in
  let after e p :=
    match handle e p with Ok (httppool.Returned w n) => set_state n p | _ => p end in
  shown (handle (ApiRequest "Tom") p8001) = Some (200%Z, "630") /\
  shown (handle (ApiRequest "Tom") (after (ApiRequest "Tom") p8001)) = Some (200%Z, "630") /\
  shown (handle (ApiRequest "Kate") p8001) =
    Some (500%Z, "Kate not exist" +:+ nethttp.newline).
Proof. by vm_compute. Qed.

End examples.

End main.
